(** * GOGO-studio: text anchoring, range splitting and element detection

    A shallow embedding of the highlighting core of the extension
    (highlighter, locator, xpath, detector and the restoration loop of
    GOGOMode) together with the properties stated about it.

    Conventions of the embedding.
    - A JavaScript string is a sequence of code units, [str].
    - A DOM node is a [Text], a [Comment] or an element; a document is given
      by its root element.  A node reference is the position of the node in
      the tree ([path], child indices from the root), which is what object
      identity amounts to in a tree.
    - Code that mutates the document runs in the monad [M]: the page (tree
      and console) is threaded, and a computation ends in a value or in an
      exception; [try]/[catch] is [catch].  Behaviour of the browser that
      the sources rely on but do not contain (random ids, range surgery
      across elements, selectors and XPath names with unusual characters)
      is collected in [Browser]. *)

From Stdlib Require Import PrimFloat.
From Stdlib Require Import Ascii String.
From Stdlib Require Import List Arith Lia Bool.
From Stdlib Require Import Sorting.Sorted Sorting.Permutation.
Import ListNotations.

Set Implicit Arguments.

(* ================================================================== *)
(** ** Strings *)

Definition str : Type := list ascii.

Definition txt (s : string) : str := list_ascii_of_string s.

Definition str_eq_dec : forall a b : str, {a = b} + {a <> b} :=
  list_eq_dec ascii_dec.

Definition str_eqb (a b : str) : bool :=
  if str_eq_dec a b then true else false.

(** [String.prototype.substring a b] for [a <= b]; indices past the end are
    clamped, as in JavaScript. *)
Definition substring (s : str) (a b : nat) : str :=
  firstn (b - a) (skipn a s).

Fixpoint prefixb (pat s : str) : bool :=
  match pat, s with
  | [], _ => true
  | _ :: _, [] => false
  | a :: pat', b :: s' => if ascii_dec a b then prefixb pat' s' else false
  end.

(** [String.prototype.indexOf]: position of the first occurrence, [None]
    for the JavaScript result -1. *)
Fixpoint indexOf (pat s : str) : option nat :=
  if prefixb pat s then Some 0
  else match s with
       | [] => None
       | _ :: s' => option_map S (indexOf pat s')
       end.

Definition includes (s pat : str) : bool :=
  match indexOf pat s with Some _ => true | None => false end.

(* ================================================================== *)
(** ** Exceptions *)

Inductive exn : Type :=
| SyntaxError
| TypeError
| IndexSizeError
| HierarchyRequestError
| InvalidStateError
| NotFoundError
| NamespaceError
| ContextInvalidated.   (* Error: Extension context invalidated. *)

(* ================================================================== *)
(** ** The DOM tree *)

Unset Elimination Schemes.
Inductive node : Type :=
| Text (data : str)
| Comment (data : str)
| Elem (tag : str) (gogoId : option str) (className : str)
       (childNodes : list node).
Set Elimination Schemes.

Section node_induction.
Variable P : node -> Prop.
Hypothesis P_text : forall d, P (Text d).
Hypothesis P_comment : forall d, P (Comment d).
Hypothesis P_elem : forall t g c ks, Forall P ks -> P (Elem t g c ks).

Fixpoint node_ind (n : node) : P n :=
  match n with
  | Text d => P_text d
  | Comment d => P_comment d
  | Elem t g c ks =>
      P_elem t g c
        ((fix all (l : list node) : Forall P l :=
            match l with
            | [] => Forall_nil P
            | k :: rest => Forall_cons k (node_ind k) (all rest)
            end) ks)
  end.
End node_induction.

Definition path : Type := list nat.

Definition path_eq_dec : forall a b : path, {a = b} + {a <> b} :=
  list_eq_dec Nat.eq_dec.

Definition path_eqb (a b : path) : bool :=
  if path_eq_dec a b then true else false.

Definition isText (n : node) : bool :=
  match n with Text _ => true | _ => false end.

Definition isElem (n : node) : bool :=
  match n with Elem _ _ _ _ => true | _ => false end.

Definition kids (n : node) : list node :=
  match n with Elem _ _ _ ks => ks | _ => [] end.

(** The node a reference denotes. *)
Fixpoint nodeAt (n : node) (p : path) : option node :=
  match p with
  | [] => Some n
  | i :: p' =>
      match nth_error (kids n) i with
      | Some k => nodeAt k p'
      | None => None
      end
  end.

(** [Node.length]: code units of character data, children of an element. *)
Definition nodeLength (n : node) : nat :=
  match n with
  | Text d => length d
  | Comment d => length d
  | Elem _ _ _ ks => length ks
  end.

Definition under {A} (i : nat) (x : path * A) : path * A :=
  (i :: fst x, snd x).

(** The [Text] nodes of a subtree in tree order, each with its reference
    relative to the subtree root. *)
Fixpoint textNodes (n : node) : list (path * str) :=
  match n with
  | Text d => [([], d)]
  | Comment _ => []
  | Elem _ _ _ ks =>
      (fix each (l : list node) (i : nat) {struct l} : list (path * str) :=
         match l with
         | [] => []
         | k :: rest => map (under i) (textNodes k) ++ each rest (S i)
         end) ks 0
  end.

Fixpoint textNodesFrom (l : list node) (i : nat) : list (path * str) :=
  match l with
  | [] => []
  | k :: rest => map (under i) (textNodes k) ++ textNodesFrom rest (S i)
  end.

Definition textOf (ts : list (path * str)) : str :=
  concat (map snd ts).

(** Concatenated data of the [Text] descendants (inclusive). *)
Fixpoint descText (n : node) : str :=
  match n with
  | Text d => d
  | Comment _ => []
  | Elem _ _ _ ks => concat (map descText ks)
  end.

(** [Node.textContent] *)
Definition textContent (n : node) : str :=
  match n with
  | Comment d => d
  | _ => descText n
  end.

(* ================================================================== *)
(** ** highlighter.ts: findTextNodeAtOffset *)

(** The inner [traverse]; the mutable [currentOffset] is threaded: the
    result is the position found, or the offset reached. *)
Fixpoint traverse (targetOffset : nat) (n : node) (currentOffset : nat)
  : (path * nat) + nat :=
  match n with
  | Text d =>
      let textLength := length d in
      if (currentOffset <=? targetOffset)
         && (targetOffset <=? currentOffset + textLength)
      then inl ([], targetOffset - currentOffset)
      else inr (currentOffset + textLength)
  | Comment _ => inr currentOffset
  | Elem _ _ _ ks =>
      (fix each (l : list node) (i cur : nat) {struct l}
         : (path * nat) + nat :=
         match l with
         | [] => inr cur
         | child :: rest =>
             match traverse targetOffset child cur with
             | inl r => inl (under i r)
             | inr cur' => each rest (S i) cur'
             end
         end) ks 0 currentOffset
  end.

Fixpoint traverseFrom (targetOffset : nat) (l : list node) (i cur : nat)
  : (path * nat) + nat :=
  match l with
  | [] => inr cur
  | child :: rest =>
      match traverse targetOffset child cur with
      | inl r => inl (under i r)
      | inr cur' => traverseFrom targetOffset rest (S i) cur'
      end
  end.

Definition findTextNodeAtOffset (root : node) (targetOffset : nat)
  : option (path * nat) :=
  match traverse targetOffset root 0 with
  | inl r => Some r
  | inr _ => None
  end.

(** The same search over the list of text nodes. *)
Fixpoint scan (targetOffset : nat) (ts : list (path * str)) (cur : nat)
  : (path * nat) + nat :=
  match ts with
  | [] => inr cur
  | (p, d) :: rest =>
      if (cur <=? targetOffset) && (targetOffset <=? cur + length d)
      then inl (p, targetOffset - cur)
      else scan targetOffset rest (cur + length d)
  end.

(* ================================================================== *)
(** ** Boundary points and ranges *)

Fixpoint lexCompare (a b : list nat) : comparison :=
  match a, b with
  | [], [] => Eq
  | [], _ :: _ => Lt
  | _ :: _, [] => Gt
  | x :: a', y :: b' =>
      match Nat.compare x y with
      | Eq => lexCompare a' b'
      | c => c
      end
  end.

(** Position of the boundary point [(p1, o1)] relative to [(p2, o2)]:
    [Lt] is before, [Gt] is after.  On references this is the
    lexicographic order of [p ++ [o]]: a point inside the child [i] of a
    node lies after the point [i] of that node and before its point
    [i + 1]. *)
Definition bpCompare (p1 : path) (o1 : nat) (p2 : path) (o2 : nat)
  : comparison :=
  lexCompare (p1 ++ [o1]) (p2 ++ [o2]).

Definition isLt (c : comparison) : bool :=
  match c with Lt => true | _ => false end.

Definition isGt (c : comparison) : bool :=
  match c with Gt => true | _ => false end.

Record range : Type := mkRange {
  startContainer : path;
  startOffset : nat;
  endContainer : path;
  endOffset : nat
}.

(** What the DOM maintains for every live range. *)
Definition validRange (root : node) (r : range) : bool :=
  match nodeAt root (startContainer r), nodeAt root (endContainer r) with
  | Some ns, Some ne =>
      (startOffset r <=? nodeLength ns)
      && (endOffset r <=? nodeLength ne)
      && negb (isGt (bpCompare (startContainer r) (startOffset r)
                               (endContainer r) (endOffset r)))
  | _, _ => false
  end.

Definition collapsed (r : range) : bool :=
  path_eqb (startContainer r) (endContainer r)
  && (startOffset r =? endOffset r).

Fixpoint commonPrefix (a b : path) : path :=
  match a, b with
  | x :: a', y :: b' => if x =? y then x :: commonPrefix a' b' else []
  | _, _ => []
  end.

Definition commonAncestorContainer (r : range) : path :=
  commonPrefix (startContainer r) (endContainer r).

(** A node of length [len] at [p] is contained in the range. *)
Definition contained (r : range) (p : path) (len : nat) : bool :=
  isGt (bpCompare p 0 (startContainer r) (startOffset r))
  && isLt (bpCompare p len (endContainer r) (endOffset r)).

(** [Range.prototype.toString] *)
Definition rangeToString (root : node) (r : range) : str :=
  match nodeAt root (startContainer r), nodeAt root (endContainer r) with
  | Some ns, Some ne =>
      if path_eqb (startContainer r) (endContainer r) && isText ns
      then substring (descText ns) (startOffset r) (endOffset r)
      else
        (if isText ns then skipn (startOffset r) (descText ns) else [])
        ++ textOf (filter (fun t => contained r (fst t) (length (snd t)))
                          (textNodes root))
        ++ (if isText ne then firstn (endOffset r) (descText ne) else [])
  | _, _ => []
  end.

(** [Range.prototype.intersectsNode] for a node that has a parent. *)
Definition intersectsNode (r : range) (p : path) : bool :=
  match p with
  | [] => true
  | _ =>
      let parent := removelast p in
      let offset := last p 0 in
      isLt (bpCompare parent offset (endContainer r) (endOffset r))
      && isGt (bpCompare parent (S offset)
                         (startContainer r) (startOffset r))
  end.

(** The sequence [nextNode()] produces for a walker with [SHOW_TEXT]: the
    text nodes below the walker root, in tree order.  The root itself is
    never produced. *)
Definition treeWalkerText (walkerRoot : node) : list (path * str) :=
  textNodesFrom (kids walkerRoot) 0.

(* ================================================================== *)
(** ** highlighter.ts: getTextNodesInRange *)

Record textNodeRange : Type := mkTextNodeRange {
  trNode : path;
  trStart : nat;
  trEnd : nat
}.

(** One turn of the [while] loop for the text node [textNode] of data [d]. *)
Definition clipTextNode (r : range) (textNode : path) (d : str)
  : list textNodeRange :=
  if negb (intersectsNode r textNode) then []
  else
    let startOffset0 :=
      if path_eqb textNode (startContainer r) then startOffset r else 0 in
    let endOffset0 :=
      if path_eqb textNode (endContainer r) then endOffset r else length d in
    if startOffset0 <? endOffset0
    then [mkTextNodeRange textNode startOffset0 endOffset0]
    else [].

Definition getTextNodesInRange (root : node) (r : range)
  : list textNodeRange :=
  let ancestor := commonAncestorContainer r in
  match nodeAt root ancestor with
  | None => []
  | Some walkerRoot =>
      flat_map (fun t => clipTextNode r (ancestor ++ fst t) (snd t))
               (treeWalkerText walkerRoot)
  end.

(** The text a tuple covers. *)
Definition coveredText (root : node) (f : textNodeRange) : str :=
  match nodeAt root (trNode f) with
  | Some (Text d) => substring d (trStart f) (trEnd f)
  | _ => []
  end.

(* ================================================================== *)
(** ** locator.ts: createTextQuote, xpath.ts: generateXPath *)

Record TextQuote : Type := mkTextQuote {
  exact : str;
  prefix : str;
  suffix : str
}.

Definition textContentAt (root : node) (p : path) : str :=
  match nodeAt root p with
  | Some n => textContent n
  | None => []
  end.

Definition createTextQuote (root : node) (r : range) : TextQuote :=
  let exact := rangeToString root r in
  let startText := textContentAt root (startContainer r) in
  let startOffset := startOffset r in
  let prefixStart := startOffset - 32 in
  let prefix := substring startText prefixStart startOffset in
  let endText := textContentAt root (endContainer r) in
  let endOffset := endOffset r in
  let suffix := substring endText endOffset (endOffset + 32) in
  mkTextQuote exact prefix suffix.

(** A generated XPath, [/tag[i]/tag[i]...]; the empty list is the empty
    string. *)
Definition xpath : Type := list (str * nat).

Definition tagOf (n : node) : str :=
  match n with Elem t _ _ _ => t | _ => [] end.

Definition elementIndex (siblings : list node) (i : nat) : nat :=
  length (filter isElem (firstn i siblings)).

(** The [while] loop of generateXPath; [current] is kept reversed, so that
    its head is the index of the current element in its parent. *)
Fixpoint xpathLoop (root : node) (revCurrent : list nat) (acc : xpath)
  : xpath :=
  match revCurrent with
  | [] => acc
  | i :: revParent =>
      match nodeAt root (rev revParent), nodeAt root (rev revCurrent) with
      | Some parent, Some element =>
          let index := elementIndex (kids parent) i + 1 in
          xpathLoop root revParent ((tagOf element, index) :: acc)
      | _, _ => acc
      end
  end.

Definition generateXPath (root : node) (nodeRef : path) : xpath :=
  match nodeAt root nodeRef with
  | Some (Text _) =>
      match nodeRef with
      | [] => []
      | _ => xpathLoop root (rev (removelast nodeRef)) []
      end
  | Some (Elem _ _ _ _) => xpathLoop root (rev nodeRef) []
  | _ => []
  end.

Definition createLocationInfo (root : node) (r : range) : xpath * TextQuote :=
  (generateXPath root (startContainer r), createTextQuote root r).

(* ================================================================== *)
(** ** Pages, console and the monad of DOM code *)

Inductive annotationType : Type := agree | question.

(** The messages of the console that tell the outcome of a step; the
    messages that only echo the arguments of a call are left out. *)
Inductive event : Type :=
| LogFragments (count : nat)            (* fragments found by the splitter *)
| ErrNoTextNodes                        (* no text node found *)
| WarnLegacy                            (* degraded whole-range wrap *)
| LogLegacySurround
| LogLegacyExtract
| LogMarkCreated (index : nat)
| ErrMarkFailed (index : nat) (e : exn)
| ErrNoMark
| LogDone (count : nat)
| WarnNotFound (id : str)
| LogPieceRemoved (index : nat)
| LogRemoved (id : str)
| LogAlreadyPresent (id : str)
| WarnXPathFailed
| WarnTextMismatch
| ErrNoStartNode
| ErrNoEndNode
| LogRange (r : range)                  (* the Range handed to highlightRange *)
| LogRestored
| ErrRestore (e : exn)
| WarnPatternMissing
| WarnExactMissing
| WarnExactOnly
| ErrNullMark
| ErrHighlight (e : exn)
| LogRetry (id : str) (attempt : nat)   (* content not loaded, retry n/20 *)
| WarnTimeout (id : str)                (* restoration timed out *)
| LogContentLoaded (id : str) (retries : nat)
| LogRestoreOk (id : str)
| WarnRestoreFailed (id : str).

Record page : Type := mkPage {
  dom : node;
  console : list event
}.

Inductive res (A : Type) : Type :=
| Val (a : A)
| Exc (e : exn).

Arguments Val {A} a.
Arguments Exc {A} e.

Definition M (A : Type) : Type := page -> res A * page.

Definition ret {A} (a : A) : M A := fun s => (Val a, s).

Definition bind {A B} (m : M A) (k : A -> M B) : M B :=
  fun s =>
    match m s with
    | (Val a, s') => k a s'
    | (Exc e, s') => (Exc e, s')
    end.

Definition throw {A} (e : exn) : M A := fun s => (Exc e, s).

(** [try { m } catch (e) { h e }] *)
Definition catch {A} (m : M A) (h : exn -> M A) : M A :=
  fun s =>
    match m s with
    | (Val a, s') => (Val a, s')
    | (Exc e, s') => h e s'
    end.

Definition getDom : M node := fun s => (Val (dom s), s).

Definition setDom (n : node) : M unit :=
  fun s => (Val tt, mkPage n (console s)).

Definition log (ev : event) : M unit :=
  fun s => (Val tt, mkPage (dom s) (console s ++ [ev])).

Definition lift {A} (r : res A) : M A := fun s => (r, s).

Notation "x <- m ;; k" := (bind m (fun x => k))
  (at level 61, m at next level, right associativity).
Notation "m ;;; k" := (bind m (fun _ => k))
  (at level 61, right associativity).

(** What the sources take from the browser.  [selectorQuirk] and
    [xpathQuirk] answer for selector strings and XPath names that the
    embedding does not tokenise itself; [rangeSurround] and
    [rangeExtractInsert] are [Range.surroundContents] and
    [extractContents]/[insertNode] for a range that is not inside a single
    text node; each returns the reference of the marker, or raises, and
    the tree it leaves. *)
Record Browser : Type := mkBrowser {
  randomUUID : str;
  selectorQuirk : option str -> str -> res (node -> bool);
  xpathQuirk : xpath -> node -> res (option path);
  rangeSurround : range -> node -> node -> res path * node;
  rangeExtractInsert : range -> node -> node -> res path * node
}.

(* ================================================================== *)
(** ** Selectors, document.body, XPath evaluation *)

(** The elements of a subtree (inclusive) in tree order. *)
Fixpoint elements (n : node) : list (path * node) :=
  match n with
  | Elem _ _ _ ks =>
      ([], n)
      :: (fix each (l : list node) (i : nat) {struct l} : list (path * node) :=
            match l with
            | [] => []
            | k :: rest => map (under i) (elements k) ++ each rest (S i)
            end) ks 0
  | _ => []
  end.

Fixpoint elementsFrom (l : list node) (i : nat) : list (path * node) :=
  match l with
  | [] => []
  | k :: rest => map (under i) (elements k) ++ elementsFrom rest (S i)
  end.

Definition hasGogoId (id : str) (n : node) : bool :=
  match n with
  | Elem _ (Some g) _ _ => str_eqb g id
  | _ => false
  end.

Definition hasTag (t : str) (n : node) : bool :=
  isElem n && str_eqb (tagOf n) t.

Definition cssLineBreak (c : ascii) : bool :=
  match nat_of_ascii c with
  | 10 | 12 | 13 => true
  | _ => false
  end.

(** Code units that a CSS string token takes literally. *)
Definition cssPlain (c : ascii) : bool :=
  match nat_of_ascii c with
  | 0 | 10 | 12 | 13 | 34 | 92 => false
  | _ => true
  end.

Definition selectorSafe (id : str) : bool := forallb cssPlain id.

(** The selector [tag[data-gogo-id="id"]] (or without the tag) selects by
    [matcher]; the template puts [id] between double quotes unescaped.  A plain [id] gives
    the attribute test; a line break inside the quoted string is a bad
    string token, so the selector is rejected; an [id] whose first special
    code unit is a quote, backslash or NUL is left to the browser. *)
Definition matcher (tagName : option str) (id : str) (n : node) : bool :=
  match tagName with
  | Some t => hasTag t n && hasGogoId id n
  | None => hasGogoId id n
  end.

Definition gogoSelector (B : Browser) (tagName : option str) (id : str)
  : res (node -> bool) :=
  match find (fun c => negb (cssPlain c)) id with
  | None => Val (matcher tagName id)
  | Some c =>
      if cssLineBreak c then Exc SyntaxError
      else selectorQuirk B tagName id
  end.

Definition querySelectorAll (B : Browser) (tagName : option str) (id : str)
  : M (list path) :=
  fun s =>
    match gogoSelector B tagName id with
    | Val f =>
        (Val (map fst (filter (fun e => f (snd e)) (elements (dom s)))), s)
    | Exc e => (Exc e, s)
    end.

Definition querySelector (B : Browser) (tagName : option str) (id : str)
  : M (option path) :=
  l <- querySelectorAll B tagName id ;; ret (hd_error l).

Definition isBodyTag (n : node) : bool :=
  hasTag (txt "body") n || hasTag (txt "frameset") n.

Fixpoint findIndex {A} (f : A -> bool) (l : list A) : option nat :=
  match l with
  | [] => None
  | x :: rest => if f x then Some 0 else option_map S (findIndex f rest)
  end.

(** [document.body]: the first [body] (or [frameset]) child of the [html]
    root, [None] for null. *)
Definition body (root : node) : option path :=
  if hasTag (txt "html") root
  then option_map (fun i => [i]) (findIndex isBodyTag (kids root))
  else None.

(** [document.body.x]: reading a property of null raises. *)
Definition theBody : M path :=
  fun s =>
    match body (dom s) with
    | Some b => (Val b, s)
    | None => (Exc TypeError, s)
    end.

Definition lowerOrDigit (c : ascii) : bool :=
  let n := nat_of_ascii c in
  ((97 <=? n) && (n <=? 122)) || ((48 <=? n) && (n <=? 57)) || (n =? 45).

Definition lowerLetter (c : ascii) : bool :=
  let n := nat_of_ascii c in (97 <=? n) && (n <=? 122).

(** Element names that are XPath name tests as they stand. *)
Definition plainName (t : str) : bool :=
  match t with
  | [] => false
  | c :: rest => lowerLetter c && forallb lowerOrDigit rest
  end.

(** The [idx]-th (from 1) element child named [tag]; [i] is the index of
    the head of [l] among its siblings. *)
Fixpoint nthTagged (tag : str) (l : list node) (idx i : nat)
  : option (nat * node) :=
  match l with
  | [] => None
  | k :: rest =>
      if hasTag tag k
      then if idx =? 1 then Some (i, k)
           else nthTagged tag rest (idx - 1) (S i)
      else nthTagged tag rest idx (S i)
  end.

Fixpoint xselect (n : node) (steps : xpath) : option path :=
  match steps with
  | [] => Some []
  | (tag, idx) :: rest =>
      match nthTagged tag (kids n) idx 0 with
      | Some (i, k) => option_map (cons i) (xselect k rest)
      | None => None
      end
  end.

(** [document.evaluate(xpath, document, null, FIRST_ORDERED_NODE_TYPE)]
    followed by [singleNodeValue].  The empty expression is a syntax
    error; the first step selects among the children of the document, that
    is, the root element. *)
Definition evaluate (B : Browser) (xp : xpath) : M (option path) :=
  fun s =>
    match xp with
    | [] => (Exc SyntaxError, s)
    | (tag, idx) :: rest =>
        if forallb (fun st => plainName (fst st)) xp
        then
          (Val (if hasTag tag (dom s) && (idx =? 1)
                then xselect (dom s) rest else None), s)
        else (xpathQuirk B xp (dom s), s)
    end.

(* ================================================================== *)
(** ** Tree surgery *)

(** Replace the node at [p] by the nodes [f] makes of it.  The result is
    the list that takes the place of [n] in its parent. *)
Fixpoint editAt (p : path) (f : node -> res (list node)) (n : node)
  : res (list node) :=
  match p with
  | [] => f n
  | i :: p' =>
      match n with
      | Elem t g c ks =>
          match nth_error ks i with
          | Some k =>
              match editAt p' f k with
              | Val new => Val [Elem t g c (firstn i ks ++ new ++ skipn (S i) ks)]
              | Exc e => Exc e
              end
          | None => Exc NotFoundError
          end
      | _ => Exc NotFoundError
      end
  end.

(** The same on the document: its root must stay one element, a text node
    cannot become a child of the document. *)
Definition editDocument (p : path) (f : node -> res (list node)) (root : node)
  : res node :=
  match editAt p f root with
  | Val [r] => if isElem r then Val r else Exc HierarchyRequestError
  | Val _ => Exc HierarchyRequestError
  | Exc e => Exc e
  end.

Definition typeName (type : annotationType) : str :=
  match type with
  | agree => txt "agree"
  | question => txt "question"
  end.

(** [document.createElement('mark')] with its class and [data-gogo-id]. *)
Definition markElement (type : annotationType) (id : str)
  (content : list node) : node :=
  Elem (txt "mark") (Some id) (txt "gogo-highlight-" ++ typeName type) content.

(** [setStart], [setEnd] and [surroundContents] on one text node.  An
    offset past the data raises in [setStart]/[setEnd]; an end before the
    start collapses the range onto the end.  The text node is split at the
    start, the marker receives the extracted slice (nothing for a
    collapsed range) and is put between the two halves. *)
Definition surroundText (mark : list node -> node) (startOffset endOffset : nat)
  (textNode : node) : res (list node) :=
  match textNode with
  | Text d =>
      if length d <? startOffset then Exc IndexSizeError
      else if length d <? endOffset then Exc IndexSizeError
      else
        let s := Nat.min startOffset endOffset in
        Val [Text (firstn s d);
             mark (if s <? endOffset then [Text (substring d s endOffset)]
                   else []);
             Text (skipn endOffset d)]
  | _ => Exc InvalidStateError
  end.

(** Where the marker of [surroundText] at [p] ends up. *)
Definition markRef (p : path) : path :=
  removelast p ++ [S (last p 0)].

(** A reference held across [surroundText] at [p]: the two nodes inserted
    after [p] shift its later siblings and what is below them. *)
Fixpoint rebase (p x : path) : path :=
  match p, x with
  | [i], j :: x' => if i <? j then (j + 2) :: x' else x
  | i :: p', j :: x' => if i =? j then j :: rebase p' x' else x
  | _, _ => x
  end.

(* ================================================================== *)
(** ** highlighter.ts: highlightRange, highlightRangeLegacy *)

Definition inOneTextNode (root : node) (r : range) : bool :=
  path_eqb (startContainer r) (endContainer r)
  && match nodeAt root (startContainer r) with
     | Some n => isText n
     | None => false
     end.

(** [range.surroundContents(mark)] *)
Definition surroundContents (B : Browser) (r : range)
  (mark : list node -> node) : M path :=
  fun s =>
    if inOneTextNode (dom s) r then
      match editDocument (startContainer r)
              (surroundText mark (startOffset r) (endOffset r)) (dom s) with
      | Val root' => (Val (markRef (startContainer r)), mkPage root' (console s))
      | Exc e => (Exc e, s)
      end
    else
      let (result, root') := rangeSurround B r (mark []) (dom s) in
      (result, mkPage root' (console s)).

(** [extractContents], [appendChild], [insertNode] *)
Definition extractAndInsert (B : Browser) (r : range)
  (mark : list node -> node) : M path :=
  fun s =>
    if inOneTextNode (dom s) r then
      match editDocument (startContainer r)
              (surroundText mark (startOffset r) (endOffset r)) (dom s) with
      | Val root' => (Val (markRef (startContainer r)), mkPage root' (console s))
      | Exc e => (Exc e, s)
      end
    else
      let (result, root') := rangeExtractInsert B r (mark []) (dom s) in
      (result, mkPage root' (console s)).

Definition highlightRangeLegacy (B : Browser) (r : range)
  (type : annotationType) (id : str) : M (option path) :=
  log WarnLegacy ;;;
  m <- catch (m <- surroundContents B r (markElement type id) ;;
              log LogLegacySurround ;;; ret m)
             (fun _ =>
                m <- extractAndInsert B r (markElement type id) ;;
                log LogLegacyExtract ;;; ret m) ;;
  ret (Some m).

(** The body of the [forEach] for one tuple, with its [try]/[catch]:
    whether the marker was made. *)
Definition wrapStep (type : annotationType) (id : str) (textNode : path)
  (f : textNodeRange) (index : nat) : M bool :=
  catch
    (root <- getDom ;;
     root' <- lift (editDocument textNode
                      (surroundText (markElement type id)
                                    (trStart f) (trEnd f)) root) ;;
     setDom root' ;;;
     log (LogMarkCreated (index + 1)) ;;;
     ret true)
    (fun e => log (ErrMarkFailed (index + 1) e) ;;; ret false).

(** The [forEach] over the tuples.  [reloc] re-addresses the references
    collected before the loop after the wraps already made; [index] is the
    position of the head of [l] in the array. *)
Fixpoint wrapEach (type : annotationType) (id : str)
  (reloc : path -> path) (index : nat) (l : list textNodeRange) : M unit :=
  match l with
  | [] => ret tt
  | f :: rest =>
      let textNode := reloc (trNode f) in
      wrapped <- wrapStep type id textNode f index ;;
      wrapEach type id
        (if wrapped then fun x => rebase textNode (reloc x) else reloc)
        (S index) rest
  end.

(** [customId || crypto.randomUUID()]: an absent or empty [customId] is
    falsy. *)
Definition chooseId (B : Browser) (customId : option str) : str :=
  match customId with
  | Some (c :: rest) => c :: rest
  | _ => randomUUID B
  end.

Definition highlightRange (B : Browser) (r : range) (type : annotationType)
  (customId : option str) : M (option path) :=
  let id := chooseId B customId in
  root <- getDom ;;
  let textNodeRanges := getTextNodesInRange root r in
  log (LogFragments (length textNodeRanges)) ;;;
  match textNodeRanges with
  | [] =>
      log ErrNoTextNodes ;;;
      highlightRangeLegacy B r type id
  | _ =>
      wrapEach type id (fun x => x) 0 textNodeRanges ;;;
      firstMark <- querySelector B None id ;;
      match firstMark with
      | None => log ErrNoMark
      | Some _ => log (LogDone (length textNodeRanges))
      end ;;;
      ret firstMark
  end.

(* ================================================================== *)
(** ** highlighter.ts: removeHighlight *)

Fixpoint mergeText (l : list node) : list node :=
  match l with
  | [] => []
  | Text d :: rest =>
      match mergeText rest with
      | Text d' :: rest' => Text (d ++ d') :: rest'
      | rest' =>
          match d with
          | [] => rest'
          | _ => Text d :: rest'
          end
      end
  | k :: rest => k :: mergeText rest
  end.

(** [Node.prototype.normalize]: below the node, empty text nodes go and
    neighbouring text nodes become one. *)
Fixpoint normalize (n : node) : node :=
  match n with
  | Elem t g c ks => Elem t g c (mergeText (map normalize ks))
  | _ => n
  end.

(** [document.body.normalize()] *)
Definition normalizeBody : M unit :=
  b <- theBody ;;
  root <- getDom ;;
  root' <- lift (editDocument b (fun n => Val [normalize n]) root) ;;
  setDom root'.

Definition isStrictPrefix (a b : path) : bool :=
  (length a <? length b) && path_eqb a (firstn (length a) b).

(** The [forEach] over the static node list.  [gone] holds the elements
    already replaced: an element below one of them has left the document
    with it, and replacing it inside the removed subtree changes nothing
    in the document.  The parent of the root element is the document,
    which takes no text child. *)
Fixpoint removeEach (gone : list path) (index : nat) (l : list path)
  : M unit :=
  match l with
  | [] => ret tt
  | element :: rest =>
      root <- getDom ;;
      (if existsb (fun g => isStrictPrefix g element) gone then
         log (LogPieceRemoved (index + 1))
       else
         root' <- lift (editDocument element
                          (fun n => Val [Text (descText n)]) root) ;;
         setDom root' ;;;
         log (LogPieceRemoved (index + 1))) ;;;
      removeEach (element :: gone) (S index) rest
  end.

Definition removeHighlight (B : Browser) (id : str) : M unit :=
  elements <- querySelectorAll B None id ;;
  match elements with
  | [] => log (WarnNotFound id)
  | _ =>
      removeEach [] 0 elements ;;;
      normalizeBody ;;;
      log (LogRemoved id)
  end.

(* ================================================================== *)
(** ** highlighter.ts: restoreHighlight and its fallbacks *)

(** [createRange], [setStart], [setEnd]: an offset past the node raises;
    an end before the start moves the start onto the end. *)
Definition rangeBetween (root : node) (startNode : path) (startOff : nat)
  (endNode : path) (endOff : nat) : res range :=
  match nodeAt root startNode, nodeAt root endNode with
  | Some ns, Some ne =>
      if nodeLength ns <? startOff then Exc IndexSizeError
      else if nodeLength ne <? endOff then Exc IndexSizeError
      else if isLt (bpCompare endNode endOff startNode startOff)
           then Val (mkRange endNode endOff endNode endOff)
           else Val (mkRange startNode startOff endNode endOff)
  | _, _ => Exc NotFoundError
  end.

(** The common tail of restoreHighlight and findAndHighlightText: locate
    both ends below [top] and build the Range; [None] when an end is not
    found. *)
Definition locate (top : path) (startOffset len : nat) : M (option range) :=
  root <- getDom ;;
  match nodeAt root top with
  | None => throw TypeError
  | Some topNode =>
      match findTextNodeAtOffset topNode startOffset with
      | None => log ErrNoStartNode ;;; ret None
      | Some startInfo =>
          match findTextNodeAtOffset topNode (startOffset + len) with
          | None => log ErrNoEndNode ;;; ret None
          | Some endInfo =>
              r <- lift (rangeBetween root
                           (top ++ fst startInfo) (snd startInfo)
                           (top ++ fst endInfo) (snd endInfo)) ;;
              log (LogRange r) ;;;
              ret (Some r)
          end
      end
  end.

Definition findAndHighlightText (B : Browser) (text id : str)
  (type : annotationType) (startOffset : nat) : M bool :=
  catch
    (b <- theBody ;;
     found <- locate b startOffset (length text) ;;
     match found with
     | None => ret false
     | Some r =>
         mark <- highlightRange B r type (Some id) ;;
         match mark with
         | Some _ => ret true
         | None => log ErrNullMark ;;; ret false
         end
     end)
    (fun e => log (ErrHighlight e) ;;; ret false).

Definition restoreByTextQuote (B : Browser) (id : str) (textQuote : TextQuote)
  (type : annotationType) : M bool :=
  b <- theBody ;;
  root <- getDom ;;
  let bodyText := textContentAt root b in
  let searchPattern := prefix textQuote ++ exact textQuote ++ suffix textQuote in
  match indexOf searchPattern bodyText with
  | None =>
      log WarnPatternMissing ;;;
      match indexOf (exact textQuote) bodyText with
      | None => log WarnExactMissing ;;; ret false
      | Some exactIndex =>
          log WarnExactOnly ;;;
          findAndHighlightText B (exact textQuote) id type exactIndex
      end
  | Some patternIndex =>
      let textStartInBody := patternIndex + length (prefix textQuote) in
      findAndHighlightText B (exact textQuote) id type textStartInBody
  end.

Definition restoreHighlight (B : Browser) (id : str) (xp : xpath)
  (textQuote : TextQuote) (type : annotationType) : M bool :=
  existingMark <- querySelector B (Some (txt "mark")) id ;;
  match existingMark with
  | Some _ => log (LogAlreadyPresent id) ;;; ret true
  | None =>
      catch
        (result <- evaluate B xp ;;
         match result with
         | None =>
             log WarnXPathFailed ;;;
             restoreByTextQuote B id textQuote type
         | Some nodeRef =>
             root <- getDom ;;
             let textContent := textContentAt root nodeRef in
             match indexOf (exact textQuote) textContent with
             | None =>
                 log WarnTextMismatch ;;;
                 restoreByTextQuote B id textQuote type
             | Some index =>
                 found <- locate nodeRef index (length (exact textQuote)) ;;
                 match found with
                 | None => ret false
                 | Some r =>
                     mark <- highlightRange B r type (Some id) ;;
                     match mark with
                     | Some _ => log LogRestored ;;; ret true
                     | None => throw TypeError
                     end
                 end
             end
         end)
        (fun e => log (ErrRestore e) ;;; ret false)
  end.

(* ================================================================== *)
(** ** GOGOMode.tsx: restoration with polling *)

Record GOGOAnnotation : Type := mkAnnotation {
  annId : str;
  annXpath : xpath;
  annTextQuote : TextQuote;
  annType : annotationType
}.

Definition RETRY_INTERVAL : nat := 500.
Definition MAX_RETRIES : nat := 20.

(** A pending [setTimeout] callback [tryRestoreWithRetry(annotation,
    retryCount)]. *)
Record timer : Type := mkTimer {
  due : nat;
  timerAnnotation : GOGOAnnotation;
  timerRetry : nat
}.

(** The window: the clock (ms), the pending timers in firing order, the
    page. *)
Record window : Type := mkWindow {
  now : nat;
  timers : list timer;
  pg : page
}.

(** Timers fire by due time, and in the order they were set when due
    together. *)
Fixpoint enqueue (t : timer) (q : list timer) : list timer :=
  match q with
  | [] => [t]
  | u :: rest => if due t <? due u then t :: u :: rest else u :: enqueue t rest
  end.

Definition setTimeout (delay : nat) (a : GOGOAnnotation) (retryCount : nat)
  (w : window) : window :=
  mkWindow (now w) (enqueue (mkTimer (now w + delay) a retryCount) (timers w))
           (pg w).

Definition onPage {A} (m : M A) (w : window) : res A * window :=
  let (r, p) := m (pg w) in (r, mkWindow (now w) (timers w) p).

Definition tryRestoreWithRetry (B : Browser) (annotation : GOGOAnnotation)
  (retryCount : nat) (w : window) : res unit * window :=
  match body (dom (pg w)) with
  | None => (Exc TypeError, w)
  | Some b =>
      let pageText := textContentAt (dom (pg w)) b in
      let textExists := includes pageText (exact (annTextQuote annotation)) in
      if negb textExists then
        if retryCount <? MAX_RETRIES then
          let (_, w1) :=
            onPage (log (LogRetry (annId annotation) (retryCount + 1))) w in
          (Val tt, setTimeout RETRY_INTERVAL annotation (retryCount + 1) w1)
        else
          onPage (log (WarnTimeout (annId annotation))) w
      else
        onPage
          (log (LogContentLoaded (annId annotation) retryCount) ;;;
           success <- restoreHighlight B (annId annotation)
                        (annXpath annotation) (annTextQuote annotation)
                        (annType annotation) ;;
           if success : bool then log (LogRestoreOk (annId annotation))
           else log (WarnRestoreFailed (annId annotation)))
          w
  end.

(** [pageAnnotations.forEach(a => tryRestoreWithRetry(a, 0))]: an
    exception leaves the [forEach]. *)
Fixpoint startAll (B : Browser) (l : list GOGOAnnotation) (w : window)
  : res unit * window :=
  match l with
  | [] => (Val tt, w)
  | a :: rest =>
      match tryRestoreWithRetry B a 0 w with
      | (Val _, w') => startAll B rest w'
      | (Exc e, w') => (Exc e, w')
      end
  end.

(** The event loop: the first pending timer fires; the clock has advanced
    to its due time, and the host page has had its turn on the document
    ([host]).  An exception ends that callback only. *)
Fixpoint runTimers (B : Browser) (host : nat -> node -> node) (fuel : nat)
  (w : window) : window :=
  match fuel with
  | 0 => w
  | S fuel' =>
      match timers w with
      | [] => w
      | t :: rest =>
          let t1 := Nat.max (now w) (due t) in
          let w1 :=
            mkWindow t1 rest (mkPage (host t1 (dom (pg w))) (console (pg w))) in
          runTimers B host fuel'
            (snd (tryRestoreWithRetry B (timerAnnotation t) (timerRetry t) w1))
      end
  end.


(* ================================================================== *)
(** ** detector.ts: findElementsInRect *)

(** Coordinates and sizes are JavaScript Numbers: IEEE 754 doubles, with
    the operations and comparisons of the hardware. *)
Record SelectionRect : Type := mkSelectionRect {
  startX : float;
  startY : float;
  endX : float;
  endY : float
}.

Record DOMRect : Type := mkDOMRect {
  left : float;
  top : float;
  right : float;
  bottom : float;
  width : float;
  height : float
}.

(** What layout says about an element: computed [display] and
    [visibility], whether [closest] finds one of the eight selectors of
    the tool's own UI, and the bounding client rectangle. *)
Record View : Type := mkView {
  displayNone : path -> bool;
  visibilityHidden : path -> bool;
  closestOwnUI : path -> bool;
  getBoundingClientRect : path -> DOMRect
}.

(** [Math.min], [Math.max]: NaN when an operand is NaN; -0 is below +0. *)
Definition Math_min (a b : float) : float :=
  if PrimFloat.is_nan a || PrimFloat.is_nan b then PrimFloat.nan
  else if PrimFloat.ltb a b then a
  else if PrimFloat.ltb b a then b
  else if PrimFloat.get_sign a then a else b.

Definition Math_max (a b : float) : float :=
  if PrimFloat.is_nan a || PrimFloat.is_nan b then PrimFloat.nan
  else if PrimFloat.ltb a b then b
  else if PrimFloat.ltb b a then a
  else if PrimFloat.get_sign a then b else a.

(** [a >= b], [a <= b], [a > b] on numbers: false when an operand is
    NaN. *)
Definition geq (a b : float) : bool := PrimFloat.leb b a.
Definition leq (a b : float) : bool := PrimFloat.leb a b.
Definition gtq (a b : float) : bool := PrimFloat.ltb b a.

(** The loop of getDepth: parents are counted up to [document.body], or up
    to the root element when the body is not on the way. *)
Fixpoint depthLoop (bodyRef : option path) (revCurrent : list nat)
  (depth : nat) : nat :=
  match bodyRef with
  | Some b =>
      if path_eqb (rev revCurrent) b then depth
      else match revCurrent with
           | [] => S depth
           | _ :: revParent => depthLoop bodyRef revParent (S depth)
           end
  | None =>
      match revCurrent with
      | [] => S depth
      | _ :: revParent => depthLoop bodyRef revParent (S depth)
      end
  end.

Definition getDepth (root : node) (element : path) : nat :=
  depthLoop (body root) (rev element) 0.

(** The test inside the [forEach] of findElementsInRect. *)
Definition selected (root : node) (v : View) (rect : SelectionRect)
  (htmlEl : path) : bool :=
  let minX := Math_min (startX rect) (endX rect) in
  let maxX := Math_max (startX rect) (endX rect) in
  let minY := Math_min (startY rect) (endY rect) in
  let maxY := Math_max (startY rect) (endY rect) in
  let selectionWidth := (maxX - minX)%float in
  let selectionHeight := (maxY - minY)%float in
  let selectionArea := (selectionWidth * selectionHeight)%float in
  if displayNone v htmlEl || visibilityHidden v htmlEl then false
  else if closestOwnUI v htmlEl then false
  else if match body root with
          | Some b => path_eqb htmlEl b
          | None => false
          end || path_eqb htmlEl [] then false
  else
    let bounds := getBoundingClientRect v htmlEl in
    let isFullyInside :=
      geq (left bounds) minX && leq (right bounds) maxX
      && geq (top bounds) minY && leq (bottom bounds) maxY in
    let isPartiallyInside :=
      geq (right bounds) minX && leq (left bounds) maxX
      && geq (bottom bounds) minY && leq (top bounds) maxY in
    let intersectLeft := Math_max (left bounds) minX in
    let intersectRight := Math_min (right bounds) maxX in
    let intersectTop := Math_max (top bounds) minY in
    let intersectBottom := Math_min (bottom bounds) maxY in
    let intersectWidth :=
      Math_max 0%float (intersectRight - intersectLeft)%float in
    let intersectHeight :=
      Math_max 0%float (intersectBottom - intersectTop)%float in
    let intersectArea := (intersectWidth * intersectHeight)%float in
    let elementArea := (width bounds * height bounds)%float in
    let overlapRatio :=
      if gtq elementArea 0%float then (intersectArea / elementArea)%float
      else 0%float in
    let isReasonableSize := leq elementArea (selectionArea * 3)%float in
    let hasSignificantOverlap := geq overlapRatio 0.5%float in
    gtq (width bounds) 5%float && gtq (height bounds) 5%float
    && isPartiallyInside && isReasonableSize
    && (isFullyInside || hasSignificantOverlap).

(** [elements.sort((a, b) => getDepth(b) - getDepth(a))]: a stable sort,
    deeper elements first. *)
Fixpoint insertByDepth (root : node) (x : path) (sorted : list path)
  : list path :=
  match sorted with
  | [] => [x]
  | y :: rest =>
      if getDepth root y <? getDepth root x then x :: y :: rest
      else y :: insertByDepth root x rest
  end.

Definition sortByDepth (root : node) (l : list path) : list path :=
  fold_left (fun acc x => insertByDepth root x acc) l [].

Definition findElementsInRect (root : node) (v : View) (rect : SelectionRect)
  : list path :=
  let allElements := map fst (elements root) in
  sortByDepth root (filter (selected root v rect) allElements).

(* ================================================================== *)
(** ** Vocabulary of the statements *)

(** Two references part ways, the first one to the left. *)
Inductive pathLt : path -> path -> Prop :=
| pathLt_here x y a b : x < y -> pathLt (x :: a) (y :: b)
| pathLt_next x a b : pathLt a b -> pathLt (x :: a) (x :: b).

Definition below (q : path) (t : path * str) : path * str :=
  (q ++ fst t, snd t).

(** The text a text node contributes through its tuple. *)
Definition piece (root : node) (r : range) (t : path * str) : str :=
  concat (map (coveredText root) (clipTextNode r (fst t) (snd t))).

(** The data of the text node [c] in a list of text nodes, cut by [cut]. *)
Definition partAt (cut : str -> str) (c : path) (l : list (path * str))
  : str :=
  match find (fun t => path_eqb (fst t) c) l with
  | Some t => cut (snd t)
  | None => []
  end.

Definition inside (r : range) (t : path * str) : bool :=
  contained r (fst t) (length (snd t)).

(** ** Sample documents *)

Definition boundaryDoc : node :=
  Elem (txt "p") None []
    [Text (txt "ab"); Text []; Text (txt "cd")].

Definition helloDoc : node :=
  Elem (txt "html") None []
    [Elem (txt "head") None [] [];
     Elem (txt "body") None []
       [Elem (txt "p") None []
          [Text (txt "Hello ");
           Elem (txt "b") None [] [Text (txt "big")];
           Text (txt " world")]]].

(** The part of highlightRange after the loop. *)
Definition afterSplit (B : Browser) (id : str) (count : nat)
  : M (option path) :=
  firstMark <- querySelector B None id ;;
  match firstMark with
  | None => log ErrNoMark
  | Some _ => log (LogDone count)
  end ;;;
  ret firstMark.

(** ** Markers in a document *)

(** Some element of the subtree satisfies [f]. *)
Fixpoint anyElem (f : node -> bool) (n : node) : bool :=
  match n with
  | Elem _ _ _ ks => f n || existsb (anyElem f) ks
  | _ => false
  end.

(** Number of elements of the subtree that satisfy [f]. *)
Fixpoint countElem (f : node -> bool) (n : node) : nat :=
  match n with
  | Elem _ _ _ ks =>
      (if f n then 1 else 0) + list_sum (map (countElem f) ks)
  | _ => 0
  end.

(** A marker of the annotation [id]: what the duplicate check of
    restoreHighlight looks for. *)
Definition isMarker (id : str) (n : node) : bool :=
  hasTag (txt "mark") n && hasGogoId id n.

Definition hasMarker (id : str) (root : node) : bool :=
  anyElem (isMarker id) root.

(** Some element carries [data-gogo-id="id"]. *)
Definition carriesId (id : str) (root : node) : bool :=
  anyElem (hasGogoId id) root.

Definition markCreated (ev : event) : bool :=
  match ev with LogMarkCreated _ => true | _ => false end.

(** ** Vocabulary for the restoration loop *)

(** The exact text of the annotation is not in the body text. *)
Definition absentIn (a : GOGOAnnotation) (root : node) : Prop :=
  exists b,
    body root = Some b
    /\ includes (textContentAt root b) (exact (annTextQuote a)) = false.

(** The retry messages number [from] to [from + count - 1]. *)
Definition retryLog (a : GOGOAnnotation) (from count : nat) : list event :=
  map (fun k => LogRetry (annId a) k) (seq from count).

(** A browser whose hooks all refuse. *)
Definition plainBrowser : Browser :=
  mkBrowser (txt "0b9a6f4e-uuid")
    (fun _ _ => Exc SyntaxError)
    (fun _ _ => Exc SyntaxError)
    (fun _ _ n => (Exc InvalidStateError, n))
    (fun _ _ n => (Exc HierarchyRequestError, n)).

(** ** Vocabulary for the rectangle rule *)

(** The four tests of [isFullyInside] and of [isPartiallyInside], as the
    code evaluates them on doubles. *)
Definition fullyContained (b : DOMRect) (minX maxX minY maxY : float)
  : Prop :=
  geq (left b) minX = true /\ leq (right b) maxX = true
  /\ geq (top b) minY = true /\ leq (bottom b) maxY = true.

Definition partiallyInside (b : DOMRect) (minX maxX minY maxY : float)
  : Prop :=
  geq (right b) minX = true /\ leq (left b) maxX = true
  /\ geq (bottom b) minY = true /\ leq (top b) maxY = true.

Definition intersectionArea (b : DOMRect) (minX maxX minY maxY : float)
  : float :=
  (Math_max 0 (Math_min (right b) maxX - Math_max (left b) minX)
   * Math_max 0 (Math_min (bottom b) maxY - Math_max (top b) minY))%float.

Definition elementArea (b : DOMRect) : float := (width b * height b)%float.

Definition overlapRatio (b : DOMRect) (minX maxX minY maxY : float)
  : float :=
  if gtq (elementArea b) 0%float
  then (intersectionArea b minX maxX minY maxY / elementArea b)%float
  else 0%float.

(** The element [p] is a candidate: it is of the page, visible, not of the
    tool's own UI, and neither the body nor the root element. *)
Definition candidate (root : node) (v : View) (p : path) : Prop :=
  In p (map fst (elements root))
  /\ displayNone v p = false /\ visibilityHidden v p = false
  /\ closestOwnUI v p = false
  /\ body root <> Some p /\ p <> [].

(** [a] may come before [b] in the result: it is at least as deep. *)
Definition deeperFirst (root : node) (a b : path) : Prop :=
  getDepth root b <= getDepth root a.

(** A page with a small and a large box, and a view of it. *)
Definition boxDoc : node :=
  Elem (txt "html") None []
    [Elem (txt "head") None [] [];
     Elem (txt "body") None []
       [Elem (txt "div") None []
          [Elem (txt "i") None [] []; Elem (txt "p") None [] []]]].

Definition boxView : View :=
  mkView (fun _ => false) (fun _ => false) (fun _ => false)
    (fun p =>
       match p with
       | [1; 0; 0] => (mkDOMRect 10 10 14 14 4 4)%float
       | [1; 0; 1] => (mkDOMRect 20 20 60 50 40 30)%float
       | [1] => (mkDOMRect 5 5 95 95 90 90)%float
       | _ => (mkDOMRect 0 0 1000 1000 1000 1000)%float
       end).

Definition boxRect : SelectionRect := (mkSelectionRect 100 0 0 100)%float.

(** ** Vocabulary for removal *)

(** The references of the elements that satisfy [f], in tree order. *)
Definition carriers (f : node -> bool) (root : node) : list path :=
  map fst (filter (fun e => f (snd e)) (elements root)).

Definition carriersFrom (f : node -> bool) (l : list node) (i : nat)
  : list path :=
  map fst (filter (fun e => f (snd e)) (elementsFrom l i)).

(** [p] is [q] or above it. *)
Definition isPrefixb (p q : path) : bool :=
  path_eqb p (firstn (length p) q).

(** What removeHighlight puts in the place of an element. *)
Definition asText (n : node) : res (list node) := Val [Text (descText n)].

(** Below some element already replaced. *)
Definition underGone (gone : list path) (q : path) : bool :=
  existsb (fun g => isStrictPrefix g q) gone.

(** A test that looks at the element itself, not at its children. *)
Definition shallow (f : node -> bool) : Prop :=
  forall t g c ks ks', f (Elem t g c ks) = f (Elem t g c ks').

(** The document has a body at [b], and the body element does not carry
    the annotation [id]. *)
Definition bodyKept (id : str) (b : path) (root : node) : Prop :=
  body root = Some b
  /\ exists bodyNode, nodeAt root b = Some bodyNode
                      /\ hasGogoId id bodyNode = false.

(** ** Sample identifiers and documents for removal *)

(** An identifier with a line feed in it. *)
Definition brokenId : str :=
  txt "a" ++ [ascii_of_nat 10] ++ txt "b".

(** A document whose body carries an annotation identifier. *)
Definition taggedBodyDoc : node :=
  Elem (txt "html") None []
    [Elem (txt "head") None [] [];
     Elem (txt "body") (Some (txt "a1")) [] [Text (txt "Hello")]].


(** ** Sample documents for restoration *)

(** A document with text in its head. *)
Definition titleDoc : node :=
  Elem (txt "html") None []
    [Elem (txt "head") None []
       [Elem (txt "title") None [] [Text (txt "Hi")]];
     Elem (txt "body") None []
       [Elem (txt "p") None [] [Text (txt "x")]]].

(** A document whose body holds no text node. *)
Definition imageDoc : node :=
  Elem (txt "html") None []
    [Elem (txt "body") None []
       [Elem (txt "img") None [] []; Elem (txt "img") None [] []]].

(** A document with a marker whose identifier has a line feed in it. *)
Definition brokenMarkDoc : node :=
  Elem (txt "html") None []
    [Elem (txt "body") None []
       [Elem (txt "p") None []
          [markElement agree brokenId [Text (txt "Hello")]]]].

(** ** Vocabulary for normalization *)

(** Below the node no text node is empty and no two text nodes are
    neighbours. *)
Fixpoint normalized (n : node) : bool :=
  match n with
  | Elem _ _ _ ks =>
      (fix each (l : list node) : bool :=
         match l with
         | [] => true
         | Text d :: rest =>
             negb (length d =? 0)
             && match rest with Text _ :: _ => false | _ => true end
             && each rest
         | k :: rest => normalized k && each rest
         end) ks
  | _ => true
  end.

Fixpoint normalizedList (l : list node) : bool :=
  match l with
  | [] => true
  | Text d :: rest =>
      negb (length d =? 0)
      && match rest with Text _ :: _ => false | _ => true end
      && normalizedList rest
  | k :: rest => normalized k && normalizedList rest
  end.

(** ** Further sample documents *)

(** A document whose body starts with a comment. *)
Definition commentDoc : node :=
  Elem (txt "html") None []
    [Elem (txt "body") None []
       [Comment (txt "note");
        Elem (txt "p") None [] [Text (txt "abc")]]].

(** A document with an element whose name has a prefix. *)
Definition prefixedDoc : node :=
  Elem (txt "html") None []
    [Elem (txt "body") None []
       [Elem (txt "a:b") None [] [Text (txt "abc")]]].


(* ================================================================== *)
(** ** ancestor.ts: findCommonAncestor, getElementDepth,
       isReasonableAncestor, getOutermostElements *)

(** The functions of this file and of the detector only write to the
    console besides what they return; their messages are left out. *)

(** [ancestor.contains(el)]: the element itself or one below it. *)
Definition contains (ancestor el : path) : bool := isPrefixb ancestor el.

(** The [while] loop of findCommonAncestor: the element and its ancestors,
    nearest first, up to and without the root element.  [current] is kept
    reversed, as in [xpathLoop]. *)
Fixpoint ancestorChain (revCurrent : list nat) : list path :=
  match revCurrent with
  | [] => []
  | _ :: revParent => rev revCurrent :: ancestorChain revParent
  end.

Definition findCommonAncestor (root : node) (elements : list path)
  : option path :=
  match elements with
  | [] => body root
  | [only] => Some only
  | first :: _ =>
      let ancestors := ancestorChain (rev first) in
      match find (fun ancestor =>
                    forallb (fun el => contains ancestor el) elements)
                 ancestors with
      | Some ancestor => Some ancestor
      | None => body root
      end
  end.

(** getElementDepth has the loop of getDepth. *)
Definition getElementDepth (root : node) (element : path) : nat :=
  depthLoop (body root) (rev element) 0.

Record Viewport : Type := mkViewport {
  innerWidth : float;
  innerHeight : float
}.

(** [a / b > 0.8] on doubles; the literal is the double nearest to 0.8.
    Over zero a positive number gives Infinity, which is above, and zero
    gives NaN, which fails the comparison. *)
Definition ratioAbove (a b : float) : bool :=
  gtq (a / b)%float 0x1.999999999999ap-1%float.

(** [ancestor] is what findCommonAncestor returned, [None] for null:
    reading [tagName] of null raises. *)
Definition isReasonableAncestor (root : node) (v : View) (vp : Viewport)
  (ancestor : option path) : res bool :=
  if match ancestor, body root with
     | Some a, Some b => path_eqb a b
     | None, None => true
     | _, _ => false
     end
  then Val false
  else
    match ancestor with
    | None => Exc TypeError
    | Some a =>
        if path_eqb a []
           || match nodeAt root a with
              | Some n => hasTag (txt "body") n || hasTag (txt "html") n
              | None => false
              end
        then Val false
        else
          let depth := getElementDepth root a in
          if depth <? 3 then Val false
          else if 10 <? depth then Val false
          else
            let bounds := getBoundingClientRect v a in
            if ratioAbove (width bounds) (innerWidth vp)
               || ratioAbove (height bounds) (innerHeight vp)
            then Val false
            else Val true
    end.

Definition getOutermostElements (elements : list path) : list path :=
  if length elements <=? 1 then elements
  else
    filter (fun el =>
              let isContainedByOther :=
                existsb (fun other =>
                           negb (path_eqb other el) && contains other el)
                        elements in
              negb isContainedByOther)
           elements.

(* ================================================================== *)
(** ** detector.ts: isMeaningfulElement *)

(** White space and line terminators below 256. *)
Definition isWhiteSpace (c : ascii) : bool :=
  match nat_of_ascii c with
  | 9 | 10 | 11 | 12 | 13 | 32 | 160 => true
  | _ => false
  end.

Fixpoint trimStart (s : str) : str :=
  match s with
  | [] => []
  | c :: rest => if isWhiteSpace c then trimStart rest else s
  end.

(** [String.prototype.trim] *)
Definition trim (s : str) : str := rev (trimStart (rev (trimStart s))).

Definition isMeaningfulElement (root : node) (el : path) : bool :=
  match nodeAt root el with
  | None => false
  | Some n =>
      let tag := tagOf n in
      if str_eqb tag (txt "img") || str_eqb tag (txt "svg")
         || str_eqb tag (txt "canvas") then true
      else if existsb (str_eqb tag)
                [txt "a"; txt "button"; txt "input"; txt "select";
                 txt "textarea"] then true
      else
        let text := trim (textContent n) in
        0 <? length text
  end.

(** ** Vocabulary for common ancestors *)

(** The longest common prefix of the references. *)
Definition commonPrefixAll (l : list path) : path :=
  match l with
  | [] => []
  | x :: rest => fold_left commonPrefix rest x
  end.

(** ** Sample page for the element hunter *)

Definition listDoc : node :=
  Elem (txt "html") None []
    [Elem (txt "head") None [] [];
     Elem (txt "body") None []
       [Elem (txt "main") None []
          [Elem (txt "section") None []
             [Elem (txt "ul") None []
                [Elem (txt "li") None [] [Text (txt "one")];
                 Elem (txt "li") None [] [Text (txt "two")];
                 Elem (txt "li") None [] [Text (txt " ")]]]]]].

Definition listView : View :=
  mkView (fun _ => false) (fun _ => false) (fun _ => false)
    (fun p =>
       match p with
       | [1; 0; 0; 0] => (mkDOMRect 10 10 210 110 200 100)%float
       | [1; 0; 0; 0; 0] => (mkDOMRect 10 10 210 40 200 30)%float
       | [1; 0; 0; 0; 1] => (mkDOMRect 10 40 210 70 200 30)%float
       | [1; 0; 0; 0; 2] => (mkDOMRect 10 70 210 100 200 30)%float
       | _ => (mkDOMRect 0 0 1000 800 1000 800)%float
       end).

Definition listViewport : Viewport := (mkViewport 1000 800)%float.

(* ================================================================== *)
(** ** highlighter.ts: findTextNode (the older search) *)

Record TextNodeResult : Type := mkTextNodeResult {
  resNode : path;
  resOffset : nat;
  resLength : nat
}.

Definition resUnder (i : nat) (r : TextNodeResult) : TextNodeResult :=
  mkTextNodeResult (i :: resNode r) (resOffset r) (resLength r).

(** The inner [traverse] of findTextNode, [currentOffset] threaded as in
    [traverse] above; the upper bound of the test is strict here. *)
Fixpoint traverseOld (startOffset len : nat) (n : node) (currentOffset : nat)
  : TextNodeResult + nat :=
  match n with
  | Text d =>
      let textLength := length d in
      if (currentOffset <=? startOffset)
         && (startOffset <? currentOffset + textLength)
      then inl (mkTextNodeResult [] (startOffset - currentOffset)
                  (Nat.min len (textLength - (startOffset - currentOffset))))
      else inr (currentOffset + textLength)
  | Comment _ => inr currentOffset
  | Elem _ _ _ ks =>
      (fix each (l : list node) (i cur : nat) {struct l}
         : TextNodeResult + nat :=
         match l with
         | [] => inr cur
         | child :: rest =>
             match traverseOld startOffset len child cur with
             | inl r => inl (resUnder i r)
             | inr cur' => each rest (S i) cur'
             end
         end) ks 0 currentOffset
  end.

Fixpoint traverseOldFrom (startOffset len : nat) (l : list node) (i cur : nat)
  : TextNodeResult + nat :=
  match l with
  | [] => inr cur
  | child :: rest =>
      match traverseOld startOffset len child cur with
      | inl r => inl (resUnder i r)
      | inr cur' => traverseOldFrom startOffset len rest (S i) cur'
      end
  end.

Definition findTextNode (root : node) (startOffset len : nat)
  : option TextNodeResult :=
  match traverseOld startOffset len root 0 with
  | inl r => Some r
  | inr _ => None
  end.

(** The same search over the list of text nodes. *)
Fixpoint scanOld (startOffset len : nat) (ts : list (path * str)) (cur : nat)
  : TextNodeResult + nat :=
  match ts with
  | [] => inr cur
  | (p, d) :: rest =>
      if (cur <=? startOffset) && (startOffset <? cur + length d)
      then inl (mkTextNodeResult p (startOffset - cur)
                  (Nat.min len (length d - (startOffset - cur))))
      else scanOld startOffset len rest (cur + length d)
  end.

(* ================================================================== *)
(** ** xpath.ts: locateByXPath *)

(** The empty string is falsy; what [document.evaluate] raises is caught
    and gives null. *)
Definition locateByXPath (B : Browser) (xp : xpath) : M (option path) :=
  match xp with
  | [] => ret None
  | _ => catch (evaluate B xp) (fun _ => ret None)
  end.

(* ================================================================== *)
(** ** highlighter.ts: clearAllHighlights *)

(** The selector [[data-gogo-id]]: the attribute is there, whatever its
    value. *)
Definition hasAnyGogoId (n : node) : bool :=
  match n with
  | Elem _ (Some _) _ _ => true
  | _ => false
  end.

(** The [forEach] of clearAllHighlights: the loop of [removeEach], which
    writes nothing on the console. *)
Fixpoint clearEach (gone : list path) (l : list path) : M unit :=
  match l with
  | [] => ret tt
  | el :: rest =>
      root <- getDom ;;
      (if existsb (fun g => isStrictPrefix g el) gone then ret tt
       else
         root' <- lift (editDocument el
                          (fun n => Val [Text (descText n)]) root) ;;
         setDom root') ;;;
      clearEach (el :: gone) rest
  end.

(** The three messages of clearAllHighlights only tell that it started,
    how many elements it found and that it ended; they are left out. *)
Definition clearAllHighlights : M unit :=
  root <- getDom ;;
  let highlights :=
    map fst (filter (fun e => hasAnyGogoId (snd e)) (elements root)) in
  clearEach [] highlights ;;;
  normalizeBody.

(** ** Vocabulary for the undoing of highlights *)

(** The document with every outermost element that satisfies [f] replaced
    by a text node of its text. *)
Fixpoint strip (f : node -> bool) (n : node) : node :=
  match n with
  | Elem t g c ks =>
      if f n then Text (descText n) else Elem t g c (map (strip f) ks)
  | _ => n
  end.

(** A document with a body whose body element does not satisfy [f]. *)
Definition bodyFree (f : node -> bool) (root : node) : bool :=
  hasTag (txt "html") root
  && match find isBodyTag (kids root) with
     | Some bodyNode => negb (f bodyNode)
     | None => false
     end.

(** Sample documents with highlights. *)
Definition markedDoc : node :=
  Elem (txt "html") None []
    [Elem (txt "head") None [] [];
     Elem (txt "body") None []
       [Elem (txt "p") None []
          [Text (txt "Hello ");
           Elem (txt "mark") (Some (txt "a1")) (txt "gogo-highlight-agree")
             [Text (txt "wor");
              Elem (txt "mark") (Some (txt "b2"))
                (txt "gogo-highlight-question") [Text (txt "ld")]];
           Text (txt "!")];
        Elem (txt "p") None []
          [Elem (txt "mark") (Some (txt "b2"))
             (txt "gogo-highlight-question") [Text (txt "Bye")]]]].

(** The texts of the elements that satisfy [f], in tree order. *)
Fixpoint markTexts (f : node -> bool) (n : node) : list str :=
  match n with
  | Elem _ _ _ ks =>
      (if f n then [descText n] else []) ++ concat (map (markTexts f) ks)
  | _ => []
  end.

(** ** Vocabulary for a page that loads while the restoration polls *)

(** The document at the [j]-th firing of the timer of an annotation
    started at [t0], when only the host page has changed it. *)
Fixpoint pageAt (host : nat -> node -> node) (t0 j : nat) (root : node)
  : node :=
  match j with
  | 0 => root
  | S j' => host (t0 + j * RETRY_INTERVAL) (pageAt host t0 j' root)
  end.

(* ================================================================== *)
(** ** GOGOMode.tsx: creating and deleting an annotation *)

Inductive toast : Type :=
| ToastCreated                          (* annotation created *)
| ToastFailed                           (* creation failed, try again *)
| ToastDeleted                          (* annotation deleted *)
| ToastSelectionTooLarge.               (* selection too large or scattered *)

Inductive message : Type :=
| NEW_ANNOTATION (a : GOGOAnnotation)
| REMOVE_ANNOTATION (id : str)
| SHOW_TOAST (t : toast).

(** The extension around the page: whether its context is still valid
    ([chrome.runtime.id] is defined), and whether
    [chrome.storage.local.set] takes a list. *)
Record Extension : Type := mkExtension {
  contextValid : bool;
  storageSet : list GOGOAnnotation -> bool
}.

(** The component between two events: the first range of the selection
    of the window, the state of the hooks, the messages handed to
    [chrome.runtime.sendMessage], the page.  Of an annotation the fields
    that restoration reads are kept.  The console messages of the
    component are left out. *)
Record component : Type := mkComponent {
  selection : option range;
  annotations : list GOGOAnnotation;
  selectedAnnotation : option GOGOAnnotation;
  menuVisible : bool;
  tooltipVisible : bool;
  sent : list message;
  shown : page
}.

Definition onShown (p : page) (c : component) : component :=
  mkComponent (selection c) (annotations c) (selectedAnnotation c)
    (menuVisible c) (tooltipVisible c) (sent c) p.

(** highlighter.ts: captureTextSelection *)
Definition captureTextSelection (c : component) : option range :=
  match selection c with
  | None => None
  | Some r => if collapsed r then None else Some r
  end.

(** performance.ts: safeSendMessage; what [sendMessage] raises is caught. *)
Definition safeSendMessage (E : Extension) (m : message) (c : component)
  : component :=
  if contextValid E then
    mkComponent (selection c) (annotations c) (selectedAnnotation c)
      (menuVisible c) (tooltipVisible c) (sent c ++ [m]) (shown c)
  else c.

(** HunterMode.tsx: handleDragSelect *)

Record Position : Type := mkPosition {
  posX : float;
  posY : float
}.

(** What handleDragSelect leaves in the state of the component: nothing,
    one element as a container, a warning toast, or a group under its
    common ancestor; with the place of the edit panel. *)
Inductive dragResult : Type :=
| DragIgnored
| DragContainer (el : path) (panel : Position)
| DragRejected (toast : message)
| DragGroup (ancestor : path) (elements : list path) (panel : Position).

Definition panelBeside (v : View) (el : path) : Position :=
  mkPosition (right (getBoundingClientRect v el) + 10)%float
             (top (getBoundingClientRect v el)).

(** [chrome.runtime.sendMessage] called directly, outside any [try]: on an
    invalidated extension context the call raises. *)
Definition sendMessage (E : Extension) (m : message) : res unit :=
  if contextValid E then Val tt else Exc ContextInvalidated.

Definition handleDragSelect (E : Extension) (root : node) (v : View)
  (vp : Viewport) (elements : list path) : res dragResult :=
  let meaningful := filter (isMeaningfulElement root) elements in
  match meaningful with
  | [] => Val DragIgnored
  | _ =>
      let outermost := getOutermostElements meaningful in
      match outermost with
      | [el] => Val (DragContainer el (panelBeside v el))
      | _ =>
          let ancestor := findCommonAncestor root outermost in
          match isReasonableAncestor root v vp ancestor with
          | Exc e => Exc e
          | Val false =>
              match sendMessage E (SHOW_TOAST ToastSelectionTooLarge) with
              | Val _ => Val (DragRejected (SHOW_TOAST ToastSelectionTooLarge))
              | Exc e => Exc e
              end
          | Val true =>
              match ancestor with
              | Some a => Val (DragGroup a outermost (panelBeside v a))
              | None => Exc TypeError
              end
          end
      end
  end.

(** useStorage.ts: the update function; [false] for a rejected promise.
    With an invalid context it returns without writing. *)
Definition setValue (E : Extension) (value : list GOGOAnnotation)
  (c : component) : bool * component :=
  if negb (contextValid E) then (true, c)
  else if storageSet E value then
    (true,
     mkComponent (selection c) value (selectedAnnotation c)
       (menuVisible c) (tooltipVisible c) (sent c) (shown c))
  else (false, c).

(** [mark.dataset.gogoId], when it is a string that is not empty. *)
Definition gogoIdOf (root : node) (mark : path) : option str :=
  match nodeAt root mark with
  | Some (Elem _ (Some (ch :: g)) _ _) => Some (ch :: g)
  | _ => None
  end.

(** The [catch] of handleAnnotate. *)
Definition annotateFailed (E : Extension) (p : page) (c : component)
  : component :=
  safeSendMessage E (SHOW_TOAST ToastFailed) (onShown p c).

Definition handleAnnotate (E : Extension) (B : Browser)
  (type : annotationType) (c : component) : component :=
  match captureTextSelection c with
  | None => c
  | Some r =>
      let info := createLocationInfo (dom (shown c)) r in
      match fst info, exact (snd info) with
      | [], _ => annotateFailed E (shown c) c
      | _, [] => annotateFailed E (shown c) c
      | _, _ =>
          match highlightRange B r type None (shown c) with
          | (Val (Some mark), p) =>
              match gogoIdOf (dom p) mark with
              | Some id =>
                  let annotation :=
                    mkAnnotation id (fst info) (snd info) type in
                  match setValue E (annotations c ++ [annotation])
                          (onShown p c) with
                  | (true, c1) =>
                      let c2 :=
                        safeSendMessage E (NEW_ANNOTATION annotation) c1 in
                      let c3 :=
                        safeSendMessage E (SHOW_TOAST ToastCreated) c2 in
                      mkComponent None (annotations c3)
                        (selectedAnnotation c3) false (tooltipVisible c3)
                        (sent c3) (shown c3)
                  | (false, _) => annotateFailed E p c
                  end
              | None => annotateFailed E p c
              end
          | (_, p) => annotateFailed E p c
          end
      end
  end.

(** The [catch] of handleDeleteAnnotation writes on the console only. *)
Definition handleDeleteAnnotation (E : Extension) (B : Browser)
  (c : component) : component :=
  match selectedAnnotation c with
  | None => c
  | Some sel =>
      match setValue E
              (filter (fun a => negb (str_eqb (annId a) (annId sel)))
                      (annotations c)) c with
      | (true, c1) =>
          match removeHighlight B (annId sel) (shown c1) with
          | (Val _, p) =>
              let c2 :=
                safeSendMessage E (REMOVE_ANNOTATION (annId sel))
                  (onShown p c1) in
              let c3 := safeSendMessage E (SHOW_TOAST ToastDeleted) c2 in
              mkComponent (selection c3) (annotations c3) None
                (menuVisible c3) false (sent c3) (shown c3)
          | (Exc _, p) => onShown p c1
          end
      | (false, c1) => c1
      end
  end.

(** ** Samples for the polling and for the component *)

(** A page that has not loaded its text yet, and a host page that puts
    it there one second after the start. *)
Definition loadingDoc : node :=
  Elem (txt "html") None []
    [Elem (txt "head") None [] []; Elem (txt "body") None [] []].

Definition lateHost (t : nat) (root : node) : node :=
  if 1000 <=? t then helloDoc else root.

Definition bigAnnotation : GOGOAnnotation :=
  mkAnnotation (txt "a1") [] (mkTextQuote (txt "big") [] []) agree.

Definition helloComponent : component :=
  mkComponent (Some (mkRange [1; 0; 0] 2 [1; 0; 2] 3)) [] None true false []
    (mkPage helloDoc []).

(** An extension that stores, one whose storage is full, one whose
    context is gone. *)
Definition storingExtension : Extension := mkExtension true (fun _ => true).
Definition fullExtension : Extension := mkExtension true (fun _ => false).
Definition staleExtension : Extension := mkExtension false (fun _ => true).

(** Number of elements that satisfy [g] and are neither an element that
    satisfies [f] nor inside one. *)
Fixpoint countOutside (f g : node -> bool) (n : node) : nat :=
  match n with
  | Elem _ _ _ ks =>
      if f n then 0
      else (if g n then 1 else 0) + list_sum (map (countOutside f g) ks)
  | _ => 0
  end.

(** ** Vocabulary for what a computation leaves alone *)

(** Whatever the outcome, the document satisfies [P] afterwards when it
    did before. *)
Definition keeps {A} (P : node -> Prop) (m : M A) : Prop :=
  forall s, P (dom s) -> P (dom (snd (m s))).

(** Every wrap of a text node for the annotation [id] keeps [P]. *)
Definition wrapStable (P : node -> Prop) (type : annotationType) (id : str)
  : Prop :=
  forall p a b root root',
    editDocument p (surroundText (markElement type id) a b) root = Val root' ->
    P root -> P root'.

(** ** Sample boxes on which doubles and real numbers part *)

(** A box of 15 by 8.8 and a selection that ends one unit in the last
    place before its middle: the overlap ratio rounds to 0.5. *)
Definition edgeView : View :=
  mkView (fun _ => false) (fun _ => false) (fun _ => false)
    (fun _ => (mkDOMRect 0 0 15 0x1.199999999999ap+3
                         15 0x1.199999999999ap+3)%float).

Definition edgeRect : SelectionRect :=
  (mkSelectionRect 0 0 0x1.dffffffffffffp+2 0x1.199999999999ap+3)%float.

(** A box of 6 by 6 so far out (at 1e17) that its right edge rounds onto
    its left edge, and a selection of one point there. *)
Definition farView : View :=
  mkView (fun _ => false) (fun _ => false) (fun _ => false)
    (fun _ => (mkDOMRect 0x1.6345785d8ap+56 0x1.6345785d8ap+56
                         0x1.6345785d8ap+56 0x1.6345785d8ap+56 6 6)%float).

Definition farRect : SelectionRect :=
  (mkSelectionRect 0x1.6345785d8ap+56 0x1.6345785d8ap+56
                   0x1.6345785d8ap+56 0x1.6345785d8ap+56)%float.

(** The list of [listDoc] 819.2 wide in a viewport of 1024 by 800. *)
Definition wideView : View :=
  mkView (fun _ => false) (fun _ => false) (fun _ => false)
    (fun _ => (mkDOMRect 0 0 0x1.999999999999ap+9 100
                         0x1.999999999999ap+9 100)%float).

Definition wideViewport : Viewport := (mkViewport 1024 800)%float.

(** ** Vocabulary for the wrap loop *)

(** [setStart] and [setEnd] accept the offsets of the tuple: they lie
    inside its text node. *)
Definition fits (root : node) (f : textNodeRange) : bool :=
  match nodeAt root (trNode f) with
  | Some (Text d) => (trStart f <=? length d) && (trEnd f <=? length d)
  | _ => false
  end.

(** What the loop writes to the console for the tuples [l] of the
    document [root], the first of them at position [index] of the array. *)
Fixpoint wrapLog (root : node) (index : nat) (l : list textNodeRange)
  : list event :=
  match l with
  | [] => []
  | f :: rest =>
      (if fits root f then LogMarkCreated (index + 1)
       else ErrMarkFailed (index + 1) IndexSizeError)
      :: wrapLog root (S index) rest
  end.

(** ** Vocabulary for polling loops that run side by side *)








(** [document.body.textContent], [None] when the body is null. *)
Definition bodyText (root : node) : option str :=
  if hasTag (txt "html") root
  then option_map textContent (find isBodyTag (kids root))
  else None.

(* ================================================================== *)
(** * Properties *)

Unset Implicit Arguments.

(** ** Strings *)

Lemma prefixb_app (pat rest : str) : prefixb pat (pat ++ rest) = true.
Proof.
  induction pat as [|a pat IH]; simpl; [reflexivity|].
  destruct (ascii_dec a a); [exact IH | congruence].
Qed.

Lemma prefixb_split (pat s : str) :
  prefixb pat s = true -> exists rest, s = pat ++ rest.
Proof.
  revert s; induction pat as [|a pat IH]; intros s H; simpl in *.
  - exists s; reflexivity.
  - destruct s as [|b s]; [discriminate|].
    destruct (ascii_dec a b) as [->|]; [|discriminate].
    destruct (IH _ H) as [rest ->]. exists rest; reflexivity.
Qed.

(** A result of [indexOf] is the position of an occurrence. *)
Lemma indexOf_sound (pat s : str) (i : nat) :
  indexOf pat s = Some i ->
  exists before after, s = before ++ pat ++ after /\ length before = i.
Proof.
  revert i; induction s as [|c s IH]; intros i H; simpl in H.
  - destruct (prefixb pat []) eqn:E; [|discriminate].
    injection H as <-. apply prefixb_split in E as [rest E].
    exists [], rest; split; [exact E | reflexivity].
  - destruct (prefixb pat (c :: s)) eqn:E.
    + injection H as <-. apply prefixb_split in E as [rest E].
      exists [], rest; split; [exact E | reflexivity].
    + destruct (indexOf pat s) as [j|] eqn:Ej; [|discriminate].
      injection H as <-.
      destruct (IH j eq_refl) as (before & after & -> & <-).
      exists (c :: before), after; split; reflexivity.
Qed.

Lemma indexOf_unfold (pat s : str) :
  indexOf pat s =
  if prefixb pat s then Some 0
  else match s with
       | [] => None
       | _ :: s' => option_map S (indexOf pat s')
       end.
Proof. destruct s; reflexivity. Qed.

(** [indexOf] finds every string that occurs, at or before the occurrence. *)
Lemma indexOf_complete (pat before after : str) :
  exists i, indexOf pat (before ++ pat ++ after) = Some i /\ i <= length before.
Proof.
  induction before as [|c before IH].
  - exists 0. split; [|simpl; lia].
    rewrite indexOf_unfold. simpl. rewrite prefixb_app. reflexivity.
  - rewrite indexOf_unfold.
    destruct (prefixb pat ((c :: before) ++ pat ++ after)).
    + exists 0; split; [reflexivity | simpl; lia].
    + destruct IH as (i & E & Hi). simpl. rewrite E.
      exists (S i); split; [reflexivity | simpl; lia].
Qed.

Lemma substring_length_le (s : str) (a b : nat) :
  length (substring s a b) <= b - a.
Proof. unfold substring. rewrite length_firstn. lia. Qed.

Lemma substring_split (s : str) (a b : nat) :
  a <= b -> b <= length s ->
  s = firstn a s ++ substring s a b ++ skipn b s.
Proof.
  intros Hab Hb. unfold substring.
  rewrite <- (firstn_skipn a s) at 1. f_equal.
  rewrite <- (firstn_skipn (b - a) (skipn a s)) at 1. f_equal.
  rewrite skipn_skipn. f_equal. lia.
Qed.

Lemma substring_app_mid (a m b : str) :
  substring (a ++ m ++ b) (length a) (length a + length m) = m.
Proof.
  unfold substring. rewrite skipn_app, skipn_all, Nat.sub_diag. simpl.
  replace (length a + length m - length a) with (length m) by lia.
  rewrite firstn_app, firstn_all, Nat.sub_diag. simpl. apply app_nil_r.
Qed.

(** ** Text nodes of a tree *)

Lemma textNodes_Elem t g c ks :
  textNodes (Elem t g c ks) = textNodesFrom ks 0.
Proof. reflexivity. Qed.

Lemma traverse_Elem tgt t g c ks cur :
  traverse tgt (Elem t g c ks) cur = traverseFrom tgt ks 0 cur.
Proof.
  simpl. generalize 0. revert cur.
  induction ks as [|k ks IH]; intros cur i; simpl; [reflexivity|].
  destruct (traverse tgt k cur); [reflexivity | apply IH].
Qed.

Lemma elements_Elem t g c ks :
  elements (Elem t g c ks) = ([], Elem t g c ks) :: elementsFrom ks 0.
Proof. reflexivity. Qed.

Lemma textOf_app (a b : list (path * str)) :
  textOf (a ++ b) = textOf a ++ textOf b.
Proof. unfold textOf. rewrite map_app, concat_app. reflexivity. Qed.

Lemma textOf_single (p : path) (d : str) : textOf [(p, d)] = d.
Proof. unfold textOf. simpl. apply app_nil_r. Qed.

Lemma textOf_cons (p : path) (d : str) (l : list (path * str)) :
  textOf ((p, d) :: l) = d ++ textOf l.
Proof. reflexivity. Qed.

Lemma textOf_under i (l : list (path * str)) :
  textOf (map (under i) l) = textOf l.
Proof.
  unfold textOf. rewrite map_map. f_equal.
Qed.

Lemma descText_textNodes (n : node) : descText n = textOf (textNodes n).
Proof.
  induction n as [d|d|t g c ks IH] using node_ind.
  - simpl. unfold textOf. simpl. symmetry; apply app_nil_r.
  - reflexivity.
  - rewrite textNodes_Elem. simpl. generalize 0.
    induction IH as [|k ks Hk _ IHks]; intro i; simpl; [reflexivity|].
    rewrite textOf_app, textOf_under, <- Hk, <- IHks. reflexivity.
Qed.

Lemma scan_app tgt (a b : list (path * str)) cur :
  scan tgt (a ++ b) cur =
  match scan tgt a cur with
  | inl r => inl r
  | inr cur' => scan tgt b cur'
  end.
Proof.
  revert cur; induction a as [|[p d] a IH]; intro cur; simpl; [reflexivity|].
  destruct ((cur <=? tgt) && (tgt <=? cur + length d)); [reflexivity|].
  apply IH.
Qed.

Lemma scan_under tgt i (l : list (path * str)) cur :
  scan tgt (map (under i) l) cur =
  match scan tgt l cur with
  | inl r => inl (under i r)
  | inr cur' => inr cur'
  end.
Proof.
  revert cur; induction l as [|[p d] l IH]; intro cur; simpl; [reflexivity|].
  destruct ((cur <=? tgt) && (tgt <=? cur + length d)); [reflexivity|].
  apply IH.
Qed.

(** The recursive search is the linear search over the text nodes. *)
Lemma traverse_scan tgt (n : node) cur :
  traverse tgt n cur = scan tgt (textNodes n) cur.
Proof.
  revert cur; induction n as [d|d|t g c ks IH] using node_ind; intro cur.
  - simpl. destruct ((cur <=? tgt) && (tgt <=? cur + length d)); reflexivity.
  - reflexivity.
  - rewrite traverse_Elem, textNodes_Elem. generalize 0. revert cur.
    induction IH as [|k ks Hk _ IHks]; intros cur i; simpl; [reflexivity|].
    rewrite scan_app, scan_under, Hk.
    destruct (scan tgt (textNodes k) cur); [reflexivity | apply IHks].
Qed.

Lemma scan_past tgt (ts : list (path * str)) cur :
  cur + length (textOf ts) < tgt ->
  scan tgt ts cur = inr (cur + length (textOf ts)).
Proof.
  revert cur; induction ts as [|[p d] ts IH]; intros cur H.
  - simpl. f_equal. unfold textOf; simpl; lia.
  - unfold textOf in *; simpl in *. rewrite length_app in *.
    replace (tgt <=? cur + length d) with false
      by (symmetry; apply Nat.leb_gt; lia).
    rewrite andb_false_r, IH by lia. f_equal; lia.
Qed.

(** The search stops at the first text node whose end reaches the target. *)
Lemma scan_first tgt (pre : list (path * str)) p d post cur :
  cur <= tgt ->
  cur + length (textOf pre) < tgt \/ pre = [] ->
  tgt <= cur + length (textOf pre) + length d ->
  scan tgt (pre ++ (p, d) :: post) cur
  = inl (p, tgt - (cur + length (textOf pre))).
Proof.
  intros Hc Hpre Hd. rewrite scan_app.
  destruct Hpre as [Hpre | ->].
  - rewrite scan_past by exact Hpre. simpl.
    replace (cur + length (textOf pre) <=? tgt) with true
      by (symmetry; apply Nat.leb_le; lia).
    replace (tgt <=? cur + length (textOf pre) + length d) with true
      by (symmetry; apply Nat.leb_le; lia).
    reflexivity.
  - simpl. unfold textOf in *; simpl in *.
    replace (cur <=? tgt) with true by (symmetry; apply Nat.leb_le; lia).
    replace (tgt <=? cur + length d) with true
      by (symmetry; apply Nat.leb_le; lia).
    simpl. do 2 f_equal. lia.
Qed.

(** Whatever is found lies in the part of the list that reaches the
    target. *)
Lemma scan_within tgt (pre post : list (path * str)) cur :
  cur <= tgt -> tgt <= cur + length (textOf pre) -> pre <> [] ->
  exists p o, scan tgt (pre ++ post) cur = inl (p, o) /\ In p (map fst pre).
Proof.
  revert cur; induction pre as [|[p d] pre IH]; intros cur Hc Ht Hne;
    [congruence|].
  unfold textOf in Ht; simpl in Ht; rewrite length_app in Ht.
  simpl. destruct (Nat.leb_spec tgt (cur + length d)) as [Hle|Hgt].
  - replace (cur <=? tgt) with true by (symmetry; apply Nat.leb_le; lia).
    simpl. eexists _, _. split; [reflexivity | left; reflexivity].
  - rewrite andb_false_r.
    destruct pre as [|x pre'].
    + simpl in Ht. lia.
    + destruct (IH (cur + length d)) as (q & o & E & Hin);
        [lia | unfold textOf; lia | discriminate |].
      exists q, o. split; [exact E | right; exact Hin].
Qed.

Lemma under_fst_head {A} i (l : list (path * A)) p :
  In p (map fst (map (under i) l)) -> exists q, p = i :: q /\ In q (map fst l).
Proof.
  rewrite map_map. intro H. apply in_map_iff in H as ([q a] & <- & Hin).
  exists q. split; [reflexivity|]. apply in_map_iff. exists (q, a). auto.
Qed.

Lemma textNodesFrom_head ks i p :
  In p (map fst (textNodesFrom ks i)) -> exists j q, p = j :: q /\ i <= j.
Proof.
  revert i; induction ks as [|k ks IH]; intros i H; simpl in H; [contradiction|].
  rewrite map_app in H. apply in_app_or in H as [H|H].
  - apply under_fst_head in H as (q & -> & _). exists i, q. split; [reflexivity|lia].
  - destruct (IH _ H) as (j & q & -> & Hj). exists j, q. split; [reflexivity|lia].
Qed.

Lemma NoDup_map_cons (i : nat) (l : list path) :
  NoDup l -> NoDup (map (cons i) l).
Proof.
  induction 1 as [|x l Hx _ IH]; simpl; constructor; [|exact IH].
  intro H. apply in_map_iff in H as (y & E & Hy). injection E as ->. auto.
Qed.

(** No two text nodes share a reference. *)
Lemma textNodes_NoDup (n : node) : NoDup (map fst (textNodes n)).
Proof.
  induction n as [d|d|t g c ks IH] using node_ind.
  - simpl. constructor; [intros []|constructor].
  - constructor.
  - rewrite textNodes_Elem. generalize 0.
    induction IH as [|k ks Hk _ IHks]; intro i; simpl; [constructor|].
    rewrite map_app. apply NoDup_app; repeat split.
    + rewrite map_map. simpl.
      rewrite <- (map_map fst (cons i)).
      apply NoDup_map_cons; exact Hk.
    + apply IHks.
    + intros p H1 H2. apply under_fst_head in H1 as (q & -> & _).
      apply textNodesFrom_head in H2 as (j & q' & E & Hj).
      injection E as -> _. lia.
Qed.

(* ================================================================== *)
(** ** findTextNodeAtOffset at and past the boundaries *)

Lemma findTextNodeAtOffset_scan (root : node) (target : nat) :
  findTextNodeAtOffset root target =
  match scan target (textNodes root) 0 with
  | inl r => Some r
  | inr _ => None
  end.
Proof. unfold findTextNodeAtOffset. rewrite traverse_scan. reflexivity. Qed.

(** Every offset up to the length of the text is found, at the position
    it denotes: the text before the node found and the local offset add
    up to the target. *)
Lemma scan_finds tgt (ts : list (path * str)) cur :
  ts <> [] -> cur <= tgt -> tgt <= cur + length (textOf ts) ->
  exists pre p d post,
    ts = pre ++ (p, d) :: post
    /\ scan tgt ts cur = inl (p, tgt - (cur + length (textOf pre)))
    /\ cur + length (textOf pre) <= tgt
    /\ tgt <= cur + length (textOf pre) + length d
    /\ (pre = [] \/ cur + length (textOf pre) < tgt).
Proof.
  revert cur; induction ts as [|[p d] ts IH]; intros cur Hne Hc Ht;
    [congruence|].
  unfold textOf in Ht; simpl in Ht; rewrite length_app in Ht.
  destruct (Nat.leb_spec tgt (cur + length d)) as [Hle|Hgt].
  - exists [], p, d, ts. unfold textOf; simpl.
    rewrite Nat.add_0_r.
    replace (cur <=? tgt) with true by (symmetry; apply Nat.leb_le; lia).
    replace (tgt <=? cur + length d) with true
      by (symmetry; apply Nat.leb_le; lia).
    simpl. repeat split; auto; lia.
  - assert (Hts : ts <> []) by (intros ->; simpl in Ht; lia).
    destruct (IH (cur + length d)) as (pre & q & e & post & E & Hs & H1 & H2 & H3);
      [exact Hts | lia | unfold textOf; lia |].
    exists ((p, d) :: pre), q, e, post.
    assert (L : length (textOf ((p, d) :: pre)) = length d + length (textOf pre))
      by (unfold textOf; simpl; rewrite length_app; reflexivity).
    rewrite L. cbn [scan].
    replace (tgt <=? cur + length d) with false
      by (symmetry; apply Nat.leb_gt; lia).
    rewrite andb_false_r, Hs.
    split; [rewrite E; reflexivity|].
    split; [do 2 f_equal; lia|].
    split; [lia|]. split; [lia|]. right.
    destruct H3 as [-> | H3]; [unfold textOf; simpl|]; lia.
Qed.

(** On the boundary that ends a non-empty list of text nodes the search
    answers with the first node of the list that ends there, at its full
    length: every node after it in the list is empty, and it is not empty
    itself unless it is the first of the list. *)
Lemma scan_boundary (ts rest : list (path * str)) :
  ts <> [] ->
  exists before p d between,
    ts = before ++ (p, d) :: between
    /\ textOf between = []
    /\ (d <> [] \/ before = [])
    /\ scan (length (textOf ts)) (ts ++ rest) 0 = inl (p, length d).
Proof.
  intro Hne.
  destruct (scan_finds (length (textOf ts)) ts 0 Hne (Nat.le_0_l _))
    as (before & p & d & between & E & Hs & H1 & H2 & H3); [lia|].
  exists before, p, d, between.
  assert (L : length (textOf ts)
              = length (textOf before) + (length d + length (textOf between))).
  { rewrite E at 1. rewrite textOf_app, length_app, textOf_cons, length_app.
    reflexivity. }
  split; [exact E|]. split; [|split].
  - apply length_zero_iff_nil. lia.
  - destruct H3 as [-> | H3]; [right; reflexivity|].
    left. intros ->. cbn [length] in *. lia.
  - rewrite scan_app, Hs. do 2 f_equal. lia.
Qed.

(** C10 (as corrected).  An offset past the end of the text under the root
    is not found.  On the boundary between two consecutive text nodes the
    search never answers with the later node at offset 0.  It answers with
    the earlier node at its full length when that node is not empty or is
    the first text node under the root.  When the earlier node is empty
    and text nodes precede it, the answer is the first text node that ends
    at the offset, at its full length: the nearest non-empty text node
    before the pair, or the very first text node when all of them are
    empty. *)
Theorem findTextNodeAtOffset_boundary (root : node) (target : nat) :
  (length (descText root) < target ->
   findTextNodeAtOffset root target = None)
  /\ (forall pre pA dA pB dB post,
        textNodes root = pre ++ (pA, dA) :: (pB, dB) :: post ->
        target = length (textOf pre) + length dA ->
        findTextNodeAtOffset root target <> Some (pB, 0)
        /\ (dA <> [] \/ pre = [] ->
            findTextNodeAtOffset root target = Some (pA, length dA))
        /\ (dA = [] -> pre <> [] ->
            exists before p d between,
              pre = before ++ (p, d) :: between
              /\ textOf between = []
              /\ (d <> [] \/ before = [])
              /\ findTextNodeAtOffset root target = Some (p, length d))).
Proof.
  split.
  - intro H. rewrite findTextNodeAtOffset_scan, scan_past; [reflexivity|].
    rewrite <- descText_textNodes. exact H.
  - intros pre pA dA pB dB post E ->. rewrite findTextNodeAtOffset_scan, E.
    split; [|split].
    + replace (pre ++ (pA, dA) :: (pB, dB) :: post)
        with ((pre ++ [(pA, dA)]) ++ (pB, dB) :: post)
        by (rewrite <- app_assoc; reflexivity).
      destruct (scan_within (length (textOf pre) + length dA)
                  (pre ++ [(pA, dA)]) ((pB, dB) :: post) 0)
        as (p & o & -> & Hin).
      * lia.
      * rewrite textOf_app, length_app, textOf_single. lia.
      * destruct pre; discriminate.
      * intro Heq. injection Heq as -> ->.
        pose proof (textNodes_NoDup root) as ND. rewrite E in ND.
        replace (pre ++ (pA, dA) :: (pB, dB) :: post)
          with ((pre ++ [(pA, dA)]) ++ (pB, dB) :: post) in ND
          by (rewrite <- app_assoc; reflexivity).
        rewrite map_app in ND. simpl in ND.
        apply NoDup_remove_2 in ND. apply ND.
        apply in_or_app. left. exact Hin.
    + intro Hcase. rewrite scan_first.
      * do 3 f_equal. lia.
      * lia.
      * destruct Hcase as [Hne | ->]; [|right; reflexivity].
        destruct pre as [|x pre]; [right; reflexivity|]. left.
        destruct dA; [congruence | simpl; lia].
      * lia.
    + intros -> Hpre.
      destruct (scan_boundary pre ((pA, []) :: (pB, dB) :: post) Hpre)
        as (before' & p' & d' & between' & Eb' & Hb' & Hd' & Hs').
      replace (length (textOf pre) + length (@nil ascii))
        with (length (textOf pre)) by (cbn [length]; lia).
      exists before', p', d', between'.
      split; [exact Eb'|]. split; [exact Hb'|]. split; [exact Hd'|].
      exact (f_equal (fun x : (path * nat) + nat =>
                        match x with inl r => Some r | inr _ => None end)
               Hs').
Qed.


Lemma findTextNodeAtOffset_boundary_witness :
  findTextNodeAtOffset boundaryDoc 7 = None
  /\ findTextNodeAtOffset boundaryDoc 2 <> Some ([1], 0)
  /\ findTextNodeAtOffset boundaryDoc 2 = Some ([0], 2)
  /\ exists before p d between,
       [([0], txt "ab")] = before ++ (p, d) :: between
       /\ textOf between = []
       /\ (d <> [] \/ before = [])
       /\ findTextNodeAtOffset boundaryDoc 2 = Some (p, length d).
Proof.
  split.
  - apply (proj1 (findTextNodeAtOffset_boundary boundaryDoc 7)).
    simpl. lia.
  - destruct (proj2 (findTextNodeAtOffset_boundary boundaryDoc 2)
                [] [0] (txt "ab") [1] [] [([2], txt "cd")]
                eq_refl eq_refl) as (H1 & H2 & _).
    split; [exact H1|]. split; [apply H2; left; discriminate|].
    destruct (proj2 (findTextNodeAtOffset_boundary boundaryDoc 2)
                [([0], txt "ab")] [1] [] [2] (txt "cd") []
                eq_refl eq_refl) as (_ & _ & H3).
    apply H3; [reflexivity | discriminate].
Defined.

(** The claim as stated fails where the earlier node of the pair is
    empty: in [ab], [], [cd] the offset 2 lies between the second and the
    third text node, and the first one is returned. *)
Lemma findTextNodeAtOffset_boundary_counterexample :
  ~ (forall root target pre pA dA pB dB post,
       textNodes root = pre ++ (pA, dA) :: (pB, dB) :: post ->
       target = length (textOf pre) + length dA ->
       findTextNodeAtOffset root target = Some (pA, length dA)).
Proof.
  intro H.
  specialize (H boundaryDoc 2 [([0], txt "ab")] [1] [] [2] (txt "cd") []
                eq_refl eq_refl).
  discriminate H.
Qed.

(* ================================================================== *)
(** ** createTextQuote *)

Lemma substring_before (s : str) (n k : nat) :
  n <= length s ->
  exists before after,
    s = before ++ substring s (n - k) n ++ after
    /\ length (before ++ substring s (n - k) n) = n
    /\ length (substring s (n - k) n) = Nat.min k n.
Proof.
  intro H. exists (firstn (n - k) s), (skipn n s).
  assert (L : length (substring s (n - k) n) = Nat.min k n).
  { unfold substring. rewrite length_firstn, length_skipn. lia. }
  split; [apply substring_split; lia|].
  split; [|exact L].
  rewrite length_app, L, length_firstn. lia.
Qed.

Lemma substring_after (s : str) (n k : nat) :
  exists before after,
    s = before ++ substring s n (n + k) ++ after
    /\ (n <= length s -> length before = n)
    /\ length (substring s n (n + k)) = Nat.min k (length s - n).
Proof.
  exists (firstn n s), (skipn k (skipn n s)).
  unfold substring. replace (n + k - n) with k by lia.
  split.
  - rewrite firstn_skipn. symmetry. apply firstn_skipn.
  - split.
    + intro H. rewrite length_firstn. lia.
    + rewrite length_firstn, length_skipn. reflexivity.
Qed.

(** C8.  [exact] is the text of the range; [prefix] is the slice of the
    start container's own text content that ends at [startOffset], 32 code
    units long or as many as precede it; [suffix] is the slice of the end
    container's own text content that starts at [endOffset], 32 code units
    long or as many as follow it. *)
Theorem createTextQuote_context (root : node) (r : range) :
  let q := createTextQuote root r in
  let startText := textContentAt root (startContainer r) in
  let endText := textContentAt root (endContainer r) in
  exact q = rangeToString root r
  /\ prefix q = substring startText (startOffset r - 32) (startOffset r)
  /\ suffix q = substring endText (endOffset r) (endOffset r + 32)
  /\ length (prefix q) <= 32
  /\ length (suffix q) <= 32
  /\ (startOffset r <= length startText ->
      exists before after,
        startText = before ++ prefix q ++ after
        /\ length (before ++ prefix q) = startOffset r
        /\ length (prefix q) = Nat.min 32 (startOffset r))
  /\ (endOffset r <= length endText ->
      exists before after,
        endText = before ++ suffix q ++ after
        /\ length before = endOffset r
        /\ length (suffix q) = Nat.min 32 (length endText - endOffset r)).
Proof.
  simpl. repeat split.
  - etransitivity; [apply substring_length_le | lia].
  - etransitivity; [apply substring_length_le | lia].
  - intro H. apply substring_before. exact H.
  - intro H.
    destruct (substring_after (textContentAt root (endContainer r))
                (endOffset r) 32) as (b & a & E & Hb & L).
    exists b, a. auto.
Qed.


Lemma createTextQuote_context_witness :
  let r := mkRange [1; 0; 0] 2 [1; 0; 2] 3 in
  exact (createTextQuote helloDoc r) = txt "llo big wo"
  /\ prefix (createTextQuote helloDoc r) = txt "He"
  /\ suffix (createTextQuote helloDoc r) = txt "rld"
  /\ exists before after,
       txt "Hello " = before ++ prefix (createTextQuote helloDoc r) ++ after
       /\ length (before ++ prefix (createTextQuote helloDoc r)) = 2
       /\ length (prefix (createTextQuote helloDoc r)) = Nat.min 32 2.
Proof.
  intro r.
  destruct (createTextQuote_context helloDoc r)
    as (_ & _ & _ & _ & _ & Hp & _).
  repeat split; try reflexivity.
  apply Hp. simpl. lia.
Defined.

(* ================================================================== *)
(** ** The order of boundary points *)

Lemma lexCompare_refl (a : list nat) : lexCompare a a = Eq.
Proof. induction a as [|x a IH]; simpl; [|rewrite Nat.compare_refl]; auto. Qed.

Lemma lexCompare_eq (a b : list nat) : lexCompare a b = Eq -> a = b.
Proof.
  revert b; induction a as [|x a IH]; intros [|y b] H; simpl in H;
    try discriminate; [reflexivity|].
  destruct (Nat.compare_spec x y); try discriminate.
  subst. f_equal. apply IH, H.
Qed.

Lemma lexCompare_antisym (a b : list nat) :
  lexCompare b a = CompOpp (lexCompare a b).
Proof.
  revert b; induction a as [|x a IH]; intros [|y b]; simpl; auto.
  rewrite (Nat.compare_antisym x y).
  destruct (x ?= y); simpl; auto.
Qed.

Lemma lexCompare_trans (a b c : list nat) :
  lexCompare a b = Lt -> lexCompare b c = Lt -> lexCompare a c = Lt.
Proof.
  revert b c; induction a as [|x a IH]; intros [|y b] [|z c] H1 H2;
    simpl in *; try discriminate; auto.
  destruct (Nat.compare_spec x y), (Nat.compare_spec y z);
    try discriminate; subst.
  - rewrite Nat.compare_refl. eapply IH; eauto.
  - apply Nat.compare_lt_iff in H0. rewrite H0. reflexivity.
  - apply Nat.compare_lt_iff in H. rewrite H. reflexivity.
  - assert (L : x < z) by lia. apply Nat.compare_lt_iff in L.
    rewrite L. reflexivity.
Qed.

Lemma lexCompare_Gt_Lt (a b : list nat) :
  lexCompare a b = Gt <-> lexCompare b a = Lt.
Proof.
  rewrite (lexCompare_antisym a b). destruct (lexCompare a b); simpl;
    split; congruence.
Qed.

Lemma lexCompare_le_trans (a b c : list nat) :
  lexCompare a b <> Gt -> lexCompare b c = Lt -> lexCompare a c = Lt.
Proof.
  intros H1 H2. destruct (lexCompare a b) eqn:E.
  - apply lexCompare_eq in E. subst. exact H2.
  - eapply lexCompare_trans; eauto.
  - congruence.
Qed.

Lemma lexCompare_trans_le (a b c : list nat) :
  lexCompare a b = Lt -> lexCompare b c <> Gt -> lexCompare a c = Lt.
Proof.
  intros H1 H2. destruct (lexCompare b c) eqn:E.
  - apply lexCompare_eq in E. subst. exact H1.
  - eapply lexCompare_trans; eauto.
  - congruence.
Qed.


Lemma pathLt_lex (a b : path) (u v : list nat) :
  pathLt a b -> lexCompare (a ++ u) (b ++ v) = Lt.
Proof.
  induction 1 as [x y a b H | x a b _ IH]; simpl.
  - apply Nat.compare_lt_iff in H. rewrite H. reflexivity.
  - rewrite Nat.compare_refl. exact IH.
Qed.

Lemma pathLt_lex0 (a b : path) : pathLt a b -> lexCompare a b = Lt.
Proof.
  intro H. pose proof (pathLt_lex a b [] [] H) as L.
  rewrite !app_nil_r in L. exact L.
Qed.

Lemma pathLt_app_r (a b c : path) : pathLt a b -> pathLt a (b ++ c).
Proof.
  induction 1; simpl; [apply pathLt_here | apply pathLt_next]; auto.
Qed.

Lemma pathLt_app_l (a b c : path) : pathLt a b -> pathLt (a ++ c) b.
Proof.
  induction 1; simpl; [apply pathLt_here | apply pathLt_next]; auto.
Qed.

Lemma pathLt_prepend (q a b : path) : pathLt a b -> pathLt (q ++ a) (q ++ b).
Proof.
  intro H. induction q; simpl; [exact H | apply pathLt_next; auto].
Qed.

Lemma pathLt_irrefl (a : path) : ~ pathLt a a.
Proof.
  intro H. apply pathLt_lex0 in H. rewrite lexCompare_refl in H.
  discriminate.
Qed.


(** Appending to the left operand does not change the comparison unless
    the operand is a prefix of the other. *)
Lemma lexCompare_app_l (p u b : list nat) :
  ~ (exists c, c <> [] /\ b = p ++ c) ->
  lexCompare (p ++ u) b =
  match lexCompare p b with
  | Eq => lexCompare u []
  | c => c
  end.
Proof.
  revert b; induction p as [|x p IH]; intros b H.
  - destruct b as [|y b]; simpl.
    + reflexivity.
    + exfalso. apply H. exists (y :: b). split; [discriminate | reflexivity].
  - destruct b as [|y b]; simpl; [reflexivity|].
    destruct (Nat.compare_spec x y); auto. subst.
    apply IH. intros (c & Hc & ->). apply H. exists c. auto.
Qed.

(** The point after the node [parent ++ [i]], against a boundary whose
    container is not below that node. *)
Lemma path_eqb_refl (a : path) : path_eqb a a = true.
Proof. unfold path_eqb. destruct (path_eq_dec a a); congruence. Qed.

Lemma path_eqb_neq (a b : path) : a <> b -> path_eqb a b = false.
Proof. unfold path_eqb. destruct (path_eq_dec a b); congruence. Qed.

Lemma path_eqb_eq (a b : path) : path_eqb a b = true -> a = b.
Proof. unfold path_eqb. destruct (path_eq_dec a b); congruence. Qed.

Lemma path_eqb_cons (x : nat) (a b : path) :
  path_eqb (x :: a) (x :: b) = path_eqb a b.
Proof.
  unfold path_eqb.
  destruct (path_eq_dec a b), (path_eq_dec (x :: a) (x :: b));
    try reflexivity; congruence.
Qed.

Lemma snoc_not_nil {A} (l : list A) (x : A) : l ++ [x] <> [].
Proof. destruct l; discriminate. Qed.

Lemma lexCompare_snoc_nil (l : list nat) (x : nat) :
  lexCompare (l ++ [x]) [] = Gt.
Proof. destruct l; reflexivity. Qed.

Lemma lexCompare_nil_snoc (l : list nat) (x : nat) :
  lexCompare [] (l ++ [x]) = Lt.
Proof. destruct l; reflexivity. Qed.

Lemma lexCompare_after_node (parent : path) (i : nat) (c : path) (o : nat) :
  ~ (exists d, d <> [] /\ c = (parent ++ [i]) ++ d) ->
  isGt (lexCompare (parent ++ [S i]) (c ++ [o]))
  = (path_eqb (parent ++ [i]) c
     || negb (isLt (lexCompare (parent ++ [i]) (c ++ [o])))).
Proof.
  revert c; induction parent as [|x parent IH]; intros c H.
  - destruct c as [|y c]; cbn [app lexCompare].
    + rewrite path_eqb_neq by discriminate.
      destruct (Nat.compare_spec i o), (Nat.compare_spec (S i) o);
        simpl; try reflexivity; lia.
    + destruct (Nat.compare_spec i y), (Nat.compare_spec (S i) y);
        try lia; subst.
      * destruct c as [|z c].
        -- rewrite path_eqb_refl. reflexivity.
        -- exfalso. apply H. exists (z :: c).
           split; [discriminate | reflexivity].
      * rewrite path_eqb_neq by (intro E; injection E; lia).
        destruct c; reflexivity.
      * rewrite path_eqb_neq by (intro E; injection E; lia). reflexivity.
      * rewrite path_eqb_neq by (intro E; injection E; lia). reflexivity.
  - destruct c as [|y c]; cbn [app lexCompare].
    + rewrite path_eqb_neq by discriminate.
      destruct (Nat.compare_spec x o); try reflexivity.
      destruct parent; reflexivity.
    + destruct (Nat.compare_spec x y).
      * subst. rewrite path_eqb_cons. apply IH.
        intros (d & Hd & ->). apply H. exists d. auto.
      * rewrite path_eqb_neq by (intro E; injection E; lia). reflexivity.
      * rewrite path_eqb_neq by (intro E; injection E; lia). reflexivity.
Qed.

(* ================================================================== *)
(** ** References and the text nodes they denote *)

Lemma nodeAt_app (n : node) (p q : path) :
  nodeAt n (p ++ q) =
  match nodeAt n p with
  | Some m => nodeAt m q
  | None => None
  end.
Proof.
  revert n; induction p as [|i p IH]; intro n; simpl; [reflexivity|].
  destruct (nth_error (kids n) i); [apply IH | reflexivity].
Qed.

(** Nothing lies below a text node. *)
Lemma nodeAt_below_text (n : node) (p q : path) (d : str) :
  nodeAt n p = Some (Text d) -> q <> [] -> nodeAt n (p ++ q) = None.
Proof.
  intros H Hq. rewrite nodeAt_app, H. destruct q as [|i q]; [congruence|].
  simpl. destruct i; reflexivity.
Qed.

Lemma In_textNodesFrom (ks : list node) (i : nat) (p : path) (d : str) :
  In (p, d) (textNodesFrom ks i) <->
  exists j k q,
    p = (i + j) :: q /\ nth_error ks j = Some k /\ In (q, d) (textNodes k).
Proof.
  revert i; induction ks as [|k ks IH]; intro i; simpl.
  - split; [intros [] | intros (j & k & q & _ & H & _)].
    destruct j; discriminate.
  - rewrite in_app_iff, IH. split.
    + intros [H | (j & k' & q & -> & Hn & Hin)].
      * apply in_map_iff in H as ([q e] & E & Hin).
        unfold under in E. simpl in E. injection E as <- <-.
        exists 0, k, q. rewrite Nat.add_0_r. auto.
      * exists (S j), k', q. repeat split; auto. f_equal. lia.
    + intros (j & k' & q & -> & Hn & Hin). destruct j as [|j]; simpl in Hn.
      * injection Hn as <-. left. apply in_map_iff.
        exists (q, d). rewrite Nat.add_0_r. auto.
      * right. exists j, k', q. repeat split; auto. f_equal. lia.
Qed.

(** The text nodes listed are the references that denote a text node. *)
Lemma In_textNodes (n : node) (p : path) (d : str) :
  In (p, d) (textNodes n) <-> nodeAt n p = Some (Text d).
Proof.
  revert p; induction n as [e|e|t g c ks IH] using node_ind; intro p.
  - simpl. split.
    + intros [E|[]]. injection E as <- <-. reflexivity.
    + destruct p as [|i p]; simpl.
      * intro E. injection E as <-. auto.
      * destruct i; discriminate.
  - simpl. split; [intros []|].
    destruct p as [|i p]; simpl; [discriminate | destruct i; discriminate].
  - rewrite textNodes_Elem, In_textNodesFrom. split.
    + intros (j & k & q & -> & Hn & Hin). simpl. rewrite Hn.
      rewrite Forall_forall in IH. apply (IH k); [|exact Hin].
      eapply nth_error_In; eauto.
    + destruct p as [|j q]; simpl; [discriminate|].
      destruct (nth_error ks j) as [k|] eqn:Hn; [|discriminate].
      intro H. exists j, k, q. repeat split; auto.
      rewrite Forall_forall in IH. apply (IH k); [|exact H].
      eapply nth_error_In; eauto.
Qed.

Lemma StronglySorted_app {A} (R : A -> A -> Prop) (a b : list A) :
  StronglySorted R a -> StronglySorted R b ->
  (forall x y, In x a -> In y b -> R x y) ->
  StronglySorted R (a ++ b).
Proof.
  induction 1 as [|x a Ha IH Hx]; intros Hb Hab; simpl; [exact Hb|].
  constructor.
  - apply IH; [exact Hb | intros; apply Hab; simpl; auto].
  - apply Forall_app. split; [exact Hx|].
    apply Forall_forall. intros y Hy. apply Hab; simpl; auto.
Qed.

Lemma StronglySorted_map_cons (i : nat) (l : list path) :
  StronglySorted pathLt l -> StronglySorted pathLt (map (cons i) l).
Proof.
  induction 1 as [|x l _ IH Hx]; simpl; constructor; [exact IH|].
  apply Forall_map. eapply Forall_impl; [|exact Hx].
  intros y Hy. apply pathLt_next. exact Hy.
Qed.

Lemma map_fst_under {A} (i : nat) (l : list (path * A)) :
  map fst (map (under i) l) = map (cons i) (map fst l).
Proof. rewrite !map_map. reflexivity. Qed.

(** The text nodes come in tree order. *)
Lemma textNodes_sorted (n : node) :
  StronglySorted pathLt (map fst (textNodes n)).
Proof.
  induction n as [d|d|t g c ks IH] using node_ind.
  - simpl. repeat constructor.
  - constructor.
  - rewrite textNodes_Elem. generalize 0.
    induction IH as [|k ks Hk _ IHks]; intro i; simpl; [constructor|].
    rewrite map_app. apply StronglySorted_app.
    + rewrite map_fst_under. apply StronglySorted_map_cons, Hk.
    + apply IHks.
    + intros x y Hx Hy. apply under_fst_head in Hx as (q & -> & _).
      apply textNodesFrom_head in Hy as (j & q' & -> & Hj).
      apply pathLt_here. lia.
Qed.

Lemma textNodesFrom_app (a b : list node) (i : nat) :
  textNodesFrom (a ++ b) i
  = textNodesFrom a i ++ textNodesFrom b (i + length a).
Proof.
  revert i; induction a as [|k a IH]; intro i; simpl.
  - rewrite Nat.add_0_r. reflexivity.
  - rewrite IH, <- app_assoc. do 3 f_equal. lia.
Qed.

Lemma textNodesFrom_bound (ks : list node) (i : nat) (p : path) :
  In p (map fst (textNodesFrom ks i)) ->
  exists j q, p = j :: q /\ i <= j < i + length ks.
Proof.
  intro H. apply in_map_iff in H as ([p' d] & <- & Hin).
  apply In_textNodesFrom in Hin as (j & k & q & -> & Hn & _).
  exists (i + j), q. split; [reflexivity|].
  assert (j < length ks) by (apply nth_error_Some; congruence). lia.
Qed.



(** The text nodes of a document around one of its nodes: those to the
    left, those below the node, those to the right. *)
Lemma textNodes_around (n : node) (q : path) (m : node) :
  nodeAt n q = Some m ->
  exists before after,
    textNodes n = before ++ map (below q) (textNodes m) ++ after
    /\ Forall (fun t => pathLt (fst t) q) before
    /\ Forall (fun t => pathLt q (fst t)) after.
Proof.
  revert n; induction q as [|i q IH]; intros n H.
  - simpl in H. injection H as ->. exists [], [].
    repeat split; try constructor.
    rewrite app_nil_r. simpl. symmetry. erewrite map_ext; [apply map_id|].
    intros [p d]. reflexivity.
  - simpl in H. destruct (nth_error (kids n) i) as [k|] eqn:Hn; [|discriminate].
    destruct n as [e|e|t g c ks]; try (destruct i; discriminate).
    simpl in Hn. destruct (IH k H) as (b & a & E & Hb & Ha).
    apply nth_error_split in Hn as (l1 & l2 & -> & Hl).
    rewrite textNodes_Elem, textNodesFrom_app. simpl. rewrite E, !map_app.
    exists (textNodesFrom l1 0 ++ map (under i) b),
           (map (under i) a ++ textNodesFrom l2 (S (length l1))).
    repeat split.
    + rewrite <- !app_assoc, Hl, map_map. reflexivity.
    + apply Forall_app. split.
      * apply Forall_forall. intros [p d] Hin.
        assert (Hp : In p (map fst (textNodesFrom l1 0)))
          by (apply in_map_iff; exists (p, d); auto).
        apply textNodesFrom_bound in Hp as (j & p' & -> & Hj).
        simpl. apply pathLt_here. lia.
      * apply Forall_map. eapply Forall_impl; [|exact Hb].
        intros [p d] Hp. simpl in *. apply pathLt_next. exact Hp.
    + apply Forall_app. split.
      * apply Forall_map. eapply Forall_impl; [|exact Ha].
        intros [p d] Hp. simpl in *. apply pathLt_next. exact Hp.
      * apply Forall_forall. intros [p d] Hin.
        assert (Hp : In p (map fst (textNodesFrom l2 (S (length l1)))))
          by (apply in_map_iff; exists (p, d); auto).
        apply textNodesFrom_bound in Hp as (j & p' & -> & Hj).
        simpl. apply pathLt_here. lia.
Qed.

(* ================================================================== *)
(** ** getTextNodesInRange *)

Lemma lexCompare_app_same (p a b : list nat) :
  lexCompare (p ++ a) (p ++ b) = lexCompare a b.
Proof.
  induction p as [|x p IH]; simpl; [reflexivity|].
  rewrite Nat.compare_refl. exact IH.
Qed.

(** Below, to the left: a reference that is smaller is a prefix or parts
    ways to the left. *)
Lemma lexCompare_Lt_cases (a b : list nat) :
  lexCompare a b = Lt -> (exists c, c <> [] /\ b = a ++ c) \/ pathLt a b.
Proof.
  revert b; induction a as [|x a IH]; intros [|y b] H; simpl in H;
    try discriminate.
  - left. exists (y :: b). split; [discriminate | reflexivity].
  - destruct (Nat.compare_spec x y); try discriminate.
    + subst. destruct (IH b H) as [(c & Hc & ->) | Hlt].
      * left. exists c. auto.
      * right. apply pathLt_next. exact Hlt.
    + right. apply pathLt_here. assumption.
Qed.

Lemma commonPrefix_spec (a b : path) :
  exists a' b', a = commonPrefix a b ++ a' /\ b = commonPrefix a b ++ b'.
Proof.
  revert b; induction a as [|x a IH]; intros [|y b]; simpl.
  - exists [], []; auto.
  - exists [], (y :: b); auto.
  - exists (x :: a), []; auto.
  - destruct (Nat.eqb_spec x y).
    + subst. destruct (IH b) as (a' & b' & Ea & Eb).
      exists a', b'. simpl. split; f_equal; assumption.
    + exists (x :: a), (y :: b); auto.
Qed.

Lemma flat_map_nil {A B} (f : A -> list B) (l : list A) :
  Forall (fun x => f x = []) l -> flat_map f l = [].
Proof.
  induction 1 as [|x l Hx _ IH]; simpl; [reflexivity|].
  rewrite Hx, IH. reflexivity.
Qed.

Lemma flat_map_map {A B C} (f : B -> list C) (g : A -> B) (l : list A) :
  flat_map f (map g l) = flat_map (fun x => f (g x)) l.
Proof. induction l; simpl; [|rewrite IHl]; reflexivity. Qed.

Lemma concat_map_flat_map {A B} (h : B -> str) (f : A -> list B)
  (l : list A) :
  concat (map h (flat_map f l))
  = concat (map (fun x => concat (map h (f x))) l).
Proof.
  induction l as [|x l IH]; simpl; [reflexivity|].
  rewrite map_app, concat_app, IH. reflexivity.
Qed.

Lemma filter_none {A} (f : A -> bool) (l : list A) :
  (forall x, In x l -> f x = false) -> filter f l = [].
Proof.
  induction l as [|x l IH]; intro H; simpl; [reflexivity|].
  rewrite (H x) by (left; reflexivity). apply IH.
  intros y Hy. apply H. right. exact Hy.
Qed.

Section RangeSplitting.

Variable root : node.
Variable r : range.
Hypothesis Hvalid : validRange root r = true.
Hypothesis Hspan : inOneTextNode root r = false.

Let sc := startContainer r.
Let so := startOffset r.
Let ec := endContainer r.
Let eo := endOffset r.

(** The node lies before the start (the end) of the range. *)
Let beforeStart (p : path) : bool := isLt (lexCompare p (sc ++ [so])).
Let beforeEnd (p : path) : bool := isLt (lexCompare p (ec ++ [eo])).

Lemma valid_containers :
  exists ns ne,
    nodeAt root sc = Some ns /\ nodeAt root ec = Some ne
    /\ so <= nodeLength ns /\ eo <= nodeLength ne
    /\ lexCompare (sc ++ [so]) (ec ++ [eo]) <> Gt.
Proof.
  unfold validRange in Hvalid. fold sc ec so eo in Hvalid.
  destruct (nodeAt root sc) as [ns|]; [|discriminate].
  destruct (nodeAt root ec) as [ne|]; [|discriminate].
  apply andb_prop in Hvalid as [H12 H3]. apply andb_prop in H12 as [H1 H2].
  exists ns, ne. repeat split.
  - apply Nat.leb_le, H1.
  - apply Nat.leb_le, H2.
  - unfold bpCompare in H3. intro E. rewrite E in H3. discriminate.
Qed.

Lemma text_not_above (p : path) (d : str) (c : path) :
  nodeAt root p = Some (Text d) -> nodeAt root c <> None ->
  ~ (exists e, e <> [] /\ c = p ++ e).
Proof.
  intros Hp Hc (e & He & ->). apply Hc.
  eapply nodeAt_below_text; eauto.
Qed.

Lemma start_exists : nodeAt root sc <> None.
Proof. destruct valid_containers as (ns & ne & -> & _). discriminate. Qed.

Lemma end_exists : nodeAt root ec <> None.
Proof. destruct valid_containers as (ns & ne & _ & -> & _). discriminate. Qed.

Lemma text_start_ne (d : str) :
  nodeAt root sc = Some (Text d) -> sc <> ec.
Proof.
  intros H E. unfold inOneTextNode in Hspan. fold sc ec in Hspan.
  rewrite <- E, path_eqb_refl, H in Hspan. discriminate.
Qed.

Lemma text_end_ne (d : str) :
  nodeAt root ec = Some (Text d) -> sc <> ec.
Proof.
  intros H E. unfold inOneTextNode in Hspan. fold sc ec in Hspan.
  rewrite E, path_eqb_refl, H in Hspan. discriminate.
Qed.

Lemma root_not_text (d : str) : root <> Text d.
Proof.
  intro E. destruct valid_containers as (ns & ne & Hs & He & _).
  assert (A : forall p n, nodeAt (Text d) p = Some n -> p = []).
  { intros [|i p] n H; [reflexivity|]. simpl in H.
    destruct i; discriminate. }
  pose proof Hspan as H. unfold inOneTextNode in H. fold sc ec in H.
  rewrite E in Hs, He, H.
  rewrite (A _ _ Hs), (A _ _ He) in H. simpl in H.
  discriminate.
Qed.

Lemma intersectsNode_text (p : path) (d : str) :
  nodeAt root p = Some (Text d) -> p <> [] ->
  intersectsNode r p
  = beforeEnd p && (path_eqb p sc || negb (beforeStart p)).
Proof.
  intros Hp Hne. unfold intersectsNode, bpCompare.
  destruct p as [|x p']; [congruence|]. set (p := x :: p') in *.
  assert (E : removelast p ++ [last p 0] = p)
    by (symmetry; apply app_removelast_last; exact Hne).
  fold sc so ec eo. rewrite E.
  rewrite lexCompare_after_node.
  - rewrite E. reflexivity.
  - rewrite E. eapply text_not_above; [exact Hp | apply start_exists].
Qed.

Lemma contained_text (p : path) (d : str) :
  nodeAt root p = Some (Text d) ->
  contained r p (length d)
  = negb (path_eqb p sc) && negb (beforeStart p)
    && negb (path_eqb p ec) && beforeEnd p.
Proof.
  intro Hp. unfold contained, bpCompare. fold sc so ec eo.
  destruct valid_containers as (ns & ne & Hs & He & Hso & Heo & _).
  assert (G : isGt (lexCompare (p ++ [0]) (sc ++ [so]))
              = negb (path_eqb p sc) && negb (beforeStart p)).
  { destruct (path_eq_dec p sc) as [<-|Hn].
    - rewrite path_eqb_refl, lexCompare_app_same. simpl.
      destruct so; reflexivity.
    - rewrite path_eqb_neq by exact Hn. rewrite lexCompare_app_l.
      + unfold beforeStart. destruct (lexCompare p (sc ++ [so])); reflexivity.
      + intros (c & Hc & E).
        destruct (exists_last Hc) as (c' & z & ->).
        rewrite app_assoc in E. apply app_inj_tail in E as [E _].
        destruct c' as [|y c'].
        * rewrite app_nil_r in E. congruence.
        * eapply text_not_above; [exact Hp | apply start_exists |].
          exists (y :: c'). split; [discriminate | exact E]. }
  assert (L : isLt (lexCompare (p ++ [length d]) (ec ++ [eo]))
              = negb (path_eqb p ec) && beforeEnd p).
  { destruct (path_eq_dec p ec) as [<-|Hn].
    - rewrite path_eqb_refl, lexCompare_app_same. simpl.
      rewrite Hp in He. injection He as <-. simpl in Heo.
      destruct (Nat.compare_spec (length d) eo); try reflexivity. lia.
    - rewrite path_eqb_neq by exact Hn. rewrite lexCompare_app_l.
      + unfold beforeEnd. destruct (lexCompare p (ec ++ [eo])); reflexivity.
      + intros (c & Hc & E).
        destruct (exists_last Hc) as (c' & z & ->).
        rewrite app_assoc in E. apply app_inj_tail in E as [E _].
        destruct c' as [|y c'].
        * rewrite app_nil_r in E. congruence.
        * eapply text_not_above; [exact Hp | apply end_exists |].
          exists (y :: c'). split; [discriminate | exact E]. }
  rewrite G, L. rewrite !andb_assoc. reflexivity.
Qed.

Lemma start_beforeEnd (d : str) :
  nodeAt root sc = Some (Text d) -> beforeEnd sc = true.
Proof.
  intro Hp. unfold beforeEnd.
  destruct valid_containers as (ns & ne & _ & _ & _ & _ & Hord).
  rewrite (lexCompare_trans_le sc (sc ++ [so]) (ec ++ [eo])); auto.
  rewrite <- (app_nil_r sc) at 1. rewrite lexCompare_app_same. reflexivity.
Qed.

Lemma end_not_beforeStart (d : str) :
  nodeAt root ec = Some (Text d) -> sc <> ec -> beforeStart ec = false.
Proof.
  intros Hp Hne. unfold beforeStart.
  destruct valid_containers as (ns & ne & _ & _ & _ & _ & Hord).
  destruct (lexCompare ec (sc ++ [so])) eqn:E; try reflexivity.
  exfalso. apply lexCompare_Lt_cases in E as [(c & Hc & E) | Hlt].
  - destruct (exists_last Hc) as (c' & z & ->).
    rewrite app_assoc in E. apply app_inj_tail in E as [E _].
    destruct c' as [|y c'].
    + rewrite app_nil_r in E. congruence.
    + eapply text_not_above; [exact Hp | apply start_exists |].
      exists (y :: c'). split; [discriminate | exact E].
  - apply Hord. apply lexCompare_Gt_Lt.
    apply (pathLt_lex ec (sc ++ [so]) [eo] []) in Hlt.
    rewrite app_nil_r in Hlt. exact Hlt.
Qed.


Lemma substring_from (d : str) (a : nat) :
  substring d a (length d) = skipn a d.
Proof.
  unfold substring. apply firstn_all2. rewrite length_skipn. lia.
Qed.

Lemma piece_text (p : path) (d : str) :
  nodeAt root p = Some (Text d) -> p <> [] ->
  piece root r (p, d) =
  if path_eqb p sc then skipn so d
  else if path_eqb p ec then firstn eo d
  else if beforeEnd p && negb (beforeStart p) then d else [].
Proof.
  intros Hp Hne. unfold piece, clipTextNode. simpl.
  rewrite (intersectsNode_text p d Hp Hne). fold sc so ec eo.
  destruct (path_eq_dec p sc) as [E|Hs].
  - subst p. rewrite path_eqb_refl.
    rewrite (start_beforeEnd d Hp). simpl.
    rewrite path_eqb_neq by exact (text_start_ne d Hp).
    destruct (Nat.ltb_spec so (length d)); simpl.
    + unfold coveredText. simpl. rewrite Hp, app_nil_r.
      apply substring_from.
    + symmetry. apply skipn_all2. lia.
  - rewrite (path_eqb_neq p sc Hs). simpl.
    destruct (path_eq_dec p ec) as [E|He].
    + subst p. rewrite path_eqb_refl.
      rewrite (end_not_beforeStart d Hp (text_end_ne d Hp)).
      assert (B : beforeEnd ec = true).
      { unfold beforeEnd. rewrite <- (app_nil_r ec) at 1.
        rewrite lexCompare_app_same. reflexivity. }
      rewrite B. simpl.
      destruct (Nat.ltb_spec 0 eo); simpl.
      * unfold coveredText. simpl. rewrite Hp, app_nil_r.
        unfold substring. simpl. rewrite Nat.sub_0_r. reflexivity.
      * replace eo with 0 by lia. reflexivity.
    + rewrite (path_eqb_neq p ec He).
      destruct (beforeEnd p && negb (beforeStart p)); simpl; [|reflexivity].
      destruct (Nat.ltb_spec 0 (length d)); simpl.
      * unfold coveredText. simpl. rewrite Hp, app_nil_r.
        unfold substring. simpl. rewrite Nat.sub_0_r. apply firstn_all.
      * destruct d; [reflexivity | simpl in *; lia].
Qed.


Lemma partAt_absent cut c l :
  ~ In c (map fst l) -> partAt cut c l = [].
Proof.
  intro H. unfold partAt.
  destruct (find (fun t => path_eqb (fst t) c) l) as [t|] eqn:E;
    [|reflexivity].
  apply find_some in E as [Hin Heq]. apply path_eqb_eq in Heq.
  exfalso. apply H. apply in_map_iff. exists t. auto.
Qed.

Lemma partAt_cons_other cut c p d l :
  p <> c -> partAt cut c ((p, d) :: l) = partAt cut c l.
Proof.
  intro H. unfold partAt. simpl. rewrite path_eqb_neq by exact H.
  reflexivity.
Qed.

Lemma partAt_cons_same cut c d l :
  partAt cut c ((c, d) :: l) = cut d.
Proof. unfold partAt. simpl. rewrite path_eqb_refl. reflexivity. Qed.


(** The pieces of a run of text nodes in tree order add up to the three
    parts of the range's text. *)
Lemma pieces_sum (l : list (path * str)) :
  StronglySorted pathLt (map fst l) ->
  Forall (fun t => nodeAt root (fst t) = Some (Text (snd t))
                   /\ fst t <> []) l ->
  concat (map (piece root r) l)
  = partAt (skipn so) sc l ++ textOf (filter (inside r) l)
    ++ partAt (firstn eo) ec l.
Proof.
  intros Hsort Hall.
  induction l as [|[p d] l IH]; [reflexivity|].
  simpl in Hsort. apply StronglySorted_inv in Hsort as [Hsort Hp].
  apply Forall_cons_iff in Hall as [[Hn Hne] Hall]. simpl in Hn, Hne.
  specialize (IH Hsort Hall).
  assert (Hlater : forall c, In c (map fst l) -> pathLt p c)
    by (intros c Hc; rewrite Forall_forall in Hp; auto).
  assert (Hnot : ~ In p (map fst l)).
  { intro Hin. apply (pathLt_irrefl p). auto. }
  cbn [map concat filter]. unfold inside at 1. simpl fst. simpl snd.
  rewrite (piece_text p d Hn Hne), (contained_text p d Hn), IH.
  destruct (path_eq_dec p sc) as [E|Hs].
  - subst p. rewrite path_eqb_refl. simpl.
    rewrite partAt_cons_same, (partAt_absent _ sc l Hnot).
    rewrite partAt_cons_other by exact (text_start_ne d Hn). reflexivity.
  - rewrite (path_eqb_neq p sc Hs). simpl.
    rewrite (partAt_cons_other _ sc p d l Hs).
    destruct (path_eq_dec p ec) as [E|He].
    + subst p. rewrite path_eqb_refl. rewrite andb_false_r. simpl.
      rewrite partAt_cons_same, (partAt_absent _ ec l Hnot).
      assert (S0 : partAt (skipn so) sc l = []).
      { apply partAt_absent. intro Hin. apply Hlater in Hin.
        destruct valid_containers as (_ & _ & _ & _ & _ & _ & Hord).
        apply Hord. apply lexCompare_Gt_Lt. apply pathLt_lex. exact Hin. }
      assert (M0 : filter (inside r) l = []).
      { apply filter_none.
        intros [q e] Hin. unfold inside. simpl.
        rewrite Forall_forall in Hall.
        destruct (Hall _ Hin) as [Hq _]. simpl in Hq.
        rewrite (contained_text q e Hq).
        assert (Lq : pathLt ec q)
          by (apply Hlater; apply in_map_iff; exists (q, e); auto).
        unfold beforeEnd.
        apply (pathLt_lex ec q [eo] []) in Lq. rewrite app_nil_r in Lq.
        apply lexCompare_Gt_Lt in Lq. rewrite Lq. simpl.
        apply andb_false_r. }
      rewrite S0, M0. simpl. rewrite app_nil_r. reflexivity.
    + rewrite (path_eqb_neq p ec He). simpl.
      rewrite (partAt_cons_other _ ec p d l He).
      rewrite andb_true_r, (andb_comm (negb (beforeStart p)) (beforeEnd p)).
      destruct (beforeEnd p && negb (beforeStart p)) eqn:B;
        [|reflexivity].
      assert (S0 : partAt (skipn so) sc l = []).
      { apply partAt_absent. intro Hin. apply Hlater in Hin.
        apply andb_prop in B as [_ B]. unfold beforeStart in B.
        rewrite (pathLt_lex0 _ _ (pathLt_app_r p sc [so] Hin)) in B.
        discriminate. }
      rewrite S0. unfold textOf. simpl. rewrite app_assoc. reflexivity.
Qed.

Lemma partAt_textNodes (cut : str -> str) (c : path) (n : node) :
  nodeAt root c = Some n ->
  partAt cut c (textNodes root)
  = if isText n then cut (descText n) else [].
Proof.
  intro Hc. destruct n as [d|d|t g a ks]; simpl.
  - unfold partAt.
    destruct (find (fun t => path_eqb (fst t) c) (textNodes root))
      as [[p e]|] eqn:E.
    + apply find_some in E as [Hin Heq]. simpl in Heq.
      apply path_eqb_eq in Heq. subst p.
      apply In_textNodes in Hin. rewrite Hc in Hin.
      injection Hin as ->. reflexivity.
    + exfalso. apply In_textNodes in Hc.
      apply (find_none _ _ E) in Hc. simpl in Hc.
      rewrite path_eqb_refl in Hc. discriminate.
  - apply partAt_absent. intro H.
    apply in_map_iff in H as ([p e] & <- & Hin).
    apply In_textNodes in Hin. simpl in *. congruence.
  - apply partAt_absent. intro H.
    apply in_map_iff in H as ([p e] & <- & Hin).
    apply In_textNodes in Hin. simpl in *. congruence.
Qed.

Lemma textNodes_entries :
  Forall (fun t => nodeAt root (fst t) = Some (Text (snd t))
                   /\ fst t <> []) (textNodes root).
Proof.
  apply Forall_forall. intros [p d] Hin. simpl.
  apply In_textNodes in Hin. split; [exact Hin|].
  intros ->. simpl in Hin. injection Hin as E.
  exact (root_not_text d E).
Qed.

(** The pieces of all the text nodes of the document make up the text
    of the range. *)
Lemma pieces_toString :
  concat (map (piece root r) (textNodes root)) = rangeToString root r.
Proof.
  rewrite (pieces_sum (textNodes root) (textNodes_sorted root)
             textNodes_entries).
  destruct valid_containers as (ns & ne & Hs & He & _).
  unfold rangeToString. fold sc so ec eo. rewrite Hs, He.
  unfold inOneTextNode in Hspan. fold sc ec in Hspan. rewrite Hs in Hspan.
  rewrite Hspan.
  rewrite (partAt_textNodes _ sc ns Hs), (partAt_textNodes _ ec ne He).
  reflexivity.
Qed.

(** Outside the common ancestor no text node meets the range, so the
    walk below the ancestor misses nothing. *)
Lemma walk_is_complete :
  getTextNodesInRange root r
  = flat_map (fun t => clipTextNode r (fst t) (snd t)) (textNodes root).
Proof.
  unfold getTextNodesInRange, commonAncestorContainer. fold sc ec.
  destruct (commonPrefix_spec sc ec) as (s' & e' & Es & Ee).
  set (ca := commonPrefix sc ec) in *.
  destruct valid_containers as (ns & ne & Hs & He & _).
  assert (Hca : exists anc, nodeAt root ca = Some anc).
  { rewrite Es, nodeAt_app in Hs.
    destruct (nodeAt root ca) as [anc|]; [eauto | discriminate]. }
  destruct Hca as (anc & Hca). rewrite Hca.
  assert (Hanc : isText anc = false).
  { destruct anc as [d|d|t g a ks]; try reflexivity. exfalso.
    assert (s' = []).
    { destruct s' as [|x s']; [reflexivity|].
      rewrite Es, (nodeAt_below_text root ca (x :: s') d Hca) in Hs;
        discriminate. }
    assert (e' = []).
    { destruct e' as [|x e']; [reflexivity|].
      rewrite Ee, (nodeAt_below_text root ca (x :: e') d Hca) in He;
        discriminate. }
    subst s' e'. rewrite app_nil_r in Es, Ee.
    apply (text_start_ne d); congruence. }
  assert (Hwalk : treeWalkerText anc = textNodes anc).
  { destruct anc; try reflexivity. discriminate. }
  rewrite Hwalk.
  destruct (textNodes_around root ca anc Hca) as (b & a & E & Hb & Ha).
  assert (Hin : forall t, In t (textNodes root) ->
                          nodeAt root (fst t) = Some (Text (snd t))).
  { intros [p d] H. apply In_textNodes. exact H. }
  rewrite E in *. rewrite !flat_map_app, flat_map_map.
  rewrite (flat_map_nil _ b), (flat_map_nil _ a).
  - rewrite app_nil_r. reflexivity.
  - apply Forall_forall. intros [p d] Hp. simpl.
    rewrite Forall_forall in Ha. specialize (Ha _ Hp). simpl in Ha.
    unfold clipTextNode.
    rewrite (intersectsNode_text p d).
    + assert (L : pathLt ec p) by (rewrite Ee; apply pathLt_app_l; exact Ha).
      apply (pathLt_lex ec p [eo] []) in L. rewrite app_nil_r in L.
      apply lexCompare_Gt_Lt in L. unfold beforeEnd. rewrite L. reflexivity.
    + apply (Hin (p, d)). apply in_or_app. right. apply in_or_app. auto.
    + intros ->. inversion Ha.
  - apply Forall_forall. intros [p d] Hp. simpl.
    rewrite Forall_forall in Hb. specialize (Hb _ Hp). simpl in Hb.
    unfold clipTextNode.
    rewrite (intersectsNode_text p d).
    + assert (L : pathLt p sc) by (rewrite Es; apply pathLt_app_r; exact Hb).
      rewrite path_eqb_neq
        by (intros ->; exact (pathLt_irrefl _ L)).
      unfold beforeStart.
      rewrite (pathLt_lex0 _ _ (pathLt_app_r p sc [so] L)).
      rewrite andb_false_r. reflexivity.
    + apply (Hin (p, d)). apply in_or_app. auto.
    + intros ->. inversion Hb.
Qed.

End RangeSplitting.

Lemma clip_sorted (r : range) (l : list (path * str)) :
  StronglySorted pathLt (map fst l) ->
  StronglySorted pathLt
    (map trNode (flat_map (fun t => clipTextNode r (fst t) (snd t)) l)).
Proof.
  assert (Sub : forall l : list (path * str),
            incl (map trNode
                    (flat_map (fun t => clipTextNode r (fst t) (snd t)) l))
                 (map fst l)).
  { intros l0 x H. apply in_map_iff in H as (f & <- & Hf).
    apply in_flat_map in Hf as ([p d] & Hin & Hf).
    apply in_map_iff. exists (p, d). split; [|exact Hin].
    unfold clipTextNode in Hf. simpl in Hf.
    destruct (negb (intersectsNode r p)); [destruct Hf|].
    match type of Hf with In _ (if ?c then _ else _) => destruct c end;
      [|destruct Hf].
    destruct Hf as [<-|[]]. reflexivity. }
  induction l as [|[p d] l IH]; intro H; simpl; [constructor|].
  simpl in H. apply StronglySorted_inv in H as [Hs Hp].
  rewrite map_app. apply StronglySorted_app.
  - unfold clipTextNode. simpl.
    destruct (negb (intersectsNode r p)); [constructor|].
    match goal with |- context [if ?c then _ else _] => destruct c end;
      simpl; repeat constructor.
  - apply IH, Hs.
  - intros x y Hx Hy. apply Sub in Hy.
    assert (x = p).
    { apply in_map_iff in Hx as (f & <- & Hf).
      unfold clipTextNode in Hf. simpl in Hf.
      destruct (negb (intersectsNode r p)); [destruct Hf|].
      match type of Hf with In _ (if ?c then _ else _) => destruct c end;
        [|destruct Hf].
      destruct Hf as [<-|[]]. reflexivity. }
    subst x. rewrite Forall_forall in Hp. auto.
Qed.

Lemma clip_nonempty (r : range) (l : list (path * str)) :
  Forall (fun f => trStart f < trEnd f)
         (flat_map (fun t => clipTextNode r (fst t) (snd t)) l).
Proof.
  apply Forall_forall. intros f Hf.
  apply in_flat_map in Hf as ([p d] & _ & Hf).
  unfold clipTextNode in Hf. simpl in Hf.
  destruct (negb (intersectsNode r p)); [destruct Hf|].
  match type of Hf with
  | In _ (if ?a <? ?b then _ else _) => destruct (Nat.ltb_spec a b)
  end; [|destruct Hf].
  destruct Hf as [<-|[]]. simpl. assumption.
Qed.

(** X24.  For a valid range that is not inside a single text node, the
    splitter returns, in document order, the clipped tuple of every text
    node of the document that intersects the range and is left with a
    non-empty slice: the start (end) offset of the range in its start
    (end) container, the whole node otherwise.  Every tuple is non-empty
    and the slices add up to the text of the range. *)
Theorem getTextNodesInRange_coverage (root : node) (r : range) :
  validRange root r = true ->
  inOneTextNode root r = false ->
  getTextNodesInRange root r
  = flat_map (fun t => clipTextNode r (fst t) (snd t)) (textNodes root)
  /\ StronglySorted pathLt (map trNode (getTextNodesInRange root r))
  /\ Forall (fun f => trStart f < trEnd f) (getTextNodesInRange root r)
  /\ concat (map (coveredText root) (getTextNodesInRange root r))
     = rangeToString root r.
Proof.
  intros Hv Hs. rewrite (walk_is_complete root r Hv Hs).
  split; [reflexivity|]. split; [|split].
  - apply clip_sorted, textNodes_sorted.
  - apply clip_nonempty.
  - rewrite concat_map_flat_map. apply (pieces_toString root r Hv Hs).
Qed.


Lemma getTextNodesInRange_coverage_witness :
  let r := mkRange [1; 0; 0] 2 [1; 0; 2] 3 in
  validRange helloDoc r = true
  /\ inOneTextNode helloDoc r = false
  /\ getTextNodesInRange helloDoc r
     = [mkTextNodeRange [1; 0; 0] 2 6; mkTextNodeRange [1; 0; 1; 0] 0 3;
        mkTextNodeRange [1; 0; 2] 0 3]
  /\ concat (map (coveredText helloDoc) (getTextNodesInRange helloDoc r))
     = rangeToString helloDoc r.
Proof.
  intro r. split; [reflexivity|]. split; [reflexivity|].
  split; [reflexivity|].
  exact (proj2 (proj2 (proj2
           (getTextNodesInRange_coverage helloDoc r eq_refl eq_refl)))).
Defined.


(* ================================================================== *)
(** ** The monad *)

Lemma bind_val {A B} (m : M A) (k : A -> M B) (s s1 : page) (a : A) :
  m s = (Val a, s1) -> bind m k s = k a s1.
Proof. intro H. unfold bind. rewrite H. reflexivity. Qed.

Lemma bind_exc {A B} (m : M A) (k : A -> M B) (s s1 : page) (e : exn) :
  m s = (Exc e, s1) -> bind m k s = (Exc e, s1).
Proof. intro H. unfold bind. rewrite H. reflexivity. Qed.

Lemma bind_inv {A B} (m : M A) (k : A -> M B) (s s2 : page) (b : B) :
  bind m k s = (Val b, s2) ->
  exists a s1, m s = (Val a, s1) /\ k a s1 = (Val b, s2).
Proof.
  unfold bind. destruct (m s) as [[a|e] s1]; intro H; [|discriminate].
  exists a, s1. auto.
Qed.

(* ================================================================== *)
(** ** Elements of a tree *)

Lemma existsb_map {A B} (f : B -> bool) (g : A -> B) (l : list A) :
  existsb f (map g l) = existsb (fun x => f (g x)) l.
Proof. induction l; simpl; [|rewrite IHl]; reflexivity. Qed.

Lemma existsb_elementsFrom (f : node -> bool) (ks : list node) (i : nat) :
  Forall (fun k => existsb (fun e => f (snd e)) (elements k) = anyElem f k) ks ->
  existsb (fun e => f (snd e)) (elementsFrom ks i) = existsb (anyElem f) ks.
Proof.
  intro H. revert i. induction H as [|k ks Hk _ IH]; intro i; simpl;
    [reflexivity|].
  rewrite existsb_app, IH, <- Hk. f_equal.
  rewrite existsb_map. reflexivity.
Qed.

Lemma existsb_elements (f : node -> bool) (n : node) :
  existsb (fun e => f (snd e)) (elements n) = anyElem f n.
Proof.
  induction n as [d|d|t g c ks IH] using node_ind; try reflexivity.
  rewrite elements_Elem. cbn [existsb anyElem snd]. f_equal.
  apply existsb_elementsFrom. exact IH.
Qed.

Lemma anyElem_false_filter (f : node -> bool) (n : node) :
  anyElem f n = false -> filter (fun e => f (snd e)) (elements n) = [].
Proof.
  intro H. apply filter_none. intros x Hx.
  rewrite <- existsb_elements in H.
  destruct (f (snd x)) eqn:E; [|reflexivity].
  assert (existsb (fun e => f (snd e)) (elements n) = true)
    by (apply existsb_exists; exists x; auto).
  congruence.
Qed.

Lemma anyElem_true_filter (f : node -> bool) (n : node) :
  anyElem f n = true -> filter (fun e => f (snd e)) (elements n) <> [].
Proof.
  intros H E. rewrite <- existsb_elements in H.
  apply existsb_exists in H as (x & Hx & Hf).
  assert (In x (filter (fun e => f (snd e)) (elements n)))
    by (apply filter_In; auto).
  rewrite E in H. destruct H.
Qed.

Lemma anyElem_ext (f g : node -> bool) (n : node) :
  (forall k, f k = g k) -> anyElem f n = anyElem g n.
Proof.
  intro H. induction n as [d|d|t a c ks IH] using node_ind; try reflexivity.
  simpl. rewrite H. f_equal.
  induction IH as [|k ks Hk _ IHks]; simpl; [reflexivity|].
  rewrite Hk, IHks. reflexivity.
Qed.

Lemma existsb_splice {A} (f : A -> bool) (l new : list A) (i : nat) (k : A) :
  nth_error l i = Some k ->
  existsb f (firstn i l ++ new ++ skipn (S i) l)
  = existsb f (firstn i l) || existsb f new || existsb f (skipn (S i) l).
Proof.
  intros _. rewrite !existsb_app, orb_assoc. reflexivity.
Qed.

Lemma skipn_after {A} (l1 l2 : list A) (k : A) :
  skipn (S (length l1)) (l1 ++ k :: l2) = l2.
Proof. induction l1 as [|x l1 IH]; [reflexivity | exact IH]. Qed.

Lemma firstn_before {A} (l1 l2 : list A) :
  firstn (length l1) (l1 ++ l2) = l1.
Proof.
  rewrite firstn_app, firstn_all, Nat.sub_diag. simpl. apply app_nil_r.
Qed.

Lemma existsb_nth_split {A} (f : A -> bool) (l : list A) (i : nat) (k : A) :
  nth_error l i = Some k ->
  existsb f l = existsb f (firstn i l) || f k || existsb f (skipn (S i) l).
Proof.
  intro H. apply nth_error_split in H as (l1 & l2 & -> & <-).
  rewrite firstn_before, skipn_after, existsb_app. simpl.
  rewrite orb_assoc. reflexivity.
Qed.

Lemma shallow_hasGogoId (id : str) : shallow (hasGogoId id).
Proof. intros t g c ks ks'. reflexivity. Qed.

Lemma shallow_isMarker (id : str) : shallow (isMarker id).
Proof. intros t g c ks ks'. reflexivity. Qed.

Lemma editAt_cons (i : nat) (p : path) (h : node -> res (list node))
  (t : str) (g : option str) (c : str) (ks : list node) :
  editAt (i :: p) h (Elem t g c ks) =
  match nth_error ks i with
  | Some k =>
      match editAt p h k with
      | Val new => Val [Elem t g c (firstn i ks ++ new ++ skipn (S i) ks)]
      | Exc e => Exc e
      end
  | None => Exc NotFoundError
  end.
Proof. reflexivity. Qed.

(** An edit succeeds where the reference and the change at it do. *)
Lemma editAt_ok (h : node -> res (list node)) (p : path) (n target : node)
  (put : list node) :
  nodeAt n p = Some target -> h target = Val put ->
  exists new, editAt p h n = Val new /\ (p <> [] -> exists r, new = [r] /\ isElem r = true).
Proof.
  revert n; induction p as [|i p IH]; intros n Hn Hh.
  - simpl in Hn. injection Hn as ->. exists put. simpl. split; [exact Hh|].
    congruence.
  - simpl in Hn. destruct (nth_error (kids n) i) as [k|] eqn:Hk;
      [|discriminate].
    destruct n as [d|d|t g c ks]; try (destruct i; discriminate).
    simpl in Hk. destruct (IH k Hn Hh) as (sub & E & _).
    simpl. rewrite Hk, E. eexists. split; [reflexivity|].
    intros _. eexists. split; reflexivity.
Qed.

Lemma editDocument_ok (h : node -> res (list node)) (p : path)
  (root target : node) (put : list node) :
  nodeAt root p = Some target -> h target = Val put -> p <> [] ->
  exists root', editDocument p h root = Val root'
                /\ editAt p h root = Val [root'].
Proof.
  intros Hn Hh Hp. destruct (editAt_ok h p root target put Hn Hh)
    as (new & E & Hnew).
  destruct (Hnew Hp) as (r & -> & Hr). exists r.
  unfold editDocument. rewrite E, Hr. auto.
Qed.

Lemma editAt_inv (h : node -> res (list node)) (p : path) (n : node)
  (new : list node) :
  editAt p h n = Val new ->
  exists target put, nodeAt n p = Some target /\ h target = Val put.
Proof.
  revert n new; induction p as [|i p IH]; intros n new H.
  - simpl in H. exists n, new. auto.
  - simpl in H. destruct n as [d|d|t g c ks]; try discriminate.
    destruct (nth_error ks i) as [k|] eqn:Hk; [|discriminate].
    destruct (editAt p h k) as [sub|] eqn:E; [|discriminate].
    destruct (IH k sub E) as (target & put & Ht & Hh).
    exists target, put. simpl. rewrite Hk. auto.
Qed.

Lemma editDocument_inv (h : node -> res (list node)) (p : path)
  (root root' : node) :
  editDocument p h root = Val root' -> editAt p h root = Val [root'].
Proof.
  unfold editDocument. destruct (editAt p h root) as [[|r [|]]|];
    try discriminate.
  destruct (isElem r); [|discriminate]. intro H. injection H as ->.
  reflexivity.
Qed.

Lemma descText_singleton (t : str) (g : option str) (c : str)
  (ks : list node) :
  concat (map descText [Elem t g c ks]) = concat (map descText ks).
Proof. simpl. apply app_nil_r. Qed.

Lemma descText_Elem (t : str) (g : option str) (c : str) (ks : list node) :
  descText (Elem t g c ks) = concat (map descText ks).
Proof. reflexivity. Qed.

(** The text of a document after an edit that keeps the text at the
    place of the edit. *)
Lemma editAt_text (h : node -> res (list node)) (p : path) (n : node)
  (new : list node) :
  (forall target put, h target = Val put ->
                      concat (map descText put) = descText target) ->
  editAt p h n = Val new ->
  concat (map descText new) = descText n.
Proof.
  intro Hh. revert n new; induction p as [|i p IH]; intros n new H.
  - simpl in H. apply Hh. exact H.
  - destruct n as [d|d|t g c ks]; try discriminate.
    rewrite editAt_cons in H.
    destruct (nth_error ks i) as [k|] eqn:Hk; [|discriminate].
    destruct (editAt p h k) as [sub|] eqn:E; [|discriminate].
    assert (Enew : new = [Elem t g c (firstn i ks ++ sub ++ skipn (S i) ks)])
      by congruence.
    subst new. clear H. rewrite descText_singleton, descText_Elem.
    rewrite !map_app, !concat_app, (IH k sub E).
    apply nth_error_split in Hk as (l1 & l2 & -> & <-).
    rewrite firstn_before, skipn_after, map_app, concat_app. reflexivity.
Qed.

Lemma existsb_singleton {A} (f : A -> bool) (x : A) :
  existsb f [x] = f x.
Proof. simpl. apply orb_false_r. Qed.

Lemma anyElem_Elem (f : node -> bool) t g c ks :
  anyElem f (Elem t g c ks) = f (Elem t g c ks) || existsb (anyElem f) ks.
Proof. reflexivity. Qed.

(** Whether some element satisfies a shallow test after an edit at a
    place that held none. *)
Lemma editAt_any (f : node -> bool) (h : node -> res (list node))
  (p : path) (n target : node) (put new : list node) :
  shallow f ->
  nodeAt n p = Some target -> h target = Val put ->
  anyElem f target = false ->
  editAt p h n = Val new ->
  existsb (anyElem f) new = anyElem f n || existsb (anyElem f) put.
Proof.
  intros Hf. revert n new; induction p as [|i p IH]; intros n new Hn Hh Ht H.
  - simpl in *. injection Hn as ->. rewrite Hh in H. injection H as ->.
    rewrite Ht. reflexivity.
  - destruct n as [d|d|t g c ks]; try discriminate.
    rewrite editAt_cons in H.
    simpl in Hn. destruct (nth_error ks i) as [k|] eqn:Hk; [|discriminate].
    destruct (editAt p h k) as [sub|] eqn:E; [|discriminate].
    assert (Enew : new = [Elem t g c (firstn i ks ++ sub ++ skipn (S i) ks)])
      by congruence.
    subst new. clear H. rewrite existsb_singleton, !anyElem_Elem.
    rewrite (Hf t g c _ ks), (existsb_splice _ _ _ _ _ Hk).
    rewrite (IH k sub Hn Hh Ht E), (existsb_nth_split _ _ _ _ Hk).
    destruct (f (Elem t g c ks)), (existsb (anyElem f) (firstn i ks)),
      (anyElem f k), (existsb (anyElem f) put),
      (existsb (anyElem f) (skipn (S i) ks)); reflexivity.
Qed.

(* ================================================================== *)
(** ** Wrapping one text node *)

Lemma surroundText_inv (mark : list node -> node) (s e : nat) (n : node)
  (put : list node) :
  surroundText mark s e n = Val put ->
  exists d content,
    n = Text d
    /\ put = [Text (firstn (Nat.min s e) d); mark content; Text (skipn e d)]
    /\ concat (map descText content) = substring d (Nat.min s e) e
    /\ e <= length d.
Proof.
  unfold surroundText. destruct n as [d|d|t g c ks]; try discriminate.
  destruct (Nat.ltb_spec (length d) s); [discriminate|].
  destruct (Nat.ltb_spec (length d) e); [discriminate|].
  intro Hput. injection Hput as <-. exists d. eexists. split; [reflexivity|].
  split; [reflexivity|]. split; [|assumption].
  destruct (Nat.ltb_spec (Nat.min s e) e); simpl.
  - apply app_nil_r.
  - unfold substring. replace (e - Nat.min s e) with 0 by lia. reflexivity.
Qed.

Lemma surroundText_ok (mark : list node -> node) (s e : nat) (d : str) :
  s <= length d -> e <= length d ->
  exists put, surroundText mark s e (Text d) = Val put.
Proof.
  intros Hs He. unfold surroundText.
  destruct (Nat.ltb_spec (length d) s); [lia|].
  destruct (Nat.ltb_spec (length d) e); [lia|].
  eexists. reflexivity.
Qed.

(** Wrapping keeps the text when the marker shows the text of its
    content. *)
Lemma surroundText_text (type : annotationType) (id : str) (s e : nat)
  (n : node) (put : list node) :
  surroundText (markElement type id) s e n = Val put ->
  concat (map descText put) = descText n.
Proof.
  intro H. apply surroundText_inv in H as (d & content & -> & -> & Hc & He).
  cbn [map concat descText markElement]. rewrite Hc, app_nil_r.
  symmetry. apply substring_split; lia.
Qed.

Lemma surroundText_marker (type : annotationType) (id : str) (s e : nat)
  (n : node) (put : list node) :
  surroundText (markElement type id) s e n = Val put ->
  existsb (anyElem (isMarker id)) put = true
  /\ existsb (anyElem (hasGogoId id)) put = true
  /\ anyElem (isMarker id) n = false
  /\ anyElem (hasGogoId id) n = false.
Proof.
  intro H. apply surroundText_inv in H as (d & content & -> & -> & _).
  assert (G : hasGogoId id (markElement type id content) = true).
  { unfold markElement, hasGogoId, str_eqb.
    destruct (str_eq_dec id id); congruence. }
  assert (K : isMarker id (markElement type id content) = true).
  { unfold isMarker. rewrite G. reflexivity. }
  repeat split; try reflexivity.
  - cbn [existsb anyElem]. unfold markElement in *.
    rewrite anyElem_Elem, K. reflexivity.
  - cbn [existsb anyElem]. unfold markElement in *.
    rewrite anyElem_Elem, G. reflexivity.
Qed.

(** One wrap in the document: the text stays, a marker of the annotation
    is there afterwards. *)
Lemma wrap_effect (type : annotationType) (id : str) (p : path) (s e : nat)
  (root root' : node) :
  editDocument p (surroundText (markElement type id) s e) root = Val root' ->
  descText root' = descText root
  /\ hasMarker id root' = true
  /\ carriesId id root' = true.
Proof.
  intro H. apply editDocument_inv in H.
  destruct (editAt_inv _ _ _ _ H) as (target & put & Ht & Hp).
  destruct (surroundText_marker _ _ _ _ _ _ Hp) as (M1 & M2 & M3 & M4).
  split; [|split].
  - pose proof (editAt_text _ p root [root']
                  (surroundText_text type id s e) H) as T.
    simpl in T. rewrite app_nil_r in T. exact T.
  - pose proof (editAt_any (isMarker id) _ p root target put [root']
                  (shallow_isMarker id) Ht Hp M3 H) as A.
    rewrite existsb_singleton, M1, orb_true_r in A. exact A.
  - pose proof (editAt_any (hasGogoId id) _ p root target put [root']
                  (shallow_hasGogoId id) Ht Hp M4 H) as A.
    rewrite existsb_singleton, M2, orb_true_r in A. exact A.
Qed.

(** A wrap for another annotation leaves the markers of this one. *)
Lemma wrap_keeps (f : node -> bool) (type : annotationType) (id : str)
  (p : path) (s e : nat) (root root' : node) :
  shallow f ->
  editDocument p (surroundText (markElement type id) s e) root = Val root' ->
  anyElem f root = true -> anyElem f root' = true.
Proof.
  intros Hf H Hroot. apply editDocument_inv in H.
  destruct (editAt_inv _ _ _ _ H) as (target & put & Ht & Hp).
  pose proof Hp as Hp'.
  apply surroundText_inv in Hp' as (d & content & -> & _).
  pose proof (editAt_any f _ p root (Text d) put [root'] Hf Ht Hp
                eq_refl H) as A.
  rewrite existsb_singleton, Hroot in A. exact A.
Qed.

(* ================================================================== *)
(** ** highlightRange: the loop over the tuples *)

Lemma wrapStep_result (type : annotationType) (id : str) (textNode : path)
  (f : textNodeRange) (index : nat) (s : page) :
  match editDocument textNode
          (surroundText (markElement type id) (trStart f) (trEnd f))
          (dom s) with
  | Val root' =>
      wrapStep type id textNode f index s
      = (Val true, mkPage root' (console s ++ [LogMarkCreated (index + 1)]))
  | Exc e =>
      wrapStep type id textNode f index s
      = (Val false,
         mkPage (dom s) (console s ++ [ErrMarkFailed (index + 1) e]))
  end.
Proof.
  unfold wrapStep, catch, bind, getDom, lift, setDom, log, ret. simpl.
  destruct (editDocument textNode _ (dom s)); reflexivity.
Qed.

Lemma wrapEach_cons (type : annotationType) (id : str)
  (reloc : path -> path) (index : nat) (f : textNodeRange)
  (rest : list textNodeRange) :
  wrapEach type id reloc index (f :: rest) =
  (wrapped <- wrapStep type id (reloc (trNode f)) f index ;;
   wrapEach type id
     (if wrapped then fun x => rebase (reloc (trNode f)) (reloc x) else reloc)
     (S index) rest).
Proof. reflexivity. Qed.

(** Every tuple is tried once, in order; a wrap that raises is logged and
    left out, the loop goes on and never raises itself.  The text of the
    document stays, markers already present stay, and a marker of the
    annotation is present once a wrap went through. *)
Lemma wrapEach_policy (type : annotationType) (id : str)
  (l : list textNodeRange) :
  forall (reloc : path -> path) (index : nat) (s : page),
  exists s' evs,
    wrapEach type id reloc index l s = (Val tt, s')
    /\ console s' = console s ++ evs
    /\ length evs = length l
    /\ (forall i, i < length l ->
          nth_error evs i = Some (LogMarkCreated (index + i + 1))
          \/ exists e, nth_error evs i = Some (ErrMarkFailed (index + i + 1) e))
    /\ descText (dom s') = descText (dom s)
    /\ (forall f, shallow f -> anyElem f (dom s) = true ->
                  anyElem f (dom s') = true)
    /\ (existsb markCreated evs = true -> hasMarker id (dom s') = true).
Proof.
  induction l as [|f rest IH]; intros reloc index s.
  - exists s, []. simpl. rewrite app_nil_r. repeat split; auto.
    + intros i Hi. lia.
    + discriminate.
  - rewrite wrapEach_cons.
    pose proof (wrapStep_result type id (reloc (trNode f)) f index s) as St.
    destruct (editDocument (reloc (trNode f)) _ (dom s)) as [root'|e] eqn:E.
    + destruct (wrap_effect _ _ _ _ _ _ _ E) as (T & Mk & _).
      rewrite (bind_val _ _ _ _ _ St).
      destruct (IH (fun x => rebase (reloc (trNode f)) (reloc x)) (S index)
                  (mkPage root' (console s ++ [LogMarkCreated (index + 1)])))
        as (s' & evs & R & C & L & N & T' & K & _).
      exists s', (LogMarkCreated (index + 1) :: evs).
      split; [exact R|]. simpl in C, T', K.
      split; [rewrite C, <- app_assoc; reflexivity|].
      split; [simpl; rewrite L; reflexivity|].
      split; [|split; [congruence|split]].
      * intros [|i] Hi; simpl.
        -- left. do 2 f_equal. lia.
        -- destruct (N i) as [Hc | (x & Hx)]; [simpl in Hi; lia | |].
           ++ left. rewrite Hc. do 2 f_equal. lia.
           ++ right. exists x. rewrite Hx. do 2 f_equal. lia.
      * intros g Hg Hs. apply K; [exact Hg|].
        eapply wrap_keeps; eauto.
      * intros _. apply K; [apply shallow_isMarker | exact Mk].
    + rewrite (bind_val _ _ _ _ _ St).
      destruct (IH reloc (S index)
                  (mkPage (dom s) (console s ++ [ErrMarkFailed (index + 1) e])))
        as (s' & evs & R & C & L & N & T' & K & Mk).
      exists s', (ErrMarkFailed (index + 1) e :: evs).
      split; [exact R|]. simpl in C, T', K.
      split; [rewrite C, <- app_assoc; reflexivity|].
      split; [simpl; rewrite L; reflexivity|].
      split; [|split; [exact T'|split; [exact K|]]].
      * intros [|i] Hi; simpl.
        -- right. exists e. do 2 f_equal. lia.
        -- destruct (N i) as [Hc | (x & Hx)]; [simpl in Hi; lia | |].
           ++ left. rewrite Hc. do 2 f_equal. lia.
           ++ right. exists x. rewrite Hx. do 2 f_equal. lia.
      * simpl. exact Mk.
Qed.

(** The first tuple goes through when it is a slice of a text node of the
    document. *)
Lemma wrapEach_head (type : annotationType) (id : str) (f : textNodeRange)
  (rest : list textNodeRange) (s : page) (d : str) :
  nodeAt (dom s) (trNode f) = Some (Text d) -> trNode f <> [] ->
  trStart f <= length d -> trEnd f <= length d ->
  exists s' evs,
    wrapEach type id (fun x => x) 0 (f :: rest) s = (Val tt, s')
    /\ console s' = console s ++ LogMarkCreated 1 :: evs
    /\ Forall (fun ev => match ev with
                         | LogMarkCreated _ | ErrMarkFailed _ _ => True
                         | _ => False
                         end) evs
    /\ descText (dom s') = descText (dom s)
    /\ hasMarker id (dom s') = true.
Proof.
  intros Hn Hp Hs He. rewrite wrapEach_cons.
  pose proof (wrapStep_result type id (trNode f) f 0 s) as St.
  destruct (surroundText_ok (markElement type id) _ _ d Hs He) as (put & Hput).
  destruct (editDocument_ok _ _ _ _ _ Hn Hput Hp) as (root' & E & _).
  rewrite E in St. rewrite (bind_val _ _ _ _ _ St).
  destruct (wrap_effect _ _ _ _ _ _ _ E) as (T & Mk & _).
  destruct (wrapEach_policy type id rest
              (fun x => rebase (trNode f) x) 1
              (mkPage root' (console s ++ [LogMarkCreated (0 + 1)])))
    as (s' & evs & R & C & L & N & T' & K & _).
  exists s', evs. split; [exact R|]. simpl in C, T', K.
  split; [rewrite C, <- app_assoc; reflexivity|].
  split; [|split; [congruence|]].
  - apply Forall_forall. intros ev Hev.
    apply In_nth_error in Hev as (i & Hi).
    assert (Hl : i < length rest).
    { rewrite <- L. apply nth_error_Some. congruence. }
    destruct (N i Hl) as [Hc | (x & Hx)]; rewrite Hi in *.
    + injection Hc as ->. exact I.
    + injection Hx as ->. exact I.
  - apply K; [apply shallow_isMarker | exact Mk].
Qed.

(* ================================================================== *)
(** ** The tuples of the splitter are slices of text nodes *)

Lemma commonPrefix_same (a : path) : commonPrefix a a = a.
Proof.
  induction a as [|x a IH]; simpl; [reflexivity|].
  rewrite Nat.eqb_refl, IH. reflexivity.
Qed.

Lemma inOneTextNode_no_tuples (root : node) (r : range) :
  inOneTextNode root r = true -> getTextNodesInRange root r = [].
Proof.
  unfold inOneTextNode, getTextNodesInRange, commonAncestorContainer.
  intro H. apply andb_prop in H as [E T]. apply path_eqb_eq in E.
  rewrite <- E, commonPrefix_same.
  destruct (nodeAt root (startContainer r)) as [[d|d|t g c ks]|];
    try discriminate.
  reflexivity.
Qed.

(** C1.  A range inside one text node gets no tuple: the walker is rooted
    at the common ancestor of the range, here the text node itself, and
    nextNode never produces its root.  On "llo" inside "Hello " the range
    is valid and not collapsed, its text node intersects it, and the
    claim asks for the one tuple (node, 2, 5); the splitter returns
    nothing, and highlightRange reports that no text node was found and
    takes the degraded path.  The same holds for every range inside one
    text node. *)
Lemma getTextNodesInRange_single_text_node :
  (let r := mkRange [1; 0; 0] 2 [1; 0; 0] 5 in
   validRange helloDoc r = true /\ collapsed r = false
   /\ nodeAt helloDoc [1; 0; 0] = Some (Text (txt "Hello "))
   /\ intersectsNode r [1; 0; 0] = true
   /\ rangeToString helloDoc r = txt "llo"
   /\ getTextNodesInRange helloDoc r = []
   /\ console (snd (highlightRange plainBrowser r agree None
                       (mkPage helloDoc [])))
      = [LogFragments 0; ErrNoTextNodes; WarnLegacy; LogLegacySurround])
  /\ (forall root r,
        inOneTextNode root r = true -> getTextNodesInRange root r = []).
Proof.
  split.
  - cbv zeta. repeat split.
  - exact inOneTextNode_no_tuples.
Qed.

Lemma tuples_are_slices (root : node) (r : range) (f : textNodeRange) :
  validRange root r = true ->
  In f (getTextNodesInRange root r) ->
  exists d,
    nodeAt root (trNode f) = Some (Text d) /\ trNode f <> []
    /\ trStart f < trEnd f /\ trEnd f <= length d.
Proof.
  intros Hv Hin.
  destruct (inOneTextNode root r) eqn:One.
  - rewrite (inOneTextNode_no_tuples root r One) in Hin. destruct Hin.
  - rewrite (walk_is_complete root r Hv One) in Hin.
    apply in_flat_map in Hin as ([p d] & Hp & Hf).
    destruct (proj1 (Forall_forall _ _) (textNodes_entries root r Hv One)
                _ Hp) as [Hn Hne]. simpl in Hn, Hne.
    unfold clipTextNode in Hf. simpl in Hf.
    destruct (negb (intersectsNode r p)); [destruct Hf|].
    match type of Hf with
    | In _ (if ?a <? ?b then _ else _) => destruct (Nat.ltb_spec a b)
    end; [|destruct Hf].
    destruct Hf as [<-|[]]. simpl. exists d.
    repeat split; auto.
    destruct (path_eq_dec p (endContainer r)) as [->|Hn'].
    + rewrite path_eqb_refl in *.
      destruct (valid_containers root r Hv) as (ns & ne & _ & He & _ & Heo & _).
      rewrite Hn in He. injection He as <-. exact Heo.
    + rewrite path_eqb_neq by exact Hn'. lia.
Qed.

(* ================================================================== *)
(** ** Selectors *)

Lemma find_none_forallb {A} (f : A -> bool) (l : list A) :
  forallb f l = true -> find (fun x => negb (f x)) l = None.
Proof.
  induction l as [|x l IH]; simpl; [reflexivity|].
  intro H. apply andb_prop in H as [Hx Hl]. rewrite Hx. simpl. auto.
Qed.

Lemma gogoSelector_safe (B : Browser) (tagName : option str) (id : str) :
  selectorSafe id = true ->
  gogoSelector B tagName id = Val (matcher tagName id).
Proof.
  intro H. unfold gogoSelector, selectorSafe in *.
  rewrite (find_none_forallb _ _ H). reflexivity.
Qed.

(** A line break before any quote or backslash: the selector is
    rejected. *)
Lemma gogoSelector_line_break (B : Browser) (tagName : option str)
  (before after : str) (c : ascii) :
  forallb cssPlain before = true -> cssLineBreak c = true ->
  gogoSelector B tagName (before ++ c :: after) = Exc SyntaxError.
Proof.
  intros Hb Hc. unfold gogoSelector.
  assert (F : find (fun x => negb (cssPlain x)) (before ++ c :: after)
              = Some c).
  { induction before as [|x before IH]; simpl in *.
    - assert (cssPlain c = false).
      { unfold cssLineBreak, cssPlain in *.
        destruct (nat_of_ascii c) as [|[|[|[|[|[|[|[|[|[|[|[|[|[|n]]]]]]]]]]]]]];
          try discriminate; reflexivity. }
      rewrite H. reflexivity.
    - apply andb_prop in Hb as [Hx Hb]. rewrite Hx. simpl. auto. }
  rewrite F, Hc. reflexivity.
Qed.

Lemma querySelectorAll_safe (B : Browser) (tagName : option str) (id : str)
  (s : page) :
  selectorSafe id = true ->
  querySelectorAll B tagName id s
  = (Val (map fst (filter (fun e => matcher tagName id (snd e))
                          (elements (dom s)))), s).
Proof.
  intro H. unfold querySelectorAll. rewrite (gogoSelector_safe B _ _ H).
  reflexivity.
Qed.

Lemma querySelector_safe (B : Browser) (tagName : option str) (id : str)
  (s : page) :
  selectorSafe id = true ->
  exists found,
    querySelector B tagName id s = (Val found, s)
    /\ (found = None <-> anyElem (matcher tagName id) (dom s) = false).
Proof.
  intro H. unfold querySelector.
  rewrite (bind_val _ _ _ _ _ (querySelectorAll_safe B tagName id s H)).
  eexists. split; [reflexivity|].
  destruct (anyElem (matcher tagName id) (dom s)) eqn:E.
  - apply anyElem_true_filter in E.
    destruct (filter _ (elements (dom s))); [congruence|].
    simpl. split; discriminate.
  - rewrite (anyElem_false_filter _ _ E). simpl. split; reflexivity.
Qed.

Lemma matcher_mark (id : str) (n : node) :
  matcher (Some (txt "mark")) id n = isMarker id n.
Proof. reflexivity. Qed.

Lemma anyElem_impl (f g : node -> bool) (n : node) :
  (forall k, f k = true -> g k = true) ->
  anyElem f n = true -> anyElem g n = true.
Proof.
  intro H. induction n as [d|d|t a c ks IH] using node_ind; try discriminate.
  rewrite !anyElem_Elem. intro E. apply orb_prop in E as [E|E].
  - rewrite (H _ E). reflexivity.
  - apply orb_true_iff. right.
    apply existsb_exists in E as (k & Hk & Ek).
    apply existsb_exists. exists k. split; [exact Hk|].
    rewrite Forall_forall in IH. auto.
Qed.

Lemma hasMarker_carriesId (id : str) (n : node) :
  hasMarker id n = true -> carriesId id n = true.
Proof.
  apply anyElem_impl. intros k H. unfold isMarker in H.
  apply andb_prop in H as [_ H]. exact H.
Qed.

(* ================================================================== *)
(** ** highlightRange and the legacy wrap *)




Lemma highlightRange_unfold (B : Browser) (r : range)
  (type : annotationType) (customId : option str) (s : page) :
  highlightRange B r type customId s =
  let id := chooseId B customId in
  let frs := getTextNodesInRange (dom s) r in
  let s0 := mkPage (dom s) (console s ++ [LogFragments (length frs)]) in
  match frs with
  | [] =>
      highlightRangeLegacy B r type id
        (mkPage (dom s) (console s0 ++ [ErrNoTextNodes]))
  | _ =>
      (wrapEach type id (fun x => x) 0 frs ;;;
       afterSplit B id (length frs)) s0
  end.
Proof.
  unfold highlightRange, afterSplit. unfold bind at 1. unfold getDom.
  unfold bind at 1. unfold log at 1. cbv zeta.
  destruct (getTextNodesInRange (dom s) r); reflexivity.
Qed.

Lemma querySelector_state (B : Browser) (tagName : option str) (id : str)
  (s : page) :
  snd (querySelector B tagName id s) = s.
Proof.
  unfold querySelector, querySelectorAll, bind, ret.
  destruct (gogoSelector B tagName id); reflexivity.
Qed.

Lemma afterSplit_effect (B : Browser) (id : str) (count : nat) (s : page) :
  exists tail,
    console (snd (afterSplit B id count s)) = console s ++ tail
    /\ dom (snd (afterSplit B id count s)) = dom s
    /\ ~ In WarnLegacy tail
    /\ (selectorSafe id = true -> carriesId id (dom s) = true ->
        exists m, fst (afterSplit B id count s) = Val (Some m)).
Proof.
  unfold afterSplit.
  pose proof (querySelector_state B None id s) as Q.
  destruct (querySelector B None id s) as [[[m|]|e] s2] eqn:EQ;
    simpl in Q; subst s2; unfold bind; rewrite EQ; unfold log, ret; simpl.
  - exists [LogDone count]. repeat split; eauto.
    intros [H|[]]. discriminate.
  - exists [ErrNoMark]. repeat split.
    + intros [H|[]]. discriminate.
    + intros Safe Hc. exfalso.
      destruct (querySelector_safe B None id s Safe) as (found & Q & Hq).
      rewrite EQ in Q. injection Q as <-.
      destruct Hq as [Hq _]. specialize (Hq eq_refl).
      unfold carriesId in Hc.
      rewrite (anyElem_ext (matcher None id) (hasGogoId id) (dom s)
                 (fun k => eq_refl)) in Hq.
      congruence.
  - exists []. rewrite app_nil_r. repeat split; auto.
    intros Safe _. exfalso.
    destruct (querySelector_safe B None id s Safe) as (found & Q & _).
    rewrite EQ in Q. discriminate.
Qed.


(* ================================================================== *)
(** ** Restoration with polling *)






(** While the text is absent the callback does not touch the document:
    it logs and sets the next timer, or logs the timeout. *)
Lemma tryRestoreWithRetry_absent (B : Browser) (a : GOGOAnnotation)
  (n : nat) (w : window) :
  absentIn a (dom (pg w)) ->
  tryRestoreWithRetry B a n w =
  if n <? MAX_RETRIES then
    (Val tt,
     mkWindow (now w)
       (enqueue (mkTimer (now w + RETRY_INTERVAL) a (n + 1)) (timers w))
       (mkPage (dom (pg w)) (console (pg w) ++ [LogRetry (annId a) (n + 1)])))
  else
    (Val tt,
     mkWindow (now w) (timers w)
       (mkPage (dom (pg w)) (console (pg w) ++ [WarnTimeout (annId a)]))).
Proof.
  intros (b & Hb & Ha). unfold tryRestoreWithRetry. rewrite Hb, Ha. simpl.
  destruct (n <? MAX_RETRIES); reflexivity.
Qed.





(* ================================================================== *)
(** ** findElementsInRect *)

(** The test of findElementsInRect: the element is a candidate, larger
    than 5 in both directions, it meets the selection, its area is at
    most three selections, and it is fully inside the selection or
    overlapped by half; every test on the doubles the code computes. *)
Lemma selected_rule (root : node) (v : View) (rect : SelectionRect)
  (p : path) :
  let minX := Math_min (startX rect) (endX rect) in
  let maxX := Math_max (startX rect) (endX rect) in
  let minY := Math_min (startY rect) (endY rect) in
  let maxY := Math_max (startY rect) (endY rect) in
  let selectionArea := ((maxX - minX) * (maxY - minY))%float in
  let b := getBoundingClientRect v p in
  selected root v rect p = true <->
  displayNone v p = false /\ visibilityHidden v p = false
  /\ closestOwnUI v p = false
  /\ body root <> Some p /\ p <> []
  /\ gtq (width b) 5%float = true /\ gtq (height b) 5%float = true
  /\ partiallyInside b minX maxX minY maxY
  /\ leq (elementArea b) (selectionArea * 3)%float = true
  /\ (fullyContained b minX maxX minY maxY
      \/ geq (overlapRatio b minX maxX minY maxY) 0.5%float = true).
Proof.
  cbv zeta.
  set (minX := Math_min (startX rect) (endX rect)).
  set (maxX := Math_max (startX rect) (endX rect)).
  set (minY := Math_min (startY rect) (endY rect)).
  set (maxY := Math_max (startY rect) (endY rect)).
  set (b := getBoundingClientRect v p) in *.
  unfold selected. fold minX maxX minY maxY b.
  destruct (displayNone v p); [simpl; split; [discriminate | intuition congruence]|].
  destruct (visibilityHidden v p);
    [simpl; split; [discriminate | intuition congruence]|].
  destruct (closestOwnUI v p);
    [simpl; split; [discriminate | intuition congruence]|].
  cbn [orb].
  assert (Root : (match body root with
                  | Some b0 => path_eqb p b0
                  | None => false
                  end || path_eqb p []) = false
                 <-> body root <> Some p /\ p <> []).
  { destruct (body root) as [b0|].
    - destruct (path_eq_dec p b0) as [->|N].
      + rewrite path_eqb_refl. simpl. split; [discriminate|].
        intros [H _]. congruence.
      + rewrite (path_eqb_neq _ _ N). simpl.
        destruct (path_eq_dec p []) as [->|N'].
        * rewrite path_eqb_refl. split; [discriminate|]. intros [_ H].
          congruence.
        * rewrite (path_eqb_neq _ _ N'). split; [|reflexivity].
          intros _. split; [congruence | exact N'].
    - simpl. destruct (path_eq_dec p []) as [->|N'].
      + rewrite path_eqb_refl. split; [discriminate|]. intros [_ H].
        congruence.
      + rewrite (path_eqb_neq _ _ N'). split; [|reflexivity].
        intros _. split; [discriminate | exact N']. }
  destruct (match body root with
            | Some b0 => path_eqb p b0
            | None => false
            end || path_eqb p []) eqn:ER.
  - split; [discriminate|]. intros (_ & _ & _ & H1 & H2 & _).
    destruct Root as [_ Root]. specialize (Root (conj H1 H2)). discriminate.
  - destruct Root as [Root _]. specialize (Root eq_refl).
    destruct Root as [R1 R2].
    change (Math_max 0 (Math_min (right b) maxX - Math_max (left b) minX)
            * Math_max 0 (Math_min (bottom b) maxY - Math_max (top b) minY))%float
      with (intersectionArea b minX maxX minY maxY).
    change (width b * height b)%float with (elementArea b).
    change (if gtq (elementArea b) 0%float
            then (intersectionArea b minX maxX minY maxY / elementArea b)%float
            else 0%float)
      with (overlapRatio b minX maxX minY maxY).
    rewrite !andb_true_iff, orb_true_iff, !andb_true_iff.
    unfold fullyContained, partiallyInside. tauto.
Qed.

(** Sorting by depth keeps the elements and puts deeper ones first. *)
Lemma insertByDepth_perm (root : node) (x : path) (l : list path) :
  Permutation (x :: l) (insertByDepth root x l).
Proof.
  induction l as [|y l IH]; simpl; [apply Permutation_refl|].
  destruct (getDepth root y <? getDepth root x); [apply Permutation_refl|].
  eapply Permutation_trans; [apply perm_swap|].
  apply perm_skip. exact IH.
Qed.

Lemma insertByDepth_sorted (root : node) (x : path) (l : list path) :
  StronglySorted (deeperFirst root) l ->
  StronglySorted (deeperFirst root) (insertByDepth root x l).
Proof.
  induction 1 as [|y l Hs IH Hy]; simpl; [repeat constructor|].
  destruct (Nat.ltb_spec (getDepth root y) (getDepth root x)).
  - constructor; [constructor; assumption|].
    constructor; [unfold deeperFirst; lia|].
    eapply Forall_impl; [|exact Hy]. unfold deeperFirst. intros; lia.
  - constructor; [exact IH|].
    apply Forall_forall. intros z Hz.
    apply (Permutation_in _ (Permutation_sym (insertByDepth_perm root x l)))
      in Hz.
    destruct Hz as [<- | Hz]; [unfold deeperFirst; lia|].
    rewrite Forall_forall in Hy. auto.
Qed.

Lemma sortByDepth_spec (root : node) (l : list path) :
  Permutation l (sortByDepth root l)
  /\ StronglySorted (deeperFirst root) (sortByDepth root l).
Proof.
  unfold sortByDepth.
  assert (G : forall acc,
            StronglySorted (deeperFirst root) acc ->
            Permutation (acc ++ l)
              (fold_left (fun a x => insertByDepth root x a) l acc)
            /\ StronglySorted (deeperFirst root)
                 (fold_left (fun a x => insertByDepth root x a) l acc)).
  { induction l as [|x l IH]; intros acc Hacc; simpl.
    - rewrite app_nil_r. split; [apply Permutation_refl | exact Hacc].
    - destruct (IH (insertByDepth root x acc)
                  (insertByDepth_sorted root x acc Hacc)) as [P S].
      split; [|exact S].
      eapply Permutation_trans; [|exact P].
      eapply Permutation_trans; [apply Permutation_sym, Permutation_middle|].
      change (x :: acc ++ l) with ((x :: acc) ++ l).
      apply Permutation_app_tail. apply insertByDepth_perm. }
  destruct (G [] (SSorted_nil _)) as [P S]. auto.
Qed.

(** C7 (as corrected).  findElementsInRect returns the candidates
    (elements of the page that are visible, not of the tool's own UI, and
    neither the body nor the root element) that pass every test of the
    loop: larger than 5 in width and height, meeting the normalized
    rectangle, of an area of at most three selections, and fully
    contained in the rectangle or overlapped by at least half.  The tests
    are those of the code on doubles.  The result is sorted deepest
    first. *)
Theorem findElementsInRect_rule (root : node) (v : View)
  (rect : SelectionRect) :
  let minX := Math_min (startX rect) (endX rect) in
  let maxX := Math_max (startX rect) (endX rect) in
  let minY := Math_min (startY rect) (endY rect) in
  let maxY := Math_max (startY rect) (endY rect) in
  let selectionArea := ((maxX - minX) * (maxY - minY))%float in
  (forall p,
     In p (findElementsInRect root v rect) <->
     candidate root v p
     /\ gtq (width (getBoundingClientRect v p)) 5%float = true
     /\ gtq (height (getBoundingClientRect v p)) 5%float = true
     /\ partiallyInside (getBoundingClientRect v p) minX maxX minY maxY
     /\ leq (elementArea (getBoundingClientRect v p))
            (selectionArea * 3)%float = true
     /\ (fullyContained (getBoundingClientRect v p) minX maxX minY maxY
         \/ geq (overlapRatio (getBoundingClientRect v p)
                              minX maxX minY maxY) 0.5%float = true))
  /\ StronglySorted (deeperFirst root) (findElementsInRect root v rect).
Proof.
  cbv zeta. unfold findElementsInRect.
  destruct (sortByDepth_spec root
              (filter (selected root v rect) (map fst (elements root))))
    as [P S].
  split; [|exact S].
  intro p. split.
  - intro H. apply (Permutation_in _ (Permutation_sym P)) in H.
    apply filter_In in H as [Hin Hsel].
    apply (selected_rule root v rect p) in Hsel.
    unfold candidate. tauto.
  - intros (C & W & H & R). unfold candidate in C.
    apply (Permutation_in _ P). apply filter_In. split; [tauto|].
    apply (selected_rule root v rect p). tauto.
Qed.

(** The rule on the sample page, and on a box whose overlap ratio rounds
    to 0.5: the code takes it. *)
Lemma findElementsInRect_rule_witness :
  findElementsInRect boxDoc boxView boxRect = [[1; 0; 1]]
  /\ In [1; 0; 1] (findElementsInRect boxDoc boxView boxRect)
  /\ StronglySorted (deeperFirst boxDoc)
       (findElementsInRect boxDoc boxView boxRect)
  /\ overlapRatio (getBoundingClientRect edgeView [1; 0; 1])
       0 0x1.dffffffffffffp+2 0 0x1.199999999999ap+3 = 0.5%float
  /\ In [1; 0; 1] (findElementsInRect boxDoc edgeView edgeRect).
Proof.
  split; [vm_compute; reflexivity|].
  destruct (findElementsInRect_rule boxDoc boxView boxRect)
    as [Rule Sorted].
  split; [|split; [exact Sorted|]].
  - apply Rule. unfold candidate.
    repeat split; try reflexivity; try discriminate.
    + simpl. auto 10.
    + left. repeat split.
  - split; [vm_compute; reflexivity|].
    apply (proj1 (findElementsInRect_rule boxDoc edgeView edgeRect)).
    unfold candidate.
    repeat split; try reflexivity; try discriminate.
    + simpl. auto 10.
    + right. vm_compute. reflexivity.
Defined.

(** The claim as stated fails for an element that is fully inside the
    selection but not larger than 5 px (the 4 x 4 box), and for the body
    when the selection contains it: both are left out.  On doubles full
    containment does not bound the area either: the box of 6 by 6 at 1e17
    is as the layout gives it ([left + width] rounds to [right]), it is
    fully inside the selection of one point there, and it is left out
    because its area exceeds three selections. *)
Lemma findElementsInRect_rule_counterexample :
  In [1; 0; 0] (map fst (elements boxDoc))
  /\ displayNone boxView [1; 0; 0] = false
  /\ visibilityHidden boxView [1; 0; 0] = false
  /\ closestOwnUI boxView [1; 0; 0] = false
  /\ fullyContained (getBoundingClientRect boxView [1; 0; 0]) 0 100 0 100
  /\ ~ In [1; 0; 0] (findElementsInRect boxDoc boxView boxRect)
  /\ fullyContained (getBoundingClientRect boxView [1]) 0 100 0 100
  /\ ~ In [1] (findElementsInRect boxDoc boxView boxRect)
  /\ (let b := getBoundingClientRect farView [1; 0; 1] in
      let x := 0x1.6345785d8ap+56%float in
      PrimFloat.eqb (left b + width b) (right b) = true
      /\ PrimFloat.eqb (top b + height b) (bottom b) = true
      /\ gtq (width b) 5%float = true /\ gtq (height b) 5%float = true
      /\ fullyContained b x x x x
      /\ ~ In [1; 0; 1] (findElementsInRect boxDoc farView farRect)).
Proof.
  assert (R : findElementsInRect boxDoc boxView boxRect = [[1; 0; 1]])
    by (vm_compute; reflexivity).
  assert (F : findElementsInRect boxDoc farView farRect = [])
    by (vm_compute; reflexivity).
  rewrite R, F. unfold fullyContained. cbv zeta.
  repeat split; try reflexivity; try (vm_compute; discriminate).
  - simpl. auto 10.
  - intros [H|[]]. discriminate.
  - intros [H|[]]. discriminate.
  - intros [].
Qed.

(* ================================================================== *)
(** ** Elements and their references *)

Lemma elementsFrom_app (a b : list node) (i : nat) :
  elementsFrom (a ++ b) i
  = elementsFrom a i ++ elementsFrom b (i + length a).
Proof.
  revert i; induction a as [|k a IH]; intro i; simpl.
  - rewrite Nat.add_0_r. reflexivity.
  - rewrite IH, <- app_assoc. do 3 f_equal. lia.
Qed.

Lemma carriersFrom_app (f : node -> bool) (a b : list node) (i : nat) :
  carriersFrom f (a ++ b) i
  = carriersFrom f a i ++ carriersFrom f b (i + length a).
Proof.
  unfold carriersFrom. rewrite elementsFrom_app, filter_app, map_app.
  reflexivity.
Qed.

Lemma carriersFrom_cons (f : node -> bool) (k : node) (l : list node)
  (i : nat) :
  carriersFrom f (k :: l) i
  = map (cons i) (carriers f k) ++ carriersFrom f l (S i).
Proof.
  unfold carriersFrom, carriers. simpl.
  rewrite filter_app, map_app. f_equal.
  induction (elements k) as [|[p n] l' IH]; simpl; [reflexivity|].
  destruct (f n); simpl; rewrite IH; reflexivity.
Qed.

Lemma carriers_Elem (f : node -> bool) t g c ks :
  carriers f (Elem t g c ks)
  = (if f (Elem t g c ks) then [[]] else []) ++ carriersFrom f ks 0.
Proof.
  unfold carriers, carriersFrom. rewrite elements_Elem. simpl.
  destruct (f (Elem t g c ks)); reflexivity.
Qed.

Lemma carriersFrom_heads (f : node -> bool) (l : list node) (i : nat)
  (p : path) :
  In p (carriersFrom f l i) ->
  exists j q, p = j :: q /\ i <= j < i + length l.
Proof.
  revert i; induction l as [|k l IH]; intros i H.
  - destruct H.
  - rewrite carriersFrom_cons in H. apply in_app_or in H as [H|H].
    + apply in_map_iff in H as (q & <- & _). exists i, q.
      split; [reflexivity | simpl; lia].
    + destruct (IH _ H) as (j & q & -> & Hj). exists j, q.
      split; [reflexivity | simpl; lia].
Qed.

Lemma carriers_text (f : node -> bool) (x : str) : carriers f (Text x) = [].
Proof. reflexivity. Qed.

(** A carrier is the reference of an element that satisfies the test. *)
Lemma carriers_nodeAt (f : node -> bool) (n : node) (p : path) :
  In p (carriers f n) ->
  exists target, nodeAt n p = Some target /\ f target = true.
Proof.
  revert p; induction n as [d|d|t g c ks IH] using node_ind; intros p H;
    try destruct H.
  rewrite carriers_Elem in H. apply in_app_or in H as [H|H].
  - destruct (f (Elem t g c ks)) eqn:E; [|destruct H].
    destruct H as [<-|[]]. exists (Elem t g c ks). auto.
  - assert (G : forall i, In p (carriersFrom f ks i) ->
                exists j q k, p = (i + j) :: q /\ nth_error ks j = Some k
                              /\ In q (carriers f k)).
    { clear H. induction ks as [|k ks IHks]; intros i H; [destruct H|].
      rewrite carriersFrom_cons in H. apply in_app_or in H as [H|H].
      - apply in_map_iff in H as (q & <- & Hq). exists 0, q, k.
        rewrite Nat.add_0_r. auto.
      - apply Forall_cons_iff in IH as [_ IH'].
        destruct (IHks IH' _ H) as (j & q & k' & -> & Hn & Hq).
        exists (S j), q, k'. repeat split; auto. f_equal. lia. }
    destruct (G _ H) as (j & q & k & -> & Hn & Hq).
    rewrite Forall_forall in IH.
    destruct (IH k (nth_error_In _ _ Hn) q Hq) as (target & Ht & Hf).
    exists target. cbn [Nat.add nodeAt kids]. rewrite Hn. auto.
Qed.

Lemma carriers_empty (f : node -> bool) (n : node) :
  carriers f n = [] <-> anyElem f n = false.
Proof.
  unfold carriers. split.
  - intro H. destruct (anyElem f n) eqn:E; [|reflexivity].
    apply anyElem_true_filter in E. apply map_eq_nil in H. congruence.
  - intro H. rewrite (anyElem_false_filter _ _ H). reflexivity.
Qed.

Lemma isPrefixb_cons (i : nat) (p q : path) :
  isPrefixb (i :: p) (i :: q) = isPrefixb p q.
Proof. unfold isPrefixb. simpl. apply path_eqb_cons. Qed.

Lemma isPrefixb_cons_neq (i j : nat) (p q : path) :
  i <> j -> isPrefixb (i :: p) (j :: q) = false.
Proof.
  intro H. unfold isPrefixb. simpl. apply path_eqb_neq. congruence.
Qed.

Lemma isPrefixb_nil_l (q : path) : isPrefixb [] q = true.
Proof. reflexivity. Qed.

Lemma isPrefixb_refl (p : path) : isPrefixb p p = true.
Proof. unfold isPrefixb. rewrite firstn_all. apply path_eqb_refl. Qed.

Lemma filter_all {A} (f : A -> bool) (l : list A) :
  (forall x, In x l -> f x = true) -> filter f l = l.
Proof.
  induction l as [|x l IH]; intro H; simpl; [reflexivity|].
  rewrite (H x) by (left; reflexivity). f_equal. apply IH.
  intros y Hy. apply H. right. exact Hy.
Qed.

Lemma filter_map_cons (i : nat) (p : path) (l : list path) :
  filter (fun q => negb (isPrefixb (i :: p) q)) (map (cons i) l)
  = map (cons i) (filter (fun q => negb (isPrefixb p q)) l).
Proof.
  induction l as [|q l IH]; simpl; [reflexivity|].
  rewrite isPrefixb_cons. destruct (isPrefixb p q); simpl; rewrite IH;
    reflexivity.
Qed.

(** The carriers after an element gave way to text: those that were not
    at or below it. *)
Lemma carriers_replaced (f : node -> bool) (p : path) :
  shallow f -> p <> [] ->
  forall n new,
    editAt p asText n = Val new ->
    exists n',
      new = [n']
      /\ carriers f n' = filter (fun q => negb (isPrefixb p q)) (carriers f n)
      /\ (exists t g c ks ks', n = Elem t g c ks /\ n' = Elem t g c ks').
Proof.
  intros Hf. induction p as [|i p IH]; intros Hp n new H; [congruence|].
  destruct n as [d|d|t g c ks]; try discriminate.
  rewrite editAt_cons in H.
  destruct (nth_error ks i) as [k|] eqn:Hk; [|discriminate].
  destruct (editAt p asText k) as [sub|] eqn:E; [|discriminate].
  assert (Enew : new = [Elem t g c (firstn i ks ++ sub ++ skipn (S i) ks)])
    by congruence.
  subst new. clear H. eexists. split; [reflexivity|].
  split; [|repeat eexists].
  rewrite !carriers_Elem, (Hf t g c _ ks), filter_app. f_equal.
  - destruct (f (Elem t g c ks)); reflexivity.
  - apply nth_error_split in Hk as (l1 & l2 & -> & <-).
    rewrite firstn_before, skipn_after.
    rewrite !carriersFrom_app, carriersFrom_cons, !filter_app.
    cbn [Nat.add].
    assert (Outer1 : filter (fun q => negb (isPrefixb (length l1 :: p) q))
                            (carriersFrom f l1 0) = carriersFrom f l1 0).
    { apply filter_all. intros q Hq.
      apply carriersFrom_heads in Hq as (j & q' & -> & Hj).
      rewrite isPrefixb_cons_neq by lia. reflexivity. }
    assert (Outer2 : forall l m,
               length l1 < m ->
               filter (fun q => negb (isPrefixb (length l1 :: p) q))
                      (carriersFrom f l m) = carriersFrom f l m).
    { intros l m Hm. apply filter_all. intros q Hq.
      apply carriersFrom_heads in Hq as (j & q' & -> & Hj).
      rewrite isPrefixb_cons_neq by lia. reflexivity. }
    unfold path in *. rewrite Outer1. f_equal.
    destruct p as [|j p'].
    + simpl in E. unfold asText in E.
      assert (sub = [Text (descText k)]) by congruence. subst sub.
      rewrite carriersFrom_cons, carriers_text. cbn [map app length].
      rewrite Nat.add_1_r, (Outer2 l2 (S (length l1))) by lia.
      rewrite (filter_none (fun q : list nat => negb (isPrefixb [length l1] q))
                 (map (cons (length l1)) (carriers f k))); [reflexivity|].
      intros q Hq. apply in_map_iff in Hq as (q' & <- & _).
      rewrite isPrefixb_cons. reflexivity.
    + destruct (IH ltac:(discriminate) k sub E) as (k' & -> & C & _).
      rewrite carriersFrom_cons. cbn [length].
      rewrite filter_map_cons. unfold path in *. rewrite <- C, Nat.add_1_r.
      rewrite (Outer2 l2 (S (length l1))) by lia.
      change (carriersFrom f [] (S (length l1))) with (@nil (list nat)).
      rewrite app_nil_r. reflexivity.
Qed.

(* ================================================================== *)
(** ** normalize keeps the text and the elements *)

Lemma mergeText_text (l : list node) :
  concat (map descText (mergeText l)) = concat (map descText l).
Proof.
  induction l as [|k l IH]; [reflexivity|].
  destruct k as [d|d|t g c ks]; cbn [mergeText map concat]; try (f_equal; exact IH).
  cbn [map concat] in *. rewrite <- IH.
  destruct (mergeText l) as [|[d'|d'|t g c ks] rest'].
  - destruct d; reflexivity.
  - cbn [map concat descText]. rewrite app_assoc. reflexivity.
  - destruct d; reflexivity.
  - destruct d; reflexivity.
Qed.

Lemma mergeText_any (f : node -> bool) (l : list node) :
  existsb (anyElem f) (mergeText l) = existsb (anyElem f) l.
Proof.
  induction l as [|k l IH]; [reflexivity|].
  destruct k as [d|d|t g c ks]; cbn [mergeText existsb]; try (f_equal; exact IH).
  rewrite <- IH. cbn [anyElem orb].
  destruct (mergeText l) as [|[d'|d'|t g c ks] rest'].
  - destruct d; reflexivity.
  - reflexivity.
  - destruct d; reflexivity.
  - destruct d; reflexivity.
Qed.

Lemma normalize_text (n : node) : descText (normalize n) = descText n.
Proof.
  induction n as [d|d|t g c ks IH] using node_ind; try reflexivity.
  cbn [normalize]. rewrite !descText_Elem, mergeText_text, map_map.
  f_equal. apply map_ext_in. intros k Hk.
  rewrite Forall_forall in IH. apply IH, Hk.
Qed.

Lemma existsb_ext_in {A} (f g : A -> bool) (l : list A) :
  (forall x, In x l -> f x = g x) -> existsb f l = existsb g l.
Proof.
  induction l as [|x l IH]; intro H; [reflexivity|]. simpl.
  rewrite (H x) by (left; reflexivity). f_equal. apply IH.
  intros y Hy. apply H. right. exact Hy.
Qed.

Lemma normalize_any (f : node -> bool) (n : node) :
  shallow f -> anyElem f (normalize n) = anyElem f n.
Proof.
  intro Hf.
  induction n as [d|d|t g c ks IH] using node_ind; try reflexivity.
  cbn [normalize]. rewrite !anyElem_Elem, (Hf t g c _ ks). f_equal.
  rewrite mergeText_any, existsb_map. apply existsb_ext_in.
  rewrite Forall_forall in IH. exact IH.
Qed.

(** Whether some element satisfies a shallow test after an edit that
    does not change it at the place of the edit. *)
Lemma editAt_any_same (f : node -> bool) (h : node -> res (list node))
  (p : path) (n : node) (new : list node) :
  shallow f ->
  (forall target put, h target = Val put ->
                      existsb (anyElem f) put = anyElem f target) ->
  editAt p h n = Val new ->
  existsb (anyElem f) new = anyElem f n.
Proof.
  intros Hf Hh. revert n new; induction p as [|i p IH]; intros n new H.
  - simpl in H. rewrite (Hh _ _ H). reflexivity.
  - destruct n as [d|d|t g c ks]; try discriminate.
    rewrite editAt_cons in H.
    destruct (nth_error ks i) as [k|] eqn:Hk; [|discriminate].
    destruct (editAt p h k) as [sub|] eqn:E; [|discriminate].
    assert (Enew : new = [Elem t g c (firstn i ks ++ sub ++ skipn (S i) ks)])
      by congruence.
    subst new. clear H. rewrite existsb_singleton, !anyElem_Elem.
    rewrite (Hf t g c _ ks), (existsb_splice _ _ _ _ _ Hk).
    rewrite (IH k sub E), (existsb_nth_split _ _ _ _ Hk). reflexivity.
Qed.

(* ================================================================== *)
(** ** The body of the document across a replacement *)

Lemma findIndex_app {A} (f : A -> bool) (a b : list A) :
  findIndex f (a ++ b)
  = match findIndex f a with
    | Some j => Some j
    | None => option_map (Nat.add (length a)) (findIndex f b)
    end.
Proof.
  induction a as [|x a IH]; simpl.
  - destruct (findIndex f b); reflexivity.
  - destruct (f x); [reflexivity|]. rewrite IH.
    destruct (findIndex f a); [reflexivity|].
    destruct (findIndex f b); reflexivity.
Qed.

Lemma findIndex_nth {A} (f : A -> bool) (l : list A) (i : nat) :
  findIndex f l = Some i ->
  exists x, nth_error l i = Some x /\ f x = true.
Proof.
  revert i; induction l as [|x l IH]; intros i H; [discriminate|].
  simpl in H. destruct (f x) eqn:E.
  - injection H as <-. exists x. auto.
  - destruct (findIndex f l) as [j|]; [|discriminate].
    injection H as <-. exact (IH j eq_refl).
Qed.

Lemma body_nodeAt (root : node) (b : path) :
  body root = Some b ->
  exists i t g c ks bodyNode,
    b = [i] /\ root = Elem t g c ks /\ findIndex isBodyTag ks = Some i
    /\ nth_error ks i = Some bodyNode /\ nodeAt root b = Some bodyNode.
Proof.
  unfold body. intro H.
  destruct (hasTag (txt "html") root) eqn:Hh; [|discriminate].
  destruct root as [d|d|t g c ks]; try discriminate.
  cbn [kids] in H.
  destruct (findIndex isBodyTag ks) as [i|] eqn:Hi; [|discriminate].
  injection H as <-.
  destruct (findIndex_nth _ _ _ Hi) as (x & Hx & _).
  exists i, t, g, c, ks, x. repeat split; auto.
  cbn [nodeAt kids]. rewrite Hx. reflexivity.
Qed.

Lemma shallow_isBodyTag : shallow isBodyTag.
Proof. intros t g c ks ks'. reflexivity. Qed.

Lemma findIndex_swap {A} (f : A -> bool) (l1 l2 : list A) (k x : A)
  (bi : nat) :
  findIndex f (l1 ++ k :: l2) = Some bi ->
  (bi <> length l1 -> f x = false \/ f x = f k) ->
  (bi = length l1 -> f x = true) ->
  findIndex f (l1 ++ x :: l2) = Some bi.
Proof.
  rewrite !findIndex_app. destruct (findIndex f l1) as [j|]; [auto|].
  cbn [findIndex]. intros H Hne Heq.
  destruct (f k) eqn:Ek.
  - cbn [option_map] in H. rewrite Heq; [exact H|].
    injection H as <-. lia.
  - destruct (findIndex f l2) as [j|]; [|discriminate].
    cbn [option_map] in H.
    assert (Hbi : bi <> length l1) by (injection H as <-; lia).
    destruct (Hne Hbi) as [E|E]; rewrite E; exact H.
Qed.

Lemma nth_error_swap {A} (l1 l2 : list A) (k x : A) (j : nat) :
  j <> length l1 ->
  nth_error (l1 ++ x :: l2) j = nth_error (l1 ++ k :: l2) j.
Proof.
  intro H. destruct (Nat.lt_ge_cases j (length l1)) as [Hlt|Hge].
  - rewrite !nth_error_app1 by exact Hlt. reflexivity.
  - rewrite !nth_error_app2 by exact Hge.
    destruct (j - length l1) as [|m] eqn:E; [lia | reflexivity].
Qed.

Lemma nth_error_middle {A} (l1 l2 : list A) (k : A) :
  nth_error (l1 ++ k :: l2) (length l1) = Some k.
Proof.
  rewrite nth_error_app2, Nat.sub_diag by lia. reflexivity.
Qed.

(** Replacing an element that carries the annotation by its text leaves
    the body where it was. *)
Lemma replaced_body (id : str) (p b : path) (root root' target : node) :
  p <> [] ->
  editAt p asText root = Val [root'] ->
  nodeAt root p = Some target -> hasGogoId id target = true ->
  bodyKept id b root -> bodyKept id b root'.
Proof.
  intros Hp He Ht Hid (Hb & bn & Hbn & Hno).
  destruct (body_nodeAt _ _ Hb) as (bi & t & g & c & ks & bn' & -> & -> & Hfi
                                    & Hnth & Hbn').
  assert (bn' = bn) by congruence. subst bn'. clear Hbn'.
  destruct p as [|i p']; [congruence|].
  rewrite editAt_cons in He. cbn [nodeAt kids] in Ht.
  destruct (nth_error ks i) as [k|] eqn:Hk; [|discriminate].
  destruct (editAt p' asText k) as [sub|] eqn:E; [|discriminate].
  assert (Er : root' = Elem t g c (firstn i ks ++ sub ++ skipn (S i) ks))
    by congruence.
  subst root'. clear He.
  apply nth_error_split in Hk as (l1 & l2 & -> & <-).
  rewrite firstn_before, skipn_after.
  destruct (findIndex_nth _ _ _ Hfi) as (bx & Hbx & Hbody).
  assert (bx = bn) by congruence. subst bx.
  assert (Hsub : exists x, sub = [x]
                 /\ (isBodyTag x = false \/ isBodyTag x = isBodyTag k)
                 /\ (bi = length l1 ->
                     isBodyTag x = true /\ hasGogoId id x = false)).
  { destruct p' as [|j p''].
    - cbn [nodeAt] in Ht. assert (target = k) by congruence. subst target.
      cbn [editAt] in E. unfold asText in E.
      exists (Text (descText k)). split; [congruence|].
      split; [left; reflexivity|].
      intros ->. rewrite nth_error_middle in Hnth. congruence.
    - destruct (carriers_replaced (hasGogoId id) (j :: p'')
                  (shallow_hasGogoId id) ltac:(discriminate) k sub E)
        as (k' & -> & _ & t0 & g0 & c0 & ks0 & ks0' & -> & ->).
      exists (Elem t0 g0 c0 ks0'). split; [reflexivity|].
      split; [right; reflexivity|].
      intros ->. rewrite nth_error_middle in Hnth.
      assert (Elem t0 g0 c0 ks0 = bn) by congruence. subst bn.
      split; [exact Hbody | exact Hno]. }
  destruct Hsub as (x & -> & Htag & Hat).
  cbn [app]. split.
  - unfold body in *. cbn [kids] in *.
    destruct (hasTag (txt "html") (Elem t g c (l1 ++ k :: l2))) eqn:Hh;
      [|discriminate].
    change (hasTag (txt "html") (Elem t g c (l1 ++ x :: l2)))
      with (hasTag (txt "html") (Elem t g c (l1 ++ k :: l2))).
    rewrite Hh.
    rewrite (findIndex_swap isBodyTag l1 l2 k x bi Hfi);
      [reflexivity | intros _; exact Htag | intro H; apply Hat, H].
  - destruct (Nat.eq_dec bi (length l1)) as [->|Hne].
    + exists x. cbn [nodeAt kids]. rewrite nth_error_middle.
      split; [reflexivity | apply Hat; reflexivity].
    + exists bn. cbn [nodeAt kids].
      rewrite (nth_error_swap l1 l2 k x bi Hne), Hnth. auto.
Qed.

(* ================================================================== *)
(** ** Prefixes of references *)

Lemma isPrefixb_spec (p q : path) :
  isPrefixb p q = true <-> exists x, q = p ++ x.
Proof.
  unfold isPrefixb. split.
  - intro H. apply path_eqb_eq in H. exists (skipn (length p) q).
    rewrite H at 1. symmetry. apply firstn_skipn.
  - intros (x & ->). rewrite firstn_before. apply path_eqb_refl.
Qed.

Lemma isStrictPrefix_spec (p q : path) :
  isStrictPrefix p q = true <-> exists x, x <> [] /\ q = p ++ x.
Proof.
  unfold isStrictPrefix. rewrite andb_true_iff, Nat.ltb_lt.
  change (path_eqb p (firstn (length p) q)) with (isPrefixb p q).
  rewrite isPrefixb_spec. split.
  - intros (Hl & x & ->). exists x. split; [|reflexivity].
    intros ->. rewrite app_nil_r in Hl. lia.
  - intros (x & Hx & ->). split; [|exists x; reflexivity].
    rewrite length_app. destruct x; [congruence | simpl; lia].
Qed.

Lemma isStrictPrefix_trans (a b c : path) :
  isStrictPrefix a b = true -> isStrictPrefix b c = true ->
  isStrictPrefix a c = true.
Proof.
  rewrite !isStrictPrefix_spec. intros (x & Hx & ->) (y & Hy & ->).
  exists (x ++ y). split; [|symmetry; apply app_assoc].
  destruct x; [congruence | discriminate].
Qed.

Lemma isPrefixb_strict (a b : path) :
  a <> b -> isPrefixb a b = isStrictPrefix a b.
Proof.
  intro H. destruct (isStrictPrefix a b) eqn:E.
  - apply isStrictPrefix_spec in E as (x & _ & ->).
    apply isPrefixb_spec. exists x. reflexivity.
  - destruct (isPrefixb a b) eqn:E'; [|reflexivity].
    apply isPrefixb_spec in E' as (x & ->).
    assert (isStrictPrefix a (a ++ x) = true); [|congruence].
    apply isStrictPrefix_spec. exists x. split; [|reflexivity].
    intros ->. rewrite app_nil_r in H. congruence.
Qed.

Lemma filter_filter {A} (f g : A -> bool) (l : list A) :
  filter f (filter g l) = filter (fun x => g x && f x) l.
Proof.
  induction l as [|x l IH]; [reflexivity|]. simpl.
  destruct (g x); simpl; [destruct (f x)|]; rewrite IH; reflexivity.
Qed.

Lemma underGone_cons (element : path) (gone : list path) (q : path) :
  underGone (element :: gone) q
  = isStrictPrefix element q || underGone gone q.
Proof. reflexivity. Qed.

Lemma underGone_below (gone : list path) (element q : path) :
  underGone gone element = true -> isStrictPrefix element q = true ->
  underGone gone q = true.
Proof.
  unfold underGone. rewrite !existsb_exists. intros (g & Hg & H1) H2.
  exists g. split; [exact Hg|]. exact (isStrictPrefix_trans _ _ _ H1 H2).
Qed.

(* ================================================================== *)
(** ** removeHighlight *)

Lemma removeEach_cons (gone : list path) (index : nat) (element : path)
  (rest : list path) (s : page) :
  removeEach gone index (element :: rest) s =
  if underGone gone element then
    removeEach (element :: gone) (S index) rest
      (mkPage (dom s) (console s ++ [LogPieceRemoved (index + 1)]))
  else
    match editDocument element asText (dom s) with
    | Val root' =>
        removeEach (element :: gone) (S index) rest
          (mkPage root' (console s ++ [LogPieceRemoved (index + 1)]))
    | Exc e => (Exc e, s)
    end.
Proof.
  cbn [removeEach]. unfold bind at 1. unfold getDom at 1.
  unfold underGone.
  destruct (existsb (fun g => isStrictPrefix g element) gone).
  - unfold bind, log. reflexivity.
  - change (fun n : node => Val [Text (descText n)]) with asText.
    unfold bind, lift, setDom, log.
    destruct (editDocument element asText (dom s)); reflexivity.
Qed.

(** The loop over the elements found: every one of them that is still
    in the document gives way to its text. *)
Lemma removeEach_spec (id : str) (b : path) (l : list path) :
  forall (gone : list path) (index : nat) (s : page),
    NoDup l -> ~ In [] l ->
    carriers (hasGogoId id) (dom s)
    = filter (fun q => negb (underGone gone q)) l ->
    bodyKept id b (dom s) ->
    exists s',
      removeEach gone index l s = (Val tt, s')
      /\ carriers (hasGogoId id) (dom s') = []
      /\ descText (dom s') = descText (dom s)
      /\ bodyKept id b (dom s').
Proof.
  induction l as [|element rest IH]; intros gone index s Hnd Hroot Hc Hb.
  - exists s. split; [reflexivity|]. split; [exact Hc|].
    split; [reflexivity | exact Hb].
  - rewrite removeEach_cons.
    apply NoDup_cons_iff in Hnd as [Hnotin Hnd].
    assert (Hroot' : ~ In [] rest) by (intro; apply Hroot; right; assumption).
    cbn [filter] in Hc.
    destruct (underGone gone element) eqn:Eg; cbn [negb] in Hc.
    + destruct (IH (element :: gone) (S index)
                  (mkPage (dom s) (console s ++ [LogPieceRemoved (index + 1)])))
        as (s' & Hrun & Hnone & Htext & Hbody); auto.
      * cbn [dom]. rewrite Hc. apply filter_ext_in.
        intros q Hq. rewrite underGone_cons.
        destruct (isStrictPrefix element q) eqn:Es; [|reflexivity].
        rewrite (underGone_below _ _ _ Eg Es). reflexivity.
      * exists s'. auto.
    + assert (Hel : element <> []) by (intros ->; apply Hroot; left; reflexivity).
      assert (Hin : In element (carriers (hasGogoId id) (dom s)))
        by (rewrite Hc; left; reflexivity).
      destruct (carriers_nodeAt _ _ _ Hin) as (target & Ht & Hid).
      destruct (editDocument_ok asText element (dom s) target
                  [Text (descText target)] Ht eq_refl Hel)
        as (root' & Hed & Hea).
      rewrite Hed.
      destruct (carriers_replaced (hasGogoId id) element
                  (shallow_hasGogoId id) Hel (dom s) [root'] Hea)
        as (n' & En & Hcar & _).
      assert (n' = root') by congruence. subst n'.
      destruct (IH (element :: gone) (S index)
                  (mkPage root' (console s ++ [LogPieceRemoved (index + 1)])))
        as (s' & Hrun & Hnone & Htext & Hbody); auto.
      * cbn [dom]. rewrite Hcar, Hc. cbn [filter].
        rewrite isPrefixb_refl. cbn [negb].
        rewrite filter_filter. apply filter_ext_in.
        intros q Hq. rewrite underGone_cons.
        rewrite (isPrefixb_strict element q) by (intros ->; contradiction).
        destruct (isStrictPrefix element q), (underGone gone q); reflexivity.
      * cbn [dom]. exact (replaced_body id element b (dom s) root' target
                            Hel Hea Ht Hid Hb).
      * exists s'. split; [exact Hrun|]. split; [exact Hnone|].
        split; [|exact Hbody]. rewrite Htext. cbn [dom].
        assert (T := editAt_text asText element (dom s) [root']
                       ltac:(intros tg put Hp; unfold asText in Hp;
                             injection Hp as <-; simpl; apply app_nil_r)
                       Hea).
        simpl in T. rewrite app_nil_r in T. exact T.
Qed.

Lemma normalized_Elem t g c ks :
  normalized (Elem t g c ks) = normalizedList ks.
Proof.
  cbn [normalized].
  induction ks as [|k ks IH]; [reflexivity|].
  destruct k as [d|d|t' g' c' ks']; cbn [normalizedList]; rewrite <- IH;
    reflexivity.
Qed.

Lemma mergeText_normal (l : list node) :
  Forall (fun k => normalized k = true) l ->
  normalizedList (mergeText l) = true.
Proof.
  induction 1 as [|k l Hk _ IH]; [reflexivity|].
  destruct k as [d|d|t g c ks].
  - cbn [mergeText].
    destruct (mergeText l) as [|[d'|d'|t g c ks] rest'].
    + destruct d; reflexivity.
    + cbn [normalizedList] in IH |- *.
      apply andb_prop in IH as [IH1 IH3]. apply andb_prop in IH1 as [IH1 IH2].
      rewrite IH2, IH3, length_app.
      destruct (length d') as [|m]; [discriminate|].
      rewrite Nat.add_succ_r. reflexivity.
    + destruct d; [exact IH|].
      cbn [normalizedList] in IH |- *. rewrite IH. reflexivity.
    + destruct d; [exact IH|].
      cbn [normalizedList] in IH |- *. rewrite IH. reflexivity.
  - cbn [mergeText normalizedList]. rewrite IH. reflexivity.
  - cbn [mergeText normalizedList]. rewrite Hk, IH. reflexivity.
Qed.

Lemma normalize_normalized (n : node) : normalized (normalize n) = true.
Proof.
  induction n as [d|d|t g c ks IH] using node_ind; try reflexivity.
  cbn [normalize]. rewrite normalized_Elem. apply mergeText_normal.
  apply Forall_map. exact IH.
Qed.

(** What stands at the place of an edit afterwards. *)
Lemma editAt_nodeAt (h : node -> res (list node)) (p : path) :
  forall (n : node) (new : list node) (target x : node),
    editAt p h n = Val new -> nodeAt n p = Some target ->
    h target = Val [x] ->
    exists n', new = [n'] /\ nodeAt n' p = Some x.
Proof.
  induction p as [|i p IH]; intros n new target x He Hn Hh.
  - cbn [editAt nodeAt] in *. injection Hn as ->.
    exists x. split; [congruence | reflexivity].
  - destruct n as [d|d|t g c ks]; try discriminate.
    rewrite editAt_cons in He. cbn [nodeAt kids] in Hn.
    destruct (nth_error ks i) as [k|] eqn:Hk; [|discriminate].
    destruct (editAt p h k) as [sub|] eqn:E; [|discriminate].
    destruct (IH k sub target x E Hn Hh) as (k' & -> & Hk').
    assert (Enew : new = [Elem t g c (firstn i ks ++ [k'] ++ skipn (S i) ks)])
      by congruence.
    subst new. clear He. eexists. split; [reflexivity|].
    apply nth_error_split in Hk as (l1 & l2 & -> & <-).
    rewrite firstn_before, skipn_after.
    cbn [nodeAt kids app]. rewrite nth_error_middle. exact Hk'.
Qed.

Lemma normalizeBody_spec (f : node -> bool) (s : page) (b : path) :
  shallow f -> body (dom s) = Some b ->
  exists s',
    normalizeBody s = (Val tt, s')
    /\ console s' = console s
    /\ descText (dom s') = descText (dom s)
    /\ anyElem f (dom s') = anyElem f (dom s)
    /\ exists bodyNode',
         nodeAt (dom s') b = Some bodyNode' /\ normalized bodyNode' = true.
Proof.
  intros Hf Hb.
  destruct (body_nodeAt _ _ Hb) as (bi & t & g & c & ks & bn & -> & Hr & _
                                    & _ & Hbn).
  destruct (editDocument_ok (fun n => Val [normalize n]) [bi] (dom s) bn
              [normalize bn] Hbn eq_refl ltac:(discriminate))
    as (root' & Hed & Hea).
  exists (mkPage root' (console s)).
  split; [|split; [reflexivity|split; [|split]]].
  - unfold normalizeBody, bind, theBody, getDom, lift, setDom.
    rewrite Hb, Hed. reflexivity.
  - cbn [dom].
    assert (T := editAt_text (fun n => Val [normalize n]) [bi] (dom s) [root']
                   ltac:(intros tg put Hp; cbv beta in Hp;
                         injection Hp as <-; simpl;
                         rewrite app_nil_r; apply normalize_text)
                   Hea).
    simpl in T. rewrite app_nil_r in T. exact T.
  - cbn [dom].
    assert (T := editAt_any_same f (fun n => Val [normalize n]) [bi] (dom s)
                   [root'] Hf
                   ltac:(intros tg put Hp; cbv beta in Hp;
                         injection Hp as <-;
                         rewrite existsb_singleton;
                         apply normalize_any, Hf)
                   Hea).
    rewrite existsb_singleton in T. exact T.
  - cbn [dom].
    destruct (editAt_nodeAt (fun n => Val [normalize n]) [bi] (dom s)
                [root'] bn (normalize bn) Hea Hbn eq_refl)
      as (n' & En & Hn').
    assert (n' = root') by congruence. subst n'.
    exists (normalize bn). split; [exact Hn' | apply normalize_normalized].
Qed.

(** Creating a highlight keeps the text of the document, whenever the
    wrap is done on text nodes. *)
Lemma highlightRange_text (B : Browser) (r : range) (type : annotationType)
  (customId : option str) (s : page) :
  inOneTextNode (dom s) r = true \/ getTextNodesInRange (dom s) r <> [] ->
  descText (dom (snd (highlightRange B r type customId s)))
  = descText (dom s).
Proof.
  intro H. rewrite highlightRange_unfold. cbv zeta.
  destruct (getTextNodesInRange (dom s) r) as [|f frs] eqn:E.
  - destruct H as [H|H]; [|congruence].
    unfold highlightRangeLegacy, bind, log, catch, surroundContents,
      extractAndInsert, ret.
    cbn [dom console]. rewrite H.
    destruct (editDocument (startContainer r)
                (surroundText (markElement type (chooseId B customId))
                   (startOffset r) (endOffset r)) (dom s))
      as [root'|e] eqn:Ed.
    + cbn [dom snd]. apply (wrap_effect _ _ _ _ _ _ _ Ed).
    + cbn [dom]. rewrite H, Ed. reflexivity.
  - destruct (wrapEach_policy type (chooseId B customId) (f :: frs)
                (fun x => x) 0
                (mkPage (dom s)
                   (console s ++ [LogFragments (length (f :: frs))])))
      as (s1 & evs & Hrun & _ & _ & _ & Htext & _).
    rewrite (bind_val _ _ _ _ _ Hrun).
    destruct (afterSplit_effect B (chooseId B customId) (length (f :: frs)) s1)
      as (tail & _ & Hdom & _).
    rewrite Hdom, Htext. reflexivity.
Qed.

(** What is in the document as the elements of an annotation, for an
    identifier the selector can carry. *)
Lemma querySelectorAll_carriers (B : Browser) (id : str) (s : page) :
  selectorSafe id = true ->
  querySelectorAll B None id s = (Val (carriers (hasGogoId id) (dom s)), s).
Proof.
  intro Safe. rewrite (querySelectorAll_safe B None id s Safe). reflexivity.
Qed.

Lemma carriersFrom_NoDup (f : node -> bool) (ks : list node) :
  Forall (fun k => NoDup (carriers f k)) ks ->
  forall i, NoDup (carriersFrom f ks i).
Proof.
  induction 1 as [|k ks Hk _ IH]; intro i; [constructor|].
  rewrite carriersFrom_cons. apply NoDup_app; repeat split.
  - apply NoDup_map_cons, Hk.
  - apply IH.
  - intros p H1 H2. apply in_map_iff in H1 as (q & <- & _).
    apply carriersFrom_heads in H2 as (j & q' & E & Hj).
    injection E as -> _. lia.
Qed.

(** No two elements share a reference. *)
Lemma carriers_NoDup (f : node -> bool) (n : node) : NoDup (carriers f n).
Proof.
  induction n as [d|d|t g c ks IH] using node_ind; try constructor.
  rewrite carriers_Elem.
  pose proof (carriersFrom_NoDup f ks IH 0) as N.
  destruct (f (Elem t g c ks)); [|exact N].
  cbn [app]. constructor; [|exact N].
  intro H. apply carriersFrom_heads in H as (j & q & E & _). discriminate.
Qed.

Lemma carriers_no_root (f : node -> bool) (n : node) :
  f n = false -> ~ In [] (carriers f n).
Proof.
  intros Hf H. destruct n as [d|d|t g c ks]; try destruct H.
  rewrite carriers_Elem, Hf in H. cbn [app] in H.
  apply carriersFrom_heads in H as (j & q & E & _). discriminate.
Qed.

(** removeHighlight where no element carries the identifier. *)
Lemma removeHighlight_absent (B : Browser) (id : str) (s : page) :
  selectorSafe id = true -> carriesId id (dom s) = false ->
  removeHighlight B id s
  = (Val tt, mkPage (dom s) (console s ++ [WarnNotFound id])).
Proof.
  intros Safe Hno. apply carriers_empty in Hno.
  unfold removeHighlight.
  rewrite (bind_val _ _ _ _ _ (querySelectorAll_carriers B id s Safe)).
  rewrite Hno. reflexivity.
Qed.

(** removeHighlight on a document whose body stays in place. *)
Lemma removeHighlight_spec (B : Browser) (id : str) (s : page) (b : path) :
  selectorSafe id = true ->
  hasGogoId id (dom s) = false -> bodyKept id b (dom s) ->
  exists s',
    removeHighlight B id s = (Val tt, s')
    /\ carriesId id (dom s') = false
    /\ descText (dom s') = descText (dom s)
    /\ (carriesId id (dom s) = true ->
        exists bodyNode',
          nodeAt (dom s') b = Some bodyNode'
          /\ normalized bodyNode' = true).
Proof.
  intros Safe Hroot Hb. unfold removeHighlight.
  rewrite (bind_val _ _ _ _ _ (querySelectorAll_carriers B id s Safe)).
  destruct (carriers (hasGogoId id) (dom s)) as [|c l] eqn:Ec.
  - eexists. split; [reflexivity|]. cbn [dom].
    split; [apply carriers_empty, Ec|]. split; [reflexivity|].
    intro Hc. apply carriers_empty in Ec. unfold carriesId in Hc.
    congruence.
  - destruct (removeEach_spec id b (c :: l) [] 0 s) as
      (s1 & Hrun & Hnone & Htext & Hbody).
    + rewrite <- Ec. apply carriers_NoDup.
    + rewrite <- Ec. apply carriers_no_root, Hroot.
    + rewrite Ec. symmetry. apply filter_all. reflexivity.
    + exact Hb.
    + rewrite (bind_val _ _ _ _ _ Hrun).
      destruct Hbody as (Hbd & _).
      destruct (normalizeBody_spec (hasGogoId id) s1 b
                  (shallow_hasGogoId id) Hbd)
        as (s2 & Hnorm & _ & Htext2 & Hany & Hnormal).
      rewrite (bind_val _ _ _ _ _ Hnorm).
      eexists. split; [reflexivity|]. cbn [dom]. split; [|split].
      * unfold carriesId. rewrite Hany. apply carriers_empty, Hnone.
      * congruence.
      * intros _. exact Hnormal.
Qed.




(* ================================================================== *)
(** ** The text of a range is one stretch of the text around it *)

Section RangeStretch.

Variable root : node.
Variable r : range.
Hypothesis Hvalid : validRange root r = true.
Hypothesis Hspan : inOneTextNode root r = false.

Let sc := startContainer r.
Let so := startOffset r.
Let ec := endContainer r.
Let eo := endOffset r.
Let beforeStart (p : path) : bool := isLt (lexCompare p (sc ++ [so])).
Let beforeEnd (p : path) : bool := isLt (lexCompare p (ec ++ [eo])).

(** Text nodes of the document, by reference and data. *)
Let entries (l : list (path * str)) : Prop :=
  Forall (fun t => nodeAt root (fst t) = Some (Text (snd t))
                   /\ fst t <> []) l.

Lemma piece_cases (p : path) (d : str) :
  nodeAt root p = Some (Text d) -> p <> [] ->
  piece root r (p, d) =
  if path_eqb p sc then skipn so d
  else if path_eqb p ec then firstn eo d
  else if beforeEnd p && negb (beforeStart p) then d else [].
Proof. apply (piece_text root r Hvalid Hspan). Qed.

Lemma isLt_earlier (p q : path) (key : list nat) :
  pathLt p q -> isLt (lexCompare q key) = true ->
  isLt (lexCompare p key) = true.
Proof.
  intros Hpq Hq. destruct (lexCompare q key) eqn:E; try discriminate.
  rewrite (lexCompare_trans p q key (pathLt_lex0 _ _ Hpq) E). reflexivity.
Qed.

Lemma isLt_before_node (p c : path) (o : nat) :
  pathLt p c -> isLt (lexCompare p (c ++ [o])) = true.
Proof.
  intro H. rewrite (pathLt_lex0 _ _ (pathLt_app_r p c [o] H)). reflexivity.
Qed.

Lemma isLt_after_node (c q : path) (o : nat) :
  pathLt c q -> isLt (lexCompare q (c ++ [o])) = false.
Proof.
  intro H. pose proof (pathLt_lex c q [o] [] H) as L.
  rewrite app_nil_r in L. apply lexCompare_Gt_Lt in L. rewrite L.
  reflexivity.
Qed.

(** Past the end of the range nothing is covered. *)
Lemma pieces_after (l : list (path * str)) :
  entries l ->
  Forall (fun t => fst t <> sc /\ fst t <> ec /\ beforeEnd (fst t) = false) l ->
  concat (map (piece root r) l) = [].
Proof.
  intros He Hl. induction l as [|[p d] l IH]; [reflexivity|].
  apply Forall_cons_iff in He as [[Hn Hne] He].
  apply Forall_cons_iff in Hl as [(H1 & H2 & H3) Hl].
  cbn [fst snd] in *. cbn [map concat].
  rewrite (piece_cases p d Hn Hne), (path_eqb_neq _ _ H1),
    (path_eqb_neq _ _ H2), H3, (IH He Hl). reflexivity.
Qed.

(** From inside the range on, the covered text is a prefix of the text. *)
Lemma pieces_mid (l : list (path * str)) :
  StronglySorted pathLt (map fst l) -> entries l ->
  Forall (fun t => fst t <> sc /\ beforeStart (fst t) = false) l ->
  exists post, textOf l = concat (map (piece root r) l) ++ post.
Proof.
  intros Hsort He Hl. induction l as [|[p d] l IH].
  - exists []. reflexivity.
  - cbn [map] in Hsort. apply StronglySorted_inv in Hsort as [Hsort Hp].
    pose proof He as He0.
    apply Forall_cons_iff in He as [[Hn Hne] He].
    pose proof Hl as Hl0.
    apply Forall_cons_iff in Hl as [(H1 & H2) Hl].
    cbn [fst snd] in *.
    assert (Hlater : forall q e, In (q, e) l -> pathLt p q).
    { intros q e Hin. rewrite Forall_forall in Hp. apply Hp.
      apply in_map_iff. exists (q, e). auto. }
    destruct (path_eq_dec p ec) as [E|Hec].
    + assert (A : concat (map (piece root r) l) = []).
      { apply pieces_after; [exact He|].
        rewrite Forall_forall in Hl |- *. intros [q e] Hin.
        destruct (Hl _ Hin) as [Hq _]. cbn [fst] in *.
        pose proof (Hlater q e Hin) as Lq. rewrite E in Lq.
        repeat split; [exact Hq| |apply isLt_after_node, Lq].
        intros ->. exact (pathLt_irrefl _ Lq). }
      exists (skipn eo d ++ textOf l).
      cbn [map concat]. rewrite A, app_nil_r, textOf_cons.
      rewrite (piece_cases p d Hn Hne), (path_eqb_neq _ _ H1), E,
        path_eqb_refl.
      rewrite app_assoc, firstn_skipn. reflexivity.
    + destruct (beforeEnd p) eqn:Hb.
      * destruct (IH Hsort He Hl) as (post & Hpost). exists post.
        cbn [map concat]. rewrite textOf_cons, Hpost.
        rewrite (piece_cases p d Hn Hne), (path_eqb_neq _ _ H1),
          (path_eqb_neq _ _ Hec), Hb, H2.
        cbn [negb andb]. apply app_assoc.
      * exists (textOf ((p, d) :: l)).
        rewrite (pieces_after ((p, d) :: l) He0); [reflexivity|].
        constructor; [cbn [fst]; auto|].
        rewrite Forall_forall in Hl |- *. intros [q e] Hin.
        destruct (Hl _ Hin) as [Hq _]. cbn [fst] in *.
        pose proof (Hlater q e Hin) as Lq.
        repeat split; [exact Hq | |].
        -- intros ->. unfold beforeEnd in Hb.
           rewrite (isLt_before_node p ec eo Lq) in Hb. discriminate.
        -- destruct (beforeEnd q) eqn:Hq'; [|reflexivity].
           unfold beforeEnd in Hb, Hq'.
           rewrite (isLt_earlier p q _ Lq Hq') in Hb. discriminate.
Qed.

(** The covered text is one stretch of the text of the text nodes. *)
Lemma pieces_contiguous (l : list (path * str)) :
  StronglySorted pathLt (map fst l) -> entries l ->
  exists pre post, textOf l = pre ++ concat (map (piece root r) l) ++ post.
Proof.
  intros Hsort He. induction l as [|[p d] l IH].
  - exists [], []. reflexivity.
  - pose proof Hsort as Hsort0.
    cbn [map] in Hsort. apply StronglySorted_inv in Hsort as [Hsort Hp].
    pose proof He as He0.
    apply Forall_cons_iff in He as [[Hn Hne] He].
    cbn [fst snd] in *.
    assert (Hlater : forall q e, In (q, e) l -> pathLt p q).
    { intros q e Hin. rewrite Forall_forall in Hp. apply Hp.
      apply in_map_iff. exists (q, e). auto. }
    destruct (path_eq_dec p sc) as [E|Hsc].
    + destruct (pieces_mid l Hsort He) as (post & Hpost).
      { rewrite Forall_forall. intros [q e] Hin. cbn [fst].
        pose proof (Hlater q e Hin) as Lq. rewrite E in Lq.
        split; [|apply isLt_after_node, Lq].
        intros ->. exact (pathLt_irrefl _ Lq). }
      exists (firstn so d), post.
      cbn [map concat]. rewrite textOf_cons, Hpost.
      rewrite (piece_cases p d Hn Hne), E, path_eqb_refl.
      rewrite <- (firstn_skipn so d) at 1. rewrite <- !app_assoc.
      reflexivity.
    + destruct (beforeStart p) eqn:Hb.
      * destruct (IH Hsort He) as (pre & post & Hpp).
        exists (d ++ pre), post.
        cbn [map concat]. rewrite textOf_cons, Hpp.
        rewrite (piece_cases p d Hn Hne), (path_eqb_neq _ _ Hsc).
        assert (Hec : p <> ec).
        { intro E. subst p.
          assert (X : beforeStart ec = false).
          { apply (end_not_beforeStart root r Hvalid d Hn).
            exact (fun E => Hsc (eq_sym E)). }
          congruence. }
        rewrite (path_eqb_neq _ _ Hec), Hb, andb_false_r.
        cbn [app]. rewrite <- app_assoc. reflexivity.
      * destruct (pieces_mid ((p, d) :: l) Hsort0 He0) as (post & Hpost).
        { constructor; [cbn [fst]; auto|].
          rewrite Forall_forall. intros [q e] Hin. cbn [fst].
          pose proof (Hlater q e Hin) as Lq. split.
          - intros ->. unfold beforeStart in Hb.
            rewrite (isLt_before_node p sc so Lq) in Hb. discriminate.
          - destruct (beforeStart q) eqn:Hq'; [|reflexivity].
            unfold beforeStart in Hb, Hq'.
            rewrite (isLt_earlier p q _ Lq Hq') in Hb. discriminate. }
        exists [], post. exact Hpost.
Qed.

End RangeStretch.

(* ================================================================== *)
(** ** Substrings of a concatenation *)

Lemma skipn_app_2 {A} (a b : list A) (n : nat) :
  skipn (length a + n) (a ++ b) = skipn n b.
Proof. induction a as [|x a IH]; [reflexivity | exact IH]. Qed.

Lemma firstn_short {A} (a b : list A) (n : nat) :
  n <= length a -> firstn n (a ++ b) = firstn n a.
Proof.
  intro H. rewrite firstn_app.
  replace (n - length a) with 0 by lia. simpl. apply app_nil_r.
Qed.

Lemma skipn_short {A} (a b : list A) (n : nat) :
  n <= length a -> skipn n (a ++ b) = skipn n a ++ b.
Proof.
  intro H. rewrite skipn_app.
  replace (n - length a) with 0 by lia. reflexivity.
Qed.

Lemma substring_inside (x d y : str) (o1 o2 : nat) :
  o1 <= o2 -> o2 <= length d ->
  substring (x ++ d ++ y) (length x + o1) (length x + o2)
  = substring d o1 o2.
Proof.
  intros H1 H2. unfold substring.
  rewrite skipn_app_2, skipn_short by lia.
  replace (length x + o2 - (length x + o1)) with (o2 - o1) by lia.
  apply firstn_short. rewrite length_skipn. lia.
Qed.

Lemma substring_across (x d1 m d2 y : str) (o1 o2 : nat) :
  o1 <= length d1 -> o2 <= length d2 ->
  substring (x ++ d1 ++ m ++ d2 ++ y) (length x + o1)
    (length x + length d1 + length m + o2)
  = skipn o1 d1 ++ m ++ firstn o2 d2.
Proof.
  intros H1 H2. unfold substring.
  rewrite skipn_app_2, skipn_short by lia.
  replace (length x + length d1 + length m + o2 - (length x + o1))
    with (length (skipn o1 d1) + (length m + o2))
    by (rewrite length_skipn; lia).
  rewrite firstn_app_2, firstn_app_2. f_equal. f_equal.
  apply firstn_short, H2.
Qed.

Lemma substring_at (before pat after : str) :
  substring (before ++ pat ++ after) (length before)
    (length before + length pat) = pat.
Proof. apply substring_app_mid. Qed.

(** Two ways to pick an entry of a list. *)
Lemma two_splits {A} (pre1 post1 pre2 post2 : list A) (x1 x2 : A) :
  pre1 ++ x1 :: post1 = pre2 ++ x2 :: post2 ->
  (pre1 = pre2 /\ x1 = x2 /\ post1 = post2)
  \/ (exists mid, pre2 = pre1 ++ x1 :: mid /\ post1 = mid ++ x2 :: post2)
  \/ (exists mid, pre1 = pre2 ++ x2 :: mid /\ post2 = mid ++ x1 :: post1).
Proof.
  revert pre2; induction pre1 as [|a pre1 IH]; intros pre2 H.
  - destruct pre2 as [|b pre2]; simpl in H.
    + left. injection H as -> ->. auto.
    + right. left. injection H as -> ->. exists pre2. auto.
  - destruct pre2 as [|b pre2]; simpl in H.
    + right. right. injection H as <- <-. exists pre1. auto.
    + injection H as -> H.
      destruct (IH pre2 H) as [(-> & -> & ->)|[(mid & -> & ->)|(mid & -> & ->)]].
      * left. auto.
      * right. left. exists mid. auto.
      * right. right. exists mid. auto.
Qed.

Lemma StronglySorted_app_pairs {A} (R : A -> A -> Prop) (a b : list A) :
  StronglySorted R (a ++ b) ->
  forall x y, In x a -> In y b -> R x y.
Proof.
  induction a as [|z a IH]; intros H x y Hx Hy; [destruct Hx|].
  simpl in H. apply StronglySorted_inv in H as [H Hz].
  destruct Hx as [<-|Hx].
  - rewrite Forall_forall in Hz. apply Hz, in_or_app. right. exact Hy.
  - apply IH; assumption.
Qed.

(** The data of a text node is a stretch of the text around it. *)
Lemma descText_at (n : node) (q : path) (d : str) :
  nodeAt n q = Some (Text d) ->
  exists l1 l2,
    textNodes n = l1 ++ (q, d) :: l2
    /\ descText n = textOf l1 ++ d ++ textOf l2.
Proof.
  intro H. apply In_textNodes in H. apply in_split in H as (l1 & l2 & E).
  exists l1, l2. split; [exact E|].
  rewrite descText_textNodes, E, textOf_app, textOf_cons. reflexivity.
Qed.

Lemma textOf_below (q : path) (l : list (path * str)) :
  textOf (map (below q) l) = textOf l.
Proof.
  unfold textOf. rewrite map_map. reflexivity.
Qed.

Lemma map_fst_below (q : path) (l : list (path * str)) :
  map fst (map (below q) l) = map (app q) (map fst l).
Proof. rewrite !map_map. reflexivity. Qed.

Lemma StronglySorted_map_app (q : path) (l : list path) :
  StronglySorted pathLt l -> StronglySorted pathLt (map (app q) l).
Proof.
  induction 1 as [|x l _ IH Hx]; simpl; constructor; [exact IH|].
  rewrite Forall_forall in Hx |- *. intros y Hy.
  apply in_map_iff in Hy as (z & <- & Hz).
  apply pathLt_prepend, Hx, Hz.
Qed.

(** Before the start of the range nothing is covered. *)
Lemma pieces_before (root : node) (r : range) (l : list (path * str)) :
  validRange root r = true -> inOneTextNode root r = false ->
  Forall (fun t => nodeAt root (fst t) = Some (Text (snd t))
                   /\ fst t <> []) l ->
  Forall (fun t =>
            fst t <> startContainer r /\ fst t <> endContainer r
            /\ isLt (lexCompare (fst t)
                       (startContainer r ++ [startOffset r])) = true) l ->
  concat (map (piece root r) l) = [].
Proof.
  intros Hvalid Hspan He Hl. induction l as [|[p d] l IH]; [reflexivity|].
  apply Forall_cons_iff in He as [[Hn Hne] He].
  apply Forall_cons_iff in Hl as [(H1 & H2 & H3) Hl].
  cbn [fst snd] in *. cbn [map concat].
  rewrite (piece_text root r Hvalid Hspan p d Hn Hne),
    (path_eqb_neq _ _ H1), (path_eqb_neq _ _ H2), H3, (IH He Hl).
  rewrite andb_false_r. reflexivity.
Qed.

Lemma valid_same_node (root : node) (r : range) (d : str) :
  validRange root r = true ->
  startContainer r = endContainer r ->
  nodeAt root (startContainer r) = Some (Text d) ->
  startOffset r <= endOffset r /\ endOffset r <= length d.
Proof.
  intros Hvalid E Hn.
  destruct (valid_containers root r Hvalid)
    as (ns & ne & Hs & He & Hso & Heo & Hord).
  rewrite <- E in He, Hord.
  assert (ne = Text d) by congruence. subst ne. cbn [nodeLength] in Heo.
  split; [|exact Heo].
  rewrite lexCompare_app_same in Hord. cbn [lexCompare] in Hord.
  destruct (Nat.compare_spec (startOffset r) (endOffset r)); try lia.
  congruence.
Qed.

(** The text of a range whose ends lie below a node is a stretch of the
    text of that node. *)
Lemma toString_within (root : node) (r : range) (top : path)
  (topNode : node) :
  validRange root r = true -> top <> [] ->
  nodeAt root top = Some topNode ->
  isPrefixb top (startContainer r) = true ->
  isPrefixb top (endContainer r) = true ->
  exists pre post, descText topNode = pre ++ rangeToString root r ++ post.
Proof.
  intros Hvalid Hne Htop Hs He.
  apply isPrefixb_spec in Hs as (qs & Es).
  apply isPrefixb_spec in He as (qe & Ee).
  destruct (inOneTextNode root r) eqn:Hspan.
  - unfold inOneTextNode in Hspan. apply andb_prop in Hspan as [E T].
    apply path_eqb_eq in E.
    destruct (nodeAt root (startContainer r)) as [[d|d|t g c ks]|] eqn:Hn;
      try discriminate.
    destruct (valid_same_node root r d Hvalid E Hn) as [Hso Heo].
    unfold rangeToString. rewrite <- E, Hn, path_eqb_refl.
    cbn [isText andb descText].
    rewrite Es, nodeAt_app, Htop in Hn.
    destruct (descText_at topNode qs d Hn) as (l1 & l2 & _ & ->).
    exists (textOf l1 ++ firstn (startOffset r) d),
      (skipn (endOffset r) d ++ textOf l2).
    rewrite (substring_split d (startOffset r) (endOffset r) Hso Heo) at 1.
    rewrite <- !app_assoc. reflexivity.
  - rewrite <- (pieces_toString root r Hvalid Hspan).
    destruct (textNodes_around root top topNode Htop)
      as (before & after & EL & Hbef & Haft).
    pose proof (textNodes_entries root r Hvalid Hspan) as Hent.
    pose proof (textNodes_sorted root) as Hsort.
    rewrite EL in Hent, Hsort.
    apply Forall_app in Hent as [Hent1 Hent].
    apply Forall_app in Hent as [Hent2 Hent3].
    rewrite EL, !map_app, !concat_app.
    rewrite (pieces_before root r before Hvalid Hspan Hent1).
    2:{ rewrite Forall_forall in Hbef |- *. intros t Ht.
        specialize (Hbef t Ht).
        repeat split.
        - intro X. rewrite X, Es in Hbef.
          exact (pathLt_irrefl _ (pathLt_app_r _ _ qs Hbef)).
        - intro X. rewrite X, Ee in Hbef.
          exact (pathLt_irrefl _ (pathLt_app_r _ _ qe Hbef)).
        - rewrite Es. apply isLt_before_node, pathLt_app_r, Hbef. }
    rewrite (pieces_after root r Hvalid Hspan after Hent3).
    2:{ rewrite Forall_forall in Haft |- *. intros t Ht.
        specialize (Haft t Ht).
        repeat split.
        - intro X. rewrite X, Es in Haft.
          exact (pathLt_irrefl _ (pathLt_app_l _ _ qs Haft)).
        - intro X. rewrite X, Ee in Haft.
          exact (pathLt_irrefl _ (pathLt_app_l _ _ qe Haft)).
        - rewrite Ee. apply isLt_after_node, pathLt_app_l, Haft. }
    rewrite app_nil_r. cbn [app].
    destruct (pieces_contiguous root r Hvalid Hspan
                (map (below top) (textNodes topNode)))
      as (pre & post & Hpp).
    + rewrite map_fst_below. apply StronglySorted_map_app, textNodes_sorted.
    + exact Hent2.
    + exists pre, post. rewrite <- Hpp, textOf_below.
      apply descText_textNodes.
Qed.

(* ================================================================== *)
(** ** The Range between two positions in text nodes *)

Lemma lexCompare_single (x y : nat) :
  lexCompare [x] [y] = Nat.compare x y.
Proof. cbn [lexCompare]. destruct (Nat.compare x y); reflexivity. Qed.

Lemma bpCompare_same (p : path) (o1 o2 : nat) :
  bpCompare p o1 p o2 = Nat.compare o1 o2.
Proof.
  unfold bpCompare. rewrite lexCompare_app_same. apply lexCompare_single.
Qed.

Lemma bpCompare_pathLt (p q : path) (o1 o2 : nat) :
  pathLt p q -> bpCompare p o1 q o2 = Lt.
Proof. intro H. apply pathLt_lex, H. Qed.

Lemma bpCompare_pathGt (p q : path) (o1 o2 : nat) :
  pathLt q p -> bpCompare p o1 q o2 = Gt.
Proof. intro H. apply lexCompare_Gt_Lt, pathLt_lex, H. Qed.

Lemma StronglySorted_app_r {A} (R : A -> A -> Prop) (a b : list A) :
  StronglySorted R (a ++ b) -> StronglySorted R b.
Proof.
  induction a as [|x a IH]; intro H; [exact H|].
  apply IH. simpl in H. apply StronglySorted_inv in H as [H _]. exact H.
Qed.

(** The text nodes contained in a range from one text node to a later
    one are the text nodes between the two. *)
Lemma filter_contained_between (A M Z : list (path * str)) (P1 P2 : path)
  (d1 d2 : str) (o1 o2 : nat) :
  StronglySorted pathLt
    (map fst (A ++ (P1, d1) :: M ++ (P2, d2) :: Z)) ->
  o2 <= length d2 ->
  pathLt P1 P2
  /\ filter (inside (mkRange P1 o1 P2 o2))
            (A ++ (P1, d1) :: M ++ (P2, d2) :: Z) = M.
Proof.
  intros Hsort Ho2.
  rewrite map_app in Hsort. cbn [map] in Hsort. rewrite map_app in Hsort.
  cbn [map fst] in Hsort.
  pose proof (StronglySorted_app_pairs _ _ _ Hsort) as HA.
  assert (Hsort1 : StronglySorted pathLt
                     (P1 :: map fst M ++ P2 :: map fst Z))
    by exact (StronglySorted_app_r _ _ _ Hsort).
  apply StronglySorted_inv in Hsort1 as [Hsort2 H1].
  pose proof (StronglySorted_app_pairs _ _ _ Hsort2) as HM.
  assert (Hsort3 : StronglySorted pathLt (P2 :: map fst Z))
    by exact (StronglySorted_app_r _ _ _ Hsort2).
  apply StronglySorted_inv in Hsort3 as [_ H2].
  rewrite Forall_forall in H1, H2.
  assert (L12 : pathLt P1 P2).
  { apply H1, in_or_app. right. left. reflexivity. }
  split; [exact L12|].
  rewrite filter_app. cbn [filter]. rewrite filter_app. cbn [filter].
  assert (FA : filter (inside (mkRange P1 o1 P2 o2)) A = []).
  { apply filter_none. intros [p d] Hin. unfold inside, contained.
    cbn [fst snd startContainer startOffset].
    rewrite (bpCompare_pathLt p P1 0 o1); [reflexivity|].
    apply HA; [|left; reflexivity].
    apply in_map_iff. exists (p, d). auto. }
  assert (FM : filter (inside (mkRange P1 o1 P2 o2)) M = M).
  { apply filter_all. intros [p d] Hin. unfold inside, contained.
    cbn [fst snd startContainer startOffset endContainer endOffset].
    assert (Hp : In p (map fst M))
      by (apply in_map_iff; exists (p, d); auto).
    rewrite (bpCompare_pathGt p P1 0 o1), (bpCompare_pathLt p P2 _ o2);
      [reflexivity| |].
    - apply HM; [exact Hp | left; reflexivity].
    - apply H1, in_or_app. left. exact Hp. }
  assert (FZ : filter (inside (mkRange P1 o1 P2 o2)) Z = []).
  { apply filter_none. intros [p d] Hin. unfold inside, contained.
    cbn [fst snd startContainer startOffset endContainer endOffset].
    rewrite (bpCompare_pathGt p P2 _ o2); [apply andb_false_r|].
    apply H2, in_map_iff. exists (p, d). auto. }
  assert (I1 : inside (mkRange P1 o1 P2 o2) (P1, d1) = false).
  { unfold inside, contained.
    cbn [fst snd startContainer startOffset endContainer endOffset].
    rewrite bpCompare_same. destruct o1; reflexivity. }
  assert (I2 : inside (mkRange P1 o1 P2 o2) (P2, d2) = false).
  { unfold inside, contained.
    cbn [fst snd startContainer startOffset endContainer endOffset].
    rewrite (bpCompare_same P2).
    destruct (Nat.compare_spec (length d2) o2);
      try apply andb_false_r. lia. }
  rewrite FA, FM, FZ, I1, I2. cbn [app]. apply app_nil_r.
Qed.

(** The two searches of the restoration and the Range between what they
    find: its text is the stretch of the text that was asked for. *)
Lemma located_range (root : node) (top : path) (topNode : node)
  (a len : nat) :
  nodeAt root top = Some topNode ->
  textNodes topNode <> [] ->
  a + len <= length (descText topNode) ->
  exists p1 o1 p2 o2 d1 d2,
    findTextNodeAtOffset topNode a = Some (p1, o1)
    /\ findTextNodeAtOffset topNode (a + len) = Some (p2, o2)
    /\ nodeAt root (top ++ p1) = Some (Text d1)
    /\ nodeAt root (top ++ p2) = Some (Text d2)
    /\ o1 <= length d1 /\ o2 <= length d2
    /\ negb (isLt (bpCompare (top ++ p2) o2 (top ++ p1) o1)) = true
    /\ rangeToString root (mkRange (top ++ p1) o1 (top ++ p2) o2)
       = substring (descText topNode) a (a + len)
    /\ (len = 0 -> p1 = p2).
Proof.
  intros Htop Hne Hlen.
  rewrite !findTextNodeAtOffset_scan.
  rewrite descText_textNodes in *.
  destruct (scan_finds a (textNodes topNode) 0 Hne (Nat.le_0_l _))
    as (pre1 & p1 & d1 & post1 & E1 & S1 & L1 & U1 & F1); [lia|].
  destruct (scan_finds (a + len) (textNodes topNode) 0 Hne (Nat.le_0_l _))
    as (pre2 & p2 & d2 & post2 & E2 & S2 & L2 & U2 & F2); [lia|].
  rewrite S1, S2. cbn [Nat.add] in *.
  assert (N1 : nodeAt root (top ++ p1) = Some (Text d1)).
  { rewrite nodeAt_app, Htop. apply In_textNodes. rewrite E1.
    apply in_or_app. right. left. reflexivity. }
  assert (N2 : nodeAt root (top ++ p2) = Some (Text d2)).
  { rewrite nodeAt_app, Htop. apply In_textNodes. rewrite E2.
    apply in_or_app. right. left. reflexivity. }
  exists p1, (a - length (textOf pre1)), p2,
    (a + len - length (textOf pre2)), d1, d2.
  split; [reflexivity|]. split; [reflexivity|].
  split; [exact N1|]. split; [exact N2|].
  split; [lia|]. split; [lia|].
  pose proof E2 as E12. rewrite E1 in E12.
  destruct (two_splits _ _ _ _ _ _ E12)
    as [(Ep & Ex & Epost)|[(mid & Ep & Epost)|(mid & Ep & Epost)]].
  - (* the same text node *)
    subst pre2. injection Ex as <- <-.
    split; [|split; [|reflexivity]].
    + rewrite bpCompare_same.
      destruct (Nat.compare_spec (a + len - length (textOf pre1))
                  (a - length (textOf pre1))); try reflexivity. lia.
    + unfold rangeToString.
      cbn [startContainer endContainer startOffset endOffset].
      rewrite N1, path_eqb_refl. cbn [isText andb descText].
      rewrite E1, textOf_app, textOf_cons.
      replace a with (length (textOf pre1) + (a - length (textOf pre1)))
        at 3 by lia.
      replace (a + len)
        with (length (textOf pre1) + (a + len - length (textOf pre1)))
        at 2 by lia.
      symmetry. apply substring_inside; lia.
  - (* the end lies in a later text node *)
    subst pre2 post1.
    rewrite textOf_app, textOf_cons, !length_app in *.
    destruct (textNodes_around root top topNode Htop)
      as (X & Y & EL & _ & _).
    assert (EL' : textNodes root
                  = (X ++ map (below top) pre1)
                    ++ (top ++ p1, d1) :: map (below top) mid
                    ++ (top ++ p2, d2) :: (map (below top) post2 ++ Y)).
    { rewrite EL, E1. rewrite !map_app. cbn [map]. rewrite !map_app.
      cbn [map].
      change (below top (p1, d1)) with (top ++ p1, d1).
      change (below top (p2, d2)) with (top ++ p2, d2).
      repeat (rewrite <- app_assoc || rewrite <- app_comm_cons).
      reflexivity. }
    pose proof (textNodes_sorted root) as Hsort.
    rewrite EL' in Hsort.
    destruct (filter_contained_between _ _ _ _ _ d1 d2
                (a - length (textOf pre1))
                (a + len - (length (textOf pre1)
                            + (length d1 + length (textOf mid)))) Hsort)
      as (L12 & Hfilter); [lia|].
    assert (Hmid_ne : length (textOf pre1)
                      + (length d1 + length (textOf mid)) < a + len).
    { destruct F2 as [F2|F2]; [|exact F2].
      destruct pre1; discriminate. }
    split; [|split; [|lia]].
    + rewrite (bpCompare_pathGt (top ++ p2) (top ++ p1)); [reflexivity|].
      exact L12.
    + unfold rangeToString.
      cbn [startContainer endContainer startOffset endOffset].
      rewrite N1, N2.
      rewrite (path_eqb_neq (top ++ p1) (top ++ p2)).
      2:{ intro E. rewrite E in L12. exact (pathLt_irrefl _ L12). }
      cbn [isText andb descText].
      rewrite EL'.
      match goal with
      | |- context [textOf (filter ?f ?l)] =>
          replace (filter f l) with (map (below top) mid)
            by (symmetry; exact Hfilter)
      end.
      rewrite textOf_below.
      rewrite E1, !textOf_app, !textOf_cons, !textOf_app, !textOf_cons.
      replace a with (length (textOf pre1) + (a - length (textOf pre1)))
        at 3 by lia.
      replace (a + len)
        with (length (textOf pre1) + length d1 + length (textOf mid)
              + (a + len - (length (textOf pre1)
                            + (length d1 + length (textOf mid)))))
        at 2 by lia.
      symmetry. apply substring_across; lia.
  - (* the end cannot lie in an earlier text node *)
    exfalso. subst pre1 post2.
    rewrite textOf_app, textOf_cons, !length_app in *.
    destruct F1 as [F1|F1]; [destruct pre2; discriminate|]. lia.
Qed.

(* ================================================================== *)
(** ** restoreHighlight on the descriptor of a range *)

Lemma isGt_antisym (a b : list nat) :
  isGt (lexCompare a b) = isLt (lexCompare b a).
Proof.
  rewrite (lexCompare_antisym a b). destruct (lexCompare a b); reflexivity.
Qed.

Lemma locate_spec (top : path) (topNode : node) (a len : nat) (s : page) :
  nodeAt (dom s) top = Some topNode -> isElem (dom s) = true ->
  textNodes topNode <> [] ->
  a + len <= length (descText topNode) ->
  exists r' ds,
    locate top a len s
    = (Val (Some r'), mkPage (dom s) (console s ++ [LogRange r']))
    /\ validRange (dom s) r' = true
    /\ rangeToString (dom s) r' = substring (descText topNode) a (a + len)
    /\ nodeAt (dom s) (startContainer r') = Some (Text ds)
    /\ startContainer r' <> []
    /\ (len = 0 -> inOneTextNode (dom s) r' = true).
Proof.
  intros Htop Hne Htn Hlen.
  destruct (located_range (dom s) top topNode a len Htop Htn Hlen)
    as (p1 & o1 & p2 & o2 & d1 & d2 & F1 & F2 & N1 & N2 & O1 & O2 & Ord
        & Str & Same).
  exists (mkRange (top ++ p1) o1 (top ++ p2) o2), d1.
  split; [|split; [|split; [exact Str|split; [exact N1|split]]]].
  - unfold locate, bind, getDom, lift, log, ret, rangeBetween.
    rewrite Htop, F1, F2. cbn [fst snd]. rewrite N1, N2.
    cbn [nodeLength].
    destruct (Nat.ltb_spec (length d1) o1); [lia|].
    destruct (Nat.ltb_spec (length d2) o2); [lia|].
    apply negb_true_iff in Ord. rewrite Ord. reflexivity.
  - unfold validRange.
    cbn [startContainer endContainer startOffset endOffset].
    rewrite N1, N2. cbn [nodeLength].
    destruct (Nat.leb_spec o1 (length d1)); [|lia].
    destruct (Nat.leb_spec o2 (length d2)); [|lia].
    unfold bpCompare in *. rewrite isGt_antisym, Ord. reflexivity.
  - cbn [startContainer]. intro E. rewrite E in N1. cbn [nodeAt] in N1.
    injection N1 as N1. rewrite N1 in Hne. discriminate.
  - intro L. rewrite (Same L) in *. unfold inOneTextNode.
    cbn [startContainer endContainer].
    rewrite path_eqb_refl, N2. reflexivity.
Qed.

Lemma tuples_text (root : node) (r : range) :
  validRange root r = true -> inOneTextNode root r = false ->
  concat (map (coveredText root) (getTextNodesInRange root r))
  = rangeToString root r.
Proof.
  intros Hv One.
  rewrite (walk_is_complete root r Hv One), concat_map_flat_map.
  apply (pieces_toString root r Hv One).
Qed.

(** highlightRange returns a marker for a range that starts in a text
    node and either lies inside it or has some text. *)
Lemma highlightRange_returns (B : Browser) (r : range)
  (type : annotationType) (customId : option str) (s : page) (ds : str) :
  validRange (dom s) r = true ->
  nodeAt (dom s) (startContainer r) = Some (Text ds) ->
  startContainer r <> [] ->
  (inOneTextNode (dom s) r = false -> rangeToString (dom s) r <> []) ->
  selectorSafe (chooseId B customId) = true ->
  exists m s',
    highlightRange B r type customId s = (Val (Some m), s')
    /\ hasMarker (chooseId B customId) (dom s') = true
    /\ descText (dom s') = descText (dom s)
    /\ exists evs, console s' = console s ++ evs.
Proof.
  intros Hv Hn Hne Htext Safe.
  rewrite highlightRange_unfold. cbv zeta.
  set (id := chooseId B customId) in *.
  destruct (inOneTextNode (dom s) r) eqn:One.
  - rewrite (inOneTextNode_no_tuples _ _ One).
    pose proof One as One'. unfold inOneTextNode in One'.
    apply andb_prop in One' as [E _]. apply path_eqb_eq in E.
    destruct (valid_same_node (dom s) r ds Hv E Hn) as [Hso Heo].
    destruct (surroundText_ok (markElement type id) (startOffset r)
                (endOffset r) ds ltac:(lia) Heo) as (put & Hput).
    destruct (editDocument_ok _ (startContainer r) (dom s) (Text ds) put
                Hn Hput Hne) as (root' & Hed & _).
    destruct (wrap_effect type id _ _ _ _ _ Hed) as (Ht & Hm & _).
    unfold highlightRangeLegacy, bind, log, catch, surroundContents, ret.
    cbn [dom console]. rewrite One, Hed. cbn [dom console].
    eexists. eexists. split; [reflexivity|]. cbn [dom console].
    split; [exact Hm|]. split; [exact Ht|].
    rewrite <- !app_assoc. eexists. reflexivity.
  - specialize (Htext eq_refl).
    rewrite <- (tuples_text (dom s) r Hv One) in Htext.
    destruct (getTextNodesInRange (dom s) r) as [|f rest] eqn:Efr;
      [exfalso; apply Htext; reflexivity|].
    assert (Hf : In f (getTextNodesInRange (dom s) r))
      by (rewrite Efr; left; reflexivity).
    destruct (tuples_are_slices (dom s) r f Hv Hf) as (d & Hnf & Hp & Hlt & He).
    set (s0 := mkPage (dom s)
                 (console s ++ [LogFragments (length (f :: rest))])).
    destruct (wrapEach_head type id f rest s0 d Hnf Hp ltac:(lia) He)
      as (s1 & evs & R & C & Fa & Tx & Mk).
    rewrite (bind_val _ _ _ _ _ R).
    destruct (afterSplit_effect B id (length (f :: rest)) s1)
      as (tail & Ct & Dt & Nl & Ret).
    destruct (Ret Safe (hasMarker_carriesId id _ Mk)) as (m & Hm).
    destruct (afterSplit B id (length (f :: rest)) s1) as [res s2] eqn:Ea.
    cbn [fst snd] in *. subst res.
    exists m, s2. split; [reflexivity|]. rewrite Dt.
    split; [exact Mk|]. split; [exact Tx|].
    rewrite Ct, C. unfold s0. cbn [console]. rewrite <- !app_assoc.
    eexists. reflexivity.
Qed.

Lemma str_eqb_eq (a b : str) : str_eqb a b = true -> a = b.
Proof. unfold str_eqb. destruct (str_eq_dec a b); congruence. Qed.

Lemma nodeAt_prefix (n : node) (p q : path) :
  nodeAt n (p ++ q) <> None -> nodeAt n p <> None.
Proof.
  rewrite nodeAt_app. destruct (nodeAt n p); [discriminate | auto].
Qed.

(** The generated path starts with the step for the child of the root
    element that the node lies in: the root element itself is never
    recorded. *)
Lemma xpathLoop_head (root : node) (rc : list nat) :
  forall acc,
    rc <> [] -> nodeAt root (rev rc) <> None ->
    exists n idx rest,
      nodeAt root [last rc 0] = Some n
      /\ xpathLoop root rc acc = (tagOf n, idx) :: rest.
Proof.
  induction rc as [|j rp IH]; intros acc Hne Hn; [congruence|].
  cbn [xpathLoop]. cbn [rev] in Hn |- *.
  pose proof (nodeAt_prefix _ _ _ Hn) as Hparent.
  destruct (nodeAt root (rev rp)) as [parent|] eqn:Ep; [|congruence].
  destruct (nodeAt root (rev rp ++ [j])) as [element|] eqn:Ee; [|congruence].
  destruct rp as [|k rp'].
  - exists element, (elementIndex (kids parent) j + 1), acc.
    split; [exact Ee | reflexivity].
  - destruct (IH ((tagOf element, elementIndex (kids parent) j + 1) :: acc)
                ltac:(discriminate) ltac:(congruence))
      as (n & idx & rest & Hl & Hx).
    exists n, idx, rest. split; [exact Hl | exact Hx].
Qed.

Lemma generateXPath_head (root : node) (i : nat) (q : path)
  (child n : node) :
  nodeAt root [i] = Some child -> isElem child = true ->
  nodeAt root (i :: q) = Some n -> isText n || isElem n = true ->
  exists idx rest,
    generateXPath root (i :: q) = (tagOf child, idx) :: rest.
Proof.
  intros Hc Helem Hn Hkind. unfold generateXPath. rewrite Hn.
  destruct n as [d|d|t g c ks]; try discriminate.
  - assert (Hq : q <> []).
    { intros ->. rewrite Hc in Hn. injection Hn as ->. discriminate. }
    assert (Er : removelast (i :: q) = i :: removelast q)
      by (destruct q; [congruence | reflexivity]).
    rewrite Er.
    destruct (xpathLoop_head root (rev (i :: removelast q)) [])
      as (n & idx & rest & Hl & Hx).
    + cbn [rev]. apply snoc_not_nil.
    + rewrite rev_involutive, <- Er.
      apply (nodeAt_prefix root _ [last (i :: q) 0]).
      rewrite <- app_removelast_last by discriminate. congruence.
    + cbn [rev] in Hl. rewrite last_last in Hl.
      assert (n = child) by congruence. subst n.
      exists idx, rest. exact Hx.
  - destruct (xpathLoop_head root (rev (i :: q)) [])
      as (n & idx & rest & Hl & Hx).
    + cbn [rev]. apply snoc_not_nil.
    + rewrite rev_involutive. congruence.
    + cbn [rev] in Hl. rewrite last_last in Hl.
      assert (n = child) by congruence. subst n.
      exists idx, rest. exact Hx.
Qed.

(** On an html document the generated path of a node of the body selects
    nothing: its first step names the body, the document has the root
    element as its only child. *)
Lemma evaluate_generated (B : Browser) (s : page) (b sc : path)
  (n : node) :
  body (dom s) = Some b ->
  isPrefixb b sc = true ->
  nodeAt (dom s) sc = Some n -> isText n || isElem n = true ->
  forallb (fun st => plainName (fst st)) (generateXPath (dom s) sc) = true ->
  evaluate B (generateXPath (dom s) sc) s = (Val None, s).
Proof.
  intros Hb Hpre Hn Hkind Hplain.
  destruct (body_nodeAt _ _ Hb)
    as (i & t & g & c & ks & bodyNode & -> & Hr & Hfi & Hnth & Hbn).
  destruct (findIndex_nth _ _ _ Hfi) as (x & Hx & Hbody).
  assert (x = bodyNode) by congruence. subst x.
  apply isPrefixb_spec in Hpre as (q & ->). cbn [app] in *.
  assert (Helem : isElem bodyNode = true).
  { unfold isBodyTag, hasTag in Hbody.
    destruct (isElem bodyNode); [reflexivity | discriminate]. }
  destruct (generateXPath_head (dom s) i q bodyNode n Hbn Helem Hn Hkind)
    as (idx & rest & Ex).
  unfold evaluate. rewrite Ex in *. rewrite Hplain.
  replace (hasTag (tagOf bodyNode) (dom s)) with false; [reflexivity|].
  unfold body in Hb.
  destruct (hasTag (txt "html") (dom s)) eqn:Hh; [|discriminate].
  unfold hasTag in *.
  destruct (isElem (dom s)); [|reflexivity]. cbn [andb] in *.
  apply str_eqb_eq in Hh. rewrite Hh.
  unfold isBodyTag, hasTag in Hbody. rewrite Helem in Hbody.
  cbn [andb] in Hbody. apply orb_prop in Hbody as [E|E];
    apply str_eqb_eq in E; rewrite E; reflexivity.
Qed.

Lemma findAndHighlightText_spec (B : Browser) (text id : str)
  (type : annotationType) (start : nat) (s : page) (b : path)
  (bodyNode : node) :
  body (dom s) = Some b -> nodeAt (dom s) b = Some bodyNode ->
  textNodes bodyNode <> [] ->
  start + length text <= length (descText bodyNode) ->
  substring (descText bodyNode) start (start + length text) = text ->
  selectorSafe (chooseId B (Some id)) = true ->
  exists r' s',
    findAndHighlightText B text id type start s = (Val true, s')
    /\ In (LogRange r') (console s')
    /\ validRange (dom s) r' = true
    /\ rangeToString (dom s) r' = text
    /\ hasMarker (chooseId B (Some id)) (dom s') = true
    /\ descText (dom s') = descText (dom s).
Proof.
  intros Hb Hbn Htn Hlen Hsub Safe.
  assert (Hroot : isElem (dom s) = true).
  { destruct (body_nodeAt _ _ Hb) as (i & t & g & c & ks & _ & _ & -> & _).
    reflexivity. }
  destruct (locate_spec b bodyNode start (length text) s Hbn Hroot Htn Hlen)
    as (r' & ds & Hloc & Hv & Hstr & Hn & Hne & Hzero).
  rewrite Hsub in Hstr.
  set (s1 := mkPage (dom s) (console s ++ [LogRange r'])) in *.
  destruct (highlightRange_returns B r' type (Some id) s1 ds Hv Hn Hne)
    as (m & s2 & Hhl & Hm & Ht & evs & Hc); [|exact Safe|].
  { unfold s1. cbn [dom]. intros One E. rewrite Hstr in E.
    rewrite Hzero in One; [discriminate|]. rewrite E. reflexivity. }
  exists r', s2.
  split; [|split; [|split; [exact Hv|split; [exact Hstr|split]]]].
  - unfold findAndHighlightText, catch.
    unfold bind at 1. unfold theBody. rewrite Hb.
    rewrite (bind_val _ _ _ _ _ Hloc).
    rewrite (bind_val _ _ _ _ _ Hhl). reflexivity.
  - rewrite Hc. apply in_or_app. left. apply in_or_app. right.
    left. reflexivity.
  - exact Hm.
  - exact Ht.
Qed.

Lemma textContentAt_elem (root : node) (p : path) (n : node) :
  nodeAt root p = Some n -> isElem n = true ->
  textContentAt root p = descText n.
Proof.
  intros H E. unfold textContentAt. rewrite H.
  destruct n; try discriminate. reflexivity.
Qed.

Lemma restoreByTextQuote_spec (B : Browser) (id : str) (tq : TextQuote)
  (type : annotationType) (s : page) (b : path) (bodyNode : node) :
  body (dom s) = Some b -> nodeAt (dom s) b = Some bodyNode ->
  textNodes bodyNode <> [] ->
  (exists pre post, descText bodyNode = pre ++ exact tq ++ post) ->
  selectorSafe (chooseId B (Some id)) = true ->
  exists r' s',
    restoreByTextQuote B id tq type s = (Val true, s')
    /\ In (LogRange r') (console s')
    /\ validRange (dom s) r' = true
    /\ rangeToString (dom s) r' = exact tq
    /\ hasMarker (chooseId B (Some id)) (dom s') = true
    /\ descText (dom s') = descText (dom s).
Proof.
  intros Hb Hbn Htn (pre & post & Hocc) Safe.
  assert (Helem : isElem bodyNode = true).
  { destruct (body_nodeAt _ _ Hb)
      as (i & t & g & c & ks & bn & -> & Hr & Hfi & Hnth & Hbn').
    destruct (findIndex_nth _ _ _ Hfi) as (x & Hx & Hbody).
    assert (x = bodyNode) by congruence. subst x.
    unfold isBodyTag, hasTag in Hbody.
    destruct (isElem bodyNode); [reflexivity | discriminate]. }
  unfold restoreByTextQuote.
  unfold bind at 1. unfold theBody at 1. rewrite Hb.
  unfold bind at 1. unfold getDom at 1.
  rewrite (textContentAt_elem _ _ _ Hbn Helem).
  destruct (indexOf (prefix tq ++ exact tq ++ suffix tq) (descText bodyNode))
    as [patternIndex|] eqn:Ei.
  - apply indexOf_sound in Ei as (before & after & Eb & Hl).
    destruct (findAndHighlightText_spec B (exact tq) id type
                (patternIndex + length (prefix tq)) s b bodyNode Hb Hbn Htn)
      as (r' & s' & H); [| |exact Safe|exists r', s'; exact H].
    + rewrite Eb, !length_app. lia.
    + rewrite Eb, <- Hl, <- length_app.
      replace (before ++ (prefix tq ++ exact tq ++ suffix tq) ++ after)
        with ((before ++ prefix tq) ++ exact tq ++ (suffix tq ++ after))
        by (rewrite <- !app_assoc; reflexivity).
      apply substring_at.
  - destruct (indexOf_complete (exact tq) pre post) as (i & Hi & _).
    rewrite <- Hocc in Hi. rewrite Hi.
    apply indexOf_sound in Hi as (before & after & Eb & Hl).
    unfold bind at 1. unfold log at 1.
    unfold bind at 1. unfold log at 1.
    set (s1 := mkPage _ _).
    destruct (findAndHighlightText_spec B (exact tq) id type i s1 b bodyNode
                Hb Hbn Htn)
      as (r' & s' & H); [| |exact Safe|exists r', s'; exact H].
    + rewrite Eb, !length_app. lia.
    + rewrite Eb, <- Hl. apply substring_at.
Qed.

(** C2.  On an html document, for a Range whose two containers lie in
    the body, whose start container is a text node or an element, with
    plain element names on the way to it, a body that holds a text node,
    an identifier the attribute selector can carry and no marker of that
    identifier in the document: restoreHighlight applied to the
    descriptor createLocationInfo builds from the Range returns true, and
    the Range it reconstructs and hands to highlightRange has the
    descriptor's exact text, the text of the original Range, as its
    text. *)
Theorem restoreHighlight_round_trip (B : Browser) (s : page) (r : range)
  (id : str) (type : annotationType) (b : path) (bodyNode startNode : node) :
  validRange (dom s) r = true ->
  body (dom s) = Some b -> nodeAt (dom s) b = Some bodyNode ->
  textNodes bodyNode <> [] ->
  isPrefixb b (startContainer r) = true ->
  isPrefixb b (endContainer r) = true ->
  nodeAt (dom s) (startContainer r) = Some startNode ->
  isText startNode || isElem startNode = true ->
  forallb (fun st => plainName (fst st))
          (generateXPath (dom s) (startContainer r)) = true ->
  selectorSafe id = true ->
  selectorSafe (chooseId B (Some id)) = true ->
  hasMarker id (dom s) = false ->
  let info := createLocationInfo (dom s) r in
  exact (snd info) = rangeToString (dom s) r
  /\ exists r' s',
       restoreHighlight B id (fst info) (snd info) type s = (Val true, s')
       /\ In (LogRange r') (console s')
       /\ validRange (dom s) r' = true
       /\ rangeToString (dom s) r' = exact (snd info).
Proof.
  intros Hv Hb Hbn Htn Hps Hpe Hsn Hkind Hplain Safe Safe' Hnomark info.
  split; [reflexivity|].
  unfold info, createLocationInfo. cbn [fst snd].
  assert (Hbne : b <> []).
  { destruct (body_nodeAt _ _ Hb) as (i & _ & _ & _ & _ & _ & -> & _).
    discriminate. }
  destruct (toString_within (dom s) r b bodyNode Hv Hbne Hbn Hps Hpe)
    as (pre & post & Hocc).
  unfold restoreHighlight.
  destruct (querySelector_safe B (Some (txt "mark")) id s Safe)
    as (found & Q & Hfound).
  assert (found = None) by (apply Hfound; exact Hnomark). subst found.
  rewrite (bind_val _ _ _ _ _ Q).
  unfold catch.
  rewrite (bind_val _ _ _ _ _
             (evaluate_generated B s b (startContainer r) startNode
                Hb Hps Hsn Hkind Hplain)).
  unfold bind at 1. unfold log at 1.
  set (s1 := mkPage (dom s) (console s ++ [WarnXPathFailed])).
  destruct (restoreByTextQuote_spec B id (createTextQuote (dom s) r) type s1
              b bodyNode Hb Hbn Htn)
    as (r' & s' & Hrun & Hlog & Hv' & Hstr & _); [|exact Safe'|].
  { exists pre, post. exact Hocc. }
  rewrite Hrun. exists r', s'. auto.
Qed.

Lemma restoreHighlight_round_trip_witness :
  let r := mkRange [1; 0; 0] 2 [1; 0; 2] 3 in
  let info := createLocationInfo helloDoc r in
  exact (snd info) = txt "llo big wo"
  /\ exists r' s',
       restoreHighlight plainBrowser (txt "a1") (fst info) (snd info) agree
         (mkPage helloDoc []) = (Val true, s')
       /\ In (LogRange r') (console s')
       /\ validRange helloDoc r' = true
       /\ rangeToString helloDoc r' = txt "llo big wo".
Proof.
  intros r info.
  destruct (restoreHighlight_round_trip plainBrowser (mkPage helloDoc []) r
              (txt "a1") agree [1]
              (Elem (txt "body") None []
                 [Elem (txt "p") None []
                    [Text (txt "Hello ");
                     Elem (txt "b") None [] [Text (txt "big")];
                     Text (txt " world")]])
              (Text (txt "Hello ")))
    as (E & H); try reflexivity; [discriminate|].
  split; [reflexivity|]. exact H.
Defined.

Lemma restoreHighlight_round_trip_counterexample :
  (let r := mkRange [0; 0; 0] 0 [0; 0; 0] 2 in
   let info := createLocationInfo titleDoc r in
   validRange titleDoc r = true /\ collapsed r = false
   /\ fst (restoreHighlight plainBrowser (txt "a1") (fst info) (snd info)
             agree (mkPage titleDoc [])) = Val false)
  /\ (let r := mkRange [0] 0 [0] 2 in
      let info := createLocationInfo imageDoc r in
      validRange imageDoc r = true /\ collapsed r = false
      /\ fst (restoreHighlight plainBrowser (txt "a1") (fst info) (snd info)
                agree (mkPage imageDoc [])) = Val false)
  /\ (let r := mkRange [] 1 [1; 0; 0] 3 in
      let info := createLocationInfo helloDoc r in
      validRange helloDoc r = true /\ collapsed r = false
      /\ fst (restoreHighlight plainBrowser (txt "a1") (fst info) (snd info)
                agree (mkPage helloDoc [])) = Val false)
  /\ (let r := mkRange [0; 0] 1 [0; 1; 0] 2 in
      let info := createLocationInfo commentDoc r in
      validRange commentDoc r = true /\ collapsed r = false
      /\ fst (restoreHighlight plainBrowser (txt "a1") (fst info) (snd info)
                agree (mkPage commentDoc [])) = Val false)
  /\ (let r := mkRange [0; 0; 0] 0 [0; 0; 0] 2 in
      let info := createLocationInfo prefixedDoc r in
      validRange prefixedDoc r = true /\ collapsed r = false
      /\ fst (restoreHighlight plainBrowser (txt "a1") (fst info) (snd info)
                agree (mkPage prefixedDoc [])) = Val false)
  /\ (let r := mkRange [1; 0; 0] 2 [1; 0; 2] 3 in
      let info := createLocationInfo helloDoc r in
      validRange helloDoc r = true /\ collapsed r = false
      /\ fst (restoreHighlight plainBrowser brokenId (fst info) (snd info)
                agree (mkPage helloDoc [])) = Exc SyntaxError).
Proof. repeat split. Qed.

(* ================================================================== *)
(** ** A restoration that succeeds leaves a marker *)

Lemma catch_true (m : M bool) (ev : exn -> event) (s s1 : page) :
  catch m (fun e => log (ev e) ;;; ret false) s = (Val true, s1) ->
  m s = (Val true, s1).
Proof.
  unfold catch. destruct (m s) as [[a|e] s']; [auto|].
  unfold bind, log, ret. discriminate.
Qed.

Lemma locate_empty (top : path) (topNode : node) (a len : nat) (s : page) :
  nodeAt (dom s) top = Some topNode -> textNodes topNode = [] ->
  locate top a len s
  = (Val None, mkPage (dom s) (console s ++ [ErrNoStartNode])).
Proof.
  intros Htop E. unfold locate, bind, getDom.
  rewrite Htop, findTextNodeAtOffset_scan, E. reflexivity.
Qed.

Lemma locate_missing (top : path) (a len : nat) (s : page) :
  nodeAt (dom s) top = None -> locate top a len s = (Exc TypeError, s).
Proof.
  intros Htop. unfold locate, bind, getDom. rewrite Htop. reflexivity.
Qed.

Lemma textContent_with_text (n : node) :
  textNodes n <> [] -> textContent n = descText n.
Proof.
  destruct n; [reflexivity | intro H; exfalso; apply H | reflexivity].
  reflexivity.
Qed.

Lemma findAndHighlightText_true (B : Browser) (text id : str)
  (type : annotationType) (start : nat) (s s1 : page) (b : path)
  (bodyNode : node) :
  body (dom s) = Some b -> nodeAt (dom s) b = Some bodyNode ->
  start + length text <= length (descText bodyNode) ->
  substring (descText bodyNode) start (start + length text) = text ->
  selectorSafe (chooseId B (Some id)) = true ->
  findAndHighlightText B text id type start s = (Val true, s1) ->
  hasMarker (chooseId B (Some id)) (dom s1) = true.
Proof.
  intros Hb Hbn Hlen Hsub Safe Hrun.
  destruct (textNodes bodyNode) as [|t ts] eqn:Et.
  - exfalso. unfold findAndHighlightText, catch in Hrun.
    unfold bind at 1 in Hrun. unfold theBody in Hrun. rewrite Hb in Hrun.
    rewrite (bind_val _ _ _ _ _
               (locate_empty b bodyNode start (length text) s Hbn Et))
      in Hrun.
    discriminate.
  - destruct (findAndHighlightText_spec B text id type start s b bodyNode
                Hb Hbn ltac:(congruence) Hlen Hsub Safe)
      as (r' & s' & Hrun' & _ & _ & _ & Hm & _).
    congruence.
Qed.

Lemma restoreByTextQuote_true (B : Browser) (id : str) (tq : TextQuote)
  (type : annotationType) (s s1 : page) :
  selectorSafe (chooseId B (Some id)) = true ->
  restoreByTextQuote B id tq type s = (Val true, s1) ->
  hasMarker (chooseId B (Some id)) (dom s1) = true.
Proof.
  intros Safe Hrun. unfold restoreByTextQuote in Hrun.
  unfold bind at 1 in Hrun. unfold theBody at 1 in Hrun.
  destruct (body (dom s)) as [b|] eqn:Hb; [|discriminate].
  destruct (body_nodeAt _ _ Hb)
    as (i & t & g & c & ks & bodyNode & Eb & Hr & Hfi & Hnth & Hbn).
  assert (Helem : isElem bodyNode = true).
  { destruct (findIndex_nth _ _ _ Hfi) as (x & Hx & Hbody).
    assert (x = bodyNode) by congruence. subst x.
    unfold isBodyTag, hasTag in Hbody.
    destruct (isElem bodyNode); [reflexivity | discriminate]. }
  unfold bind at 1 in Hrun. unfold getDom at 1 in Hrun.
  rewrite (textContentAt_elem _ _ _ Hbn Helem) in Hrun.
  destruct (indexOf (prefix tq ++ exact tq ++ suffix tq) (descText bodyNode))
    as [patternIndex|] eqn:Ei.
  - apply indexOf_sound in Ei as (before & after & Et & Hl).
    apply (findAndHighlightText_true B (exact tq) id type
             (patternIndex + length (prefix tq)) s s1 b bodyNode Hb Hbn);
      [| |exact Safe|exact Hrun].
    + rewrite Et, !length_app. lia.
    + rewrite Et, <- Hl, <- length_app.
      replace (before ++ (prefix tq ++ exact tq ++ suffix tq) ++ after)
        with ((before ++ prefix tq) ++ exact tq ++ (suffix tq ++ after))
        by (rewrite <- !app_assoc; reflexivity).
      apply substring_at.
  - unfold bind at 1 in Hrun. unfold log at 1 in Hrun.
    destruct (indexOf (exact tq) (descText bodyNode)) as [i'|] eqn:Ee.
    + unfold bind at 1 in Hrun. unfold log at 1 in Hrun.
      apply indexOf_sound in Ee as (before & after & Et & Hl).
      cbn [dom console] in Hrun.
      apply (findAndHighlightText_true B (exact tq) id type i'
               (mkPage (dom s)
                  ((console s ++ [WarnPatternMissing]) ++ [WarnExactOnly]))
               s1 b bodyNode Hb Hbn); [| |exact Safe|exact Hrun].
      * rewrite Et, !length_app. lia.
      * rewrite Et, <- Hl. apply substring_at.
    + unfold bind, log, ret in Hrun. discriminate.
Qed.

Lemma substring_length (s : str) (a len : nat) :
  a + len <= length s -> length (substring s a (a + len)) = len.
Proof.
  intro H. unfold substring. rewrite length_firstn, length_skipn. lia.
Qed.

(** The branch of restoreHighlight after the XPath has given a node and
    the text was found in it. *)
Lemma located_highlight_true (B : Browser) (id : str) (text : str)
  (type : annotationType) (nodeRef : path) (index : nat) (s s1 : page) :
  isElem (dom s) = true ->
  selectorSafe (chooseId B (Some id)) = true ->
  indexOf text (textContentAt (dom s) nodeRef) = Some index ->
  (found <- locate nodeRef index (length text) ;;
   match found with
   | None => ret false
   | Some r =>
       mark <- highlightRange B r type (Some id) ;;
       match mark with
       | Some _ => log LogRestored ;;; ret true
       | None => throw TypeError
       end
   end) s = (Val true, s1) ->
  hasMarker (chooseId B (Some id)) (dom s1) = true.
Proof.
  intros Hroot Safe Hidx Hrun.
  destruct (nodeAt (dom s) nodeRef) as [topNode|] eqn:Htop.
  2:{ rewrite (bind_exc _ _ _ _ _ (locate_missing _ _ _ s Htop)) in Hrun.
      discriminate. }
  destruct (textNodes topNode) as [|t ts] eqn:Et.
  { rewrite (bind_val _ _ _ _ _
               (locate_empty nodeRef topNode index (length text) s Htop Et))
      in Hrun.
    discriminate. }
  assert (Htn : textNodes topNode <> []) by congruence.
  unfold textContentAt in Hidx. rewrite Htop in Hidx.
  rewrite (textContent_with_text _ Htn) in Hidx.
  apply indexOf_sound in Hidx as (before & after & ET & Hl).
  assert (Hlen : index + length text <= length (descText topNode))
    by (rewrite ET, !length_app; lia).
  destruct (locate_spec nodeRef topNode index (length text) s Htop Hroot
              Htn Hlen)
    as (r' & ds & Hloc & Hv & Hstr & Hn & Hne & Hzero).
  rewrite (bind_val _ _ _ _ _ Hloc) in Hrun.
  set (s2 := mkPage (dom s) (console s ++ [LogRange r'])) in *.
  destruct (highlightRange_returns B r' type (Some id) s2 ds Hv Hn Hne)
    as (m & s3 & Hhl & Hm & _); [|exact Safe|].
  { unfold s2. cbn [dom]. intros One E.
    assert (L0 : length text = 0).
    { rewrite <- (substring_length _ _ _ Hlen), <- Hstr, E. reflexivity. }
    rewrite (Hzero L0) in One. discriminate. }
  rewrite (bind_val _ _ _ _ _ Hhl) in Hrun.
  unfold bind, log, ret in Hrun. injection Hrun as <-. exact Hm.
Qed.

Lemma evaluate_state (B : Browser) (xp : xpath) (s : page) :
  snd (evaluate B xp s) = s.
Proof.
  unfold evaluate. destruct xp as [|[tag idx] rest]; [reflexivity|].
  destruct (forallb _ _); reflexivity.
Qed.

Lemma restoreHighlight_true_marker (B : Browser) (id : str) (xp : xpath)
  (tq : TextQuote) (type : annotationType) (s s1 : page) :
  selectorSafe id = true -> id <> [] -> isElem (dom s) = true ->
  restoreHighlight B id xp tq type s = (Val true, s1) ->
  hasMarker id (dom s1) = true.
Proof.
  intros Safe Hid Hroot Hrun.
  assert (Eid : chooseId B (Some id) = id)
    by (destruct id; [congruence | reflexivity]).
  assert (Safe' : selectorSafe (chooseId B (Some id)) = true)
    by (rewrite Eid; exact Safe).
  unfold restoreHighlight in Hrun.
  destruct (querySelector_safe B (Some (txt "mark")) id s Safe)
    as (found & Q & Hfound).
  rewrite (bind_val _ _ _ _ _ Q) in Hrun.
  destruct found as [m|].
  - unfold bind, log, ret in Hrun. injection Hrun as <-. cbn [dom].
    unfold hasMarker.
    destruct (anyElem (isMarker id) (dom s)) eqn:E; [reflexivity|].
    destruct Hfound as [_ H]. specialize (H E). discriminate.
  - apply catch_true in Hrun.
    pose proof (evaluate_state B xp s) as Hst.
    destruct (evaluate B xp s) as [[result|e] s0] eqn:Ev;
      cbn [snd] in Hst; subst s0.
    2:{ rewrite (bind_exc _ _ _ _ _ Ev) in Hrun. discriminate. }
    rewrite (bind_val _ _ _ _ _ Ev) in Hrun.
    rewrite <- Eid.
    destruct result as [nodeRef|].
    + unfold bind at 1 in Hrun. unfold getDom at 1 in Hrun.
      destruct (indexOf (exact tq) (textContentAt (dom s) nodeRef))
        as [index|] eqn:Ei.
      * exact (located_highlight_true B id (exact tq) type nodeRef index
                 s s1 Hroot Safe' Ei Hrun).
      * unfold bind at 1 in Hrun. unfold log at 1 in Hrun.
        exact (restoreByTextQuote_true B id tq type _ s1 Safe' Hrun).
    + unfold bind at 1 in Hrun. unfold log at 1 in Hrun.
      exact (restoreByTextQuote_true B id tq type _ s1 Safe' Hrun).
Qed.

(** C3.  For an identifier that the attribute selector can carry: when
    the document holds a marker of that identifier, restoreHighlight
    returns true and leaves the document as it is; and when the
    identifier is not empty, a restoration that returns true leaves a
    marker of that identifier, so that the same restoration run again
    returns true and leaves the document as the first run left it. *)
Theorem restoreHighlight_idempotent (B : Browser) (id : str) (xp : xpath)
  (tq : TextQuote) (type : annotationType) (s : page) :
  selectorSafe id = true ->
  (hasMarker id (dom s) = true ->
   exists s',
     restoreHighlight B id xp tq type s = (Val true, s')
     /\ dom s' = dom s)
  /\ (id <> [] -> isElem (dom s) = true ->
      forall s1,
        restoreHighlight B id xp tq type s = (Val true, s1) ->
        hasMarker id (dom s1) = true
        /\ exists s2,
             restoreHighlight B id xp tq type s1 = (Val true, s2)
             /\ dom s2 = dom s1).
Proof.
  intro Safe.
  assert (Short : forall s0,
             hasMarker id (dom s0) = true ->
             exists s',
               restoreHighlight B id xp tq type s0 = (Val true, s')
               /\ dom s' = dom s0).
  { intros s0 Hm. unfold restoreHighlight.
    destruct (querySelector_safe B (Some (txt "mark")) id s0 Safe)
      as (found & Q & Hfound).
    rewrite (bind_val _ _ _ _ _ Q).
    destruct found as [m|].
    - eexists. split; reflexivity.
    - destruct Hfound as [H _]. specialize (H eq_refl).
      unfold hasMarker in Hm.
      rewrite (anyElem_ext (matcher (Some (txt "mark")) id) (isMarker id) _
                 (fun k => eq_refl)) in H.
      congruence. }
  split; [apply Short|].
  intros Hid Hroot s1 Hrun.
  pose proof (restoreHighlight_true_marker B id xp tq type s s1 Safe Hid
                Hroot Hrun) as Hm.
  split; [exact Hm | apply Short, Hm].
Qed.

Lemma restoreHighlight_idempotent_witness :
  let r := mkRange [1; 0; 0] 2 [1; 0; 2] 3 in
  let info := createLocationInfo helloDoc r in
  let id := txt "a1" in
  let s1 := snd (restoreHighlight plainBrowser id (fst info) (snd info) agree
                   (mkPage helloDoc [])) in
  hasMarker id helloDoc = false
  /\ hasMarker id (dom s1) = true
  /\ exists s2,
       restoreHighlight plainBrowser id (fst info) (snd info) agree s1
       = (Val true, s2)
       /\ dom s2 = dom s1.
Proof.
  intros r info id s1. split; [reflexivity|].
  destruct (restoreHighlight_idempotent plainBrowser id (fst info) (snd info)
              agree (mkPage helloDoc []) eq_refl) as [_ H].
  apply (H ltac:(discriminate) eq_refl s1). reflexivity.
Defined.

Lemma restoreHighlight_idempotent_counterexample :
  (hasMarker brokenId brokenMarkDoc = true
   /\ restoreHighlight plainBrowser brokenId [(txt "body", 1)]
        (mkTextQuote (txt "Hello") [] []) agree (mkPage brokenMarkDoc [])
      = (Exc SyntaxError, mkPage brokenMarkDoc []))
  /\ (let r := mkRange [1; 0; 0] 2 [1; 0; 2] 3 in
      let info := createLocationInfo helloDoc r in
      let s1 := snd (restoreHighlight plainBrowser [] (fst info) (snd info)
                       agree (mkPage helloDoc [])) in
      let s2 := snd (restoreHighlight plainBrowser [] (fst info) (snd info)
                       agree s1) in
      fst (restoreHighlight plainBrowser [] (fst info) (snd info) agree
             (mkPage helloDoc [])) = Val true
      /\ fst (restoreHighlight plainBrowser [] (fst info) (snd info) agree s1)
         = Val true
      /\ countElem (hasTag (txt "mark")) (dom s1) = 3
      /\ countElem (hasTag (txt "mark")) (dom s2) = 6).
Proof.
  repeat split.
Qed.

(* ================================================================== *)
(** ** Exceptions at the entry points *)

Lemma afterSplit_returns (B : Browser) (id : str) (count : nat) (s : page) :
  selectorSafe id = true ->
  exists found s', afterSplit B id count s = (Val found, s').
Proof.
  intro Safe. unfold afterSplit.
  destruct (querySelector_safe B None id s Safe) as (found & Q & _).
  rewrite (bind_val _ _ _ _ _ Q).
  destruct found; unfold bind, log, ret; eexists; eexists; reflexivity.
Qed.

Lemma restoreHighlight_returns (B : Browser) (id : str) (xp : xpath)
  (tq : TextQuote) (type : annotationType) (s : page) :
  selectorSafe id = true ->
  exists ok s', restoreHighlight B id xp tq type s = (Val ok, s').
Proof.
  intro Safe. unfold restoreHighlight.
  destruct (querySelector_safe B (Some (txt "mark")) id s Safe)
    as (found & Q & _).
  rewrite (bind_val _ _ _ _ _ Q).
  destruct found as [m|].
  - eexists. eexists. reflexivity.
  - unfold catch.
    match goal with
    | |- context [match ?m s with _ => _ end] =>
        destruct (m s) as [[ok|e] s1]
    end.
    + eexists. eexists. reflexivity.
    + eexists. eexists. reflexivity.
Qed.

(** C6.  restoreHighlight returns a boolean for every identifier the
    attribute selector can carry, and an exception raised after its
    duplicate check is logged and turned into false; the loop of
    highlightRange never raises.  When the identifier highlightRange
    uses (the customId given, or a fresh crypto.randomUUID() when none or
    an empty one is given) can be carried by the selector, highlightRange
    returns a marker or null when the splitter gave a tuple, and a marker
    for a range inside one text node.  removeHighlight returns when the
    selector can carry the identifier and either no element carries it,
    or the document has a body and neither the root element nor the body
    carries it. *)
Theorem exception_containment (B : Browser) (id : str) (s : page) :
  selectorSafe id = true ->
  (forall xp tq type,
     exists ok s', restoreHighlight B id xp tq type s = (Val ok, s'))
  /\ (forall xp tq type e,
        hasMarker id (dom s) = false ->
        evaluate B xp s = (Exc e, s) ->
        restoreHighlight B id xp tq type s
        = (Val false, mkPage (dom s) (console s ++ [ErrRestore e])))
  /\ (forall type reloc index l,
        exists s', wrapEach type id reloc index l s = (Val tt, s'))
  /\ (forall r type customId,
        chooseId B customId = id ->
        getTextNodesInRange (dom s) r <> [] ->
        exists m s', highlightRange B r type customId s = (Val m, s'))
  /\ (forall r type customId,
        chooseId B customId = id -> isElem (dom s) = true ->
        validRange (dom s) r = true -> inOneTextNode (dom s) r = true ->
        exists m s',
          highlightRange B r type customId s = (Val (Some m), s'))
  /\ (carriesId id (dom s) = false ->
      exists s', removeHighlight B id s = (Val tt, s'))
  /\ (forall b,
        hasGogoId id (dom s) = false -> bodyKept id b (dom s) ->
        exists s', removeHighlight B id s = (Val tt, s')).
Proof.
  intro Safe.
  repeat split.
  - intros xp tq type. apply restoreHighlight_returns, Safe.
  - intros xp tq type e Hno Hev. unfold restoreHighlight.
    destruct (querySelector_safe B (Some (txt "mark")) id s Safe)
      as (found & Q & Hfound).
    assert (found = None) by (apply Hfound; exact Hno). subst found.
    rewrite (bind_val _ _ _ _ _ Q). unfold catch.
    rewrite (bind_exc _ _ _ _ _ Hev). reflexivity.
  - intros type reloc index l.
    destruct (wrapEach_policy type id l reloc index s) as (s' & evs & R & _).
    exists s'. exact R.
  - intros r type customId Eid Hfr. rewrite highlightRange_unfold. cbv zeta.
    rewrite Eid.
    destruct (getTextNodesInRange (dom s) r) as [|f frs] eqn:E;
      [congruence|].
    destruct (wrapEach_policy type id (f :: frs) (fun x => x) 0
                (mkPage (dom s)
                   (console s ++ [LogFragments (length (f :: frs))])))
      as (s1 & evs & R & _).
    rewrite (bind_val _ _ _ _ _ R).
    apply afterSplit_returns, Safe.
  - intros r type customId Eid Hroot Hv One.
    pose proof One as One'. unfold inOneTextNode in One'.
    apply andb_prop in One' as [_ T].
    destruct (nodeAt (dom s) (startContainer r)) as [[ds|ds|t g c ks]|] eqn:Hn;
      try discriminate.
    destruct (highlightRange_returns B r type customId s ds Hv Hn)
      as (m & s' & H & _).
    + intro E. rewrite E in Hn. cbn [nodeAt] in Hn.
      injection Hn as Hn. rewrite Hn in Hroot. discriminate.
    + intro F. congruence.
    + rewrite Eid. exact Safe.
    + exists m, s'. exact H.
  - intro Hno. rewrite (removeHighlight_absent B id s Safe Hno).
    eexists. reflexivity.
  - intros b Hroot Hb.
    destruct (removeHighlight_spec B id s b Safe Hroot Hb) as (s' & H & _).
    exists s'. exact H.
Qed.

(** With a stored identifier and, on the create path, with the fresh
    identifier of the browser. *)
Lemma exception_containment_witness :
  let id := txt "a1" in
  let r := mkRange [1; 0; 0] 2 [1; 0; 2] 3 in
  let s := mkPage helloDoc [] in
  (exists ok s',
     restoreHighlight plainBrowser id [] (mkTextQuote (txt "big") [] [])
       agree s = (Val ok, s'))
  /\ restoreHighlight plainBrowser id [] (mkTextQuote (txt "big") [] [])
       agree s
     = (Val false, mkPage helloDoc [ErrRestore SyntaxError])
  /\ (exists m s', highlightRange plainBrowser r agree (Some id) s
                   = (Val m, s'))
  /\ (exists m s',
        highlightRange plainBrowser (mkRange [1; 0; 0] 1 [1; 0; 0] 3) agree
          (Some id) s = (Val (Some m), s'))
  /\ (exists m s', highlightRange plainBrowser r agree None s = (Val m, s'))
  /\ (exists m s',
        highlightRange plainBrowser (mkRange [1; 0; 0] 1 [1; 0; 0] 3) agree
          None s = (Val (Some m), s'))
  /\ (exists s', removeHighlight plainBrowser id s = (Val tt, s'))
  /\ (exists s',
        removeHighlight plainBrowser id
          (snd (highlightRange plainBrowser r agree (Some id) s))
        = (Val tt, s')).
Proof.
  intros id r s.
  destruct (exception_containment plainBrowser id s eq_refl)
    as (H1 & H2 & _ & H4 & H5 & H6 & _).
  destruct (exception_containment plainBrowser (randomUUID plainBrowser) s
              eq_refl)
    as (_ & _ & _ & N4 & N5 & _).
  destruct (exception_containment plainBrowser id
              (snd (highlightRange plainBrowser r agree (Some id) s))
              eq_refl)
    as (_ & _ & _ & _ & _ & _ & H7).
  split; [apply H1|].
  split; [apply (H2 [] (mkTextQuote (txt "big") [] []) agree SyntaxError);
          reflexivity|].
  split; [apply H4; [reflexivity | discriminate]|].
  split; [apply H5; reflexivity|].
  split; [apply N4; [reflexivity | discriminate]|].
  split; [apply N5; reflexivity|].
  split; [apply H6; reflexivity|].
  apply (H7 [1]); [reflexivity|].
  split; [reflexivity|]. eexists. split; reflexivity.
Defined.

Lemma exception_containment_counterexample :
  removeHighlight plainBrowser brokenId (mkPage helloDoc [])
  = (Exc SyntaxError, mkPage helloDoc [])
  /\ restoreHighlight plainBrowser brokenId [(txt "body", 1)]
       (mkTextQuote (txt "big") [] []) agree (mkPage helloDoc [])
     = (Exc SyntaxError, mkPage helloDoc [])
  /\ fst (highlightRange plainBrowser (mkRange [1; 0; 0] 2 [1; 0; 2] 3) agree
            (Some brokenId) (mkPage helloDoc []))
     = Exc SyntaxError
  /\ fst (removeHighlight plainBrowser (txt "a1") (mkPage taggedBodyDoc []))
     = Exc TypeError.
Proof. repeat split. Qed.

(* ================================================================== *)
(** * Further properties *)

(** ** getOutermostElements *)

Lemma isPrefixb_trans (a b c : path) :
  isPrefixb a b = true -> isPrefixb b c = true -> isPrefixb a c = true.
Proof.
  rewrite !isPrefixb_spec. intros (x & ->) (y & ->).
  exists (x ++ y). symmetry. apply app_assoc.
Qed.

Lemma isPrefixb_length (a b : path) :
  isPrefixb a b = true -> a <> b -> length a < length b.
Proof.
  intros H Hne. apply isPrefixb_spec in H as (x & ->).
  rewrite length_app. destruct x; [|simpl; lia].
  rewrite app_nil_r in Hne. congruence.
Qed.

Lemma getOutermostElements_filter (elements : list path) :
  getOutermostElements elements
  = filter (fun el =>
              negb (existsb (fun other =>
                               negb (path_eqb other el) && contains other el)
                            elements))
           elements.
Proof.
  unfold getOutermostElements.
  destruct elements as [|x [|y l]]; try reflexivity.
  cbn [length Nat.leb filter existsb]. rewrite path_eqb_refl. reflexivity.
Qed.

Lemma getOutermostElements_In (elements : list path) (el : path) :
  In el (getOutermostElements elements) <->
  In el elements
  /\ forall other, In other elements -> other <> el ->
                   contains other el = false.
Proof.
  rewrite getOutermostElements_filter, filter_In, negb_true_iff.
  split; intros [Hin H]; (split; [exact Hin|]).
  - intros other Ho Hne.
    destruct (contains other el) eqn:E; [|reflexivity].
    assert (X : existsb (fun other => negb (path_eqb other el)
                                      && contains other el) elements = true).
    { apply existsb_exists. exists other. split; [exact Ho|].
      rewrite (path_eqb_neq _ _ Hne), E. reflexivity. }
    congruence.
  - destruct (existsb _ elements) eqn:E; [|reflexivity].
    apply existsb_exists in E as (other & Ho & Hc).
    apply andb_prop in Hc as [Hne Hc].
    rewrite (H other Ho) in Hc; [discriminate|].
    intros ->. rewrite path_eqb_refl in Hne. discriminate.
Qed.

(** X1.  No element that getOutermostElements keeps lies inside another
    element it keeps, and the elements kept are elements given, in the
    order given. *)
Theorem getOutermostElements_not_nested (elements : list path) :
  (forall a b,
     In a (getOutermostElements elements) ->
     In b (getOutermostElements elements) ->
     a <> b -> contains a b = false)
  /\ exists keep, getOutermostElements elements = filter keep elements.
Proof.
  split.
  - intros a b Ha Hb Hne.
    apply getOutermostElements_In in Ha as [Ha _].
    apply getOutermostElements_In in Hb as [_ Hb].
    apply Hb; assumption.
  - eexists. apply getOutermostElements_filter.
Qed.

Lemma getOutermostElements_not_nested_witness :
  contains [1; 0] [1; 0; 1] = true
  /\ getOutermostElements [[1; 0; 1]; [1; 0]; [1; 2]] = [[1; 0]; [1; 2]]
  /\ contains [1; 0] [1; 2] = false.
Proof.
  split; [reflexivity|]. split; [reflexivity|].
  apply (proj1 (getOutermostElements_not_nested [[1; 0; 1]; [1; 0]; [1; 2]]));
    [left; reflexivity | right; left; reflexivity | discriminate].
Defined.

Lemma outermost_covers (elements : list path) (el : path) :
  In el elements ->
  exists outer,
    In outer (getOutermostElements elements) /\ contains outer el = true.
Proof.
  remember (length el) as n eqn:Hn. revert el Hn.
  induction n as [n IH] using lt_wf_ind. intros el Hn Hin.
  destruct (existsb (fun other => negb (path_eqb other el)
                                  && contains other el) elements) eqn:E.
  - apply existsb_exists in E as (other & Ho & Hc).
    apply andb_prop in Hc as [Hne Hc].
    assert (Hneq : other <> el).
    { intros ->. rewrite path_eqb_refl in Hne. discriminate. }
    destruct (IH (length other)
                ltac:(subst n; apply isPrefixb_length; assumption)
                other eq_refl Ho)
      as (outer & Hout & Hcont).
    exists outer. split; [exact Hout|].
    exact (isPrefixb_trans _ _ _ Hcont Hc).
  - exists el. split; [|apply isPrefixb_refl].
    rewrite getOutermostElements_filter. apply filter_In.
    split; [exact Hin|]. rewrite E. reflexivity.
Qed.

(** X2.  Every element given to getOutermostElements is one it keeps or
    lies inside one it keeps; so it keeps some element unless it was
    given none. *)
Theorem getOutermostElements_covers (elements : list path) :
  (forall el,
     In el elements ->
     exists outer,
       In outer (getOutermostElements elements) /\ contains outer el = true)
  /\ (getOutermostElements elements = [] -> elements = []).
Proof.
  split.
  - intros el Hin. apply outermost_covers, Hin.
  - intro H. destruct elements as [|x rest]; [reflexivity|].
    destruct (outermost_covers (x :: rest) x (or_introl eq_refl))
      as (outer & Hout & _).
    rewrite H in Hout. destruct Hout.
Qed.

Lemma getOutermostElements_covers_witness :
  exists outer,
    In outer (getOutermostElements [[1; 0; 1]; [1; 0]; [1; 2]])
    /\ contains outer [1; 0; 1] = true.
Proof.
  apply (proj1 (getOutermostElements_covers [[1; 0; 1]; [1; 0]; [1; 2]])
           [1; 0; 1]).
  left. reflexivity.
Defined.

(** X3.  getOutermostElements applied to its own result changes
    nothing. *)
Theorem getOutermostElements_idempotent (elements : list path) :
  getOutermostElements (getOutermostElements elements)
  = getOutermostElements elements.
Proof.
  rewrite (getOutermostElements_filter (getOutermostElements elements)).
  apply filter_all. intros el Hin. apply negb_true_iff.
  destruct (existsb _ (getOutermostElements elements)) eqn:E; [|reflexivity].
  apply existsb_exists in E as (other & Ho & Hc).
  apply andb_prop in Hc as [Hne Hc].
  apply getOutermostElements_In in Hin as [_ H].
  apply getOutermostElements_In in Ho as [Ho _].
  rewrite (H other Ho) in Hc; [discriminate|].
  intros ->. rewrite path_eqb_refl in Hne. discriminate.
Qed.

(** ** getElementDepth *)

Lemma depthLoop_unfold (b : path) (rc : list nat) (d : nat) :
  depthLoop (Some b) rc d
  = if path_eqb (rev rc) b then d
    else match rc with
         | [] => S d
         | _ :: revParent => depthLoop (Some b) revParent (S d)
         end.
Proof. destruct rc; reflexivity. Qed.

Lemma depthLoop_to_body (b : path) (rq : list nat) (d : nat) :
  depthLoop (Some b) (rq ++ rev b) d = d + length rq.
Proof.
  revert d; induction rq as [|x rq IH]; intro d.
  - cbn [app]. rewrite depthLoop_unfold, rev_involutive, path_eqb_refl.
    cbn [length]. lia.
  - rewrite depthLoop_unfold. cbn [app].
    rewrite path_eqb_neq.
    + rewrite IH. cbn [length]. lia.
    + intro E. apply (f_equal (@length nat)) in E.
      cbn [rev] in E.
      rewrite !length_app, length_rev, length_app, length_rev in E.
      cbn [length] in E. lia.
Qed.

Lemma isPrefixb_snoc (b p : path) (x : nat) :
  isPrefixb b (p ++ [x]) = false -> isPrefixb b p = false.
Proof.
  intro H. destruct (isPrefixb b p) eqn:E; [|reflexivity].
  apply isPrefixb_spec in E as (y & ->).
  assert (isPrefixb b ((b ++ y) ++ [x]) = true); [|congruence].
  apply isPrefixb_spec. exists (y ++ [x]). symmetry. apply app_assoc.
Qed.

Lemma depthLoop_past_body (b : path) (rc : list nat) (d : nat) :
  isPrefixb b (rev rc) = false ->
  depthLoop (Some b) rc d = d + length rc + 1.
Proof.
  revert d; induction rc as [|x rc IH]; intros d H.
  - rewrite depthLoop_unfold. cbn [rev]. rewrite path_eqb_neq;
      [cbn [length]; lia|].
    intros <-. discriminate.
  - rewrite depthLoop_unfold. rewrite path_eqb_neq.
    + cbn [rev] in H. rewrite (IH (S d) (isPrefixb_snoc _ _ _ H)).
      cbn [length]. lia.
    + intros E. rewrite E, isPrefixb_refl in H. discriminate.
Qed.

Lemma depthLoop_no_body (rc : list nat) (d : nat) :
  depthLoop None rc d = d + length rc + 1.
Proof.
  revert d; induction rc as [|x rc IH]; intro d; cbn [depthLoop length].
  - lia.
  - rewrite IH. lia.
Qed.

(** X4.  The depth of an element at or below the body is the number of
    steps from the body down to it, 0 for the body; for an element that
    is not below the body (the root element, the head and what is in it)
    and in a document without body, the loop runs past the root element
    and the depth is one more than the number of steps from the root.
    getDepth of the detector computes the same number. *)
Theorem getElementDepth_formula (root : node) (element : path) :
  getElementDepth root element
  = match body root with
    | Some b =>
        if contains b element then length element - length b
        else length element + 1
    | None => length element + 1
    end
  /\ getDepth root element = getElementDepth root element.
Proof.
  split; [|reflexivity]. unfold getElementDepth, contains.
  destruct (body root) as [b|].
  - destruct (isPrefixb b element) eqn:E.
    + apply isPrefixb_spec in E as (q & ->).
      rewrite rev_app_distr, depthLoop_to_body, length_rev, length_app. lia.
    + rewrite depthLoop_past_body, length_rev by (rewrite rev_involutive; exact E).
      lia.
  - rewrite depthLoop_no_body, length_rev. lia.
Qed.

(** ** findCommonAncestor *)

Lemma isPrefixb_nil_r (p : path) : isPrefixb p [] = true -> p = [].
Proof.
  intro H. apply isPrefixb_spec in H as (x & E).
  symmetry in E. apply app_eq_nil in E as [E _]. exact E.
Qed.

Lemma isPrefixb_commonPrefix (p x y : path) :
  isPrefixb p (commonPrefix x y) = isPrefixb p x && isPrefixb p y.
Proof.
  revert x y; induction p as [|i p IH]; intros x y; [reflexivity|].
  destruct x as [|a x]; [reflexivity|].
  destruct y as [|c y]; [cbn [commonPrefix]; rewrite andb_false_r; reflexivity|].
  cbn [commonPrefix]. destruct (Nat.eqb_spec a c) as [->|Hac].
  - destruct (Nat.eq_dec i c) as [->|Hic].
    + rewrite !isPrefixb_cons. apply IH.
    + rewrite !isPrefixb_cons_neq by exact Hic. reflexivity.
  - destruct (Nat.eq_dec i a) as [->|Hia].
    + rewrite (isPrefixb_cons_neq a c) by exact Hac.
      rewrite andb_false_r. reflexivity.
    + rewrite (isPrefixb_cons_neq i a) by exact Hia. reflexivity.
Qed.

Lemma forallb_contains (p x : path) (rest : list path) :
  forallb (fun el => contains p el) (x :: rest)
  = isPrefixb p (fold_left commonPrefix rest x).
Proof.
  revert x; induction rest as [|y rest IH]; intro x.
  - cbn [forallb fold_left]. apply andb_true_r.
  - cbn [fold_left]. rewrite <- IH. cbn [forallb].
    unfold contains. rewrite isPrefixb_commonPrefix, andb_assoc. reflexivity.
Qed.

Lemma commonPrefix_prefix (x y : path) :
  isPrefixb (commonPrefix x y) x = true.
Proof.
  destruct (commonPrefix_spec x y) as (a' & b' & Ha & _).
  apply isPrefixb_spec. exists a'. exact Ha.
Qed.

Lemma commonPrefixAll_prefix (x : path) (rest : list path) :
  isPrefixb (fold_left commonPrefix rest x) x = true.
Proof.
  revert x; induction rest as [|y rest IH]; intro x.
  - apply isPrefixb_refl.
  - cbn [fold_left].
    exact (isPrefixb_trans _ _ _ (IH _) (commonPrefix_prefix x y)).
Qed.

Lemma find_ext_eq {A} (f g : A -> bool) (l : list A) :
  (forall x, f x = g x) -> find f l = find g l.
Proof.
  intro H. induction l as [|x l IH]; [reflexivity|]. simpl.
  rewrite H, IH. reflexivity.
Qed.

(** Among an element and its ancestors below the root, the nearest one
    that lies at or above [c]. *)
Lemma find_in_chain (c : path) (rx : list nat) :
  find (fun ancestor => isPrefixb ancestor c) (ancestorChain (rx ++ rev c))
  = match c with [] => None | _ => Some c end.
Proof.
  induction rx as [|y rx IH].
  - cbn [app]. destruct c as [|i c']; [reflexivity|].
    destruct (rev (i :: c')) as [|z l] eqn:E.
    + apply (f_equal (@length nat)) in E. rewrite length_rev in E.
      discriminate.
    + cbn [ancestorChain find]. rewrite <- E, rev_involutive, isPrefixb_refl.
      reflexivity.
  - cbn [app ancestorChain find].
    replace (isPrefixb (rev (y :: rx ++ rev c)) c) with false; [exact IH|].
    symmetry. destruct (isPrefixb (rev (y :: rx ++ rev c)) c) eqn:E;
      [|reflexivity].
    apply isPrefixb_spec in E as (z & E).
    apply (f_equal (@length nat)) in E.
    cbn [rev] in E.
    rewrite !length_app, length_rev, length_app, length_rev in E.
    cbn [length] in E. lia.
Qed.

Lemma findCommonAncestor_lcp (root : node) (elements : list path) :
  2 <= length elements ->
  findCommonAncestor root elements
  = match commonPrefixAll elements with
    | [] => body root
    | c => Some c
    end.
Proof.
  intro Hlen. destruct elements as [|x [|y rest]]; cbn [length] in Hlen;
    try lia.
  unfold findCommonAncestor, commonPrefixAll.
  set (c := fold_left commonPrefix (y :: rest) x).
  rewrite (find_ext_eq _ (fun ancestor => isPrefixb ancestor c)).
  2:{ intro a. apply forallb_contains. }
  destruct (proj1 (isPrefixb_spec _ _) (commonPrefixAll_prefix x (y :: rest)))
    as (q & Hq).
  fold c in Hq. rewrite Hq at 1. rewrite rev_app_distr, find_in_chain.
  destruct c; reflexivity.
Qed.

Lemma contains_all_lcp (elements : list path) (c : path) :
  elements <> [] ->
  (forall el, In el elements -> contains c el = true)
  <-> contains c (commonPrefixAll elements) = true.
Proof.
  intros Hne. destruct elements as [|x rest]; [congruence|].
  unfold commonPrefixAll. unfold contains at 2.
  rewrite <- forallb_contains, forallb_forall. reflexivity.
Qed.

(** X5.  For two elements or more, findCommonAncestor returns the
    deepest element that contains them all, unless that is the root
    element: then, as for no element at all, it returns document.body,
    which need not contain them.  A single element is returned as it
    is. *)
Theorem findCommonAncestor_deepest (root : node) (elements : list path) :
  (2 <= length elements ->
   findCommonAncestor root elements
   = match commonPrefixAll elements with
     | [] => body root
     | c => Some c
     end)
  /\ (forall c,
        elements <> [] ->
        (forall el, In el elements -> contains c el = true)
        <-> contains c (commonPrefixAll elements) = true)
  /\ (forall el, findCommonAncestor root [el] = Some el)
  /\ findCommonAncestor root [] = body root.
Proof.
  split; [apply findCommonAncestor_lcp|].
  split; [intro c; apply contains_all_lcp|].
  split; reflexivity.
Qed.

Lemma findCommonAncestor_deepest_witness :
  findCommonAncestor helloDoc [[1; 0; 1]; [1; 0; 2]] = Some [1; 0]
  /\ findCommonAncestor helloDoc [[0]; [1; 0]] = Some [1]
  /\ contains [1] [0] = false.
Proof.
  split; [|split; [|reflexivity]].
  - rewrite (proj1 (findCommonAncestor_deepest helloDoc [[1; 0; 1]; [1; 0; 2]]));
      [reflexivity | simpl; lia].
  - rewrite (proj1 (findCommonAncestor_deepest helloDoc [[0]; [1; 0]]));
      [reflexivity | simpl; lia].
Defined.

(** ** isReasonableAncestor *)

Lemma isReasonableAncestor_body (root : node) (v : View) (vp : Viewport) :
  isReasonableAncestor root v vp (body root) = Val false.
Proof.
  unfold isReasonableAncestor. destruct (body root) as [b|];
    [rewrite path_eqb_refl|]; reflexivity.
Qed.

Lemma isReasonableAncestor_true (root : node) (v : View) (vp : Viewport)
  (a : path) :
  isReasonableAncestor root v vp (Some a) = Val true ->
  a <> [] /\ body root <> Some a
  /\ 3 <= getElementDepth root a <= 10
  /\ ratioAbove (width (getBoundingClientRect v a)) (innerWidth vp) = false
  /\ ratioAbove (height (getBoundingClientRect v a)) (innerHeight vp)
     = false.
Proof.
  unfold isReasonableAncestor. intro H.
  assert (Hb : body root <> Some a).
  { intro E. rewrite E, path_eqb_refl in H. discriminate. }
  destruct (match body root with
            | Some b => path_eqb a b
            | None => false
            end); [discriminate|].
  destruct (path_eqb a []) eqn:Ea; [discriminate|]. cbn [orb] in H.
  destruct (match nodeAt root a with
            | Some n => hasTag (txt "body") n || hasTag (txt "html") n
            | None => false
            end); [discriminate|].
  destruct (Nat.ltb_spec (getElementDepth root a) 3); [discriminate|].
  destruct (Nat.ltb_spec 10 (getElementDepth root a)); [discriminate|].
  destruct (ratioAbove (width (getBoundingClientRect v a)) (innerWidth vp))
    eqn:Rw; [discriminate|].
  destruct (ratioAbove (height (getBoundingClientRect v a)) (innerHeight vp))
    eqn:Rh; [discriminate|].
  split.
  - intros ->. rewrite path_eqb_refl in Ea. discriminate.
  - split; [exact Hb|]. split; [lia|]. split; reflexivity.
Qed.

(** X6.  isReasonableAncestor rejects document.body, so it rejects
    what findCommonAncestor returns for elements whose deepest common
    ancestor is the root element; an element it accepts is not the root
    element, has a depth from 3 to 10, and neither the quotient of its
    width by the width of the viewport nor that of the heights, as the
    code computes them on doubles, is above the double 0.8. *)
Theorem isReasonableAncestor_rejects_fallback (root : node) (v : View)
  (vp : Viewport) :
  isReasonableAncestor root v vp (body root) = Val false
  /\ (forall elements,
        2 <= length elements -> commonPrefixAll elements = [] ->
        isReasonableAncestor root v vp (findCommonAncestor root elements)
        = Val false)
  /\ (forall a,
        isReasonableAncestor root v vp (Some a) = Val true ->
        a <> [] /\ body root <> Some a
        /\ 3 <= getElementDepth root a <= 10
        /\ PrimFloat.ltb 0x1.999999999999ap-1
             (width (getBoundingClientRect v a) / innerWidth vp) = false
        /\ PrimFloat.ltb 0x1.999999999999ap-1
             (height (getBoundingClientRect v a) / innerHeight vp) = false).
Proof.
  split; [apply isReasonableAncestor_body|]. split.
  - intros elements Hlen Hc.
    rewrite (findCommonAncestor_lcp root elements Hlen), Hc.
    apply isReasonableAncestor_body.
  - intros a H. apply isReasonableAncestor_true in H.
    unfold ratioAbove, gtq in H. exact H.
Qed.
(** The fallback is rejected; the list is accepted, also when it is
    819.2 wide in a viewport of 1024: the quotient is the double 0.8. *)
Lemma isReasonableAncestor_rejects_fallback_witness :
  isReasonableAncestor listDoc listView listViewport
    (findCommonAncestor listDoc [[0]; [1; 0; 0; 0; 1]]) = Val false
  /\ isReasonableAncestor listDoc listView listViewport (Some [1; 0; 0; 0])
     = Val true
  /\ 3 <= getElementDepth listDoc [1; 0; 0; 0] <= 10
  /\ isReasonableAncestor listDoc wideView wideViewport (Some [1; 0; 0; 0])
     = Val true
  /\ PrimFloat.ltb 0x1.999999999999ap-1
       (width (getBoundingClientRect wideView [1; 0; 0; 0])
        / innerWidth wideViewport) = false.
Proof.
  destruct (isReasonableAncestor_rejects_fallback listDoc listView
              listViewport) as (_ & Hfb & Hacc).
  split; [apply Hfb; [simpl; lia | reflexivity]|].
  split; [reflexivity|].
  destruct (Hacc [1; 0; 0; 0] eq_refl) as (_ & _ & Hd & _).
  split; [exact Hd|]. split; [reflexivity|].
  destruct (isReasonableAncestor_rejects_fallback listDoc wideView
              wideViewport) as (_ & _ & Hwide).
  destruct (Hwide [1; 0; 0; 0] eq_refl) as (_ & _ & _ & Hw & _).
  exact Hw.
Defined.

(** ** handleDragSelect *)

Lemma NoDup_two_other {A} (l : list A) (x : A) :
  NoDup l -> 2 <= length l -> In x l -> exists y, In y l /\ y <> x.
Proof.
  intros Hnd Hlen Hin.
  destruct l as [|a [|b l]]; cbn [length] in Hlen; try lia.
  apply NoDup_cons_iff in Hnd as [Ha _].
  destruct Hin as [<-|Hin].
  - exists b. split; [right; left; reflexivity|].
    intros ->. apply Ha. left. reflexivity.
  - exists a. split; [left; reflexivity|].
    intros ->. contradiction.
Qed.

Lemma getOutermostElements_NoDup (elements : list path) :
  NoDup elements -> NoDup (getOutermostElements elements).
Proof.
  intro H. rewrite getOutermostElements_filter. apply NoDup_filter, H.
Qed.

(** isReasonableAncestor never raises on what findCommonAncestor
    returns: a null ancestor means a null body, which is rejected by the
    first comparison. *)
Lemma isReasonableAncestor_of_common (root : node) (v : View)
  (vp : Viewport) (els : list path) :
  exists ok,
    isReasonableAncestor root v vp (findCommonAncestor root els) = Val ok
    /\ (ok = true -> exists a, findCommonAncestor root els = Some a).
Proof.
  destruct (findCommonAncestor root els) as [a|] eqn:Ea.
  - unfold isReasonableAncestor.
    repeat match goal with
           | |- context [if ?c then _ else _] => destruct c
           end;
      eexists; (split; [reflexivity|]); intros _; exists a; reflexivity.
  - assert (Hb : body root = None).
    { unfold findCommonAncestor in Ea.
      destruct els as [|x [|y rest]]; [exact Ea | discriminate |].
      destruct (find _ _); [discriminate | exact Ea]. }
    exists false. unfold isReasonableAncestor. rewrite Hb.
    split; [reflexivity | discriminate].
Qed.

(** The only exception of handleDragSelect is that of the toast. *)
Lemma handleDragSelect_outcome (E : Extension) (root : node) (v : View)
  (vp : Viewport) (elements : list path) :
  (exists r, handleDragSelect E root v vp elements = Val r
             /\ (forall m, r = DragRejected m ->
                   m = SHOW_TOAST ToastSelectionTooLarge
                   /\ contextValid E = true))
  \/ (handleDragSelect E root v vp elements = Exc ContextInvalidated
      /\ contextValid E = false
      /\ forall E', contextValid E' = true ->
           handleDragSelect E' root v vp elements
           = Val (DragRejected (SHOW_TOAST ToastSelectionTooLarge))).
Proof.
  unfold handleDragSelect.
  destruct (filter (isMeaningfulElement root) elements) as [|m ms];
    [left; eexists; split; [reflexivity | discriminate]|].
  destruct (getOutermostElements (m :: ms)) as [|o [|o' os]] eqn:Eo.
  - destruct (isReasonableAncestor_of_common root v vp []) as (ok & R & Hok).
    rewrite R. destruct ok.
    + destruct (Hok eq_refl) as (a & Ha). rewrite Ha.
      left. eexists. split; [reflexivity | discriminate].
    + unfold sendMessage. destruct (contextValid E) eqn:Ec.
      * left. eexists. split; [reflexivity|].
        intros x Hx. injection Hx as <-. auto.
      * right. split; [reflexivity|]. split; [reflexivity|].
        intros E' ->. reflexivity.
  - left. eexists. split; [reflexivity | discriminate].
  - destruct (isReasonableAncestor_of_common root v vp (o :: o' :: os))
      as (ok & R & Hok).
    rewrite R. destruct ok.
    + destruct (Hok eq_refl) as (a & Ha). rewrite Ha.
      left. eexists. split; [reflexivity | discriminate].
    + unfold sendMessage. destruct (contextValid E) eqn:Ec.
      * left. eexists. split; [reflexivity|].
        intros x Hx. injection Hx as <-. auto.
      * right. split; [reflexivity|]. split; [reflexivity|].
        intros E' ->. reflexivity.
Qed.

Lemma handleDragSelect_group_inv (E : Extension) (root : node) (v : View)
  (vp : Viewport) (elements : list path) (ancestor : path)
  (els : list path) (panel : Position) :
  handleDragSelect E root v vp elements = Val (DragGroup ancestor els panel) ->
  els = getOutermostElements (filter (isMeaningfulElement root) elements)
  /\ 2 <= length els
  /\ findCommonAncestor root els = Some ancestor
  /\ isReasonableAncestor root v vp (Some ancestor) = Val true
  /\ panel = panelBeside v ancestor.
Proof.
  unfold handleDragSelect. intro H.
  destruct (filter (isMeaningfulElement root) elements) as [|m ms] eqn:Em;
    [discriminate|].
  destruct (getOutermostElements (m :: ms)) as [|o [|o' os]] eqn:Eo.
  - cbn [findCommonAncestor] in H.
    rewrite isReasonableAncestor_body in H.
    destruct (sendMessage E _); discriminate.
  - discriminate.
  - destruct (isReasonableAncestor root v vp
                (findCommonAncestor root (o :: o' :: os))) as [[|]|e] eqn:Er;
      try discriminate.
    + destruct (findCommonAncestor root (o :: o' :: os)) as [a|] eqn:Ea;
        [|discriminate].
      injection H as <- <- <-.
      repeat split; auto. simpl. lia.
    + destruct (sendMessage E _); discriminate.
Qed.

(** X7.  handleDragSelect never reads a null ancestor: with a valid
    extension context it returns for every selection, and its only
    exception is that of chrome.runtime.sendMessage on an invalidated
    context, raised when the selection is rejected and the toast is to be
    sent; a rejection that returns has sent the toast.  When it selects a
    group, the group has two elements or more; they are meaningful
    elements of the selection, none inside another, and every meaningful
    element of the selection is one of them or lies inside one; the group
    ancestor is a proper ancestor of each of them, the deepest element
    that contains them all, of depth 3 to 10.  When it selects one
    container, every meaningful element of the selection lies in it. *)
Theorem handleDragSelect_invariants (E : Extension) (root : node) (v : View)
  (vp : Viewport) (elements : list path) :
  NoDup elements ->
  (contextValid E = true ->
   exists r, handleDragSelect E root v vp elements = Val r)
  /\ (forall e,
        handleDragSelect E root v vp elements = Exc e ->
        e = ContextInvalidated /\ contextValid E = false
        /\ forall E', contextValid E' = true ->
             handleDragSelect E' root v vp elements
             = Val (DragRejected (SHOW_TOAST ToastSelectionTooLarge)))
  /\ (forall m,
        handleDragSelect E root v vp elements = Val (DragRejected m) ->
        m = SHOW_TOAST ToastSelectionTooLarge /\ contextValid E = true)
  /\ (forall ancestor els panel,
        handleDragSelect E root v vp elements
        = Val (DragGroup ancestor els panel) ->
        2 <= length els
        /\ (forall e, In e els ->
              In e elements /\ isMeaningfulElement root e = true
              /\ isStrictPrefix ancestor e = true)
        /\ (forall a b, In a els -> In b els -> a <> b ->
              contains a b = false)
        /\ (forall e, In e elements -> isMeaningfulElement root e = true ->
              exists o, In o els /\ contains o e = true)
        /\ ancestor = commonPrefixAll els
        /\ 3 <= getElementDepth root ancestor <= 10
        /\ panel = panelBeside v ancestor)
  /\ (forall el panel,
        handleDragSelect E root v vp elements = Val (DragContainer el panel) ->
        In el elements /\ isMeaningfulElement root el = true
        /\ forall e, In e elements -> isMeaningfulElement root e = true ->
                     contains el e = true).
Proof.
  intro Hnd.
  pose proof (handleDragSelect_outcome E root v vp elements) as Hout.
  split; [|split; [|split; [|split]]].
  - intro Hv. destruct Hout as [(r & Hr & _) | (_ & Hc & _)];
      [exists r; exact Hr | congruence].
  - intros e He. destruct Hout as [(r & Hr & _) | (Hr & Hc & Hrej)];
      [congruence|].
    rewrite Hr in He. injection He as <-. auto.
  - intros m Hm. destruct Hout as [(r & Hr & Hrej) | (Hr & _)];
      [|congruence].
    rewrite Hr in Hm. injection Hm as ->. apply Hrej. reflexivity.
  - intros ancestor els panel H.
    destruct (handleDragSelect_group_inv _ _ _ _ _ _ _ _ H)
      as (Eels & Hlen & Hanc & Hreas & Hpanel).
    destruct (isReasonableAncestor_true _ _ _ _ Hreas)
      as (Hroot & Hbody & Hdepth & _).
    assert (Hlcp : ancestor = commonPrefixAll els).
    { rewrite (findCommonAncestor_lcp root els Hlen) in Hanc.
      destruct (commonPrefixAll els) as [|i c]; congruence. }
    assert (Hndels : NoDup els).
    { rewrite Eels. apply getOutermostElements_NoDup, NoDup_filter, Hnd. }
    assert (Hnest : forall a b, In a els -> In b els -> a <> b ->
                                contains a b = false).
    { intros a b Ha Hb Hne. rewrite Eels in Ha, Hb.
      apply getOutermostElements_In in Ha as [Ha _].
      apply getOutermostElements_In in Hb as [_ Hb]. apply Hb; assumption. }
    assert (Hall : forall e, In e els -> contains ancestor e = true).
    { apply contains_all_lcp; [destruct els; [simpl in Hlen; lia|discriminate]|].
      rewrite Hlcp. apply isPrefixb_refl. }
    split; [exact Hlen|]. split; [|split; [exact Hnest|split; [|auto]]].
    + intros e He. pose proof He as He'. rewrite Eels in He'.
      apply getOutermostElements_In in He' as [He' _].
      apply filter_In in He' as [Hin Hm].
      split; [exact Hin|]. split; [exact Hm|].
      rewrite <- isPrefixb_strict; [apply Hall, He|].
      intro Eq. subst e.
      destruct (NoDup_two_other els ancestor Hndels Hlen He) as (y & Hy & Hne).
      pose proof (Hall y Hy) as C.
      rewrite (Hnest ancestor y He Hy (fun Eq => Hne (eq_sym Eq))) in C.
      discriminate.
    + intros e Hin Hm. rewrite Eels. apply outermost_covers.
      apply filter_In. auto.
  - intros el panel H. unfold handleDragSelect in H.
    destruct (filter (isMeaningfulElement root) elements) as [|m ms] eqn:Em;
      [discriminate|].
    destruct (getOutermostElements (m :: ms)) as [|o [|o' os]] eqn:Eo.
    + cbn [findCommonAncestor] in H.
      rewrite isReasonableAncestor_body in H.
      destruct (sendMessage E _); discriminate.
    + injection H as <- _.
      assert (Ho : In o (getOutermostElements (m :: ms)))
        by (rewrite Eo; left; reflexivity).
      apply getOutermostElements_In in Ho as [Ho _].
      rewrite <- Em in Ho. apply filter_In in Ho as [Hin Hm].
      split; [exact Hin|]. split; [exact Hm|].
      intros e He Hme.
      destruct (outermost_covers (m :: ms) e) as (outer & Hout' & Hc).
      { rewrite <- Em. apply filter_In. auto. }
      rewrite Eo in Hout'. destruct Hout' as [<-|[]]. exact Hc.
    + destruct (isReasonableAncestor root v vp
                  (findCommonAncestor root (o :: o' :: os)))
        as [[|]|e]; try discriminate.
      * destruct (findCommonAncestor root (o :: o' :: os)); discriminate.
      * destruct (sendMessage E _); discriminate.
Qed.

(** Two items of the list make a group under the list; under a list that
    fills the viewport they are rejected, and on an invalidated context
    the toast raises. *)
Lemma handleDragSelect_invariants_witness :
  let elements := [[1; 0; 0; 0; 0]; [1; 0; 0; 0; 1]; [1; 0; 0; 0; 2]] in
  handleDragSelect storingExtension listDoc listView listViewport elements
  = Val (DragGroup [1; 0; 0; 0] [[1; 0; 0; 0; 0]; [1; 0; 0; 0; 1]]
           (mkPosition 220 10)%float)
  /\ isStrictPrefix [1; 0; 0; 0] [1; 0; 0; 0; 1] = true
  /\ 3 <= getElementDepth listDoc [1; 0; 0; 0] <= 10
  /\ handleDragSelect staleExtension listDoc boxView listViewport elements
     = Exc ContextInvalidated
  /\ handleDragSelect storingExtension listDoc boxView listViewport elements
     = Val (DragRejected (SHOW_TOAST ToastSelectionTooLarge)).
Proof.
  intro elements.
  assert (Hnd : NoDup elements).
  { repeat constructor; simpl; intuition discriminate. }
  destruct (handleDragSelect_invariants storingExtension listDoc listView
              listViewport elements Hnd) as (_ & _ & _ & Hg & _).
  assert (Eg : handleDragSelect storingExtension listDoc listView
                 listViewport elements
               = Val (DragGroup [1; 0; 0; 0]
                        [[1; 0; 0; 0; 0]; [1; 0; 0; 0; 1]]
                        (mkPosition 220 10)%float))
    by (vm_compute; reflexivity).
  destruct (Hg _ _ _ Eg) as (_ & Hin & _ & _ & _ & Hd & _).
  split; [exact Eg|].
  split; [apply (Hin [1; 0; 0; 0; 1]); right; left; reflexivity|].
  split; [exact Hd|].
  destruct (handleDragSelect_invariants staleExtension listDoc boxView
              listViewport elements Hnd) as (_ & Hexc & _).
  assert (Ee : handleDragSelect staleExtension listDoc boxView listViewport
                 elements = Exc ContextInvalidated)
    by (vm_compute; reflexivity).
  split; [exact Ee|].
  destruct (Hexc _ Ee) as (_ & _ & Hrej).
  apply Hrej. reflexivity.
Defined.

(* ================================================================== *)
(** ** findTextNode *)

Lemma traverseOld_Elem s len t g c ks cur :
  traverseOld s len (Elem t g c ks) cur = traverseOldFrom s len ks 0 cur.
Proof.
  simpl. generalize 0. revert cur.
  induction ks as [|k ks IH]; intros cur i; simpl; [reflexivity|].
  destruct (traverseOld s len k cur); [reflexivity | apply IH].
Qed.

Lemma scanOld_app s len (a b : list (path * str)) cur :
  scanOld s len (a ++ b) cur =
  match scanOld s len a cur with
  | inl r => inl r
  | inr cur' => scanOld s len b cur'
  end.
Proof.
  revert cur; induction a as [|[p d] a IH]; intro cur; simpl; [reflexivity|].
  destruct ((cur <=? s) && (s <? cur + length d)); [reflexivity|].
  apply IH.
Qed.

Lemma scanOld_under s len i (l : list (path * str)) cur :
  scanOld s len (map (under i) l) cur =
  match scanOld s len l cur with
  | inl r => inl (resUnder i r)
  | inr cur' => inr cur'
  end.
Proof.
  revert cur; induction l as [|[p d] l IH]; intro cur; simpl; [reflexivity|].
  destruct ((cur <=? s) && (s <? cur + length d)); [reflexivity|].
  apply IH.
Qed.

(** The recursive search is the linear search over the text nodes. *)
Lemma traverseOld_scan s len (n : node) cur :
  traverseOld s len n cur = scanOld s len (textNodes n) cur.
Proof.
  revert cur; induction n as [d|d|t g c ks IH] using node_ind; intro cur.
  - simpl. destruct ((cur <=? s) && (s <? cur + length d)); reflexivity.
  - reflexivity.
  - rewrite traverseOld_Elem, textNodes_Elem. generalize 0. revert cur.
    induction IH as [|k ks Hk _ IHks]; intros cur i; simpl; [reflexivity|].
    rewrite scanOld_app, scanOld_under, Hk.
    destruct (scanOld s len (textNodes k) cur); [reflexivity | apply IHks].
Qed.

Lemma scanOld_past s len (ts : list (path * str)) cur :
  s < cur \/ cur + length (textOf ts) <= s ->
  scanOld s len ts cur = inr (cur + length (textOf ts)).
Proof.
  revert cur; induction ts as [|[p d] ts IH]; intros cur H.
  - simpl. f_equal. unfold textOf; simpl; lia.
  - rewrite textOf_cons, length_app in *. cbn [scanOld].
    replace ((cur <=? s) && (s <? cur + length d)) with false.
    + rewrite IH by lia. f_equal. lia.
    + symmetry. apply andb_false_iff.
      destruct H; [left; apply Nat.leb_gt | right; apply Nat.ltb_ge]; lia.
Qed.

Lemma scanOld_finds s len (ts : list (path * str)) cur :
  cur <= s -> s < cur + length (textOf ts) ->
  exists pre p d post,
    ts = pre ++ (p, d) :: post
    /\ cur + length (textOf pre) <= s < cur + length (textOf pre) + length d
    /\ scanOld s len ts cur
       = inl (mkTextNodeResult p (s - (cur + length (textOf pre)))
                (Nat.min len (length d - (s - (cur + length (textOf pre)))))).
Proof.
  revert cur; induction ts as [|[p d] ts IH]; intros cur Hc Ht.
  - unfold textOf in Ht. simpl in Ht. lia.
  - rewrite textOf_cons, length_app in Ht.
    destruct (Nat.ltb_spec s (cur + length d)) as [Hlt|Hge].
    + exists [], p, d, ts. split; [reflexivity|].
      change (textOf []) with (@nil ascii). cbn [length].
      rewrite Nat.add_0_r. split; [lia|]. cbn [scanOld].
      replace (cur <=? s) with true by (symmetry; apply Nat.leb_le; lia).
      replace (s <? cur + length d) with true
        by (symmetry; apply Nat.ltb_lt; lia).
      reflexivity.
    + destruct (IH (cur + length d)) as (pre & q & e & post & E & Hb & Hs);
        [lia | lia |].
      exists ((p, d) :: pre), q, e, post.
      rewrite textOf_cons, length_app.
      split; [rewrite E; reflexivity|]. split; [lia|].
      cbn [scanOld].
      replace (s <? cur + length d) with false
        by (symmetry; apply Nat.ltb_ge; lia).
      rewrite andb_false_r, Hs.
      replace (cur + (length d + length (textOf pre)))
        with (cur + length d + length (textOf pre)) by lia.
      reflexivity.
Qed.

Lemma findTextNode_scanOld (root : node) (s len : nat) :
  findTextNode root s len =
  match scanOld s len (textNodes root) 0 with
  | inl r => Some r
  | inr _ => None
  end.
Proof. unfold findTextNode. rewrite traverseOld_scan. reflexivity. Qed.

(** X8.  findTextNode returns null exactly when the start offset is not
    below the length of the text under the root.  Otherwise it returns the
    text node that holds the character at the start offset: the text
    before that node and the local offset add up to the start offset, the
    local offset is below the length of the node, and the length returned
    is the length asked for, cut at the end of the node.  Where the local
    offset is not 0, findTextNodeAtOffset finds the same position. *)
Theorem findTextNode_position (root : node) (startOffset len : nat) :
  (findTextNode root startOffset len = None
   <-> length (descText root) <= startOffset)
  /\ (forall r,
        findTextNode root startOffset len = Some r ->
        exists pre d post,
          textNodes root = pre ++ (resNode r, d) :: post
          /\ startOffset = length (textOf pre) + resOffset r
          /\ resOffset r < length d
          /\ resLength r = Nat.min len (length d - resOffset r)
          /\ (0 < resOffset r ->
              findTextNodeAtOffset root startOffset
              = Some (resNode r, resOffset r))).
Proof.
  rewrite findTextNode_scanOld, descText_textNodes.
  destruct (Nat.le_gt_cases (length (textOf (textNodes root))) startOffset)
    as [Hge|Hlt].
  - rewrite scanOld_past by (right; simpl; exact Hge).
    split; [split; auto|]. intros r H. discriminate.
  - destruct (scanOld_finds startOffset len (textNodes root) 0)
      as (pre & p & d & post & E & Hb & Hs); [lia | simpl; exact Hlt |].
    rewrite Hs. cbn [Nat.add] in *. split.
    + split; [discriminate | lia].
    + intros r Hr. injection Hr as <-. cbn [resNode resOffset resLength].
      exists pre, d, post. split; [exact E|]. split; [lia|].
      split; [lia|]. split; [reflexivity|].
      intro Hpos. rewrite findTextNodeAtOffset_scan, E.
      rewrite scan_first; [f_equal | lia | left; simpl; lia | simpl; lia].
Qed.

Lemma findTextNode_position_witness :
  findTextNode boundaryDoc 4 9 = None
  /\ findTextNode boundaryDoc 2 9 = Some (mkTextNodeResult [2] 0 2)
  /\ findTextNodeAtOffset boundaryDoc 3 = Some ([2], 1).
Proof.
  destruct (findTextNode_position boundaryDoc 4 9) as [Hnone _].
  destruct (findTextNode_position boundaryDoc 3 9) as [_ Hsome].
  split; [apply Hnone; simpl; lia|].
  split; [reflexivity|].
  destruct (Hsome (mkTextNodeResult [2] 1 1) eq_refl)
    as (pre & d & post & _ & _ & _ & _ & Hsame).
  apply Hsame. simpl. lia.
Defined.

(* ================================================================== *)
(** ** generateXPath and locateByXPath *)

Lemma xpathLoop_acc (root : node) (rc : list nat) :
  forall acc, xpathLoop root rc acc = xpathLoop root rc [] ++ acc.
Proof.
  induction rc as [|i rp IH]; intro acc; [reflexivity|].
  cbn [xpathLoop].
  destruct (nodeAt root (rev rp)) as [parent|]; [|reflexivity].
  destruct (nodeAt root (rev (i :: rp))) as [element|]; [|reflexivity].
  rewrite IH. rewrite (IH [_]). rewrite <- app_assoc. reflexivity.
Qed.

Lemma xpathLoop_snoc (root : node) (p : path) (i : nat)
  (parent element : node) :
  nodeAt root p = Some parent -> nodeAt root (p ++ [i]) = Some element ->
  xpathLoop root (rev (p ++ [i])) []
  = xpathLoop root (rev p) []
    ++ [(tagOf element, elementIndex (kids parent) i + 1)].
Proof.
  intros Hp He. rewrite rev_app_distr. cbn [rev app xpathLoop].
  rewrite rev_involutive, Hp, He. apply xpathLoop_acc.
Qed.

Lemma nodeAt_snoc (root : node) (p : path) (i : nat) (element : node) :
  nodeAt root (p ++ [i]) = Some element ->
  exists parent,
    nodeAt root p = Some parent /\ isElem parent = true
    /\ nth_error (kids parent) i = Some element.
Proof.
  rewrite nodeAt_app. destruct (nodeAt root p) as [parent|]; [|discriminate].
  cbn [nodeAt]. intro H.
  destruct (nth_error (kids parent) i) as [k|] eqn:Hk; [|discriminate].
  exists parent. split; [reflexivity|]. split; [|congruence].
  destruct parent; try reflexivity; destruct i; discriminate.
Qed.

Lemma xpathLoop_length (root : node) (p : path) :
  forall n, nodeAt root p = Some n ->
            length (xpathLoop root (rev p) []) = length p.
Proof.
  induction p as [|i p IH] using rev_ind; intros n Hn; [reflexivity|].
  destruct (nodeAt_snoc _ _ _ _ Hn) as (parent & Hp & _ & _).
  rewrite (xpathLoop_snoc root p i parent n Hp Hn), !length_app.
  rewrite (IH parent Hp). reflexivity.
Qed.

(** The index of an element among the element children tells which
    child it is. *)
Lemma elementIndex_inj (ks : list node) :
  forall (i j : nat) (a b : node),
    nth_error ks i = Some a -> isElem a = true ->
    nth_error ks j = Some b -> isElem b = true ->
    elementIndex ks i = elementIndex ks j -> i = j.
Proof.
  unfold elementIndex.
  induction ks as [|k ks IH]; intros i j a b Ha Ea Hb Eb H.
  - destruct i; discriminate.
  - destruct i as [|i], j as [|j]; cbn [nth_error firstn filter length] in *.
    + reflexivity.
    + injection Ha as ->. rewrite Ea in H. discriminate.
    + injection Hb as ->. rewrite Eb in H. discriminate.
    + f_equal. apply (IH i j a b Ha Ea Hb Eb).
      destruct (isElem k); cbn [length] in H; lia.
Qed.

Lemma xpathLoop_inj (root : node) (p : path) :
  forall (q : path) (n m : node),
    nodeAt root p = Some n -> isElem n = true ->
    nodeAt root q = Some m -> isElem m = true ->
    xpathLoop root (rev p) [] = xpathLoop root (rev q) [] -> p = q.
Proof.
  induction p as [|i p IH] using rev_ind; intros q n m Hn En Hm Em H.
  - apply (f_equal (@length _)) in H.
    rewrite (xpathLoop_length root q m Hm) in H.
    destruct q; [reflexivity | discriminate].
  - destruct q as [|j q _] using rev_ind.
    + apply (f_equal (@length _)) in H.
      rewrite (xpathLoop_length root _ n Hn), length_app in H.
      cbn in H. lia.
    + destruct (nodeAt_snoc _ _ _ _ Hn) as (pn & Hpn & Epn & Kn).
      destruct (nodeAt_snoc _ _ _ _ Hm) as (pm & Hpm & Epm & Km).
      rewrite (xpathLoop_snoc root p i pn n Hpn Hn) in H.
      rewrite (xpathLoop_snoc root q j pm m Hpm Hm) in H.
      apply app_inj_tail in H as [Hx Hs].
      assert (p = q) by (apply (IH q pn pm); assumption). subst q.
      assert (pm = pn) by congruence. subst pm.
      injection Hs as _ Hi. do 2 f_equal.
      apply (elementIndex_inj (kids pn) i j n m); try assumption. lia.
Qed.

(** X9.  generateXPath tells the elements of a document apart: two
    elements with the same XPath are the same element, and the XPath of
    an element has one step for each of its ancestors, the root element
    left out.  A text node gets the XPath of its parent element, whatever
    its place among the children; the root element gets the empty string,
    which is also the value for a failure. *)
Theorem generateXPath_injective (root : node) :
  (forall p q n m,
     nodeAt root p = Some n -> isElem n = true ->
     nodeAt root q = Some m -> isElem m = true ->
     generateXPath root p = generateXPath root q -> p = q)
  /\ (forall p n,
        nodeAt root p = Some n -> isElem n = true ->
        length (generateXPath root p) = length p)
  /\ (forall p i d,
        nodeAt root (p ++ [i]) = Some (Text d) ->
        generateXPath root (p ++ [i]) = generateXPath root p)
  /\ generateXPath root [] = [].
Proof.
  assert (G : forall p n, nodeAt root p = Some n -> isElem n = true ->
                          generateXPath root p = xpathLoop root (rev p) []).
  { intros p n Hn En. unfold generateXPath. rewrite Hn.
    destruct n; [discriminate | discriminate | reflexivity]. }
  split; [|split; [|split]].
  - intros p q n m Hn En Hm Em H.
    rewrite (G p n Hn En), (G q m Hm Em) in H.
    apply (xpathLoop_inj root p q n m); assumption.
  - intros p n Hn En. rewrite (G p n Hn En).
    apply (xpathLoop_length root p n Hn).
  - intros p i d Hn.
    destruct (nodeAt_snoc _ _ _ _ Hn) as (parent & Hp & Ep & _).
    rewrite (G p parent Hp Ep). unfold generateXPath. rewrite Hn.
    rewrite removelast_last.
    destruct (p ++ [i]) eqn:E; [destruct p; discriminate | reflexivity].
  - unfold generateXPath. cbn [nodeAt].
    destruct root; reflexivity.
Qed.

Lemma generateXPath_injective_witness :
  generateXPath helloDoc [1; 0] <> generateXPath helloDoc [1]
  /\ length (generateXPath helloDoc [1; 0]) = 2
  /\ generateXPath helloDoc [1; 0; 0] = generateXPath helloDoc [1; 0].
Proof.
  destruct (generateXPath_injective helloDoc) as (Hinj & Hlen & Htext & _).
  split; [|split].
  - intro H.
    assert (E : [1; 0] = [1]).
    { refine (Hinj [1; 0] [1] _ _ eq_refl eq_refl eq_refl eq_refl H). }
    discriminate E.
  - refine (Hlen [1; 0] _ eq_refl eq_refl).
  - refine (Htext [1; 0] 0 _ eq_refl).
Defined.

Lemma locateByXPath_val (B : Browser) (xp : xpath) (s : page) :
  exists found, locateByXPath B xp s = (Val found, s).
Proof.
  unfold locateByXPath. destruct xp as [|st rest]; [eexists; reflexivity|].
  unfold catch. pose proof (evaluate_state B (st :: rest) s) as Hs.
  destruct (evaluate B (st :: rest) s) as [[found|e] s']; cbn [snd] in Hs;
    subst s'; eexists; reflexivity.
Qed.

(** X10.  locateByXPath never raises and leaves the page as it is;
    the empty string locates nothing.  On an html document it does not
    find the nodes of the body by the XPath generateXPath gives them
    (elements named plainly): the XPath starts at the body, the document
    has the root element as its only child. *)
Theorem locateByXPath_misses_generated (B : Browser) (s : page) :
  (forall xp, exists found, locateByXPath B xp s = (Val found, s))
  /\ locateByXPath B [] s = (Val None, s)
  /\ (forall b p n,
        body (dom s) = Some b -> isPrefixb b p = true ->
        nodeAt (dom s) p = Some n -> isText n || isElem n = true ->
        forallb (fun st => plainName (fst st)) (generateXPath (dom s) p)
        = true ->
        locateByXPath B (generateXPath (dom s) p) s = (Val None, s)).
Proof.
  split; [intro xp; apply locateByXPath_val|]. split; [reflexivity|].
  intros b p n Hb Hpre Hn Hkind Hplain.
  pose proof (evaluate_generated B s b p n Hb Hpre Hn Hkind Hplain) as E.
  unfold locateByXPath.
  destruct (generateXPath (dom s) p); [reflexivity|].
  unfold catch. rewrite E. reflexivity.
Qed.

Lemma locateByXPath_misses_generated_witness :
  locateByXPath plainBrowser (generateXPath helloDoc [1; 0])
    (mkPage helloDoc [])
  = (Val None, mkPage helloDoc []).
Proof.
  destruct (locateByXPath_misses_generated plainBrowser (mkPage helloDoc []))
    as (_ & _ & H).
  refine (H [1] [1; 0] _ eq_refl eq_refl eq_refl eq_refl eq_refl).
Defined.

(* ================================================================== *)
(** ** Merging text nodes, and documents up to merging *)

Lemma mergeText_app_r (A X Y : list node) :
  mergeText X = mergeText Y -> mergeText (A ++ X) = mergeText (A ++ Y).
Proof.
  intro H. induction A as [|k A IH]; [exact H|].
  destruct k; cbn [app mergeText]; rewrite IH; reflexivity.
Qed.

Lemma mergeText_absorb (B C : list node) :
  mergeText (mergeText B ++ C) = mergeText (B ++ C).
Proof.
  induction B as [|x B IH]; [reflexivity|].
  destruct x as [d|d|t g c ks].
  - cbn [app]. change (mergeText (Text d :: B ++ C))
      with (match mergeText (B ++ C) with
            | Text d' :: rest' => Text (d ++ d') :: rest'
            | rest' => match d with [] => rest' | _ => Text d :: rest' end
            end).
    rewrite <- IH.
    change (mergeText (Text d :: B))
      with (match mergeText B with
            | Text d' :: rest' => Text (d ++ d') :: rest'
            | rest' => match d with [] => rest' | _ => Text d :: rest' end
            end).
    destruct (mergeText B) as [|[d'|d'|t g c ks] r].
    + destruct d as [|a d]; [|reflexivity].
      cbn [app]. destruct (mergeText C) as [|[e|e|t g c ks] r']; reflexivity.
    + cbn [app mergeText].
      destruct (mergeText (r ++ C)) as [|[e|e|t g c ks] r'].
      * destruct d' as [|a d'']; [rewrite app_nil_r; reflexivity|].
        destruct d; reflexivity.
      * rewrite app_assoc. reflexivity.
      * destruct d' as [|a d'']; [rewrite app_nil_r; reflexivity|].
        destruct d; reflexivity.
      * destruct d' as [|a d'']; [rewrite app_nil_r; reflexivity|].
        destruct d; reflexivity.
    + destruct d as [|a d]; reflexivity.
    + destruct d as [|a d]; reflexivity.
  - cbn [app mergeText]. rewrite IH. reflexivity.
  - cbn [app mergeText]. rewrite IH. reflexivity.
Qed.

Lemma mergeText_cong (A B B' C : list node) :
  mergeText B = mergeText B' ->
  mergeText (A ++ B ++ C) = mergeText (A ++ B' ++ C).
Proof.
  intro H. apply mergeText_app_r.
  rewrite <- (mergeText_absorb B C), H. apply mergeText_absorb.
Qed.

Lemma mergeText_idem (l : list node) : mergeText (mergeText l) = mergeText l.
Proof.
  pose proof (mergeText_absorb l []) as H. rewrite !app_nil_r in H. exact H.
Qed.

Lemma mergeText_fixed (l : list node) :
  Forall (fun k => normalize k = k) l ->
  Forall (fun k => normalize k = k) (mergeText l).
Proof.
  induction 1 as [|k l Hk _ IH]; [constructor|].
  destruct k as [d|d|t g c ks].
  - cbn [mergeText].
    destruct (mergeText l) as [|[d'|d'|t g c ks] r].
    + destruct d; constructor; auto.
    + inversion IH; subst. constructor; auto.
    + destruct d; [exact IH | constructor; auto].
    + destruct d; [exact IH | constructor; auto].
  - cbn [mergeText]. constructor; auto.
  - cbn [mergeText]. constructor; auto.
Qed.

Lemma map_fixed {A} (h : A -> A) (l : list A) :
  Forall (fun k => h k = k) l -> map h l = l.
Proof.
  induction 1 as [|k l Hk _ IH]; [reflexivity|].
  cbn [map]. rewrite Hk, IH. reflexivity.
Qed.

Lemma normalize_idem (n : node) : normalize (normalize n) = normalize n.
Proof.
  induction n as [d|d|t g c ks IH] using node_ind; try reflexivity.
  cbn [normalize]. f_equal.
  assert (F : Forall (fun k => normalize k = k) (map normalize ks))
    by (apply Forall_map; exact IH).
  rewrite (map_fixed normalize _ (mergeText_fixed _ F)).
  apply mergeText_idem.
Qed.

Section UpToMerging.

Variable f : node -> bool.
Variable G : node -> node.
Hypothesis Hf : shallow f.
Hypothesis HG :
  forall t g c ks,
    G (Elem t g c ks)
    = if f (Elem t g c ks) then Text (descText (Elem t g c ks))
      else Elem t g c (mergeText (map G ks)).

(** An edit that keeps the text and the merged form of what it replaces
    keeps the merged form of the whole. *)
Lemma editAt_cong (h : node -> res (list node)) (p : path) :
  (forall target put,
     h target = Val put ->
     mergeText (map G put) = mergeText [G target]
     /\ concat (map descText put) = descText target) ->
  forall n new,
    editAt p h n = Val new -> mergeText (map G new) = mergeText [G n].
Proof.
  intro Hh. induction p as [|i p IH]; intros n new He.
  - cbn [editAt] in He. apply Hh, He.
  - destruct n as [d|d|t g c ks]; try discriminate.
    rewrite editAt_cons in He.
    destruct (nth_error ks i) as [k|] eqn:Hk; [|discriminate].
    destruct (editAt p h k) as [sub|] eqn:E; [|discriminate].
    assert (En : new = [Elem t g c (firstn i ks ++ sub ++ skipn (S i) ks)])
      by congruence.
    subst new. clear He.
    apply nth_error_split in Hk as (l1 & l2 & -> & <-).
    rewrite firstn_before, skipn_after. cbn [map]. do 2 f_equal.
    rewrite !HG, (Hf t g c (l1 ++ sub ++ l2) (l1 ++ k :: l2)).
    destruct (f (Elem t g c (l1 ++ k :: l2))).
    + f_equal. rewrite !descText_Elem, !map_app, !concat_app.
      cbn [map concat].
      rewrite (editAt_text h p k sub (fun tg put Hp => proj2 (Hh tg put Hp)) E).
      reflexivity.
    + f_equal. rewrite !map_app.
      change (map G (k :: l2)) with (map G [k] ++ map G l2).
      apply mergeText_cong. exact (IH k sub E).
Qed.

End UpToMerging.

Lemma strip_normalize_Elem (f : node -> bool) t g c ks :
  normalize (strip f (Elem t g c ks))
  = if f (Elem t g c ks) then Text (descText (Elem t g c ks))
    else Elem t g c (mergeText (map (fun k => normalize (strip f k)) ks)).
Proof.
  cbn [strip]. destruct (f (Elem t g c ks)); [reflexivity|].
  cbn [normalize]. rewrite map_map. reflexivity.
Qed.

Lemma strip_none (f : node -> bool) (n : node) :
  anyElem f n = false -> strip f n = n.
Proof.
  induction n as [d|d|t g c ks IH] using node_ind; try reflexivity.
  rewrite anyElem_Elem. intro H. apply orb_false_elim in H as [H1 H2].
  cbn [strip]. rewrite H1. f_equal. clear H1.
  induction IH as [|k ks Hk _ IHks]; [reflexivity|].
  cbn [existsb] in H2. apply orb_false_elim in H2 as [Ha Hb].
  cbn [map]. rewrite (Hk Ha), (IHks Hb). reflexivity.
Qed.

(** Replacing an element that satisfies [f] by its text is what [strip]
    does to it anyway. *)
Lemma strip_replaced (f : node -> bool) (p : path) :
  shallow f ->
  forall n new target,
    editAt p asText n = Val new -> nodeAt n p = Some target ->
    f target = true -> isElem target = true ->
    map (strip f) new = [strip f n].
Proof.
  intro Hf. induction p as [|i p IH]; intros n new target He Hn Ht Hel.
  - cbn [editAt nodeAt] in *. injection Hn as ->.
    unfold asText in He. injection He as <-.
    destruct target as [d|d|t g c ks]; try discriminate.
    cbn [map strip]. rewrite Ht. reflexivity.
  - destruct n as [d|d|t g c ks]; try discriminate.
    rewrite editAt_cons in He. cbn [nodeAt kids] in Hn.
    destruct (nth_error ks i) as [k|] eqn:Hk; [|discriminate].
    destruct (editAt p asText k) as [sub|] eqn:E; [|discriminate].
    assert (En : new = [Elem t g c (firstn i ks ++ sub ++ skipn (S i) ks)])
      by congruence.
    subst new. clear He.
    pose proof (IH k sub target E Hn Ht Hel) as Hsub.
    apply nth_error_split in Hk as (l1 & l2 & -> & <-).
    rewrite firstn_before, skipn_after. cbn [map strip]. f_equal.
    rewrite (Hf t g c (l1 ++ sub ++ l2) (l1 ++ k :: l2)).
    destruct (f (Elem t g c (l1 ++ k :: l2))).
    + f_equal. rewrite !descText_Elem, !map_app, !concat_app.
      cbn [map concat].
      assert (T := editAt_text asText p k sub
                     ltac:(intros tg put Hp; unfold asText in Hp;
                           injection Hp as <-; simpl; apply app_nil_r)
                     E).
      rewrite T. reflexivity.
    + f_equal. rewrite !map_app, Hsub. reflexivity.
Qed.

(** Replacing an element that satisfies [f] by its text leaves the body
    where it was. *)
Lemma replaced_body_by (f : node -> bool) (p b : path)
  (root root' target : node) :
  shallow f -> p <> [] ->
  editAt p asText root = Val [root'] ->
  nodeAt root p = Some target -> f target = true ->
  (body root = Some b
   /\ exists bodyNode, nodeAt root b = Some bodyNode /\ f bodyNode = false) ->
  body root' = Some b
  /\ exists bodyNode, nodeAt root' b = Some bodyNode /\ f bodyNode = false.
Proof.
  intros Hf Hp He Ht Hid (Hb & bn & Hbn & Hno).
  destruct (body_nodeAt _ _ Hb) as (bi & t & g & c & ks & bn' & -> & -> & Hfi
                                    & Hnth & Hbn').
  assert (bn' = bn) by congruence. subst bn'. clear Hbn'.
  destruct p as [|i p']; [congruence|].
  rewrite editAt_cons in He. cbn [nodeAt kids] in Ht.
  destruct (nth_error ks i) as [k|] eqn:Hk; [|discriminate].
  destruct (editAt p' asText k) as [sub|] eqn:E; [|discriminate].
  assert (Er : root' = Elem t g c (firstn i ks ++ sub ++ skipn (S i) ks))
    by congruence.
  subst root'. clear He.
  apply nth_error_split in Hk as (l1 & l2 & -> & <-).
  rewrite firstn_before, skipn_after.
  destruct (findIndex_nth _ _ _ Hfi) as (bx & Hbx & Hbody).
  assert (bx = bn) by congruence. subst bx.
  assert (Hsub : exists x, sub = [x]
                 /\ (isBodyTag x = false \/ isBodyTag x = isBodyTag k)
                 /\ (bi = length l1 ->
                     isBodyTag x = true /\ f x = false)).
  { destruct p' as [|j p''].
    - cbn [nodeAt] in Ht. assert (target = k) by congruence. subst target.
      cbn [editAt] in E. unfold asText in E.
      exists (Text (descText k)). split; [congruence|].
      split; [left; reflexivity|].
      intros ->. rewrite nth_error_middle in Hnth. congruence.
    - destruct (carriers_replaced f (j :: p'') Hf ltac:(discriminate) k sub E)
        as (k' & -> & _ & t0 & g0 & c0 & ks0 & ks0' & -> & ->).
      exists (Elem t0 g0 c0 ks0'). split; [reflexivity|].
      split; [right; reflexivity|].
      intros ->. rewrite nth_error_middle in Hnth.
      assert (Elem t0 g0 c0 ks0 = bn) by congruence. subst bn.
      split; [exact Hbody|]. rewrite (Hf t0 g0 c0 ks0' ks0). exact Hno. }
  destruct Hsub as (x & -> & Htag & Hat).
  cbn [app]. split.
  - unfold body in *. cbn [kids] in *.
    destruct (hasTag (txt "html") (Elem t g c (l1 ++ k :: l2))) eqn:Hh;
      [|discriminate].
    change (hasTag (txt "html") (Elem t g c (l1 ++ x :: l2)))
      with (hasTag (txt "html") (Elem t g c (l1 ++ k :: l2))).
    rewrite Hh.
    rewrite (findIndex_swap isBodyTag l1 l2 k x bi Hfi);
      [reflexivity | intros _; exact Htag | intro H; apply Hat, H].
  - destruct (Nat.eq_dec bi (length l1)) as [->|Hne].
    + exists x. cbn [nodeAt kids]. rewrite nth_error_middle.
      split; [reflexivity | apply Hat; reflexivity].
    + exists bn. cbn [nodeAt kids].
      rewrite (nth_error_swap l1 l2 k x bi Hne), Hnth. auto.
Qed.

(** The loop of removeHighlight over the elements that satisfy [f]: the
    document it leaves is the document with these elements stripped. *)
Lemma removeEach_strip (f : node -> bool) (b : path) (l : list path) :
  shallow f -> (forall n, f n = true -> isElem n = true) ->
  forall (gone : list path) (index : nat) (s : page),
    NoDup l -> ~ In [] l ->
    carriers f (dom s) = filter (fun q => negb (underGone gone q)) l ->
    (body (dom s) = Some b
     /\ exists bodyNode,
          nodeAt (dom s) b = Some bodyNode /\ f bodyNode = false) ->
    exists s',
      removeEach gone index l s = (Val tt, s')
      /\ dom s' = strip f (dom s)
      /\ carriers f (dom s') = []
      /\ descText (dom s') = descText (dom s)
      /\ body (dom s') = Some b
      /\ exists bodyNode,
           nodeAt (dom s') b = Some bodyNode /\ f bodyNode = false.
Proof.
  intros Hf Hel.
  induction l as [|element rest IH]; intros gone index s Hnd Hroot Hc Hb.
  - exists s. split; [reflexivity|].
    split; [symmetry; apply strip_none, carriers_empty, Hc|].
    split; [exact Hc|]. split; [reflexivity | exact Hb].
  - rewrite removeEach_cons.
    apply NoDup_cons_iff in Hnd as [Hnotin Hnd].
    assert (Hroot' : ~ In [] rest) by (intro; apply Hroot; right; assumption).
    cbn [filter] in Hc.
    destruct (underGone gone element) eqn:Eg; cbn [negb] in Hc.
    + destruct (IH (element :: gone) (S index)
                  (mkPage (dom s) (console s ++ [LogPieceRemoved (index + 1)])))
        as (s' & Hrun & Hstrip & Hnone & Htext & Hbody); auto.
      * cbn [dom]. rewrite Hc. apply filter_ext_in.
        intros q Hq. rewrite underGone_cons.
        destruct (isStrictPrefix element q) eqn:Es; [|reflexivity].
        rewrite (underGone_below _ _ _ Eg Es). reflexivity.
      * exists s'. auto.
    + assert (Hne : element <> [])
        by (intros ->; apply Hroot; left; reflexivity).
      assert (Hin : In element (carriers f (dom s)))
        by (rewrite Hc; left; reflexivity).
      destruct (carriers_nodeAt _ _ _ Hin) as (target & Ht & Hid).
      destruct (editDocument_ok asText element (dom s) target
                  [Text (descText target)] Ht eq_refl Hne)
        as (root' & Hed & Hea).
      rewrite Hed.
      destruct (carriers_replaced f element Hf Hne (dom s) [root'] Hea)
        as (n' & En & Hcar & _).
      assert (n' = root') by congruence. subst n'.
      pose proof (strip_replaced f element Hf (dom s) [root'] target Hea Ht
                    Hid (Hel _ Hid)) as Hst.
      cbn [map] in Hst.
      destruct (IH (element :: gone) (S index)
                  (mkPage root' (console s ++ [LogPieceRemoved (index + 1)])))
        as (s' & Hrun & Hstrip & Hnone & Htext & Hbody); auto.
      * cbn [dom]. rewrite Hcar, Hc. cbn [filter].
        rewrite isPrefixb_refl. cbn [negb].
        rewrite filter_filter. apply filter_ext_in.
        intros q Hq. rewrite underGone_cons.
        rewrite (isPrefixb_strict element q) by (intros ->; contradiction).
        destruct (isStrictPrefix element q), (underGone gone q); reflexivity.
      * cbn [dom]. exact (replaced_body_by f element b (dom s) root' target
                            Hf Hne Hea Ht Hid Hb).
      * exists s'. split; [exact Hrun|]. cbn [dom] in Hstrip, Htext.
        split; [congruence|]. split; [exact Hnone|].
        split; [|exact Hbody]. rewrite Htext.
        assert (T := editAt_text asText element (dom s) [root']
                       ltac:(intros tg put Hp; unfold asText in Hp;
                             injection Hp as <-; simpl; apply app_nil_r)
                       Hea).
        simpl in T. rewrite app_nil_r in T. exact T.
Qed.

(** Merging the text nodes of the body does not change the document up
    to merging. *)
Lemma normalizeBody_normalize (s : page) (b : path) :
  body (dom s) = Some b ->
  exists s',
    normalizeBody s = (Val tt, s')
    /\ console s' = console s
    /\ editDocument b (fun n => Val [normalize n]) (dom s) = Val (dom s')
    /\ normalize (dom s') = normalize (dom s).
Proof.
  intro Hb.
  destruct (body_nodeAt _ _ Hb) as (bi & t & g & c & ks & bn & -> & Hr & _
                                    & _ & Hbn).
  destruct (editDocument_ok (fun n => Val [normalize n]) [bi] (dom s) bn
              [normalize bn] Hbn eq_refl ltac:(discriminate))
    as (root' & Hed & Hea).
  exists (mkPage root' (console s)).
  split; [|split; [reflexivity|split; [exact Hed|]]].
  - unfold normalizeBody, bind, theBody, getDom, lift, setDom.
    rewrite Hb, Hed. reflexivity.
  - cbn [dom].
    pose proof (editAt_cong (fun _ => false) normalize
                  ltac:(intros ? ? ? ? ?; reflexivity)
                  ltac:(intros; reflexivity)
                  (fun n => Val [normalize n]) [bi]) as C.
    specialize (C ltac:(intros tg put Hp; injection Hp as <-;
                        cbn [map concat]; rewrite normalize_idem, app_nil_r;
                        split; [reflexivity | apply normalize_text])
                  (dom s) [root'] Hea).
    cbn [map mergeText] in C.
    destruct (normalize root') as [d|d|t1 g1 c1 k1] eqn:E1;
      destruct (normalize (dom s)) as [d'|d'|t2 g2 c2 k2] eqn:E2;
      try (rewrite Hr in E2; discriminate E2);
      try congruence.
    rewrite Hr in Hea. rewrite editAt_cons in Hea.
    destruct (nth_error ks bi); [|discriminate].
    cbn [editAt] in Hea. injection Hea as <-. discriminate E1.
Qed.

(* ================================================================== *)
(** ** clearAllHighlights *)

Lemma shallow_hasAnyGogoId : shallow hasAnyGogoId.
Proof. intros t g c ks ks'. reflexivity. Qed.

Lemma hasAnyGogoId_elem (n : node) : hasAnyGogoId n = true -> isElem n = true.
Proof. destruct n; [discriminate | discriminate | reflexivity]. Qed.

Lemma hasGogoId_elem (id : str) (n : node) :
  hasGogoId id n = true -> isElem n = true.
Proof. destruct n; [discriminate | discriminate | reflexivity]. Qed.

Lemma hasGogoId_any (id : str) (n : node) :
  hasGogoId id n = true -> hasAnyGogoId n = true.
Proof.
  destruct n as [d|d|t [g|] c ks]; try discriminate. reflexivity.
Qed.

Lemma clearEach_cons (gone : list path) (el : path) (rest : list path)
  (s : page) :
  clearEach gone (el :: rest) s =
  if underGone gone el then clearEach (el :: gone) rest s
  else
    match editDocument el asText (dom s) with
    | Val root' => clearEach (el :: gone) rest (mkPage root' (console s))
    | Exc e => (Exc e, s)
    end.
Proof.
  cbn [clearEach]. unfold bind at 1. unfold getDom at 1.
  unfold underGone.
  destruct (existsb (fun g => isStrictPrefix g el) gone).
  - unfold bind, ret. destruct s; reflexivity.
  - change (fun n : node => Val [Text (descText n)]) with asText.
    unfold bind, lift, setDom.
    destruct (editDocument el asText (dom s)); reflexivity.
Qed.

(** The loop of clearAllHighlights does to the document what the loop of
    removeHighlight does, and keeps the console. *)
Lemma clearEach_removeEach (l : list path) :
  forall (gone : list path) (index : nat) (s1 s2 : page),
    dom s1 = dom s2 ->
    fst (clearEach gone l s1) = fst (removeEach gone index l s2)
    /\ (forall u, fst (removeEach gone index l s2) = Val u ->
                  dom (snd (clearEach gone l s1))
                  = dom (snd (removeEach gone index l s2))
                  /\ console (snd (clearEach gone l s1)) = console s1).
Proof.
  induction l as [|el rest IH]; intros gone index s1 s2 Hd.
  - cbn. auto.
  - rewrite clearEach_cons, removeEach_cons, Hd.
    destruct (underGone gone el).
    + destruct (IH (el :: gone) (S index) s1
                  (mkPage (dom s2)
                     (console s2 ++ [LogPieceRemoved (index + 1)])) Hd)
        as [H1 H2].
      split; [exact H1 | exact H2].
    + destruct (editDocument el asText (dom s2)) as [root'|e].
      * destruct (IH (el :: gone) (S index) (mkPage root' (console s1))
                    (mkPage root'
                       (console s2 ++ [LogPieceRemoved (index + 1)]))
                    eq_refl) as [H1 H2].
        split; [exact H1 | exact H2].
      * split; [reflexivity | discriminate].
Qed.

Lemma clearAllHighlights_spec (s : page) (b : path) (bodyNode : node) :
  hasAnyGogoId (dom s) = false ->
  body (dom s) = Some b -> nodeAt (dom s) b = Some bodyNode ->
  hasAnyGogoId bodyNode = false ->
  exists s',
    clearAllHighlights s = (Val tt, s')
    /\ editDocument b (fun n => Val [normalize n])
         (strip hasAnyGogoId (dom s)) = Val (dom s')
    /\ anyElem hasAnyGogoId (dom s') = false
    /\ descText (dom s') = descText (dom s)
    /\ (exists bodyNode',
          nodeAt (dom s') b = Some bodyNode' /\ normalized bodyNode' = true)
    /\ console s' = console s.
Proof.
  intros Hroot Hb Hbn Hfree.
  set (l := carriers hasAnyGogoId (dom s)).
  destruct (removeEach_strip hasAnyGogoId b l shallow_hasAnyGogoId
              hasAnyGogoId_elem [] 0 s)
    as (s1 & Hrun & Hstrip & Hnone & Htext & Hbody & _).
  { apply carriers_NoDup. }
  { apply carriers_no_root, Hroot. }
  { symmetry. apply filter_all. reflexivity. }
  { split; [exact Hb|]. exists bodyNode. auto. }
  destruct (clearEach_removeEach l [] 0 s s eq_refl) as [Hf Hs].
  rewrite Hrun in Hf, Hs. cbn [fst snd] in Hf, Hs.
  destruct (Hs tt eq_refl) as [Hd Hc].
  destruct (clearEach [] l s) as [r0 s0] eqn:Ec. cbn [fst snd] in *.
  subst r0.
  assert (Hb0 : body (dom s0) = Some b) by (rewrite Hd; exact Hbody).
  destruct (normalizeBody_spec hasAnyGogoId s0 b shallow_hasAnyGogoId Hb0)
    as (s2 & Hnorm & Hcon & Htext2 & Hany & Hnormal).
  destruct (normalizeBody_normalize s0 b Hb0)
    as (s2' & Hnorm' & _ & Hed & _).
  assert (s2' = s2) by congruence. subst s2'.
  exists s2. split.
  - unfold clearAllHighlights. unfold bind at 1. unfold getDom at 1.
    fold l. rewrite (bind_val _ _ _ _ _ Ec). exact Hnorm.
  - split; [rewrite <- Hstrip, <- Hd; exact Hed|].
    split; [rewrite Hany, Hd; apply carriers_empty, Hnone|].
    split; [congruence|]. split; [exact Hnormal | congruence].
Qed.

(** X11.  On a document with a body, where neither the root element
    nor the body has the attribute data-gogo-id, clearAllHighlights
    returns; the document is then the one in which every outermost
    element with the attribute has given way to a text node of its text
    and the text nodes of the body are merged: no element has the
    attribute any more (removeHighlight finds nothing for any
    identifier), the text of the document is what it was, and the body
    has no empty text node and no two neighbouring text nodes.  On a
    document without a body it raises a TypeError even when there is
    nothing to clear, and it raises when the root element has the
    attribute. *)
Theorem clearAllHighlights_complete (s : page) :
  (forall b bodyNode,
     hasAnyGogoId (dom s) = false ->
     body (dom s) = Some b -> nodeAt (dom s) b = Some bodyNode ->
     hasAnyGogoId bodyNode = false ->
     exists s',
       clearAllHighlights s = (Val tt, s')
       /\ editDocument b (fun n => Val [normalize n])
            (strip hasAnyGogoId (dom s)) = Val (dom s')
       /\ anyElem hasAnyGogoId (dom s') = false
       /\ (forall id, carriesId id (dom s') = false)
       /\ descText (dom s') = descText (dom s)
       /\ (exists bodyNode',
             nodeAt (dom s') b = Some bodyNode'
             /\ normalized bodyNode' = true))
  /\ (body (dom s) = None -> anyElem hasAnyGogoId (dom s) = false ->
      clearAllHighlights s = (Exc TypeError, s))
  /\ (hasAnyGogoId (dom s) = true ->
      clearAllHighlights s = (Exc HierarchyRequestError, s)).
Proof.
  split; [|split].
  - intros b bodyNode Hroot Hb Hbn Hfree.
    destruct (clearAllHighlights_spec s b bodyNode Hroot Hb Hbn Hfree)
      as (s' & Hrun & Hed & Hany & Htext & Hnormal & _).
    exists s'. split; [exact Hrun|]. split; [exact Hed|].
    split; [exact Hany|]. split; [|split; [exact Htext | exact Hnormal]].
    intro id. unfold carriesId.
    destruct (anyElem (hasGogoId id) (dom s')) eqn:E; [|reflexivity].
    rewrite (anyElem_impl _ hasAnyGogoId _ (hasGogoId_any id) E) in Hany.
    discriminate.
  - intros Hb Hany. unfold clearAllHighlights, bind, getDom.
    rewrite (anyElem_false_filter _ _ Hany). cbn [map clearEach ret].
    unfold normalizeBody, bind, theBody. rewrite Hb. reflexivity.
  - intro Hroot. unfold clearAllHighlights. unfold bind at 1.
    unfold getDom at 1.
    destruct (dom s) as [d|d|t g c ks] eqn:Ed; try discriminate.
    rewrite elements_Elem. cbn [filter snd]. rewrite Hroot. cbn [map fst].
    unfold bind at 1. rewrite clearEach_cons. cbn [underGone existsb].
    rewrite Ed. unfold editDocument. cbn [editAt asText isElem].
    reflexivity.
Qed.

Lemma clearAllHighlights_complete_witness :
  exists s',
    clearAllHighlights (mkPage markedDoc []) = (Val tt, s')
    /\ (forall id, carriesId id (dom s') = false)
    /\ descText (dom s') = txt "Hello world!Bye".
Proof.
  destruct (clearAllHighlights_complete (mkPage markedDoc [])) as (H & _ & _).
  destruct (H [1] _ eq_refl eq_refl eq_refl eq_refl)
    as (s' & Hrun & _ & _ & Hid & Htext & _).
  exists s'. split; [exact Hrun|]. split; [exact Hid | exact Htext].
Defined.

(* ================================================================== *)
(** ** Highlights undone *)

Lemma mergeText_three (a b c : str) :
  mergeText [Text a; Text b; Text c] = mergeText [Text (a ++ b ++ c)].
Proof. destruct c, b, a; cbn; rewrite ?app_nil_r; reflexivity. Qed.

Lemma mergeText_single_inj (x y : node) :
  mergeText [x] = mergeText [y] -> x = y.
Proof.
  destruct x as [[|a d]|d|t g c ks], y as [[|a' d']|d'|t' g' c' ks']; cbn;
    congruence.
Qed.

Lemma hasGogoId_mark (type : annotationType) (id : str)
  (content : list node) :
  hasGogoId id (markElement type id content) = true.
Proof.
  unfold markElement, hasGogoId, str_eqb.
  destruct (str_eq_dec id id); congruence.
Qed.

(** A wrap is undone by stripping and merging. *)
Lemma wrap_up_to_merging (type : annotationType) (id : str) (p : path)
  (a b : nat) (root root' : node) :
  editDocument p (surroundText (markElement type id) a b) root = Val root' ->
  normalize (strip (hasGogoId id) root')
  = normalize (strip (hasGogoId id) root).
Proof.
  intro H. apply editDocument_inv in H.
  pose proof (editAt_cong (hasGogoId id)
                (fun n => normalize (strip (hasGogoId id) n))
                (shallow_hasGogoId id)
                (strip_normalize_Elem (hasGogoId id))
                (surroundText (markElement type id) a b) p) as C.
  apply mergeText_single_inj.
  assert (Hh : forall target put,
             surroundText (markElement type id) a b target = Val put ->
             mergeText (map (fun n => normalize (strip (hasGogoId id) n)) put)
             = mergeText [normalize (strip (hasGogoId id) target)]
             /\ concat (map descText put) = descText target);
    [|exact (C Hh root [root'] H)].
  intros target put Hp. split; [|exact (surroundText_text _ _ _ _ _ _ Hp)].
  apply surroundText_inv in Hp as (d & content & -> & -> & Hc & He).
  cbn [map]. unfold markElement at 1.
  rewrite strip_normalize_Elem.
  change (Elem (txt "mark") (Some id) (txt "gogo-highlight-" ++ typeName type)
            content) with (markElement type id content).
  rewrite hasGogoId_mark. unfold markElement. rewrite descText_Elem, Hc.
  cbn [strip normalize]. rewrite mergeText_three.
  rewrite <- substring_split by lia. reflexivity.
Qed.

Lemma find_app_eq {A} (f : A -> bool) (a b : list A) :
  find f (a ++ b) = match find f a with
                    | Some x => Some x
                    | None => find f b
                    end.
Proof.
  induction a as [|x a IH]; [reflexivity|].
  cbn [app find]. destruct (f x); [reflexivity | exact IH].
Qed.

Lemma find_findIndex {A} (f : A -> bool) (l : list A) (x : A) :
  find f l = Some x ->
  exists i, findIndex f l = Some i /\ nth_error l i = Some x.
Proof.
  induction l as [|y l IH]; [discriminate|].
  cbn [find findIndex]. destruct (f y).
  - intro H. injection H as ->. exists 0. auto.
  - intro H. destruct (IH H) as (i & Hi & Hn). exists (S i).
    rewrite Hi. auto.
Qed.

Lemma findIndex_find {A} (f : A -> bool) (l : list A) (i : nat) :
  findIndex f l = Some i ->
  exists x, find f l = Some x /\ nth_error l i = Some x.
Proof.
  revert i. induction l as [|y l IH]; intro i; [discriminate|].
  cbn [find findIndex]. destruct (f y).
  - intro H. injection H as <-. exists y. auto.
  - destruct (findIndex f l) as [j|]; [|discriminate].
    intro H. injection H as <-. destruct (IH j eq_refl) as (x & Hx & Hn).
    exists x. auto.
Qed.

(** A wrap leaves a body that does not carry the annotation. *)
Lemma wrap_body (type : annotationType) (id : str) (p : path)
  (a b : nat) (root root' : node) :
  editDocument p (surroundText (markElement type id) a b) root = Val root' ->
  bodyFree (hasGogoId id) root = true -> hasGogoId id root = false ->
  bodyFree (hasGogoId id) root' = true /\ hasGogoId id root' = false.
Proof.
  intros H Hb Hr. apply editDocument_inv in H.
  destruct p as [|i p'].
  - cbn [editAt] in H.
    apply surroundText_inv in H as (d & content & _ & E & _). discriminate E.
  - destruct root as [d|d|t g c ks]; try discriminate.
    rewrite editAt_cons in H.
    destruct (nth_error ks i) as [k|] eqn:Hk; [|discriminate].
    destruct (editAt p' (surroundText (markElement type id) a b) k)
      as [sub|] eqn:E; [|discriminate].
    assert (Er : root' = Elem t g c (firstn i ks ++ sub ++ skipn (S i) ks))
      by congruence.
    subst root'. clear H. split; [|exact Hr].
    apply nth_error_split in Hk as (l1 & l2 & -> & <-).
    rewrite firstn_before, skipn_after.
    unfold bodyFree in *. cbn [kids] in *.
    apply andb_prop in Hb as [Hh Hf].
    change (hasTag (txt "html") (Elem t g c (l1 ++ sub ++ l2)))
      with (hasTag (txt "html") (Elem t g c (l1 ++ k :: l2))).
    rewrite Hh. cbn [andb].
    rewrite find_app_eq in Hf |- *.
    destruct (find isBodyTag l1); [exact Hf|].
    destruct p' as [|j p''].
    + cbn [editAt] in E.
      apply surroundText_inv in E as (d & content & -> & -> & _).
      cbn [find app] in Hf |- *. exact Hf.
    + destruct k as [d|d|t0 g0 c0 ks0]; try discriminate.
      rewrite editAt_cons in E.
      destruct (nth_error ks0 j) as [k0|]; [|discriminate].
      destruct (editAt p'' _ k0) as [sub0|]; [|discriminate].
      assert (Es : sub = [Elem t0 g0 c0
                            (firstn j ks0 ++ sub0 ++ skipn (S j) ks0)])
        by congruence.
      subst sub. cbn [find app] in Hf |- *.
      change (isBodyTag (Elem t0 g0 c0
                           (firstn j ks0 ++ sub0 ++ skipn (S j) ks0)))
        with (isBodyTag (Elem t0 g0 c0 ks0)).
      destruct (isBodyTag (Elem t0 g0 c0 ks0)); exact Hf.
Qed.

Lemma bodyFree_bodyKept (id : str) (root : node) :
  bodyFree (hasGogoId id) root = true -> exists b, bodyKept id b root.
Proof.
  unfold bodyFree, bodyKept, body. intro H.
  apply andb_prop in H as [Hh Hf]. rewrite Hh.
  destruct (find isBodyTag (kids root)) as [bn|] eqn:E; [|discriminate].
  destruct (find_findIndex _ _ _ E) as (i & Hi & Hn).
  exists [i]. rewrite Hi. split; [reflexivity|].
  exists bn. cbn [nodeAt]. rewrite Hn.
  split; [reflexivity|]. destruct (hasGogoId id bn); [discriminate|reflexivity].
Qed.

Lemma fresh_bodyFree (id : str) (root : node) (b : path) :
  body root = Some b -> carriesId id root = false ->
  bodyFree (hasGogoId id) root = true /\ hasGogoId id root = false.
Proof.
  intros Hb Hc.
  destruct (body_nodeAt _ _ Hb) as (i & t & g & c & ks & bn & -> & -> & Hfi
                                    & Hnth & _).
  unfold carriesId in Hc. rewrite anyElem_Elem in Hc.
  apply orb_false_elim in Hc as [Hr Hk]. split; [|exact Hr].
  unfold bodyFree. unfold body in Hb.
  destruct (hasTag (txt "html") (Elem t g c ks)); [|discriminate].
  cbn [andb kids].
  destruct (findIndex_find _ _ _ Hfi) as (x & Hx & Hn). rewrite Hx.
  assert (x = bn) by congruence. subst x.
  destruct (hasGogoId id bn) eqn:Eb; [|reflexivity].
  assert (Hany : existsb (anyElem (hasGogoId id)) ks = true).
  { apply existsb_exists. exists bn. split; [eapply nth_error_In; eauto|].
    destruct bn as [d|d|t0 g0 c0 ks0]; try discriminate.
    rewrite anyElem_Elem, Eb. reflexivity. }
  congruence.
Qed.

(** What holds of the document before a wrap and is kept by every wrap
    holds after highlightRange. *)
Lemma wrapEach_preserves (P : node -> Prop) (type : annotationType)
  (id : str) :
  (forall p a b root root',
     editDocument p (surroundText (markElement type id) a b) root = Val root' ->
     P root -> P root') ->
  forall (l : list textNodeRange) (reloc : path -> path) (index : nat)
         (s : page),
    P (dom s) -> P (dom (snd (wrapEach type id reloc index l s))).
Proof.
  intro Hstep. induction l as [|f rest IH]; intros reloc index s HP;
    [exact HP|].
  rewrite wrapEach_cons.
  pose proof (wrapStep_result type id (reloc (trNode f)) f index s) as St.
  destruct (editDocument (reloc (trNode f)) _ (dom s)) as [root'|e] eqn:E.
  - rewrite (bind_val _ _ _ _ _ St). apply IH. cbn [dom].
    exact (Hstep _ _ _ _ _ E HP).
  - rewrite (bind_val _ _ _ _ _ St). apply IH. exact HP.
Qed.

Lemma highlightRange_preserves (P : node -> Prop) (B : Browser) (r : range)
  (type : annotationType) (customId : option str) (s : page) :
  (forall p a b root root',
     editDocument p
       (surroundText (markElement type (chooseId B customId)) a b) root
     = Val root' ->
     P root -> P root') ->
  inOneTextNode (dom s) r = true \/ getTextNodesInRange (dom s) r <> [] ->
  P (dom s) -> P (dom (snd (highlightRange B r type customId s))).
Proof.
  intros Hstep H HP. rewrite highlightRange_unfold. cbv zeta.
  destruct (getTextNodesInRange (dom s) r) as [|f frs] eqn:E.
  - destruct H as [H|H]; [|congruence].
    unfold highlightRangeLegacy, bind, log, catch, surroundContents,
      extractAndInsert, ret.
    cbn [dom console]. rewrite H.
    destruct (editDocument (startContainer r)
                (surroundText (markElement type (chooseId B customId))
                   (startOffset r) (endOffset r)) (dom s))
      as [root'|e] eqn:Ed.
    + cbn [dom snd]. exact (Hstep _ _ _ _ _ Ed HP).
    + cbn [dom]. rewrite H, Ed. exact HP.
  - pose proof (wrapEach_preserves P type (chooseId B customId) Hstep
                  (f :: frs) (fun x => x) 0
                  (mkPage (dom s)
                     (console s ++ [LogFragments (length (f :: frs))])) HP)
      as HP1.
    destruct (wrapEach_policy type (chooseId B customId) (f :: frs)
                (fun x => x) 0
                (mkPage (dom s)
                   (console s ++ [LogFragments (length (f :: frs))])))
      as (s1 & evs & Hrun & _).
    rewrite Hrun in HP1. cbn [snd] in HP1.
    rewrite (bind_val _ _ _ _ _ Hrun).
    destruct (afterSplit_effect B (chooseId B customId) (length (f :: frs)) s1)
      as (tail & _ & Hdom & _).
    rewrite Hdom. exact HP1.
Qed.

Lemma highlightRange_val (B : Browser) (r : range) (type : annotationType)
  (customId : option str) (s : page) :
  validRange (dom s) r = true -> isElem (dom s) = true ->
  selectorSafe (chooseId B customId) = true ->
  inOneTextNode (dom s) r = true \/ getTextNodesInRange (dom s) r <> [] ->
  exists m s1, highlightRange B r type customId s = (Val m, s1).
Proof.
  intros Hv Hroot Safe H.
  destruct (inOneTextNode (dom s) r) eqn:One.
  - pose proof One as One'. unfold inOneTextNode in One'.
    apply andb_prop in One' as [_ T].
    destruct (nodeAt (dom s) (startContainer r)) as [[ds|ds|t g c ks]|] eqn:En;
      try discriminate.
    destruct (highlightRange_returns B r type customId s ds Hv En)
      as (m & s' & Hrun & _).
    + intro E0. rewrite E0 in En. cbn [nodeAt] in En.
      injection En as En. rewrite En in Hroot. discriminate.
    + intro X. congruence.
    + exact Safe.
    + exists (Some m), s'. exact Hrun.
  - destruct H as [H|H]; [discriminate|].
    rewrite highlightRange_unfold. cbv zeta.
    destruct (getTextNodesInRange (dom s) r) as [|f frs]; [congruence|].
    destruct (wrapEach_policy type (chooseId B customId) (f :: frs)
                (fun x => x) 0
                (mkPage (dom s)
                   (console s ++ [LogFragments (length (f :: frs))])))
      as (s1 & evs & Hrun & _).
    rewrite (bind_val _ _ _ _ _ Hrun).
    destruct (afterSplit_returns B (chooseId B customId) (length (f :: frs))
                s1 Safe) as (found & s2 & Ha).
    exists found, s2. exact Ha.
Qed.

(** removeHighlight, told exactly. *)
Lemma removeHighlight_strip (B : Browser) (id : str) (s : page) (b : path) :
  selectorSafe id = true ->
  hasGogoId id (dom s) = false -> bodyKept id b (dom s) ->
  exists s',
    removeHighlight B id s = (Val tt, s')
    /\ normalize (dom s') = normalize (strip (hasGogoId id) (dom s))
    /\ carriesId id (dom s') = false
    /\ (carriesId id (dom s) = true ->
        editDocument b (fun n => Val [normalize n])
          (strip (hasGogoId id) (dom s)) = Val (dom s')).
Proof.
  intros Safe Hroot Hb. unfold removeHighlight.
  rewrite (bind_val _ _ _ _ _ (querySelectorAll_carriers B id s Safe)).
  destruct (carriers (hasGogoId id) (dom s)) as [|c l] eqn:Ec.
  - apply carriers_empty in Ec.
    eexists. split; [reflexivity|]. cbn [dom].
    rewrite (strip_none _ _ Ec). split; [reflexivity|].
    split; [exact Ec|]. unfold carriesId. congruence.
  - destruct (removeEach_strip (hasGogoId id) b (c :: l)
                (shallow_hasGogoId id) (hasGogoId_elem id) [] 0 s)
      as (s1 & Hrun & Hstrip & Hnone & _ & Hbody & _).
    + rewrite <- Ec. apply carriers_NoDup.
    + rewrite <- Ec. apply carriers_no_root, Hroot.
    + rewrite Ec. symmetry. apply filter_all. reflexivity.
    + exact Hb.
    + rewrite (bind_val _ _ _ _ _ Hrun).
      destruct (normalizeBody_spec (hasGogoId id) s1 b
                  (shallow_hasGogoId id) Hbody)
        as (s2 & Hnorm & _ & _ & Hany & _).
      destruct (normalizeBody_normalize s1 b Hbody)
        as (s2' & Hnorm' & _ & Hed & Hn).
      assert (s2' = s2) by congruence. subst s2'.
      rewrite (bind_val _ _ _ _ _ Hnorm).
      eexists. split; [reflexivity|]. cbn [dom]. split; [|split].
      * rewrite Hn, Hstrip. reflexivity.
      * unfold carriesId. rewrite Hany. apply carriers_empty, Hnone.
      * intros _. rewrite <- Hstrip. exact Hed.
Qed.

(** X12.  For an identifier the selector can carry, on a document with
    a body where neither the root element nor the body carries the
    identifier and some element does: removeHighlight leaves exactly the
    document in which every outermost element that carries the identifier
    has given way to a text node of its text, with the text nodes of the
    body merged.  What was inside such an element goes with it, markers
    of other annotations too; nothing else changes. *)
Theorem removeHighlight_exact (B : Browser) (id : str) (s : page)
  (b : path) :
  selectorSafe id = true ->
  hasGogoId id (dom s) = false -> bodyKept id b (dom s) ->
  carriesId id (dom s) = true ->
  exists s',
    removeHighlight B id s = (Val tt, s')
    /\ editDocument b (fun n => Val [normalize n])
         (strip (hasGogoId id) (dom s)) = Val (dom s').
Proof.
  intros Safe Hroot Hb Hc.
  destruct (removeHighlight_strip B id s b Safe Hroot Hb)
    as (s' & Hrun & _ & _ & Hed).
  exists s'. split; [exact Hrun | exact (Hed Hc)].
Qed.

Lemma removeHighlight_exact_witness :
  exists s',
    removeHighlight plainBrowser (txt "a1") (mkPage markedDoc []) = (Val tt, s')
    /\ Val (dom s')
       = Val (Elem (txt "html") None []
                [Elem (txt "head") None [] [];
                 Elem (txt "body") None []
                   [Elem (txt "p") None [] [Text (txt "Hello world!")];
                    Elem (txt "p") None []
                      [Elem (txt "mark") (Some (txt "b2"))
                         (txt "gogo-highlight-question")
                         [Text (txt "Bye")]]]])
    /\ countElem (hasGogoId (txt "b2")) markedDoc = 2.
Proof.
  destruct (removeHighlight_exact plainBrowser (txt "a1")
              (mkPage markedDoc []) [1])
    as (s' & Hrun & Hed).
  - reflexivity.
  - reflexivity.
  - split; [reflexivity|]. eexists. split; reflexivity.
  - reflexivity.
  - exists s'. split; [exact Hrun|]. split; [|reflexivity].
    rewrite <- Hed. reflexivity.
Defined.

(** After highlightRange on text nodes the document is the one from
    before, once the markers are stripped and the text nodes merged. *)
Lemma highlightRange_undoable (B : Browser) (r : range)
  (type : annotationType) (customId : option str) (s : page) (b : path) :
  validRange (dom s) r = true ->
  selectorSafe (chooseId B customId) = true ->
  carriesId (chooseId B customId) (dom s) = false ->
  body (dom s) = Some b ->
  inOneTextNode (dom s) r = true \/ getTextNodesInRange (dom s) r <> [] ->
  exists m s1,
    highlightRange B r type customId s = (Val m, s1)
    /\ normalize (strip (hasGogoId (chooseId B customId)) (dom s1))
       = normalize (dom s)
    /\ bodyFree (hasGogoId (chooseId B customId)) (dom s1) = true
    /\ hasGogoId (chooseId B customId) (dom s1) = false
    /\ descText (dom s1) = descText (dom s).
Proof.
  intros Hv Safe Hfresh Hb Hcase.
  set (id := chooseId B customId) in *.
  assert (Hroot : isElem (dom s) = true).
  { destruct (body_nodeAt _ _ Hb) as (i & t & g & c & ks & bn & _ & -> & _).
    reflexivity. }
  destruct (highlightRange_val B r type customId s Hv Hroot Safe Hcase)
    as (m & s1 & Hrun).
  destruct (fresh_bodyFree id (dom s) b Hb Hfresh) as [Hbf Hrf].
  pose proof (highlightRange_preserves
                (fun n => normalize (strip (hasGogoId id) n)
                          = normalize (dom s)
                          /\ bodyFree (hasGogoId id) n = true
                          /\ hasGogoId id n = false)
                B r type customId s) as HP.
  rewrite Hrun in HP. cbn [snd] in HP.
  destruct HP as (Hn1 & Hb1 & Hr1).
  - intros p a0 b0 root root' Hed (Hn & Hbf0 & Hr0).
    destruct (wrap_body type id p a0 b0 root root' Hed Hbf0 Hr0) as [X Y].
    split; [|split; assumption].
    rewrite <- Hn. exact (wrap_up_to_merging type id p a0 b0 root root' Hed).
  - exact Hcase.
  - split; [|split; assumption].
    rewrite (strip_none _ _ Hfresh). reflexivity.
  - exists m, s1. split; [exact Hrun|]. split; [exact Hn1|].
    split; [exact Hb1|]. split; [exact Hr1|].
    pose proof (highlightRange_text B r type customId s Hcase) as T.
    rewrite Hrun in T. exact T.
Qed.

(** removeHighlight on a document that is another one with markers of
    the annotation put in gives that document back, up to merging. *)
Lemma removeHighlight_undoes (B : Browser) (id : str) (s1 : page)
  (root0 : node) :
  selectorSafe id = true ->
  normalize (strip (hasGogoId id) (dom s1)) = normalize root0 ->
  bodyFree (hasGogoId id) (dom s1) = true ->
  hasGogoId id (dom s1) = false ->
  exists s2,
    removeHighlight B id s1 = (Val tt, s2)
    /\ carriesId id (dom s2) = false
    /\ descText (dom s2) = descText (dom s1)
    /\ normalize (dom s2) = normalize root0.
Proof.
  intros Safe Hn1 Hb1 Hr1.
  destruct (bodyFree_bodyKept id (dom s1) Hb1) as (b1 & Hk1).
  destruct (removeHighlight_strip B id s1 b1 Safe Hr1 Hk1)
    as (s2 & Hrem & Hn2 & Hc2 & _).
  destruct (removeHighlight_spec B id s1 b1 Safe Hr1 Hk1)
    as (s2' & Hrem' & _ & Ht2 & _).
  assert (s2' = s2) by congruence. subst s2'.
  exists s2. split; [exact Hrem|]. split; [exact Hc2|].
  split; [exact Ht2 | congruence].
Qed.

(** X13.  Creating a highlight on text nodes and removing it again
    gives the document back, up to the merging of neighbouring text nodes
    and the dropping of empty ones: for a valid range, a fresh identifier
    the selector can carry and a document with a body, highlightRange and
    then removeHighlight both return, no element carries the identifier
    afterwards, and the normalized document is the normalized document
    from before. *)
Theorem highlight_remove_round_trip (B : Browser) (r : range)
  (type : annotationType) (customId : option str) (s : page) (b : path) :
  validRange (dom s) r = true ->
  selectorSafe (chooseId B customId) = true ->
  carriesId (chooseId B customId) (dom s) = false ->
  body (dom s) = Some b ->
  inOneTextNode (dom s) r = true \/ getTextNodesInRange (dom s) r <> [] ->
  exists m s1 s2,
    highlightRange B r type customId s = (Val m, s1)
    /\ removeHighlight B (chooseId B customId) s1 = (Val tt, s2)
    /\ carriesId (chooseId B customId) (dom s2) = false
    /\ descText (dom s2) = descText (dom s)
    /\ normalize (dom s2) = normalize (dom s).
Proof.
  intros Hv Safe Hfresh Hb Hcase.
  destruct (highlightRange_undoable B r type customId s b Hv Safe Hfresh Hb
              Hcase) as (m & s1 & Hrun & Hn1 & Hb1 & Hr1 & Ht1).
  destruct (removeHighlight_undoes B (chooseId B customId) s1 (dom s) Safe
              Hn1 Hb1 Hr1) as (s2 & Hrem & Hc2 & Ht2 & Hn2).
  exists m, s1, s2. split; [exact Hrun|]. split; [exact Hrem|].
  split; [exact Hc2|]. split; [|exact Hn2].
  rewrite Ht2. exact Ht1.
Qed.

Lemma highlight_remove_round_trip_witness :
  exists m s1 s2,
    highlightRange plainBrowser (mkRange [1; 0; 0] 2 [1; 0; 2] 3) agree None
      (mkPage helloDoc []) = (Val m, s1)
    /\ removeHighlight plainBrowser (randomUUID plainBrowser) s1 = (Val tt, s2)
    /\ normalize (dom s2) = normalize helloDoc.
Proof.
  destruct (highlight_remove_round_trip plainBrowser
              (mkRange [1; 0; 0] 2 [1; 0; 2] 3) agree None
              (mkPage helloDoc []) [1])
    as (m & s1 & s2 & H1 & H2 & _ & _ & H3).
  - reflexivity.
  - reflexivity.
  - reflexivity.
  - reflexivity.
  - right. discriminate.
  - exists m, s1, s2. auto.
Defined.

(* ================================================================== *)
(** ** highlightRange over the tuples of a valid range *)






Lemma markTexts_Elem (f : node -> bool) t g c ks :
  markTexts f (Elem t g c ks)
  = (if f (Elem t g c ks) then [descText (Elem t g c ks)] else [])
    ++ concat (map (markTexts f) ks).
Proof. reflexivity. Qed.

Lemma markTexts_none (f : node -> bool) (n : node) :
  anyElem f n = false -> markTexts f n = [].
Proof.
  induction n as [d|d|t g c ks IH] using node_ind; try reflexivity.
  rewrite anyElem_Elem, markTexts_Elem. intro H.
  apply orb_false_elim in H as [H1 H2]. rewrite H1. cbn [app]. clear H1.
  induction IH as [|k ks Hk _ IHks]; [reflexivity|].
  cbn [existsb] in H2. apply orb_false_elim in H2 as [Ha Hb].
  cbn [map concat]. rewrite (Hk Ha), (IHks Hb). reflexivity.
Qed.

(** An edit that keeps the text adds the marked texts of what it puts
    to those of the document. *)
Lemma editAt_markTexts (f : node -> bool) (h : node -> res (list node))
  (p : path) :
  shallow f ->
  (forall target put, h target = Val put ->
                      concat (map descText put) = descText target) ->
  forall (n target : node) (new put : list node),
    editAt p h n = Val new -> nodeAt n p = Some target ->
    h target = Val put -> markTexts f target = [] ->
    Permutation (concat (map (markTexts f) new))
                (concat (map (markTexts f) put) ++ markTexts f n).
Proof.
  intros Hf Ht. induction p as [|i p IH]; intros n target new put He Hn Hh Hm.
  - cbn [editAt nodeAt] in *. injection Hn as ->.
    assert (new = put) by congruence. subst new.
    rewrite Hm, app_nil_r. apply Permutation_refl.
  - destruct n as [d0|d0|t g c ks]; try discriminate.
    rewrite editAt_cons in He. cbn [nodeAt kids] in Hn.
    destruct (nth_error ks i) as [k|] eqn:Hk; [|discriminate].
    destruct (editAt p h k) as [sub|] eqn:E; [|discriminate].
    assert (En : new = [Elem t g c (firstn i ks ++ sub ++ skipn (S i) ks)])
      by congruence.
    subst new. clear He.
    pose proof (IH k target sub put E Hn Hh Hm) as P.
    apply nth_error_split in Hk as (l1 & l2 & -> & <-).
    rewrite firstn_before, skipn_after.
    cbn [map concat]. rewrite app_nil_r, !markTexts_Elem.
    rewrite (Hf t g c (l1 ++ sub ++ l2) (l1 ++ k :: l2)).
    assert (T : descText (Elem t g c (l1 ++ sub ++ l2))
                = descText (Elem t g c (l1 ++ k :: l2))).
    { rewrite !descText_Elem, !map_app, !concat_app. cbn [map concat].
      rewrite (editAt_text h p k sub Ht E). reflexivity. }
    rewrite T.
    set (H0 := if f (Elem t g c (l1 ++ k :: l2))
               then [descText (Elem t g c (l1 ++ k :: l2))] else []).
    rewrite !map_app, !concat_app. cbn [map concat].
    set (A := concat (map (markTexts f) l1)).
    set (C := concat (map (markTexts f) l2)).
    set (S0 := concat (map (markTexts f) sub)) in *.
    set (P0 := concat (map (markTexts f) put)) in *.
    apply Permutation_trans with (H0 ++ A ++ (P0 ++ markTexts f k) ++ C).
    + apply Permutation_app_head, Permutation_app_head, Permutation_app_tail.
      exact P.
    + rewrite <- !app_assoc. rewrite !(app_assoc H0 A).
      apply Permutation_app_swap_app.
Qed.

Lemma surroundText_markTexts (type : annotationType) (id : str)
  (a b : nat) (d : str) (put : list node) :
  a < b ->
  surroundText (markElement type id) a b (Text d) = Val put ->
  concat (map (markTexts (hasGogoId id)) put) = [substring d a b].
Proof.
  intros Hab H. unfold surroundText in H.
  destruct (length d <? a); [discriminate|].
  destruct (length d <? b); [discriminate|].
  injection H as <-.
  replace (Nat.min a b) with a by lia.
  replace (a <? b) with true by (symmetry; apply Nat.ltb_lt; exact Hab).
  cbn [map concat markTexts app]. unfold markElement at 1.
  rewrite markTexts_Elem.
  change (Elem (txt "mark") (Some id) (txt "gogo-highlight-" ++ typeName type)
            [Text (substring d a b)])
    with (markElement type id [Text (substring d a b)]).
  rewrite hasGogoId_mark. unfold markElement.
  cbn. rewrite !app_nil_r. reflexivity.
Qed.





(* ================================================================== *)
(** ** Restoration on a page that loads while the loop polls *)

Lemma tryRestoreWithRetry_present (B : Browser) (a : GOGOAnnotation)
  (n : nat) (w : window) (b : path) :
  body (dom (pg w)) = Some b ->
  includes (textContentAt (dom (pg w)) b) (exact (annTextQuote a)) = true ->
  selectorSafe (annId a) = true ->
  exists ok p',
    restoreHighlight B (annId a) (annXpath a) (annTextQuote a) (annType a)
      (mkPage (dom (pg w)) (console (pg w) ++ [LogContentLoaded (annId a) n]))
    = (Val ok, p')
    /\ tryRestoreWithRetry B a n w
       = (Val tt,
          mkWindow (now w) (timers w)
            (mkPage (dom p')
               (console p'
                ++ [if ok : bool then LogRestoreOk (annId a)
                    else WarnRestoreFailed (annId a)]))).
Proof.
  intros Hb Hin Safe.
  destruct (restoreHighlight_returns B (annId a) (annXpath a)
              (annTextQuote a) (annType a)
              (mkPage (dom (pg w))
                 (console (pg w) ++ [LogContentLoaded (annId a) n])) Safe)
    as (ok & p' & Hr).
  exists ok, p'. split; [exact Hr|].
  unfold tryRestoreWithRetry. rewrite Hb, Hin. cbn [negb].
  unfold onPage, bind, log. rewrite Hr.
  destruct ok; reflexivity.
Qed.

Lemma runTimers_idle (B : Browser) (host : nat -> node -> node)
  (fuel : nat) (w : window) :
  timers w = [] -> runTimers B host fuel w = w.
Proof.
  intro H. destruct fuel; [reflexivity|]. cbn [runTimers]. rewrite H.
  reflexivity.
Qed.

(** The polls from the [j]-th on, while the text is absent, up to the
    poll [j + d] at which the callback is on its own again. *)
Lemma runTimers_until (B : Browser) (host : nat -> node -> node)
  (a : GOGOAnnotation) (t0 : nat) (root : node) :
  forall (d j fuel : nat) (w : window),
    1 <= j -> j + d <= MAX_RETRIES ->
    timers w = [mkTimer (t0 + j * RETRY_INTERVAL) a j] ->
    now w <= t0 + j * RETRY_INTERVAL ->
    dom (pg w) = pageAt host t0 (j - 1) root ->
    (forall i, j <= i < j + d -> absentIn a (pageAt host t0 i root)) ->
    d < fuel ->
    runTimers B host fuel w
    = runTimers B host (fuel - d - 1)
        (snd (tryRestoreWithRetry B a (j + d)
                (mkWindow (t0 + (j + d) * RETRY_INTERVAL) []
                   (mkPage (pageAt host t0 (j + d) root)
                      (console (pg w) ++ retryLog a (j + 1) d))))).
Proof.
  induction d as [|d IH]; intros j fuel w Hj Hk Ht Hnow Hdom Habs Hfuel.
  - destruct fuel as [|fuel]; [lia|]. cbn [runTimers]. rewrite Ht.
    cbn [due timerAnnotation timerRetry].
    replace (Nat.max (now w) (t0 + j * RETRY_INTERVAL))
      with (t0 + j * RETRY_INTERVAL) by lia.
    rewrite Hdom. unfold retryLog. cbn [seq map]. rewrite app_nil_r.
    rewrite !Nat.add_0_r.
    replace (S fuel - 0 - 1) with fuel by lia.
    destruct j as [|j]; [lia|]. cbn [pageAt].
    replace (S j - 1) with j by lia. reflexivity.
  - destruct fuel as [|fuel]; [lia|]. cbn [runTimers]. rewrite Ht.
    cbn [due timerAnnotation timerRetry].
    replace (Nat.max (now w) (t0 + j * RETRY_INTERVAL))
      with (t0 + j * RETRY_INTERVAL) by lia.
    assert (Hpage : host (t0 + j * RETRY_INTERVAL) (dom (pg w))
                    = pageAt host t0 j root).
    { rewrite Hdom. destruct j as [|j]; [lia|]. cbn [pageAt].
      replace (S j - 1) with j by lia. reflexivity. }
    rewrite Hpage.
    rewrite tryRestoreWithRetry_absent
      by (cbn [pg dom]; apply Habs; lia).
    replace (j <? MAX_RETRIES) with true
      by (symmetry; apply Nat.ltb_lt; lia).
    cbn [snd now timers pg dom console enqueue].
    rewrite (IH (j + 1) fuel); cbn [timers now pg dom console].
    + replace (S fuel - S d - 1) with (fuel - d - 1) by lia.
      replace (j + 1 + d) with (j + S d) by lia.
      rewrite <- app_assoc. unfold retryLog. cbn [seq map app].
      replace (S (j + 1)) with (j + 1 + 1) by lia. reflexivity.
    + lia.
    + lia.
    + do 2 f_equal. unfold RETRY_INTERVAL. lia.
    + unfold RETRY_INTERVAL. lia.
    + replace (j + 1 - 1) with j by lia. reflexivity.
    + intros i Hi. apply Habs. lia.
    + lia.
Qed.

(** X15.  A page on which the exact text of an annotation is absent
    for the first [k] polls of its loop and present at the next one, not
    later than the last retry: the loop logs the [k] retries, tries the
    restoration once, at [k] times 500 ms after the start, on the
    document as the host page has made it, logs how that went and ends;
    whether the restoration went through or not, no timer is left. *)
Theorem polling_restores_when_loaded (B : Browser)
  (host : nat -> node -> node) (a : GOGOAnnotation) (w : window)
  (k fuel : nat) (b : path) :
  timers w = [] -> k <= MAX_RETRIES -> k <= fuel ->
  selectorSafe (annId a) = true ->
  (forall i, i < k -> absentIn a (pageAt host (now w) i (dom (pg w)))) ->
  body (pageAt host (now w) k (dom (pg w))) = Some b ->
  includes (textContentAt (pageAt host (now w) k (dom (pg w))) b)
           (exact (annTextQuote a)) = true ->
  exists ok p',
    restoreHighlight B (annId a) (annXpath a) (annTextQuote a) (annType a)
      (mkPage (pageAt host (now w) k (dom (pg w)))
         (console (pg w) ++ retryLog a 1 k ++ [LogContentLoaded (annId a) k]))
    = (Val ok, p')
    /\ runTimers B host fuel (snd (startAll B [a] w))
       = mkWindow (now w + k * RETRY_INTERVAL) []
           (mkPage (dom p')
              (console p'
               ++ [if ok : bool then LogRestoreOk (annId a)
                   else WarnRestoreFailed (annId a)])).
Proof.
  intros Ht Hk Hfuel Safe Habs Hb Hin.
  destruct k as [|k].
  - cbn [pageAt] in Hb, Hin |- *.
    destruct (tryRestoreWithRetry_present B a 0 w b Hb Hin Safe)
      as (ok & p' & Hr & Hrun).
    exists ok, p'. unfold retryLog. cbn [seq map app].
    split; [exact Hr|]. cbn [startAll]. rewrite Hrun. cbn [snd].
    rewrite runTimers_idle by (cbn [timers]; exact Ht).
    rewrite Ht, Nat.add_0_r. reflexivity.
  - assert (Habs0 : absentIn a (dom (pg w))) by (apply (Habs 0); lia).
    cbn [startAll]. rewrite (tryRestoreWithRetry_absent B a 0 w Habs0).
    change (0 <? MAX_RETRIES) with true. cbn [snd]. rewrite Ht.
    cbn [enqueue].
    rewrite (runTimers_until B host a (now w) (dom (pg w)) k 1 fuel);
      cbn [timers now pg dom console].
    + set (wk := mkWindow (now w + (1 + k) * RETRY_INTERVAL) []
                   (mkPage (pageAt host (now w) (1 + k) (dom (pg w)))
                      ((console (pg w) ++ [LogRetry (annId a) (0 + 1)])
                       ++ retryLog a (1 + 1) k))).
      destruct (tryRestoreWithRetry_present B a (1 + k) wk b)
        as (ok & p' & Hr & Hrun).
      * exact Hb.
      * exact Hin.
      * exact Safe.
      * exists ok, p'. split.
        -- rewrite <- Hr. unfold wk. cbn [pg dom console].
           do 2 f_equal. rewrite <- !app_assoc. f_equal.
        -- rewrite Hrun. cbn [snd]. rewrite runTimers_idle by reflexivity.
           reflexivity.
    + lia.
    + lia.
    + unfold RETRY_INTERVAL. repeat f_equal; lia.
    + unfold RETRY_INTERVAL. lia.
    + reflexivity.
    + intros i Hi. apply Habs. lia.
    + lia.
Qed.

Lemma polling_restores_when_loaded_witness :
  exists ok p',
    restoreHighlight plainBrowser (txt "a1") [] (mkTextQuote (txt "big") [] [])
      agree
      (mkPage helloDoc
         [LogRetry (txt "a1") 1; LogRetry (txt "a1") 2;
          LogContentLoaded (txt "a1") 2])
    = (Val ok, p')
    /\ runTimers plainBrowser lateHost 5
         (snd (startAll plainBrowser [bigAnnotation]
                 (mkWindow 0 [] (mkPage loadingDoc []))))
       = mkWindow 1000 []
           (mkPage (dom p')
              (console p'
               ++ [if ok : bool then LogRestoreOk (txt "a1")
                   else WarnRestoreFailed (txt "a1")])).
Proof.
  destruct (polling_restores_when_loaded plainBrowser lateHost bigAnnotation
              (mkWindow 0 [] (mkPage loadingDoc [])) 2 5 [1])
    as (ok & p' & Hr & Hrun).
  - reflexivity.
  - unfold MAX_RETRIES. lia.
  - lia.
  - reflexivity.
  - intros i Hi. exists [1].
    destruct i as [|[|i]]; [split; reflexivity | split; reflexivity | lia].
  - reflexivity.
  - reflexivity.
  - exists ok, p'. split; [exact Hr | exact Hrun].
Defined.

(* ================================================================== *)
(** ** handleAnnotate and handleDeleteAnnotation *)

Lemma markRef_cons (i i' : nat) (p : path) :
  markRef (i :: i' :: p) = i :: markRef (i' :: p).
Proof. reflexivity. Qed.

(** After a wrap the marker stands where [markRef] says. *)
Lemma wrap_markRef (mark : list node -> node) (a b : nat) (p : path) :
  p <> [] ->
  forall (n n' : node),
    editAt p (surroundText mark a b) n = Val [n'] ->
    exists content, nodeAt n' (markRef p) = Some (mark content).
Proof.
  induction p as [|i p IH]; intros Hp n n' He; [congruence|].
  destruct n as [d0|d0|t g c ks]; try discriminate.
  rewrite editAt_cons in He.
  destruct (nth_error ks i) as [k|] eqn:Hk; [|discriminate].
  destruct (editAt p (surroundText mark a b) k) as [sub|] eqn:E;
    [|discriminate].
  assert (En : n' = Elem t g c (firstn i ks ++ sub ++ skipn (S i) ks))
    by congruence.
  subst n'. clear He.
  apply nth_error_split in Hk as (l1 & l2 & -> & <-).
  rewrite firstn_before, skipn_after.
  destruct p as [|i' p].
  - cbn [editAt] in E.
    apply surroundText_inv in E as (d1 & content & -> & -> & _).
    exists content. unfold markRef. cbn [removelast last app nodeAt kids].
    rewrite nth_error_app2 by lia.
    replace (S (length l1) - length l1) with 1 by lia. reflexivity.
  - assert (Hsub : exists k', sub = [k']).
    { destruct k as [d1|d1|t1 g1 c1 ks1]; try discriminate.
      rewrite editAt_cons in E.
      destruct (nth_error ks1 i'); [|discriminate].
      destruct (editAt p _ _); [|discriminate].
      eexists. injection E as <-. reflexivity. }
    destruct Hsub as (k' & ->).
    destruct (IH ltac:(discriminate) k k' E) as (content & Hc).
    exists content. rewrite markRef_cons. cbn [nodeAt kids app].
    rewrite nth_error_middle. exact Hc.
Qed.

(** The marker highlightRange returns carries the identifier. *)
Lemma highlightRange_mark (B : Browser) (r : range)
  (type : annotationType) (customId : option str) (s : page) (ds : str) :
  validRange (dom s) r = true ->
  nodeAt (dom s) (startContainer r) = Some (Text ds) ->
  startContainer r <> [] ->
  (inOneTextNode (dom s) r = false -> rangeToString (dom s) r <> []) ->
  selectorSafe (chooseId B customId) = true ->
  exists m s',
    highlightRange B r type customId s = (Val (Some m), s')
    /\ (exists t c ks,
          nodeAt (dom s') m = Some (Elem t (Some (chooseId B customId)) c ks))
    /\ carriesId (chooseId B customId) (dom s') = true
    /\ descText (dom s') = descText (dom s).
Proof.
  intros Hv Hn Hne Htext Safe.
  rewrite highlightRange_unfold. cbv zeta.
  set (id := chooseId B customId) in *.
  destruct (inOneTextNode (dom s) r) eqn:One.
  - rewrite (inOneTextNode_no_tuples _ _ One).
    pose proof One as One'. unfold inOneTextNode in One'.
    apply andb_prop in One' as [E _]. apply path_eqb_eq in E.
    destruct (valid_same_node (dom s) r ds Hv E Hn) as [Hso Heo].
    destruct (surroundText_ok (markElement type id) (startOffset r)
                (endOffset r) ds ltac:(lia) Heo) as (put & Hput).
    destruct (editDocument_ok _ (startContainer r) (dom s) (Text ds) put
                Hn Hput Hne) as (root' & Hed & Hea).
    destruct (wrap_effect type id _ _ _ _ _ Hed) as (Ht & _ & Hc).
    destruct (wrap_markRef _ _ _ _ Hne _ _ Hea) as (content & Hm).
    unfold highlightRangeLegacy, bind, log, catch, surroundContents, ret.
    cbn [dom console]. rewrite One, Hed. cbn [dom console].
    eexists. eexists. split; [reflexivity|]. cbn [dom console].
    split; [|split; [exact Hc | exact Ht]].
    rewrite Hm. unfold markElement. eexists. eexists. eexists. reflexivity.
  - specialize (Htext eq_refl).
    rewrite <- (tuples_text (dom s) r Hv One) in Htext.
    destruct (getTextNodesInRange (dom s) r) as [|f rest] eqn:Efr;
      [exfalso; apply Htext; reflexivity|].
    assert (Hf : In f (getTextNodesInRange (dom s) r))
      by (rewrite Efr; left; reflexivity).
    destruct (tuples_are_slices (dom s) r f Hv Hf) as (d & Hnf & Hp & Hlt & He).
    set (s0 := mkPage (dom s)
                 (console s ++ [LogFragments (length (f :: rest))])).
    destruct (wrapEach_head type id f rest s0 d Hnf Hp ltac:(lia) He)
      as (s1 & evs & R & C & Fa & Tx & Mk).
    rewrite (bind_val _ _ _ _ _ R).
    pose proof (hasMarker_carriesId id _ Mk) as Hc.
    unfold afterSplit, querySelector.
    rewrite (bind_val _ _ _ _ _
               (bind_val _ _ _ _ _ (querySelectorAll_carriers B id s1 Safe))).
    destruct (carriers (hasGogoId id) (dom s1)) as [|m l] eqn:Ec.
    + apply carriers_empty in Ec. unfold carriesId in Hc. congruence.
    + assert (Hin : In m (carriers (hasGogoId id) (dom s1)))
        by (rewrite Ec; left; reflexivity).
      destruct (carriers_nodeAt _ _ _ Hin) as (target & Ht & Hid).
      cbn [hd_error ret]. unfold bind, log, ret. cbn [dom console].
      exists m. eexists. split; [reflexivity|]. cbn [dom].
      split; [|split; [exact Hc | exact Tx]].
      destruct target as [d0|d0|t [g|] c ks]; try discriminate.
      cbn [hasGogoId] in Hid. apply str_eqb_eq in Hid. subst g.
      eexists. eexists. eexists. exact Ht.
Qed.

Lemma generateXPath_root_text (root : node) (d : str) :
  nodeAt root [] = Some (Text d) -> generateXPath root [] = [].
Proof. intro H. unfold generateXPath. rewrite H. reflexivity. Qed.

Lemma handleAnnotate_stores (E : Extension) (B : Browser)
  (type : annotationType) (c : component) (r : range) (ds : str) :
  captureTextSelection c = Some r ->
  validRange (dom (shown c)) r = true ->
  nodeAt (dom (shown c)) (startContainer r) = Some (Text ds) ->
  generateXPath (dom (shown c)) (startContainer r) <> [] ->
  rangeToString (dom (shown c)) r <> [] ->
  selectorSafe (randomUUID B) = true -> randomUUID B <> [] ->
  exists m p,
    highlightRange B r type None (shown c) = (Val (Some m), p)
    /\ carriesId (randomUUID B) (dom p) = true
    /\ descText (dom p) = descText (dom (shown c))
    /\ handleAnnotate E B type c
       = let a := mkAnnotation (randomUUID B)
                    (generateXPath (dom (shown c)) (startContainer r))
                    (createTextQuote (dom (shown c)) r) type in
         if contextValid E then
           if storageSet E (annotations c ++ [a]) then
             mkComponent None (annotations c ++ [a])
               (selectedAnnotation c) false (tooltipVisible c)
               (sent c ++ [NEW_ANNOTATION a; SHOW_TOAST ToastCreated]) p
           else
             mkComponent (selection c) (annotations c)
               (selectedAnnotation c) (menuVisible c) (tooltipVisible c)
               (sent c ++ [SHOW_TOAST ToastFailed]) p
         else
           mkComponent None (annotations c) (selectedAnnotation c)
             false (tooltipVisible c) (sent c) p.
Proof.
  intros Hr Hv Hn Hx Ht Safe Hid.
  assert (Hne : startContainer r <> []).
  { intro E0. apply Hx. rewrite E0 in Hn |- *.
    exact (generateXPath_root_text _ _ Hn). }
  destruct (highlightRange_mark B r type None (shown c) ds Hv Hn Hne
              ltac:(intros _; exact Ht) Safe)
    as (m & p & Hrun & (t & cl & ks & Hm) & Hc & Htext).
  cbn [chooseId] in Hm, Hc.
  exists m, p. split; [exact Hrun|]. split; [exact Hc|].
  split; [exact Htext|].
  unfold handleAnnotate. rewrite Hr.
  unfold createLocationInfo. cbn [fst snd].
  destruct (generateXPath (dom (shown c)) (startContainer r))
    as [|st xp] eqn:Ex; [congruence|].
  unfold createTextQuote at 1. cbn [exact].
  destruct (rangeToString (dom (shown c)) r) as [|ch tx] eqn:Et;
    [congruence|].
  rewrite Hrun. unfold gogoIdOf. rewrite Hm.
  destruct (randomUUID B) as [|u us] eqn:Eu; [congruence|].
  unfold annotateFailed, setValue, safeSendMessage, onShown.
  destruct (contextValid E); cbn [negb].
  + destruct (storageSet E _).
    * cbn. rewrite <- app_assoc. reflexivity.
    * reflexivity.
  + reflexivity.
Qed.

(** X16.  handleAnnotate does nothing without a selection that is
    not collapsed.  The location is checked before the document is
    touched: with an empty XPath or an empty selected text the document
    and the stored list stay and the failure is shown.  For a valid range
    that starts in a text node, has an XPath and some text, and a new
    identifier that is not empty and that the selector can carry, the
    highlight is made, and then: with a valid context and a storage that
    takes the list, the annotation is appended to the stored list with
    the identifier of the marker and the location taken from the document
    as it was before, the two messages are sent, the selection is
    cleared and the menu closed; with a storage that refuses, the failure
    is shown and the list stays while the highlight stays in the
    document; with an invalid context nothing is stored and nothing is
    sent, yet the selection is cleared and the menu closed as after a
    success. *)
Theorem handleAnnotate_outcomes (E : Extension) (B : Browser)
  (type : annotationType) (c : component) :
  (captureTextSelection c = None -> handleAnnotate E B type c = c)
  /\ (forall r,
        captureTextSelection c = Some r ->
        generateXPath (dom (shown c)) (startContainer r) = []
        \/ rangeToString (dom (shown c)) r = [] ->
        handleAnnotate E B type c = annotateFailed E (shown c) c)
  /\ (forall r ds,
        captureTextSelection c = Some r ->
        validRange (dom (shown c)) r = true ->
        nodeAt (dom (shown c)) (startContainer r) = Some (Text ds) ->
        generateXPath (dom (shown c)) (startContainer r) <> [] ->
        rangeToString (dom (shown c)) r <> [] ->
        selectorSafe (randomUUID B) = true -> randomUUID B <> [] ->
        exists m p,
          highlightRange B r type None (shown c) = (Val (Some m), p)
          /\ carriesId (randomUUID B) (dom p) = true
          /\ descText (dom p) = descText (dom (shown c))
          /\ handleAnnotate E B type c
             = let a := mkAnnotation (randomUUID B)
                          (generateXPath (dom (shown c)) (startContainer r))
                          (createTextQuote (dom (shown c)) r) type in
               if contextValid E then
                 if storageSet E (annotations c ++ [a]) then
                   mkComponent None (annotations c ++ [a])
                     (selectedAnnotation c) false (tooltipVisible c)
                     (sent c ++ [NEW_ANNOTATION a; SHOW_TOAST ToastCreated]) p
                 else
                   mkComponent (selection c) (annotations c)
                     (selectedAnnotation c) (menuVisible c) (tooltipVisible c)
                     (sent c ++ [SHOW_TOAST ToastFailed]) p
               else
                 mkComponent None (annotations c) (selectedAnnotation c)
                   false (tooltipVisible c) (sent c) p).
Proof.
  split; [|split].
  - intro H. unfold handleAnnotate. rewrite H. reflexivity.
  - intros r Hr Hbad. unfold handleAnnotate. rewrite Hr.
    unfold createLocationInfo. cbn [fst snd].
    destruct Hbad as [Hx|Ht].
    + rewrite Hx. reflexivity.
    + unfold createTextQuote. cbn [exact]. rewrite Ht.
      destruct (generateXPath (dom (shown c)) (startContainer r));
        reflexivity.
  - intros r ds. apply handleAnnotate_stores.
Qed.

Lemma handleAnnotate_outcomes_witness :
  exists m p,
    highlightRange plainBrowser (mkRange [1; 0; 0] 2 [1; 0; 2] 3) agree None
      (mkPage helloDoc []) = (Val (Some m), p)
    /\ carriesId (randomUUID plainBrowser) (dom p) = true
    /\ annotations (handleAnnotate storingExtension plainBrowser agree
                      helloComponent)
       = [mkAnnotation (randomUUID plainBrowser)
            [(txt "body", 2); (txt "p", 1)]
            (mkTextQuote (txt "llo big wo") (txt "He") (txt "rld")) agree]
    /\ annotations (handleAnnotate fullExtension plainBrowser agree
                      helloComponent) = []
    /\ shown (handleAnnotate fullExtension plainBrowser agree helloComponent)
       = p
    /\ sent (handleAnnotate staleExtension plainBrowser agree helloComponent)
       = [].
Proof.
  destruct (handleAnnotate_outcomes storingExtension plainBrowser agree
              helloComponent) as (_ & _ & H1).
  destruct (handleAnnotate_outcomes fullExtension plainBrowser agree
              helloComponent) as (_ & _ & H2).
  destruct (handleAnnotate_outcomes staleExtension plainBrowser agree
              helloComponent) as (_ & _ & H3).
  destruct (H1 (mkRange [1; 0; 0] 2 [1; 0; 2] 3) (txt "Hello "))
    as (m & p & Hrun & Hc & _ & E1);
    try reflexivity; try discriminate.
  destruct (H2 (mkRange [1; 0; 0] 2 [1; 0; 2] 3) (txt "Hello "))
    as (m2 & p2 & Hrun2 & _ & _ & E2);
    try reflexivity; try discriminate.
  destruct (H3 (mkRange [1; 0; 0] 2 [1; 0; 2] 3) (txt "Hello "))
    as (m3 & p3 & Hrun3 & _ & _ & E3);
    try reflexivity; try discriminate.
  assert (p2 = p) by congruence. subst p2.
  exists m, p. split; [exact Hrun|]. split; [exact Hc|].
  rewrite E1, E2, E3. repeat split.
Defined.

Lemma filter_other_ids (id : str) (l : list GOGOAnnotation)
  (a : GOGOAnnotation) :
  (forall x, In x l -> annId x <> id) -> annId a = id ->
  filter (fun x => negb (str_eqb (annId x) id)) (l ++ [a]) = l.
Proof.
  intros Hl Ha. rewrite filter_app. cbn [filter]. rewrite Ha.
  unfold str_eqb at 2. destruct (str_eq_dec id id); [|congruence].
  cbn [negb]. rewrite app_nil_r. apply filter_all.
  intros x Hx. unfold str_eqb.
  destruct (str_eq_dec (annId x) id) as [E|_]; [|reflexivity].
  elim (Hl x Hx E).
Qed.

(** X17.  An annotation created on a valid range and then deleted
    through its tooltip leaves things as they were: with a valid context
    and a storage that takes both lists, a new identifier that no stored
    annotation and no element of the document has, and a document with a
    body, the stored list is the list from before, no element carries the
    identifier, and the document is the document from before up to the
    merging of neighbouring text nodes; the four messages have been
    sent. *)
Theorem annotate_then_delete (E : Extension) (B : Browser)
  (type : annotationType) (c : component) (r : range) (ds : str) (b : path) :
  captureTextSelection c = Some r ->
  validRange (dom (shown c)) r = true ->
  nodeAt (dom (shown c)) (startContainer r) = Some (Text ds) ->
  generateXPath (dom (shown c)) (startContainer r) <> [] ->
  rangeToString (dom (shown c)) r <> [] ->
  selectorSafe (randomUUID B) = true -> randomUUID B <> [] ->
  carriesId (randomUUID B) (dom (shown c)) = false ->
  (forall x, In x (annotations c) -> annId x <> randomUUID B) ->
  body (dom (shown c)) = Some b ->
  contextValid E = true -> (forall l, storageSet E l = true) ->
  let a := mkAnnotation (randomUUID B)
             (generateXPath (dom (shown c)) (startContainer r))
             (createTextQuote (dom (shown c)) r) type in
  let c1 := handleAnnotate E B type c in
  let c2 := handleDeleteAnnotation E B
              (mkComponent (selection c1) (annotations c1) (Some a)
                 (menuVisible c1) true (sent c1) (shown c1)) in
  annotations c1 = annotations c ++ [a]
  /\ annotations c2 = annotations c
  /\ carriesId (randomUUID B) (dom (shown c2)) = false
  /\ normalize (dom (shown c2)) = normalize (dom (shown c))
  /\ descText (dom (shown c2)) = descText (dom (shown c))
  /\ selectedAnnotation c2 = None
  /\ sent c2
     = sent c ++ [NEW_ANNOTATION a; SHOW_TOAST ToastCreated;
                  REMOVE_ANNOTATION (randomUUID B); SHOW_TOAST ToastDeleted].
Proof.
  intros Hr Hv Hn Hx Ht Safe Hid Hfresh Hold Hb Hctx Hst a c1 c2.
  assert (Hne : startContainer r <> []).
  { intro E0. apply Hx. rewrite E0 in Hn |- *.
    exact (generateXPath_root_text _ _ Hn). }
  assert (Hcase : inOneTextNode (dom (shown c)) r = true
                  \/ getTextNodesInRange (dom (shown c)) r <> []).
  { destruct (inOneTextNode (dom (shown c)) r) eqn:One; [left; reflexivity|].
    right. intro E0.
    pose proof (tuples_text (dom (shown c)) r Hv One) as T.
    rewrite E0 in T. cbn in T. congruence. }
  destruct (highlightRange_mark B r type None (shown c) ds Hv Hn Hne
              ltac:(intros _; exact Ht) Safe)
    as (m & p & Hrun & (t & cl & ks & Hm) & Hc & Htext).
  cbn [chooseId] in Hm, Hc.
  assert (E1 : c1 = mkComponent None (annotations c ++ [a])
                      (selectedAnnotation c) false (tooltipVisible c)
                      (sent c ++ [NEW_ANNOTATION a; SHOW_TOAST ToastCreated])
                      p).
  { unfold c1, handleAnnotate. rewrite Hr.
    unfold createLocationInfo. cbn [fst snd]. fold a.
    destruct (generateXPath (dom (shown c)) (startContainer r))
      as [|st xp] eqn:Ex; [congruence|].
    unfold createTextQuote at 1. cbn [exact].
    destruct (rangeToString (dom (shown c)) r) as [|ch tx] eqn:Et;
      [congruence|].
    rewrite Hrun. unfold gogoIdOf. rewrite Hm.
    destruct (randomUUID B) as [|u us] eqn:Eu; [congruence|].
    unfold setValue, safeSendMessage, onShown. rewrite Hctx. cbn [negb].
    rewrite Hst. cbn. rewrite <- app_assoc. reflexivity. }
  destruct (highlightRange_undoable B r type None (shown c) b
              Hv Safe Hfresh Hb Hcase)
    as (m' & s1 & Hrun' & Hn1 & Hb1 & Hr1 & Ht1).
  assert (s1 = p) by congruence. subst s1.
  cbn [chooseId] in Hn1, Hb1, Hr1.
  destruct (removeHighlight_undoes B (randomUUID B) p (dom (shown c)) Safe
              Hn1 Hb1 Hr1) as (s2 & Hrem & Hc2 & Ht2' & Hn2).
  assert (Ht2 : descText (dom s2) = descText (dom (shown c)))
    by (rewrite Ht2'; exact Htext).
  assert (E2 : c2 = mkComponent None (annotations c) None false false
                      (sent c ++ [NEW_ANNOTATION a; SHOW_TOAST ToastCreated;
                                  REMOVE_ANNOTATION (randomUUID B);
                                  SHOW_TOAST ToastDeleted]) s2).
  { unfold c2. rewrite E1. unfold handleDeleteAnnotation.
    cbn [selectedAnnotation annotations menuVisible sent shown selection].
    change (annId a) with (randomUUID B).
    rewrite (filter_other_ids (randomUUID B) (annotations c) a Hold eq_refl).
    unfold setValue, safeSendMessage, onShown. rewrite Hctx. cbn [negb].
    rewrite Hst. cbn [shown]. rewrite Hrem.
    cbn. rewrite <- !app_assoc. reflexivity. }
  rewrite E1, E2. cbn [annotations shown selectedAnnotation sent].
  repeat split; assumption.
Qed.

Lemma annotate_then_delete_witness :
  let c1 := handleAnnotate storingExtension plainBrowser agree helloComponent in
  annotations
    (handleDeleteAnnotation storingExtension plainBrowser
       (mkComponent (selection c1) (annotations c1)
          (Some (mkAnnotation (randomUUID plainBrowser)
                   (generateXPath helloDoc [1; 0; 0])
                   (createTextQuote helloDoc (mkRange [1; 0; 0] 2 [1; 0; 2] 3))
                   agree))
          (menuVisible c1) true (sent c1) (shown c1))) = []
  /\ normalize
       (dom (shown
          (handleDeleteAnnotation storingExtension plainBrowser
             (mkComponent (selection c1) (annotations c1)
                (Some (mkAnnotation (randomUUID plainBrowser)
                         (generateXPath helloDoc [1; 0; 0])
                         (createTextQuote helloDoc
                            (mkRange [1; 0; 0] 2 [1; 0; 2] 3))
                         agree))
                (menuVisible c1) true (sent c1) (shown c1)))))
     = normalize helloDoc.
Proof.
  intro c1.
  destruct (annotate_then_delete storingExtension plainBrowser agree
              helloComponent (mkRange [1; 0; 0] 2 [1; 0; 2] 3)
              (txt "Hello ") [1])
    as (_ & H2 & _ & H4 & _);
    try reflexivity; try discriminate.
  - intros x [].
  - split; [exact H2 | exact H4].
Defined.

(* ================================================================== *)
(** ** From the annotation stored to the highlight restored *)

Lemma includes_occurrence (s pat pre post : str) :
  s = pre ++ pat ++ post -> includes s pat = true.
Proof.
  intros ->. unfold includes.
  destruct (indexOf_complete pat pre post) as (i & Hi & _).
  rewrite Hi. reflexivity.
Qed.

(** X18.  What handleAnnotate stores, the restoration loop restores
    on the document as it was before the highlight: for a valid range in
    the body of an html document that starts in a text node, with plain
    element names above it, some text, a new identifier that is not
    empty, that the selector can carry and that no element has, a valid
    context and a storage that takes the list, the annotation is
    appended to the stored list; started on that document, the loop for
    this annotation finds the text at once, sets no timer, and
    restoreHighlight returns true: a marker of the annotation is in the
    document, the text of the document is what it was, and the Range
    handed to highlightRange has the text of the original range. *)
Theorem annotation_survives_reload (E : Extension) (B : Browser)
  (type : annotationType) (c : component) (r : range) (ds : str) (b : path)
  (bodyNode : node) (w : window) :
  captureTextSelection c = Some r ->
  validRange (dom (shown c)) r = true ->
  body (dom (shown c)) = Some b -> nodeAt (dom (shown c)) b = Some bodyNode ->
  isPrefixb b (startContainer r) = true ->
  isPrefixb b (endContainer r) = true ->
  nodeAt (dom (shown c)) (startContainer r) = Some (Text ds) ->
  forallb (fun st => plainName (fst st))
          (generateXPath (dom (shown c)) (startContainer r)) = true ->
  rangeToString (dom (shown c)) r <> [] ->
  selectorSafe (randomUUID B) = true -> randomUUID B <> [] ->
  carriesId (randomUUID B) (dom (shown c)) = false ->
  contextValid E = true -> (forall l, storageSet E l = true) ->
  timers w = [] -> dom (pg w) = dom (shown c) ->
  let a := mkAnnotation (randomUUID B)
             (generateXPath (dom (shown c)) (startContainer r))
             (createTextQuote (dom (shown c)) r) type in
  annotations (handleAnnotate E B type c) = annotations c ++ [a]
  /\ exists r' p',
       startAll B [a] w = (Val tt, mkWindow (now w) [] p')
       /\ In (LogRange r') (console p')
       /\ rangeToString (dom (shown c)) r' = rangeToString (dom (shown c)) r
       /\ In (LogRestoreOk (randomUUID B)) (console p')
       /\ hasMarker (randomUUID B) (dom p') = true
       /\ descText (dom p') = descText (dom (shown c)).
Proof.
  intros Hr Hv Hb Hbn Hps Hpe Hn Hplain Ht Safe Hid Hfresh Hctx Hst Htm Hdom a.
  assert (Hbne : b <> []).
  { destruct (body_nodeAt _ _ Hb) as (i & _ & _ & _ & _ & _ & -> & _).
    discriminate. }
  assert (Hne : startContainer r <> []).
  { apply isPrefixb_spec in Hps as (q & ->). destruct b; [congruence|].
    discriminate. }
  assert (Hx : generateXPath (dom (shown c)) (startContainer r) <> []).
  { destruct (body_nodeAt _ _ Hb)
      as (i & t & g & cl & ks & bn & -> & Hroot & Hfi & Hnth & Hbn').
    destruct (findIndex_nth _ _ _ Hfi) as (x & Hx & Hbody).
    assert (bn = bodyNode) by congruence. subst bn.
    assert (x = bodyNode) by congruence. subst x.
    assert (Helem : isElem bodyNode = true).
    { unfold isBodyTag, hasTag in Hbody.
      destruct (isElem bodyNode); [reflexivity | discriminate]. }
    pose proof Hps as Hps'. apply isPrefixb_spec in Hps' as (q & Eq).
    cbn [app] in Eq. rewrite Eq in Hn |- *.
    destruct (generateXPath_head (dom (shown c)) i q bodyNode (Text ds)
                Hbn Helem Hn eq_refl) as (idx & rest & Ex).
    rewrite Ex. discriminate. }
  assert (Htn : textNodes bodyNode <> []).
  { pose proof Hps as Hps'. apply isPrefixb_spec in Hps' as (q & Eq).
    rewrite Eq, nodeAt_app, Hbn in Hn. apply In_textNodes in Hn.
    intro E0. rewrite E0 in Hn. destruct Hn. }
  split.
  - destruct (handleAnnotate_stores E B type c r ds Hr Hv Hn Hx Ht Safe Hid)
      as (m & p & _ & _ & _ & Eh).
    rewrite Eh. cbv zeta. rewrite Hctx, Hst. reflexivity.
  - destruct (toString_within (dom (shown c)) r b bodyNode Hv Hbne Hbn Hps Hpe)
      as (pre & post & Hocc).
    assert (Helem : isElem bodyNode = true).
    { destruct (body_nodeAt _ _ Hb)
        as (i & t & g & cl & ks & bn & -> & Hroot & Hfi & Hnth & Hbn').
      destruct (findIndex_nth _ _ _ Hfi) as (x & Hx' & Hbody).
      assert (x = bodyNode) by congruence. subst x.
      unfold isBodyTag, hasTag in Hbody.
      destruct (isElem bodyNode); [reflexivity | discriminate]. }
    assert (Hnomark : hasMarker (randomUUID B) (dom (shown c)) = false).
    { destruct (hasMarker (randomUUID B) (dom (shown c))) eqn:Em;
        [|reflexivity].
      rewrite (hasMarker_carriesId _ _ Em) in Hfresh. discriminate. }
    assert (Hchoose : chooseId B (Some (randomUUID B)) = randomUUID B).
    { destruct (randomUUID B); [congruence | reflexivity]. }
    set (s0 := mkPage (dom (pg w))
                 (console (pg w) ++ [LogContentLoaded (randomUUID B) 0])).
    set (s1 := mkPage (dom s0) (console s0 ++ [WarnXPathFailed])).
    destruct (restoreByTextQuote_spec B (randomUUID B)
                (createTextQuote (dom (shown c)) r) type s1 b bodyNode)
      as (r' & s' & Hrun & Hlog & _ & Hstr & Hmark & Htext).
    { unfold s1, s0. cbn [dom]. rewrite Hdom. exact Hb. }
    { unfold s1, s0. cbn [dom]. rewrite Hdom. exact Hbn. }
    { exact Htn. }
    { exists pre, post. exact Hocc. }
    { rewrite Hchoose. exact Safe. }
    rewrite Hchoose in Hmark. unfold s1, s0 in Hstr, Htext.
    cbn [dom] in Hstr, Htext. rewrite Hdom in Hstr, Htext.
    assert (Hrestore :
              restoreHighlight B (randomUUID B)
                (generateXPath (dom (shown c)) (startContainer r))
                (createTextQuote (dom (shown c)) r) type s0
              = (Val true, s')).
    { unfold restoreHighlight.
      destruct (querySelector_safe B (Some (txt "mark")) (randomUUID B) s0
                  Safe) as (found & Q & Hfound).
      assert (found = None).
      { apply Hfound. unfold s0. cbn [dom]. rewrite Hdom. exact Hnomark. }
      subst found. rewrite (bind_val _ _ _ _ _ Q). unfold catch.
      assert (Ev : evaluate B
                     (generateXPath (dom (shown c)) (startContainer r)) s0
                   = (Val None, s0)).
      { replace (dom (shown c)) with (dom s0)
          by (unfold s0; cbn [dom]; exact Hdom).
        apply (evaluate_generated B s0 b (startContainer r) (Text ds));
          unfold s0; cbn [dom]; rewrite ?Hdom; auto. }
      rewrite (bind_val _ _ _ _ _ Ev).
      unfold bind at 1. unfold log at 1. fold s1. rewrite Hrun.
      reflexivity. }
    exists r', (mkPage (dom s') (console s' ++ [LogRestoreOk (randomUUID B)])).
    split; [|split; [|split; [|split; [|split]]]].
    + cbn [startAll]. unfold tryRestoreWithRetry. rewrite Hdom, Hb.
      unfold a at 1. cbn [annTextQuote].
      rewrite (textContentAt_elem _ _ _ Hbn Helem).
      change (exact (createTextQuote (dom (shown c)) r))
        with (rangeToString (dom (shown c)) r).
      rewrite (includes_occurrence _ _ pre post Hocc). cbn [negb].
      unfold onPage, bind, log. unfold a. cbn [annId annXpath annTextQuote
                                                annType].
      rewrite <- Hdom. rewrite <- Hdom in Hrestore. fold s0.
      rewrite Hrestore, Htm. reflexivity.
    + cbn [console]. apply in_or_app. left. exact Hlog.
    + exact Hstr.
    + cbn [console]. apply in_or_app. right. left. reflexivity.
    + exact Hmark.
    + exact Htext.
Qed.

Lemma annotation_survives_reload_witness :
  exists r' p',
    startAll plainBrowser
      [mkAnnotation (randomUUID plainBrowser)
         (generateXPath helloDoc [1; 0; 0])
         (createTextQuote helloDoc (mkRange [1; 0; 0] 2 [1; 0; 2] 3)) agree]
      (mkWindow 0 [] (mkPage helloDoc []))
    = (Val tt, mkWindow 0 [] p')
    /\ In (LogRange r') (console p')
    /\ rangeToString helloDoc r' = txt "llo big wo"
    /\ hasMarker (randomUUID plainBrowser) (dom p') = true.
Proof.
  destruct (annotation_survives_reload storingExtension plainBrowser agree
              helloComponent (mkRange [1; 0; 0] 2 [1; 0; 2] 3)
              (txt "Hello ") [1]
              (Elem (txt "body") None []
                 [Elem (txt "p") None []
                    [Text (txt "Hello ");
                     Elem (txt "b") None [] [Text (txt "big")];
                     Text (txt " world")]])
              (mkWindow 0 [] (mkPage helloDoc [])))
    as (_ & r' & p' & H1 & H2 & H3 & _ & H5 & _);
    try reflexivity; try discriminate.
  exists r', p'. split; [exact H1|]. split; [exact H2|].
  split; [exact H3 | exact H5].
Defined.

(* ================================================================== *)
(** ** restoreHighlight when the XPath resolves *)

Lemma locate_within (top : path) (topNode : node) (a len : nat) (s : page) :
  nodeAt (dom s) top = Some topNode -> isElem (dom s) = true ->
  textNodes topNode <> [] ->
  a + len <= length (descText topNode) ->
  exists r' ds,
    locate top a len s
    = (Val (Some r'), mkPage (dom s) (console s ++ [LogRange r']))
    /\ validRange (dom s) r' = true
    /\ rangeToString (dom s) r' = substring (descText topNode) a (a + len)
    /\ nodeAt (dom s) (startContainer r') = Some (Text ds)
    /\ startContainer r' <> []
    /\ (len = 0 -> inOneTextNode (dom s) r' = true)
    /\ isPrefixb top (startContainer r') = true
    /\ isPrefixb top (endContainer r') = true.
Proof.
  intros Htop Hne Htn Hlen.
  destruct (located_range (dom s) top topNode a len Htop Htn Hlen)
    as (p1 & o1 & p2 & o2 & d1 & d2 & F1 & F2 & N1 & N2 & O1 & O2 & Ord
        & Str & Same).
  exists (mkRange (top ++ p1) o1 (top ++ p2) o2), d1.
  split; [|split; [|split; [exact Str|split; [exact N1|split;
    [|split; [|split]]]]]].
  - unfold locate, bind, getDom, lift, log, ret, rangeBetween.
    rewrite Htop, F1, F2. cbn [fst snd]. rewrite N1, N2.
    cbn [nodeLength].
    destruct (Nat.ltb_spec (length d1) o1); [lia|].
    destruct (Nat.ltb_spec (length d2) o2); [lia|].
    apply negb_true_iff in Ord. rewrite Ord. reflexivity.
  - unfold validRange.
    cbn [startContainer endContainer startOffset endOffset].
    rewrite N1, N2. cbn [nodeLength].
    destruct (Nat.leb_spec o1 (length d1)); [|lia].
    destruct (Nat.leb_spec o2 (length d2)); [|lia].
    unfold bpCompare in *. rewrite isGt_antisym, Ord. reflexivity.
  - cbn [startContainer]. intro E. rewrite E in N1. cbn [nodeAt] in N1.
    injection N1 as N1. rewrite N1 in Hne. discriminate.
  - intro L. rewrite (Same L) in *. unfold inOneTextNode.
    cbn [startContainer endContainer].
    rewrite path_eqb_refl, N2. reflexivity.
  - apply isPrefixb_spec. exists p1. reflexivity.
  - apply isPrefixb_spec. exists p2. reflexivity.
Qed.

(** X19.  When the XPath of an annotation resolves to an element
    whose text holds the exact text, restoreHighlight does not search the
    text of the body: it highlights the first occurrence of the exact
    text inside that element.  For identifiers the selector can carry
    and no marker of the annotation in the document, it returns true and
    logs the restoration; the Range handed to highlightRange lies inside
    the element and has the exact text as its text; a marker of the
    annotation is in the document afterwards and the text of the
    document is what it was. *)
Theorem restoreHighlight_by_xpath (B : Browser) (id : str) (xp : xpath)
  (tq : TextQuote) (type : annotationType) (s : page) (top : path)
  (topNode : node) :
  selectorSafe id = true -> selectorSafe (chooseId B (Some id)) = true ->
  hasMarker id (dom s) = false -> isElem (dom s) = true ->
  evaluate B xp s = (Val (Some top), s) ->
  nodeAt (dom s) top = Some topNode -> isElem topNode = true ->
  textNodes topNode <> [] ->
  includes (descText topNode) (exact tq) = true ->
  exists r' s' evs,
    restoreHighlight B id xp tq type s = (Val true, s')
    /\ console s' = console s ++ LogRange r' :: evs ++ [LogRestored]
    /\ validRange (dom s) r' = true
    /\ rangeToString (dom s) r' = exact tq
    /\ isPrefixb top (startContainer r') = true
    /\ isPrefixb top (endContainer r') = true
    /\ hasMarker (chooseId B (Some id)) (dom s') = true
    /\ descText (dom s') = descText (dom s).
Proof.
  intros Safe Safe' Hnomark Hroot Hev Htop Helem Htn Hinc.
  unfold includes in Hinc.
  destruct (indexOf (exact tq) (descText topNode)) as [idx|] eqn:Ei;
    [|discriminate].
  pose proof Ei as Ei'.
  apply indexOf_sound in Ei' as (before & after & Eb & Hl).
  destruct (locate_within top topNode idx (length (exact tq)) s Htop Hroot Htn)
    as (r' & ds & Hloc & Hv & Hstr & Hn & Hne & Hzero & P1 & P2).
  { rewrite Eb, !length_app. lia. }
  assert (Hstr' : rangeToString (dom s) r' = exact tq).
  { rewrite Hstr, Eb, <- Hl. apply substring_at. }
  set (s1 := mkPage (dom s) (console s ++ [LogRange r'])) in *.
  destruct (highlightRange_returns B r' type (Some id) s1 ds Hv Hn Hne)
    as (m & s2 & Hhl & Hm & Ht & evs & Hc); [|exact Safe'|].
  { unfold s1. cbn [dom]. intros One E. rewrite Hstr' in E.
    rewrite Hzero in One; [discriminate|]. rewrite E. reflexivity. }
  exists r', (mkPage (dom s2) (console s2 ++ [LogRestored])), evs.
  split; [|split; [|split; [exact Hv|split; [exact Hstr'|split;
    [exact P1|split; [exact P2|split; [exact Hm | exact Ht]]]]]]].
  - unfold restoreHighlight.
    destruct (querySelector_safe B (Some (txt "mark")) id s Safe)
      as (found & Q & Hfound).
    assert (found = None) by (apply Hfound; exact Hnomark). subst found.
    rewrite (bind_val _ _ _ _ _ Q). unfold catch.
    rewrite (bind_val _ _ _ _ _ Hev).
    unfold bind at 1. unfold getDom at 1.
    rewrite (textContentAt_elem _ _ _ Htop Helem), Ei.
    rewrite (bind_val _ _ _ _ _ Hloc).
    rewrite (bind_val _ _ _ _ _ Hhl). reflexivity.
  - cbn [console]. rewrite Hc. unfold s1. cbn [console].
    rewrite <- !app_assoc. reflexivity.
Qed.

Lemma restoreHighlight_by_xpath_witness :
  exists r' s' evs,
    restoreHighlight plainBrowser (txt "a1")
      [(txt "html", 1); (txt "body", 1); (txt "p", 1); (txt "b", 1)]
      (mkTextQuote (txt "ig") [] []) agree (mkPage helloDoc [])
    = (Val true, s')
    /\ console s' = LogRange r' :: evs ++ [LogRestored]
    /\ rangeToString helloDoc r' = txt "ig"
    /\ isPrefixb [1; 0; 1] (startContainer r') = true.
Proof.
  destruct (restoreHighlight_by_xpath plainBrowser (txt "a1")
              [(txt "html", 1); (txt "body", 1); (txt "p", 1); (txt "b", 1)]
              (mkTextQuote (txt "ig") [] []) agree (mkPage helloDoc [])
              [1; 0; 1] (Elem (txt "b") None [] [Text (txt "big")]))
    as (r' & s' & evs & H1 & H2 & _ & H4 & H5 & _);
    try reflexivity; try discriminate.
  exists r', s', evs. split; [exact H1|]. split; [exact H2|].
  split; [exact H4 | exact H5].
Defined.

(* ================================================================== *)
(** ** highlightRange on a range inside one text node *)

Lemma surroundText_markTexts_le (type : annotationType) (id : str)
  (a b : nat) (d : str) (put : list node) :
  a <= b ->
  surroundText (markElement type id) a b (Text d) = Val put ->
  concat (map (markTexts (hasGogoId id)) put) = [substring d a b].
Proof.
  intros Hab H. destruct (Nat.eq_dec a b) as [->|Hne].
  - unfold surroundText in H.
    destruct (length d <? b); [discriminate|]. injection H as <-.
    rewrite Nat.min_id, Nat.ltb_irrefl.
    cbn [map concat markTexts app]. unfold markElement at 1.
    rewrite markTexts_Elem.
    change (Elem (txt "mark") (Some id)
              (txt "gogo-highlight-" ++ typeName type) [])
      with (markElement type id []).
    rewrite hasGogoId_mark. unfold markElement, substring.
    rewrite Nat.sub_diag. cbn. reflexivity.
  - apply (surroundText_markTexts type id a b d put); [lia | exact H].
Qed.

Lemma wrap_markRef_text (mark : list node -> node) (a b : nat) (p : path) :
  p <> [] ->
  forall (n n' : node) (d : str),
    editAt p (surroundText mark a b) n = Val [n'] ->
    nodeAt n p = Some (Text d) ->
    exists content,
      nodeAt n' (markRef p) = Some (mark content)
      /\ concat (map descText content) = substring d (Nat.min a b) b.
Proof.
  induction p as [|i p IH]; intros Hp n n' d He Hn; [congruence|].
  destruct n as [d0|d0|t g c ks]; try discriminate.
  rewrite editAt_cons in He. cbn [nodeAt kids] in Hn.
  destruct (nth_error ks i) as [k|] eqn:Hk; [|discriminate].
  destruct (editAt p (surroundText mark a b) k) as [sub|] eqn:E;
    [|discriminate].
  assert (En : n' = Elem t g c (firstn i ks ++ sub ++ skipn (S i) ks))
    by congruence.
  subst n'. clear He.
  apply nth_error_split in Hk as (l1 & l2 & -> & <-).
  rewrite firstn_before, skipn_after.
  destruct p as [|i' p].
  - cbn [editAt nodeAt] in E, Hn. injection Hn as ->.
    apply surroundText_inv in E as (d1 & content & Ed & -> & Hc & _).
    injection Ed as <-.
    exists content. split; [|exact Hc].
    unfold markRef. cbn [removelast last app nodeAt kids].
    rewrite nth_error_app2 by lia.
    replace (S (length l1) - length l1) with 1 by lia. reflexivity.
  - assert (Hsub : exists k', sub = [k']).
    { destruct k as [d1|d1|t1 g1 c1 ks1]; try discriminate.
      rewrite editAt_cons in E.
      destruct (nth_error ks1 i'); [|discriminate].
      destruct (editAt p _ _); [|discriminate].
      eexists. injection E as <-. reflexivity. }
    destruct Hsub as (k' & ->).
    destruct (IH ltac:(discriminate) k k' d E Hn) as (content & Hc & Ht).
    exists content. split; [|exact Ht].
    rewrite markRef_cons. cbn [nodeAt kids app].
    rewrite nth_error_middle. exact Hc.
Qed.

(** X20.  A valid range that lies inside one text node gives no
    tuple: highlightRange logs that no text node was found and takes the
    degraded path, which wraps the selected part of that node.  It
    returns the marker, which stands right after the first part of the
    split text node and holds the text of the range; with an identifier
    no element had, that text is the only text under the identifier; the
    text of the document is what it was.  No selector is involved, so
    this holds for every identifier. *)
Theorem highlightRange_single_node (B : Browser) (r : range)
  (type : annotationType) (customId : option str) (s : page) :
  validRange (dom s) r = true -> inOneTextNode (dom s) r = true ->
  isElem (dom s) = true ->
  carriesId (chooseId B customId) (dom s) = false ->
  exists root' content,
    highlightRange B r type customId s
    = (Val (Some (markRef (startContainer r))),
       mkPage root'
         (console s ++ [LogFragments 0; ErrNoTextNodes; WarnLegacy;
                        LogLegacySurround]))
    /\ nodeAt root' (markRef (startContainer r))
       = Some (markElement type (chooseId B customId) content)
    /\ concat (map descText content) = rangeToString (dom s) r
    /\ markTexts (hasGogoId (chooseId B customId)) root'
       = [rangeToString (dom s) r]
    /\ descText root' = descText (dom s).
Proof.
  intros Hv One Hroot Hfresh.
  set (id := chooseId B customId) in *.
  pose proof One as One'. unfold inOneTextNode in One'.
  apply andb_prop in One' as [E T]. apply path_eqb_eq in E.
  destruct (nodeAt (dom s) (startContainer r)) as [[ds|ds|t g c ks]|] eqn:Hn;
    try discriminate.
  assert (Hne : startContainer r <> []).
  { intro E0. rewrite E0 in Hn. cbn [nodeAt] in Hn. injection Hn as Hn.
    rewrite Hn in Hroot. discriminate. }
  destruct (valid_same_node (dom s) r ds Hv E Hn) as [Hso Heo].
  destruct (surroundText_ok (markElement type id) (startOffset r)
              (endOffset r) ds ltac:(lia) Heo) as (put & Hput).
  destruct (editDocument_ok _ (startContainer r) (dom s) (Text ds) put
              Hn Hput Hne) as (root' & Hed & Hea).
  destruct (wrap_effect type id _ _ _ _ _ Hed) as (Ht & _ & _).
  destruct (wrap_markRef_text _ _ _ _ Hne _ _ ds Hea Hn)
    as (content & Hm & Hc).
  assert (Hstr : rangeToString (dom s) r
                 = substring ds (startOffset r) (endOffset r)).
  { unfold rangeToString. rewrite <- E, Hn, path_eqb_refl. reflexivity. }
  exists root', content.
  split; [|split; [exact Hm|split; [|split; [|exact Ht]]]].
  - rewrite highlightRange_unfold. cbv zeta. fold id.
    rewrite (inOneTextNode_no_tuples _ _ One).
    unfold highlightRangeLegacy, bind, log, catch, surroundContents, ret.
    cbn [dom console length]. rewrite One, Hed. cbn [dom console].
    rewrite <- !app_assoc. reflexivity.
  - rewrite Hc, Hstr. f_equal. lia.
  - pose proof (editAt_markTexts (hasGogoId id)
                  (surroundText (markElement type id) (startOffset r)
                                (endOffset r))
                  (startContainer r) (shallow_hasGogoId id)
                  (surroundText_text type id (startOffset r) (endOffset r))
                  (dom s) (Text ds) [root'] put Hea Hn Hput eq_refl) as P.
    rewrite (surroundText_markTexts_le type id _ _ ds put Hso Hput) in P.
    rewrite (markTexts_none _ _ Hfresh) in P.
    cbn [map concat app] in P. rewrite app_nil_r in P.
    apply Permutation_sym, Permutation_length_1_inv in P.
    rewrite P, Hstr. reflexivity.
Qed.

Lemma highlightRange_single_node_witness :
  exists root' content,
    highlightRange plainBrowser (mkRange [1; 0; 0] 1 [1; 0; 0] 4) question
      (Some brokenId) (mkPage helloDoc [])
    = (Val (Some [1; 0; 1]),
       mkPage root' [LogFragments 0; ErrNoTextNodes; WarnLegacy;
                      LogLegacySurround])
    /\ nodeAt root' [1; 0; 1] = Some (markElement question brokenId content)
    /\ markTexts (hasGogoId brokenId) root' = [txt "ell"].
Proof.
  destruct (highlightRange_single_node plainBrowser
              (mkRange [1; 0; 0] 1 [1; 0; 0] 4) question (Some brokenId)
              (mkPage helloDoc []))
    as (root' & content & H1 & H2 & _ & H4 & _);
    try reflexivity.
  exists root', content. split; [exact H1|]. split; [exact H2 | exact H4].
Defined.

(* ================================================================== *)
(** ** What removeHighlight leaves of the other annotations *)

Lemma list_sum_cons (x : nat) (l : list nat) :
  list_sum (x :: l) = x + list_sum l.
Proof. reflexivity. Qed.

Lemma list_sum_single (x : nat) : list_sum [x] = x.
Proof. cbn. lia. Qed.

Lemma countElem_Elem (g : node -> bool) t a c ks :
  countElem g (Elem t a c ks)
  = (if g (Elem t a c ks) then 1 else 0) + list_sum (map (countElem g) ks).
Proof. reflexivity. Qed.

Lemma countOutside_Elem (f g : node -> bool) t a c ks :
  countOutside f g (Elem t a c ks)
  = if f (Elem t a c ks) then 0
    else (if g (Elem t a c ks) then 1 else 0)
         + list_sum (map (countOutside f g) ks).
Proof. reflexivity. Qed.

Lemma countElem_strip (f g : node -> bool) (n : node) :
  shallow g -> countElem g (strip f n) = countOutside f g n.
Proof.
  intro Hg. induction n as [d|d|t a c ks IH] using node_ind; try reflexivity.
  rewrite countOutside_Elem. cbn [strip].
  destruct (f (Elem t a c ks)); [reflexivity|].
  rewrite countElem_Elem, (Hg t a c (map (strip f) ks) ks). f_equal.
  rewrite map_map. f_equal.
  induction IH as [|k ks Hk _ IHks]; [reflexivity|].
  cbn [map]. rewrite Hk, IHks. reflexivity.
Qed.

Lemma countOutside_le (f g : node -> bool) (n : node) :
  countOutside f g n <= countElem g n.
Proof.
  induction n as [d|d|t a c ks IH] using node_ind; try (cbn; lia).
  rewrite countOutside_Elem, countElem_Elem.
  destruct (f (Elem t a c ks)); [lia|].
  apply Nat.add_le_mono_l.
  induction IH as [|k ks Hk _ IHks]; [cbn; lia|].
  cbn [map]. rewrite !list_sum_cons. lia.
Qed.

Lemma countElem_mergeText (g : node -> bool) (l : list node) :
  list_sum (map (countElem g) (mergeText l))
  = list_sum (map (countElem g) l).
Proof.
  induction l as [|k l IH]; [reflexivity|].
  destruct k as [d|d|t a c ks].
  - cbn [mergeText map]. rewrite list_sum_cons, <- IH.
    destruct (mergeText l) as [|[d'|d'|t a c ks] r];
      destruct d; reflexivity.
  - cbn [mergeText map]. rewrite !list_sum_cons, IH. reflexivity.
  - cbn [mergeText map]. rewrite !list_sum_cons, IH. reflexivity.
Qed.

Lemma countElem_normalize (g : node -> bool) (n : node) :
  shallow g -> countElem g (normalize n) = countElem g n.
Proof.
  intro Hg. induction n as [d|d|t a c ks IH] using node_ind; try reflexivity.
  cbn [normalize]. rewrite !countElem_Elem.
  rewrite (Hg t a c (mergeText (map normalize ks)) ks). f_equal.
  rewrite countElem_mergeText, map_map. f_equal.
  induction IH as [|k ks Hk _ IHks]; [reflexivity|].
  cbn [map]. rewrite Hk, IHks. reflexivity.
Qed.

Lemma editAt_count (g : node -> bool) (h : node -> res (list node))
  (p : path) :
  shallow g ->
  (forall target put, h target = Val put ->
                      list_sum (map (countElem g) put) = countElem g target) ->
  forall (n : node) (new : list node),
    editAt p h n = Val new ->
    list_sum (map (countElem g) new) = countElem g n.
Proof.
  intros Hg Hh. induction p as [|i p IH]; intros n new He.
  - cbn [editAt] in He. apply Hh, He.
  - destruct n as [d|d|t a c ks]; try discriminate.
    rewrite editAt_cons in He.
    destruct (nth_error ks i) as [k|] eqn:Hk; [|discriminate].
    destruct (editAt p h k) as [sub|] eqn:E; [|discriminate].
    assert (En : new = [Elem t a c (firstn i ks ++ sub ++ skipn (S i) ks)])
      by congruence.
    subst new. clear He.
    apply nth_error_split in Hk as (l1 & l2 & -> & <-).
    rewrite firstn_before, skipn_after.
    cbn [map]. rewrite list_sum_single, !countElem_Elem.
    rewrite (Hg t a c (l1 ++ sub ++ l2) (l1 ++ k :: l2)). f_equal.
    rewrite !map_app, !list_sum_app. cbn [map].
    rewrite list_sum_cons, (IH k sub E). reflexivity.
Qed.

(** X21.  removeHighlight takes away the elements that carry the
    identifier and what is inside them, and no other element: for an
    identifier the selector can carry, carried by some element but not by
    the root element or the body, the elements that carry another
    identifier afterwards are as many as those that carried it before
    outside the elements removed.  A marker of another annotation is
    lost only when it was inside a marker of the annotation removed. *)
Theorem removeHighlight_keeps_others (B : Browser) (id : str) (s : page)
  (b : path) :
  selectorSafe id = true ->
  hasGogoId id (dom s) = false -> bodyKept id b (dom s) ->
  carriesId id (dom s) = true ->
  exists s',
    removeHighlight B id s = (Val tt, s')
    /\ (forall id',
          countElem (hasGogoId id') (dom s')
          = countOutside (hasGogoId id) (hasGogoId id') (dom s)
          /\ countElem (hasGogoId id') (dom s')
             <= countElem (hasGogoId id') (dom s))
    /\ countElem (hasGogoId id) (dom s') = 0.
Proof.
  intros Safe Hroot Hb Hc.
  destruct (removeHighlight_strip B id s b Safe Hroot Hb)
    as (s' & Hrun & _ & _ & Hed).
  specialize (Hed Hc). apply editDocument_inv in Hed.
  exists s'. split; [exact Hrun|].
  assert (Hcount : forall id',
             countElem (hasGogoId id') (dom s')
             = countOutside (hasGogoId id) (hasGogoId id') (dom s)).
  { intro id'.
    pose proof (editAt_count (hasGogoId id') (fun n => Val [normalize n]) b
                  (shallow_hasGogoId id')
                  ltac:(intros tg put Hp; injection Hp as <-;
                        cbn [map]; rewrite list_sum_single;
                        apply countElem_normalize, shallow_hasGogoId)
                  _ _ Hed) as C.
    cbn [map] in C. rewrite list_sum_single in C.
    rewrite C. apply countElem_strip, shallow_hasGogoId. }
  split.
  - intro id'. split; [apply Hcount|].
    rewrite Hcount. apply countOutside_le.
  - rewrite Hcount. clear.
    induction (dom s) as [d|d|t a c ks IH] using node_ind; try reflexivity.
    rewrite countOutside_Elem.
    destruct (hasGogoId id (Elem t a c ks)); [reflexivity|].
    cbn [Nat.add].
    induction IH as [|k ks Hk _ IHks]; [reflexivity|].
    cbn [map]. rewrite list_sum_cons, Hk, IHks. reflexivity.
Qed.

Lemma removeHighlight_keeps_others_witness :
  exists s',
    removeHighlight plainBrowser (txt "a1") (mkPage markedDoc []) = (Val tt, s')
    /\ countElem (hasGogoId (txt "b2")) markedDoc = 2
    /\ countElem (hasGogoId (txt "b2")) (dom s') = 1.
Proof.
  destruct (removeHighlight_keeps_others plainBrowser (txt "a1")
              (mkPage markedDoc []) [1])
    as (s' & Hrun & Hcount & _).
  - reflexivity.
  - reflexivity.
  - split; [reflexivity|]. eexists. split; reflexivity.
  - reflexivity.
  - exists s'. split; [exact Hrun|]. split; [reflexivity|].
    rewrite (proj1 (Hcount (txt "b2"))). reflexivity.
Defined.

(* ================================================================== *)
(** ** What highlightRange and restoreHighlight leave alone *)

Lemma keeps_ret {A} (P : node -> Prop) (a : A) : keeps P (ret a).
Proof. intros s H. exact H. Qed.

Lemma keeps_throw {A} (P : node -> Prop) (e : exn) : keeps P (@throw A e).
Proof. intros s H. exact H. Qed.

Lemma keeps_log (P : node -> Prop) (ev : event) : keeps P (log ev).
Proof. intros s H. exact H. Qed.

Lemma keeps_same {A} (P : node -> Prop) (m : M A) :
  (forall s, snd (m s) = s) -> keeps P m.
Proof. intros Hm s H. rewrite Hm. exact H. Qed.

Lemma keeps_bind {A C} (P : node -> Prop) (m : M A) (k : A -> M C) :
  keeps P m -> (forall a, keeps P (k a)) -> keeps P (bind m k).
Proof.
  intros Hm Hk s H. unfold bind. specialize (Hm s H).
  destruct (m s) as [[a|e] s1]; cbn [snd] in *; [apply Hk, Hm | exact Hm].
Qed.

Lemma keeps_catch {A} (P : node -> Prop) (m : M A) (h : exn -> M A) :
  keeps P m -> (forall e, keeps P (h e)) -> keeps P (catch m h).
Proof.
  intros Hm Hh s H. unfold catch. specialize (Hm s H).
  destruct (m s) as [[a|e] s1]; cbn [snd] in *; [exact Hm | apply Hh, Hm].
Qed.

Lemma theBody_state (s : page) : snd (theBody s) = s.
Proof. unfold theBody. destruct (body (dom s)); reflexivity. Qed.

Lemma locate_dom (top : path) (a len : nat) (s : page) :
  dom (snd (locate top a len s)) = dom s.
Proof.
  unfold locate, bind, getDom, throw, log, ret, lift.
  destruct (nodeAt (dom s) top) as [topNode|]; [|reflexivity].
  destruct (findTextNodeAtOffset topNode a) as [si|]; [|reflexivity].
  destruct (findTextNodeAtOffset topNode (a + len)) as [ei|]; [|reflexivity].
  destruct (rangeBetween _ _ _ _ _); reflexivity.
Qed.

Lemma findTextNodeAtOffset_bound (n : node) (target : nat) (r : path * nat) :
  findTextNodeAtOffset n target = Some r ->
  textNodes n <> [] /\ target <= length (descText n).
Proof.
  rewrite findTextNodeAtOffset_scan. intro H. split.
  - intro E. rewrite E in H. discriminate.
  - destruct (Nat.le_gt_cases target (length (descText n))) as [L|G];
      [exact L|].
    rewrite scan_past in H; [discriminate|].
    rewrite <- descText_textNodes. exact G.
Qed.

(** The Range the restoration builds lies inside one text node or has a
    tuple: highlightRange wraps text nodes for it. *)
Lemma locate_kind (top : path) (a len : nat) (s s1 : page) (r : range) :
  locate top a len s = (Val (Some r), s1) ->
  inOneTextNode (dom s) r = true \/ getTextNodesInRange (dom s) r <> [].
Proof.
  intro H. unfold locate in H. unfold bind at 1 in H.
  unfold getDom at 1 in H.
  destruct (nodeAt (dom s) top) as [topNode|] eqn:Htop; [|discriminate].
  destruct (findTextNodeAtOffset topNode a) as [[p1 o1]|] eqn:F1;
    [|discriminate].
  destruct (findTextNodeAtOffset topNode (a + len)) as [[p2 o2]|] eqn:F2;
    [|discriminate].
  destruct (findTextNodeAtOffset_bound _ _ _ F2) as [Htn Hlen].
  destruct (located_range (dom s) top topNode a len Htop Htn Hlen)
    as (q1 & u1 & q2 & u2 & d1 & d2 & G1 & G2 & N1 & N2 & O1 & O2 & Ord
        & Str & Same).
  assert (q1 = p1 /\ u1 = o1) as [-> ->] by (split; congruence).
  assert (q2 = p2 /\ u2 = o2) as [-> ->] by (split; congruence).
  cbn [fst snd] in H.
  assert (Er : r = mkRange (top ++ p1) o1 (top ++ p2) o2).
  { unfold bind, lift, log, ret, rangeBetween in H.
    rewrite N1, N2 in H. cbn [nodeLength] in H.
    destruct (Nat.ltb_spec (length d1) o1); [lia|].
    destruct (Nat.ltb_spec (length d2) o2); [lia|].
    apply negb_true_iff in Ord. rewrite Ord in H. congruence. }
  assert (Hv : validRange (dom s) r = true).
  { rewrite Er. unfold validRange.
    cbn [startContainer endContainer startOffset endOffset].
    rewrite N1, N2. cbn [nodeLength].
    destruct (Nat.leb_spec o1 (length d1)); [|lia].
    destruct (Nat.leb_spec o2 (length d2)); [|lia].
    unfold bpCompare in *. rewrite isGt_antisym, Ord. reflexivity. }
  destruct (inOneTextNode (dom s) r) eqn:One; [left; reflexivity|].
  right. intro E.
  pose proof (tuples_text (dom s) r Hv One) as T.
  rewrite E in T. cbn [map concat] in T.
  rewrite Er in T, One. rewrite Str in T.
  destruct len as [|len].
  - rewrite (Same eq_refl) in *. unfold inOneTextNode in One.
    cbn [startContainer endContainer] in One.
    rewrite path_eqb_refl, N2 in One. discriminate.
  - apply (f_equal (@length _)) in T. cbn [length] in T.
    unfold substring in T. rewrite length_firstn, length_skipn in T. lia.
Qed.

(** The search for a stretch of text followed by its highlight. *)
Lemma keeps_locate_highlight (P : node -> Prop) (B : Browser)
  (type : annotationType) (cid : option str) (top : path) (a len : nat)
  (k : option path -> M bool) :
  wrapStable P type (chooseId B cid) ->
  (forall mark, keeps P (k mark)) ->
  keeps P (found <- locate top a len ;;
           match found with
           | None => ret false
           | Some r => mark <- highlightRange B r type cid ;; k mark
           end).
Proof.
  intros Hw Hk s HP. unfold bind at 1.
  pose proof (locate_dom top a len s) as Hd.
  destruct (locate top a len s) as [[[r|]|e] s1] eqn:El; cbn [snd] in Hd.
  - pose proof (locate_kind top a len s s1 r El) as Hkind.
    rewrite <- Hd in Hkind, HP.
    pose proof (highlightRange_preserves P B r type cid s1 Hw Hkind HP) as H1.
    unfold bind.
    destruct (highlightRange B r type cid s1) as [[mark|e] s2];
      cbn [snd] in *; [apply Hk, H1 | exact H1].
  - cbn [ret snd]. rewrite Hd. exact HP.
  - cbn [snd]. rewrite Hd. exact HP.
Qed.

Lemma keeps_findAndHighlightText (P : node -> Prop) (B : Browser)
  (text id : str) (type : annotationType) (start : nat) :
  wrapStable P type (chooseId B (Some id)) ->
  keeps P (findAndHighlightText B text id type start).
Proof.
  intro Hw. unfold findAndHighlightText. apply keeps_catch.
  - apply keeps_bind; [apply keeps_same, theBody_state|].
    intro b. apply keeps_locate_highlight; [exact Hw|].
    intros [m|]; [apply keeps_ret|].
    apply keeps_bind; [apply keeps_log | intros; apply keeps_ret].
  - intro e. apply keeps_bind; [apply keeps_log | intros; apply keeps_ret].
Qed.

Lemma keeps_restoreByTextQuote (P : node -> Prop) (B : Browser)
  (id : str) (tq : TextQuote) (type : annotationType) :
  wrapStable P type (chooseId B (Some id)) ->
  keeps P (restoreByTextQuote B id tq type).
Proof.
  intro Hw. unfold restoreByTextQuote.
  apply keeps_bind; [apply keeps_same, theBody_state|]. intro b.
  apply keeps_bind; [apply keeps_same; reflexivity|]. intro root.
  destruct (indexOf _ _).
  - apply keeps_findAndHighlightText, Hw.
  - apply keeps_bind; [apply keeps_log|]. intros _.
    destruct (indexOf _ _).
    + apply keeps_bind; [apply keeps_log|]. intros _.
      apply keeps_findAndHighlightText, Hw.
    + apply keeps_bind; [apply keeps_log | intros; apply keeps_ret].
Qed.

Lemma keeps_restoreHighlight (P : node -> Prop) (B : Browser)
  (id : str) (xp : xpath) (tq : TextQuote) (type : annotationType) :
  wrapStable P type (chooseId B (Some id)) ->
  keeps P (restoreHighlight B id xp tq type).
Proof.
  intro Hw. unfold restoreHighlight.
  apply keeps_bind; [apply keeps_same, querySelector_state|].
  intros [m|].
  - apply keeps_bind; [apply keeps_log | intros; apply keeps_ret].
  - apply keeps_catch.
    + apply keeps_bind; [apply keeps_same, evaluate_state|].
      intros [nodeRef|].
      * apply keeps_bind; [apply keeps_same; reflexivity|]. intro root.
        destruct (indexOf _ _).
        -- apply keeps_locate_highlight; [exact Hw|].
           intros [mk|]; [|apply keeps_throw].
           apply keeps_bind; [apply keeps_log | intros; apply keeps_ret].
        -- apply keeps_bind; [apply keeps_log|]. intros _.
           apply keeps_restoreByTextQuote, Hw.
      * apply keeps_bind; [apply keeps_log|]. intros _.
        apply keeps_restoreByTextQuote, Hw.
    + intro e. apply keeps_bind; [apply keeps_log | intros; apply keeps_ret].
Qed.

(** A wrap keeps the text and the number of the elements it does not
    make. *)
Lemma wrapStable_others (g : node -> bool) (root0 : node)
  (type : annotationType) (id : str) :
  shallow g -> (forall content, g (markElement type id content) = false) ->
  wrapStable (fun n => descText n = descText root0
                       /\ countElem g n = countElem g root0) type id.
Proof.
  intros Hg Hmark p a b root root' Hed [Ht Hc].
  destruct (wrap_effect type id p a b root root' Hed) as (T & _ & _).
  split; [congruence|]. rewrite <- Hc.
  apply editDocument_inv in Hed.
  assert (Hh : forall target put,
             surroundText (markElement type id) a b target = Val put ->
             list_sum (map (countElem g) put) = countElem g target).
  { intros target put Hp.
    unfold surroundText in Hp. destruct target as [d|d|t g0 c ks];
      try discriminate.
    destruct (length d <? a); [discriminate|].
    destruct (length d <? b); [discriminate|].
    injection Hp as <-. cbn [map]. rewrite !list_sum_cons.
    unfold markElement at 1. rewrite countElem_Elem.
    fold (markElement type id
            (if Nat.min a b <? b
             then [Text (substring d (Nat.min a b) b)] else [])).
    rewrite Hmark. destruct (Nat.min a b <? b); reflexivity. }
  pose proof (editAt_count g _ p Hg Hh root [root'] Hed) as C.
  cbn [map] in C. rewrite list_sum_single in C. exact C.
Qed.

(** X22.  highlightRange adds markers of its own annotation and touches
    nothing else: for a range inside one text node or with a text node in
    it, whatever the outcome, the text of the document is the same
    afterwards and so is the number of elements of every kind that the
    new marker is not of; other annotations keep all their markers. *)
Theorem highlightRange_keeps_others (B : Browser) (r : range)
  (type : annotationType) (customId : option str) (s : page)
  (g : node -> bool) :
  shallow g ->
  (forall content,
     g (markElement type (chooseId B customId) content) = false) ->
  inOneTextNode (dom s) r = true \/ getTextNodesInRange (dom s) r <> [] ->
  descText (dom (snd (highlightRange B r type customId s)))
  = descText (dom s)
  /\ countElem g (dom (snd (highlightRange B r type customId s)))
     = countElem g (dom s).
Proof.
  intros Hg Hmark Hkind.
  apply (highlightRange_preserves
           (fun n => descText n = descText (dom s)
                     /\ countElem g n = countElem g (dom s))
           B r type customId s).
  - apply wrapStable_others; assumption.
  - exact Hkind.
  - split; reflexivity.
Qed.

Lemma highlightRange_keeps_others_witness :
  countElem (hasGogoId (txt "b2"))
    (dom (snd (highlightRange plainBrowser (mkRange [1; 0; 0] 1 [1; 0; 0] 4)
                 question (Some (txt "c3")) (mkPage markedDoc []))))
  = 2.
Proof.
  rewrite (proj2 (highlightRange_keeps_others plainBrowser
                    (mkRange [1; 0; 0] 1 [1; 0; 0] 4) question
                    (Some (txt "c3")) (mkPage markedDoc [])
                    (hasGogoId (txt "b2"))
                    ltac:(intros t g c ks ks'; reflexivity)
                    ltac:(intro content; reflexivity)
                    ltac:(left; reflexivity))).
  reflexivity.
Defined.

(** X23.  restoreHighlight never damages the page, whatever is stored for
    the annotation: for every document, XPath and text quote, and whether
    it restores, falls back to the text search, gives up or catches an
    error, the text of the document is the same afterwards and so is the
    number of elements of every kind that a marker of this annotation is
    not of. *)
Theorem restoreHighlight_harmless (B : Browser) (id : str) (xp : xpath)
  (tq : TextQuote) (type : annotationType) (s : page) (g : node -> bool) :
  shallow g ->
  (forall content,
     g (markElement type (chooseId B (Some id)) content) = false) ->
  descText (dom (snd (restoreHighlight B id xp tq type s)))
  = descText (dom s)
  /\ countElem g (dom (snd (restoreHighlight B id xp tq type s)))
     = countElem g (dom s).
Proof.
  intros Hg Hmark.
  apply (keeps_restoreHighlight
           (fun n => descText n = descText (dom s)
                     /\ countElem g n = countElem g (dom s))
           B id xp tq type).
  - apply wrapStable_others; assumption.
  - split; reflexivity.
Qed.

Lemma restoreHighlight_harmless_witness :
  countElem (hasGogoId (txt "b2"))
    (dom (snd (restoreHighlight plainBrowser (txt "c3")
                 [(txt "html", 1); (txt "body", 1); (txt "p", 1)]
                 (mkTextQuote (txt "Hello") [] []) agree
                 (mkPage markedDoc []))))
  = 2.
Proof.
  rewrite (proj2 (restoreHighlight_harmless plainBrowser (txt "c3")
                    [(txt "html", 1); (txt "body", 1); (txt "p", 1)]
                    (mkTextQuote (txt "Hello") [] []) agree
                    (mkPage markedDoc []) (hasGogoId (txt "b2"))
                    ltac:(intros t g c ks ks'; reflexivity)
                    ltac:(intro content; reflexivity))).
  reflexivity.
Defined.

(* ================================================================== *)
(** ** The wrap loop of highlightRange, tuple by tuple *)








Lemma wrapLog_all (root : node) (l : list textNodeRange) (index : nat) :
  (forall f, In f l -> fits root f = true) ->
  wrapLog root index l = map LogMarkCreated (seq (index + 1) (length l))
  /\ filter (fits root) l = l.
Proof.
  revert index. induction l as [|f rest IH]; intros index Hall;
    [split; reflexivity|].
  cbn [wrapLog filter length seq map].
  rewrite (Hall f (or_introl eq_refl)).
  destruct (IH (S index) (fun x Hx => Hall x (or_intror Hx))) as [-> ->].
  replace (S index + 1) with (S (index + 1)) by lia.
  split; reflexivity.
Qed.




(* ================================================================== *)
(** ** Polling loops side by side *)

(** *** What a restoration writes to the console *)












Section Quiet.

Variable id : str.









End Quiet.

(** *** What a restoration leaves of the text of the body *)





(** *** One callback, seen from another annotation *)






(** *** The loop of one annotation among the others *)



Section OneLoop.

Variables (B : Browser) (host : nat -> node -> node).
Variables (a : GOGOAnnotation) (before : list event).
Hypothesis Hhost : forall t root, absentIn a root -> absentIn a (host t root).




End OneLoop.







